(** * Pricing pipeline: daily price resolver, snapshot normalizer, sale-comp rollup

    A shallow embedding of the SQL that the scripts under [scripts/pricing]
    send to the store, and of the JavaScript that assembles and runs it.

    Tables are lists of rows: the snapshot table has no unique index, so
    duplicates can exist and the order in which the executor presents rows
    is observable wherever an ORDER BY leaves ties.  The order of a list is
    the order in which the executor presents the rows.

    Columns that every writer of the repository fills ([source],
    [value_cents], [sold_price_usd], [sold_at], [grade], ...) are not
    nullable here; [condition], which the normalizer writes as NULL, is. *)

From Stdlib Require Import ZArith QArith Qround Qabs Lqa.
From Stdlib Require Import List String Ascii Bool Lia Permutation Sorted.
From Corelib Require PrimFloat PrimInt63.
Import ListNotations.
Open Scope string_scope.
Open Scope Z_scope.
Open Scope list_scope.

(** ** Data model *)

(** A [date] value, as a day number; date literals are taken after their
    [::date] cast. *)
Abbreviation Date := Z (only parsing).

(** Identifier of a [market_items] row. *)
Abbreviation ItemId := Z (only parsing).

(** The part of a jsonb value the queries read: scalars and flat objects.
    A number carries the text that [->>] returns for it. *)
Inductive jscalar :=
| JNull
| JBool (b : bool)
| JNumber (txt : string)
| JString (s : string).

Inductive jsonb :=
| JScalar (v : jscalar)
| JObject (fields : list (string * jscalar)).

(** The [raw] column.  The normalizer writes
    [jsonb_build_object('prices', prices, 'key', k)]; rows of other
    importers carry a payload this development never opens. *)
Inductive RawPayload :=
| RawScryfall (prices : jsonb) (key : string)
| RawOther (txt : string).

(** Modelled from the spec: the declaration of
    [public.market_price_snapshots] is not among the sources.  A row has the
    columns the statements name: item identifier, source name, observation
    date, currency code, price-type tag, optional condition, value in
    integer minor-currency units (never NULL), raw payload. *)
Record Snapshot := mkSnapshot {
  market_item_id : ItemId;
  source : string;
  as_of_date : Date;
  currency : string;
  price_type : string;
  condition : option string;
  value_cents : Z;
  raw : RawPayload
}.

(** A row of the [best] CTE, which is what the upsert writes into
    [public.market_price_daily] (next to [updated_at = now()]);
    [sources_used] is the one-element array the CTE builds. *)
Record SourceUsed := mkSourceUsed {
  su_source : string;
  su_price_type : string;
  su_condition : option string;
  su_value_cents : Z
}.

Record DailyPrice := mkDailyPrice {
  dp_market_item_id : ItemId;
  dp_as_of_date : Date;
  dp_currency : string;
  dp_value_cents : Z;
  dp_confidence : Z;
  dp_sources_used : list SourceUsed;
  dp_method : string
}.

(** ** 03_build_market_price_daily.js *)

Module Resolver.

(** The locals of [main] after [parseArgs]: an absent option is [None]. *)
Record Args := mkArgs {
  arg_currency : option string;
  arg_date : option Date;
  arg_all_dates : bool;
  arg_since : option Date;
  arg_until : option Date
}.

(** [s.toUpperCase()] on a text of code units below 256: the letters a to
    z and the small letters from U+00E0 to U+00FE, but for the division
    sign, become their capitals, and the sharp s becomes SS.  The capitals
    of the micro sign and of y with diaeresis lie above U+00FF: a text with
    one of them has no upper case among the texts of code units below 256
    ([upper_in_range] is false of it, and [where_sql] then selects no row);
    the function leaves the two letters as they are. *)
Definition upper_unit (c : ascii) : string :=
  let n := nat_of_ascii c in
  if (Nat.leb 97 n && Nat.leb n 122)
     || (Nat.leb 224 n && Nat.leb n 254 && negb (Nat.eqb n 247))
  then String (ascii_of_nat (n - 32)) EmptyString
  else if Nat.eqb n 223 then "SS"
  else String c EmptyString.

Fixpoint toUpperCase (s : string) : string :=
  match s with
  | EmptyString => EmptyString
  | String c r => String.append (upper_unit c) (toUpperCase r)
  end.

Fixpoint upper_in_range (s : string) : bool :=
  match s with
  | EmptyString => true
  | String c r =>
      negb (Nat.eqb (nat_of_ascii c) 181 || Nat.eqb (nat_of_ascii c) 255)
      && upper_in_range r
  end.

Definition or_default {A} (o : option A) (d : A) : A :=
  match o with Some x => x | None => d end.

(** [const currency = String(args.currency || "USD").toUpperCase()] *)
Definition currency_of (a : Args) : string :=
  toUpperCase (or_default (arg_currency a) "USD").

(** [const asOfDate = String(args.date || today)] *)
Definition asOfDate (today : Date) (a : Args) : Date :=
  or_default (arg_date a) today.

(** Query parameters and the conditions of [whereParts]; a condition names
    its parameter by the number after the dollar sign. *)
Inductive param :=
| PText (s : string)
| PDate (d : Date).

Inductive cond :=
| CurrencyEq (p : nat)
| DateEq (p : nat)
| DateGe (p : nat)
| DateLe (p : nat).

(** The loop-free body of [main] that fills [whereParts] and [params]; the
    counter [p] is the next free parameter number. *)
Definition build_where (today : Date) (a : Args) : list cond * list param :=
  let whereParts := [CurrencyEq 1] in
  let params := [PText (currency_of a)] in
  let p := 2%nat in
  if negb (arg_all_dates a) then
    (whereParts ++ [DateEq p], params ++ [PDate (asOfDate today a)])
  else
    let '(whereParts, params, p) :=
      match arg_since a with
      | Some since => (whereParts ++ [DateGe p], params ++ [PDate since], S p)
      | None => (whereParts, params, p)
      end in
    let '(whereParts, params, p) :=
      match arg_until a with
      | Some until => (whereParts ++ [DateLe p], params ++ [PDate until], S p)
      | None => (whereParts, params, p)
      end in
    (whereParts, params).

(** The value bound to parameter number [p]. *)
Definition param_at (params : list param) (p : nat) : option param :=
  nth_error params (p - 1).

Definition eval_cond (params : list param) (s : Snapshot) (c : cond) : bool :=
  match c with
  | CurrencyEq p =>
      match param_at params p with
      | Some (PText t) => String.eqb (currency s) t
      | _ => false
      end
  | DateEq p =>
      match param_at params p with
      | Some (PDate d) => as_of_date s =? d
      | _ => false
      end
  | DateGe p =>
      match param_at params p with
      | Some (PDate d) => d <=? as_of_date s
      | _ => false
      end
  | DateLe p =>
      match param_at params p with
      | Some (PDate d) => as_of_date s <=? d
      | _ => false
      end
  end.

(** [whereParts.join(" AND ")] evaluated on a row.  The currency of a
    row is a text of code units below 256: when the upper case of the
    currency given has a letter above U+00FF, [s.currency = $1] holds of no
    row. *)
Definition where_sql (today : Date) (a : Args) (s : Snapshot) : bool :=
  let '(whereParts, params) := build_where today a in
  upper_in_range (or_default (arg_currency a) "USD")
  && forallb (eval_cond params s) whereParts.

(** The two CASE expressions of the ORDER BY. *)
Definition source_rank (src : string) : Z :=
  if String.eqb src "tcgplayer" then 10
  else if String.eqb src "scryfall" then 20
  else if String.eqb src "cardmarket" then 30
  else if String.eqb src "pricecharting" then 40
  else if String.eqb src "ebay" then 50
  else if String.eqb src "amazon" then 60
  else 99.

Definition price_type_rank (pt : string) : Z :=
  if String.eqb pt "market" then 10
  else if String.eqb pt "trend" then 12
  else if String.eqb pt "mid" then 14
  else if String.eqb pt "avg_7d" then 16
  else if String.eqb pt "avg_30d" then 18
  else if String.eqb pt "low" then 22
  else if String.eqb pt "high" then 24
  else if String.eqb pt "loose" then 30
  else if String.eqb pt "cib" then 32
  else if String.eqb pt "new" then 34
  else if String.eqb pt "graded" then 36
  else if String.eqb pt "foil" then 60
  else if String.eqb pt "etched" then 62
  else if String.eqb pt "tix" then 80
  else 90.

(** [ORDER BY source-rank ASC, price-type-rank ASC, value_cents DESC]:
    [order_le a b] holds when [a] may be placed before [b]. *)
Definition order_le (a b : Snapshot) : bool :=
  let sa := source_rank (source a) in
  let sb := source_rank (source b) in
  if sa <? sb then true
  else if sb <? sa then false
  else
    let pa := price_type_rank (price_type a) in
    let pb := price_type_rank (price_type b) in
    if pa <? pb then true
    else if pb <? pa then false
    else value_cents b <=? value_cents a.

(** Sorting a partition.  Rows that tie on every sort key stay in the order
    in which they were presented: whatever order a sort leaves tied rows in
    is the outcome of this one on some presentation of the same rows. *)
Fixpoint insert_row (x : Snapshot) (l : list Snapshot) : list Snapshot :=
  match l with
  | [] => [x]
  | y :: r => if order_le x y then x :: y :: r else y :: insert_row x r
  end.

Definition order_by (l : list Snapshot) : list Snapshot :=
  fold_right insert_row [] l.

(** [PARTITION BY s.market_item_id, s.currency, s.as_of_date] *)
Definition PartKey := (ItemId * string * Date)%type.

Definition part_key (s : Snapshot) : PartKey :=
  (market_item_id s, currency s, as_of_date s).

Definition part_key_dec (k1 k2 : PartKey) : {k1 = k2} + {k1 <> k2}.
Proof.
  decide equality; [apply Z.eq_dec | decide equality; [apply string_dec | apply Z.eq_dec]].
Defined.

Definition in_partition (k : PartKey) (s : Snapshot) : bool :=
  if part_key_dec (part_key s) k then true else false.

Definition partition_keys (rows : list Snapshot) : list PartKey :=
  nodup part_key_dec (map part_key rows).

Fixpoint number_from (n : nat) (l : list Snapshot) : list (Snapshot * nat) :=
  match l with
  | [] => []
  | x :: r => (x, n) :: number_from (S n) r
  end.

(** [ROW_NUMBER() OVER (PARTITION BY ... ORDER BY ...)] on the selected rows. *)
Definition row_number (rows : list Snapshot) : list (Snapshot * nat) :=
  flat_map (fun k => number_from 1 (order_by (filter (in_partition k) rows)))
           (partition_keys rows).

(** The [candidates] CTE. *)
Definition candidates (today : Date) (a : Args) (table : list Snapshot)
  : list (Snapshot * nat) :=
  row_number (filter (where_sql today a) table).

(** The selected rows: [FROM candidates WHERE rn = 1]. *)
Definition winners (today : Date) (a : Args) (table : list Snapshot)
  : list Snapshot :=
  map fst (filter (fun c => Nat.eqb (snd c) 1) (candidates today a table)).

Definition daily_of (s : Snapshot) : DailyPrice :=
  {| dp_market_item_id := market_item_id s;
     dp_as_of_date := as_of_date s;
     dp_currency := currency s;
     dp_value_cents := value_cents s;
     dp_confidence := 70;
     dp_sources_used :=
       [ {| su_source := source s;
            su_price_type := price_type s;
            su_condition := condition s;
            su_value_cents := value_cents s |} ];
     dp_method := "priority_best_of_day" |}.

(** The [best] CTE. *)
Definition best (today : Date) (a : Args) (table : list Snapshot)
  : list DailyPrice :=
  map daily_of (winners today a table).

(** *** Notions and sample data for the properties below *)

(** The sort key of a row, as the ORDER BY reads it. *)
Definition sort_key (s : Snapshot) : Z * Z * Z :=
  (source_rank (source s), price_type_rank (price_type s), value_cents s).

(** The order of the ORDER BY, in words: a smaller source rank first, then a
    smaller price-type rank, then a larger value. *)
Definition ranks_before (a b : Snapshot) : Prop :=
  source_rank (source a) < source_rank (source b)
  \/ (source_rank (source a) = source_rank (source b)
      /\ (price_type_rank (price_type a) < price_type_rank (price_type b)
          \/ (price_type_rank (price_type a) = price_type_rank (price_type b)
              /\ value_cents b <= value_cents a))).






(** The first row of a list is placed before every row of the list. *)
Definition head_first (l : list Snapshot) : Prop :=
  match l with
  | [] => True
  | w :: _ => forall x, In x l -> order_le w x = true
  end.

(** The selected rows of a row set: the first row of every sorted partition. *)
Definition first_rows (rows : list Snapshot) : list Snapshot :=
  flat_map (fun k => firstn 1 (order_by (filter (in_partition k) rows)))
           (partition_keys rows).

(** Sample rows: two graded PriceCharting snapshots of one item and day
    that differ in their condition only, and a Scryfall snapshot. *)
Definition psa10 : Snapshot :=
  mkSnapshot 1 "pricecharting" 100 "USD" "graded" (Some "PSA 10") 5000 (RawOther "a").
Definition psa9 : Snapshot :=
  mkSnapshot 1 "pricecharting" 100 "USD" "graded" (Some "PSA 9") 5000 (RawOther "b").
Definition scry : Snapshot :=
  mkSnapshot 1 "scryfall" 100 "USD" "foil" None 4000 (RawOther "c").

Definition one_day : Args := mkArgs None (Some 100) false None None.


(** The rows of a table dated [d], and the emitted daily rows dated [d]. *)
Definition dated (d : Date) (s : Snapshot) : bool := as_of_date s =? d.
Definition emitted_for (d : Date) (rows : list DailyPrice) : list DailyPrice :=
  filter (fun r => dp_as_of_date r =? d) rows.

Definition next_day : Snapshot :=
  mkSnapshot 1 "scryfall" 101 "USD" "market" None 4100 (RawOther "d").

Definition every_day : Args := mkArgs None None true None None.

Definition day_before : Snapshot :=
  mkSnapshot 1 "scryfall" 99 "USD" "market" None 3900 (RawOther "e").

(** [--since] day 100, and nothing else. *)
Definition since_only : Args := mkArgs None None false (Some 100) None.

(** [--all-dates --since] day 100. *)
Definition all_since : Args := mkArgs None None true (Some 100) None.

(** A selection scope in the words of the specification: one date, or a
    range whose inclusive bounds are each optional. *)
Inductive Scope :=
| SingleDate (d : Date)
| DateRange (lo hi : option Date).

Definition in_scope (sc : Scope) (dt : Date) : Prop :=
  match sc with
  | SingleDate d => dt = d
  | DateRange lo hi =>
      match lo with Some l => l <= dt | None => True end
      /\ match hi with Some h => dt <= h | None => True end
  end.

(** The scope an invocation denotes: the range when the all-dates flag is
    set, else the single date ([--date], or today). *)
Definition scope_of (today : Date) (a : Args) : Scope :=
  if arg_all_dates a then DateRange (arg_since a) (arg_until a)
  else SingleDate (asOfDate today a).

End Resolver.

(** ** 02_normalize_scryfall_prices.js *)

Module Normalizer.

(** Modelled from the spec: the declarations of [public.market_items], the
    item-identity mapping, and of [public.scryfall_cards_raw], the vendor
    price table, are not among the sources.  The records have the columns
    the query reads.  [scr_id] is [scr.id::text]; [scr_prices] is
    [payload->'prices'], or [None] when [payload ? 'prices'] is false. *)
Record MarketItem := mkMarketItem {
  mi_id : ItemId;
  mi_game : string;
  mi_canonical_source : string;
  mi_canonical_id : string
}.

Record ScryfallCard := mkScryfallCard {
  scr_id : string;
  scr_prices : option jsonb
}.

(** Errors a statement can raise. *)
Inductive sql_error :=
| InvalidNumericSyntax (txt : string)
| IntegerOutOfRange
| InvalidDateSyntax
| TransactionAborted
| StoreFailure.

Inductive result (A : Type) :=
| Ok (a : A)
| Err (e : sql_error).
Arguments Ok {A} a.
Arguments Err {A} e.

Definition bind {A B} (r : result A) (f : A -> result B) : result B :=
  match r with Ok a => f a | Err e => Err e end.

Notation "x <- r ;; k" := (bind r (fun x => k))
  (at level 61, r at next level, right associativity).

(** *** Text and number primitives of the price expression *)

Definition is_digit (c : ascii) : bool :=
  let n := nat_of_ascii c in andb (Nat.leb 48 n) (Nat.leb n 57).

Definition digit_val (c : ascii) : Z := Z.of_nat (nat_of_ascii c) - 48.

(** The characters the class [[^0-9.\-]] does not match. *)
Definition kept (c : ascii) : bool :=
  is_digit c || Ascii.eqb c "." || Ascii.eqb c "-".

(** [regexp_replace(t, '[^0-9.\-]', '', 'g')] *)
Fixpoint regexp_strip (t : string) : string :=
  match t with
  | EmptyString => EmptyString
  | String c r => if kept c then String c (regexp_strip r) else regexp_strip r
  end.

(** [NULLIF(t, '')], on a nullable text. *)
Definition nullif_empty (t : option string) : option string :=
  match t with
  | Some EmptyString => None
  | other => other
  end.

(** [j ->> k]: the text of a scalar member of an object; NULL for a JSON
    null, for a missing key and for a [j] that is not an object. *)
Definition scalar_text (v : jscalar) : option string :=
  match v with
  | JNull => None
  | JBool true => Some "true"
  | JBool false => Some "false"
  | JNumber txt => Some txt
  | JString s => Some s
  end.

Fixpoint member (k : string) (fields : list (string * jscalar)) : option jscalar :=
  match fields with
  | [] => None
  | (k', v) :: r => if String.eqb k' k then Some v else member k r
  end.

Definition get_text (j : jsonb) (k : string) : option string :=
  match j with
  | JScalar _ => None
  | JObject fields =>
      match member k fields with
      | Some v => scalar_text v
      | None => None
      end
  end.

(** A [numeric] value: [unscaled / 10 ^ scale]. *)
Record numeric := mkNumeric { unscaled : Z; scale : nat }.

(** The digits and the decimal point after the sign, read left to right:
    a second point and any other character are a syntax error. *)
Fixpoint scan_digits (t : string) (have_dp : bool) (acc : Z) (dscale : nat)
  : option (Z * nat) :=
  match t with
  | EmptyString => Some (acc, dscale)
  | String c r =>
      if is_digit c then
        scan_digits r have_dp (10 * acc + digit_val c)
                    (if have_dp then S dscale else dscale)
      else if Ascii.eqb c "." then
        if have_dp then None else scan_digits r true acc dscale
      else None
  end.

(** The [::numeric] cast of a text made of digits, points and minus signs:
    an optional sign, an optional leading point, then at least one digit. *)
Definition numeric_in (t : string) : option numeric :=
  let '(neg, t1) :=
    match t with
    | String "-"%char r => (true, r)
    | _ => (false, t)
    end in
  let '(have_dp, t2) :=
    match t1 with
    | String "."%char r => (true, r)
    | _ => (false, t1)
    end in
  match t2 with
  | EmptyString => None
  | String c _ =>
      if is_digit c then
        match scan_digits t2 have_dp 0 0 with
        | Some (m, sc) => Some (mkNumeric (if neg then - m else m) sc)
        | None => None
        end
      else None
  end.

Definition times_100 (x : numeric) : numeric :=
  mkNumeric (unscaled x * 100) (scale x).

(** [ROUND(x)]: to the nearest integer, a half away from zero. *)
Definition round_numeric (x : numeric) : Z :=
  let p := 10 ^ Z.of_nat (scale x) in
  Z.sgn (unscaled x) * ((2 * Z.abs (unscaled x) + p) / (2 * p)).

(** [(z)::int] *)
Definition to_int4 (z : Z) : result Z :=
  if (- 2147483648 <=? z) && (z <=? 2147483647) then Ok z
  else Err IntegerOutOfRange.

(** The CASE expression that computes [value_cents] for one price key. *)
Definition cents_of_field (prices : jsonb) (k : string) : result (option Z) :=
  match nullif_empty (option_map regexp_strip (get_text prices k)) with
  | None => Ok None
  | Some t =>
      match numeric_in t with
      | None => Err (InvalidNumericSyntax t)
      | Some x =>
          c <- to_int4 (round_numeric (times_100 x)) ;;
          Ok (Some c)
      end
  end.

(** *** The [src] and [rows] CTEs *)

(** The rows of [scryfall_cards_raw] joined to one market item. *)
Definition joined (cards : list ScryfallCard) (mi : MarketItem) : list (ItemId * jsonb) :=
  flat_map (fun scr =>
      if String.eqb (scr_id scr) (mi_canonical_id mi)
         && String.eqb (mi_game mi) "mtg"
         && String.eqb (mi_canonical_source mi) "scryfall"
      then match scr_prices scr with
           | Some prices => [(mi_id mi, prices)]
           | None => []
           end
      else []) cards.

Definition src (items : list MarketItem) (cards : list ScryfallCard)
  : list (ItemId * jsonb) :=
  flat_map (joined cards) items.

(** The five tuples of the VALUES list: price key, currency, price type. *)
Definition price_fields : list (string * string * string) :=
  [ ("usd", "USD", "market");
    ("usd_foil", "USD", "foil");
    ("usd_etched", "USD", "etched");
    ("eur", "EUR", "market");
    ("tix", "USD", "tix") ].

(** One tuple of the lateral VALUES list, filtered by
    [value_cents IS NOT NULL AND value_cents > 0]. *)
Definition row_of_field (d : Date) (item : ItemId) (prices : jsonb)
           (f : string * string * string) : result (list Snapshot) :=
  let '(k, cur, pt) := f in
  v <- cents_of_field prices k ;;
  match v with
  | Some c =>
      if 0 <? c
      then Ok [ mkSnapshot item "scryfall" d cur pt None c (RawScryfall prices k) ]
      else Ok []
  | None => Ok []
  end.

(** Evaluate a list of row computations; one that raises fails them all. *)
Fixpoint collect {A B} (f : A -> result (list B)) (l : list A) : result (list B) :=
  match l with
  | [] => Ok []
  | x :: r =>
      xs <- f x ;;
      rs <- collect f r ;;
      Ok (xs ++ rs)
  end.

(** The [rows] CTE for the date bound to the first parameter; [None] is a
    parameter text that the [::date] cast rejects. *)
Definition buildRowsCte (date_param : option Date)
           (items : list MarketItem) (cards : list ScryfallCard)
  : result (list Snapshot) :=
  match date_param with
  | None => Err InvalidDateSyntax
  | Some d =>
      collect (fun ip : ItemId * jsonb =>
                 collect (row_of_field d (fst ip) (snd ip)) price_fields)
              (src items cards)
  end.

(** *** The two statements *)

(** The identity key of a snapshot; [condition] is compared with
    IS NOT DISTINCT FROM, so two NULLs match. *)
Definition IdKey := (ItemId * string * Date * string * string * option string)%type.

Definition id_key (s : Snapshot) : IdKey :=
  (market_item_id s, source s, as_of_date s, currency s, price_type s, condition s).

Definition opt_string_eqb (a b : option string) : bool :=
  match a, b with
  | None, None => true
  | Some x, Some y => String.eqb x y
  | _, _ => false
  end.

Definition same_key (t r : Snapshot) : bool :=
  (market_item_id t =? market_item_id r)
  && String.eqb (source t) (source r)
  && (as_of_date t =? as_of_date r)
  && String.eqb (currency t) (currency r)
  && String.eqb (price_type t) (price_type r)
  && opt_string_eqb (condition t) (condition r).

Definition set_value (t r : Snapshot) : Snapshot :=
  mkSnapshot (market_item_id t) (source t) (as_of_date t) (currency t)
             (price_type t) (condition t) (value_cents r) (raw r).

(** [UPDATE ... SET value_cents = r.value_cents, raw = r.raw FROM rows r
    WHERE <same key>]: the new table and the number of rows updated.  A
    target row that several rows of the batch match takes the first. *)
Definition updateSql (rows : list Snapshot) (table : list Snapshot)
  : list Snapshot * nat :=
  (map (fun t => match find (same_key t) rows with
                 | Some r => set_value t r
                 | None => t
                 end) table,
   List.length (filter (fun t => existsb (same_key t) rows) table)).

(** [INSERT ... SELECT ... FROM rows r WHERE NOT EXISTS (<same key>)]: the
    NOT EXISTS reads the table as it is when the statement starts. *)
Definition insertSql (rows : list Snapshot) (table : list Snapshot)
  : list Snapshot * nat :=
  let missing := filter (fun r => negb (existsb (fun t => same_key t r) table)) rows in
  (table ++ missing, List.length missing).

(** *** The client session *)

(** The statements [main] sends, in the order of the script. *)
Inductive statement :=
| Begin
| UpdateSql
| InsertSql
| Commit
| Rollback.

Inductive txn_state :=
| NoTxn
| InTxn (working : list Snapshot)
| Aborted.

(** The store as one session sees it: the committed snapshot table, the
    state of the open transaction, and the journal of the statements it
    received, each with whether it succeeded. *)
Record Conn := mkConn {
  committed : list Snapshot;
  txn : txn_state;
  journal : list (statement * bool)
}.

(** The data the statements read, fixed for one invocation. *)
Record Inputs := mkInputs {
  in_date : option Date;
  in_items : list MarketItem;
  in_cards : list ScryfallCard
}.

(** A data statement on a table. *)
Definition run_dml (i : Inputs) (st : statement) (table : list Snapshot)
  : result (list Snapshot * nat) :=
  rows <- buildRowsCte (in_date i) (in_items i) (in_cards i) ;;
  match st with
  | UpdateSql => Ok (updateSql rows table)
  | InsertSql => Ok (insertSql rows table)
  | _ => Ok (table, 0%nat)
  end.

(** What the store does with a statement that reaches it. *)
Definition store_step (i : Inputs) (st : statement) (c : Conn)
  : result nat * (list Snapshot * txn_state) :=
  match st, txn c with
  | Begin, NoTxn => (Ok 0%nat, (committed c, InTxn (committed c)))
  | Begin, other => (Ok 0%nat, (committed c, other))
  | Commit, InTxn w => (Ok 0%nat, (w, NoTxn))
  | Commit, _ => (Ok 0%nat, (committed c, NoTxn))
  | Rollback, _ => (Ok 0%nat, (committed c, NoTxn))
  | _, Aborted => (Err TransactionAborted, (committed c, Aborted))
  | _, InTxn w =>
      match run_dml i st w with
      | Ok (w', n) => (Ok n, (committed c, InTxn w'))
      | Err e => (Err e, (committed c, Aborted))
      end
  | _, NoTxn =>
      match run_dml i st (committed c) with
      | Ok (t', n) => (Ok n, (t', NoTxn))
      | Err e => (Err e, (committed c, NoTxn))
      end
  end.

(** [client.query(st)].  [faulty n] says that the call number [n] of the
    session fails on the store's side (connection lost, constraint
    violated): the statement then has no effect and an open transaction can
    no longer commit. *)
Definition query (faulty : nat -> bool) (i : Inputs) (st : statement) (c : Conn)
  : result nat * Conn :=
  if faulty (List.length (journal c)) then
    (Err StoreFailure,
     mkConn (committed c)
            (match txn c with NoTxn => NoTxn | _ => Aborted end)
            (journal c ++ [(st, false)]))
  else
    let '(r, (tbl, tx)) := store_step i st c in
    (r, mkConn tbl tx (journal c ++ [(st, match r with Ok _ => true | Err _ => false end)])).

(** [client.end()]: the session closes and an open transaction is dropped. *)
Definition end_session (c : Conn) : Conn :=
  mkConn (committed c) NoTxn (journal c).

(** The outcome of an invocation: the exit status, the two row counts it
    printed when it succeeded, and the store it leaves. *)
Record Outcome := mkOutcome {
  exit_code : Z;
  printed : option (nat * nat);
  final : Conn
}.

(** [main], from [client.query("BEGIN")] on, with the handler of the
    rejected promise ([process.exit(1)]).  BEGIN is outside the [try]: when
    it throws, neither ROLLBACK nor [client.end()] runs. *)
Definition main (faulty : nat -> bool) (i : Inputs) (c0 : Conn) : Outcome :=
  match query faulty i Begin c0 with
  | (Err _, c1) => mkOutcome 1 None c1
  | (Ok _, c1) =>
      let attempt :=
        match query faulty i UpdateSql c1 with
        | (Err e, c2) => (Err e, c2)
        | (Ok upd, c2) =>
            match query faulty i InsertSql c2 with
            | (Err e, c3) => (Err e, c3)
            | (Ok ins, c3) =>
                match query faulty i Commit c3 with
                | (Err e, c4) => (Err e, c4)
                | (Ok _, c4) => (Ok (upd, ins), c4)
                end
            end
        end in
      match attempt with
      | (Ok counts, c) => mkOutcome 0 (Some counts) (end_session c)
      | (Err _, c) =>
          let '(_, c') := query faulty i Rollback c in
          mkOutcome 1 None (end_session c')
      end
  end.

(** A session that has just connected to a store holding [table]. *)
Definition connected (table : list Snapshot) : Conn := mkConn table NoTxn [].

(** An invocation on a store that does not fail. *)
Definition reliable : nat -> bool := fun _ => false.

(** *** Notions and sample data for the properties below *)

(** The journals the script can leave: every statement after BEGIN is sent
    only when the one before it succeeded, INSERT after UPDATE, COMMIT
    after INSERT, and ROLLBACK after the first failure. *)
Definition script_journal (j : list (statement * bool)) : Prop :=
  j = [(Begin, false)]
  \/ (exists b, j = [(Begin, true); (UpdateSql, false); (Rollback, b)])
  \/ (exists b, j = [(Begin, true); (UpdateSql, true); (InsertSql, false);
                     (Rollback, b)])
  \/ (exists b, j = [(Begin, true); (UpdateSql, true); (InsertSql, true);
                     (Commit, false); (Rollback, b)])
  \/ j = [(Begin, true); (UpdateSql, true); (InsertSql, true); (Commit, true)].

(** The table a successful run commits. *)
Definition normalized (rows table : list Snapshot) : list Snapshot :=
  fst (insertSql rows (fst (updateSql rows table))).

(** One row of the target table after the UPDATE. *)
Definition updated (rows : list Snapshot) (t : Snapshot) : Snapshot :=
  match find (same_key t) rows with
  | Some r => set_value t r
  | None => t
  end.

(** The rows the INSERT adds to a table that the UPDATE has been through. *)
Definition missing (rows table : list Snapshot) : list Snapshot :=
  filter (fun r => negb (existsb (fun t => same_key t r) table)) rows.

(** Sample data: two items joined to two cards. *)
Definition two_items : list MarketItem :=
  [ mkMarketItem 1 "mtg" "scryfall" "card-a";
    mkMarketItem 2 "mtg" "scryfall" "card-b" ].

Definition card (id : string) (fields : list (string * jscalar)) : ScryfallCard :=
  mkScryfallCard id (Some (JObject fields)).

(** Fields that are blank, null, text without digits, zero and negative,
    next to two priced ones. *)
Definition tidy_cards : list ScryfallCard :=
  [ card "card-a" [ ("usd", JString "12.34"); ("usd_foil", JString "");
                    ("usd_etched", JNull); ("eur", JString "0");
                    ("tix", JString "-5") ];
    card "card-b" [ ("usd", JString "N/A"); ("eur", JString "3.005") ] ].

(** A note with a digit in it, and a text that strips to a lone minus sign
    on the first card while the second card has a price. *)
Definition noted_cards : list ScryfallCard :=
  [ card "card-a" [ ("usd", JString "v2") ] ].

Definition dashed_cards : list ScryfallCard :=
  [ card "card-a" [ ("usd", JString "n-a") ];
    card "card-b" [ ("usd", JString "12.34") ] ].

Definition old_row : Snapshot :=
  mkSnapshot 1 "scryfall" 100 "USD" "market" None 1100
             (RawScryfall (JObject [("usd", JString "11.00")]) "usd").

End Normalizer.

(** ** 10_rollup_market_values_daily.mjs *)

Module Rollup.

(** Modelled from the spec: the declaration of [public.market_sales_comps]
    is not among the sources.  One row per observed sale, with the columns
    the query reads: grouping key, grade, price and timestamp, none of them
    NULL.  Prices are exact rationals: the arithmetic of [percentile_cont]
    is taken without rounding error.  [sold_at] is a timestamp in
    seconds. *)
Record SaleComp := mkSaleComp {
  card_key : string;
  grade : string;
  sold_price_usd : Q;
  sold_at : Z
}.

(** [interval '180 days'] in seconds. *)
Definition window : Z := 180 * 86400.

(** The [recent] CTE: [WHERE sold_at >= now() - interval '180 days']. *)
Definition recent (now : Z) (comps : list SaleComp) : list SaleComp :=
  filter (fun r => now - window <=? sold_at r) comps.

(** [ORDER BY sold_price_usd] inside the ordered-set aggregate. *)
Fixpoint insert_price (x : Q) (l : list Q) : list Q :=
  match l with
  | [] => [x]
  | y :: r => if Qle_bool x y then x :: y :: r else y :: insert_price x r
  end.

Definition sort_prices (l : list Q) : list Q := fold_right insert_price [] l.

(** [percentile_cont(p) WITHIN GROUP (ORDER BY x)]: with [n] values and
    [rn = p * (n - 1)], the value at row [floor rn] when that is also
    [ceil rn], else the value interpolated between the rows [floor rn] and
    [ceil rn]; NULL on no value. *)
Definition percentile_cont (p : Q) (xs : list Q) : option Q :=
  match sort_prices xs with
  | [] => None
  | (x0 :: _) as sorted =>
      let rn := (p * inject_Z (Z.of_nat (List.length sorted) - 1))%Q in
      let first_row := Qfloor rn in
      let second_row := Qceiling rn in
      let first_val := nth (Z.to_nat first_row) sorted x0 in
      let second_val := nth (Z.to_nat second_row) sorted x0 in
      if first_row =? second_row then Some first_val
      else
        let proportion := (rn - inject_Z first_row)%Q in
        Some (first_val + proportion * (second_val - first_val))%Q
  end.

(** The same aggregate in binary64, the arithmetic in which the store
    evaluates it: [floor] and [ceil] of the row number, and
    [lo + pct * (hi - lo)] for the interpolation, each operation rounded. *)
Module Float8.
Import PrimInt63.

Definition float8 := PrimFloat.float.

Fixpoint int_of_nat (n : nat) : int :=
  match n with
  | O => 0%uint63
  | S k => add (int_of_nat k) 1%uint63
  end.

Fixpoint nat_of_int (bits : nat) (i : int) : nat :=
  match bits with
  | O => O
  | S k =>
      if eqb i 0%uint63 then O
      else (2 * nat_of_int k (lsr i 1%uint63)
            + (if eqb (land i 1%uint63) 1%uint63 then 1 else 0))%nat
  end.

(** [floor] of a finite double that is not negative: with
    [f = m * 2 ^ (e - 2101)] and [0.5 <= m < 1], the 53-bit mantissa of [m]
    shifted by the exponent. *)
Definition floor_row (f : float8) : int :=
  let (m, e) := PrimFloat.frshiftexp f in
  let mant := PrimFloat.normfr_mantissa m in
  if leb e 2101%uint63 then 0%uint63
  else
    let ex := sub e 2101%uint63 in
    if leb ex 53%uint63 then lsr mant (sub 53%uint63 ex)
    else lsl mant (sub ex 53%uint63).

Definition ceil_row (f : float8) : int :=
  let fl := floor_row f in
  if PrimFloat.eqb (PrimFloat.of_uint63 fl) f then fl else add fl 1%uint63.

Fixpoint insert_float8 (x : float8) (l : list float8) : list float8 :=
  match l with
  | [] => [x]
  | y :: r => if PrimFloat.leb x y then x :: y :: r else y :: insert_float8 x r
  end.

Definition float8_lerp (lo hi pct : float8) : float8 :=
  PrimFloat.add lo (PrimFloat.mul pct (PrimFloat.sub hi lo)).

Definition percentile_cont_float8 (p : float8) (xs : list float8) : option float8 :=
  match fold_right insert_float8 [] xs with
  | [] => None
  | (x0 :: _) as sorted =>
      let rn :=
        PrimFloat.mul p (PrimFloat.of_uint63 (int_of_nat (List.length sorted - 1))) in
      let first_row := floor_row rn in
      let second_row := ceil_row rn in
      let first_val := nth (nat_of_int 63 first_row) sorted x0 in
      let second_val := nth (nat_of_int 63 second_row) sorted x0 in
      if eqb first_row second_row then Some first_val
      else
        let proportion := PrimFloat.sub rn (PrimFloat.of_uint63 first_row) in
        Some (float8_lerp first_val second_val proportion)
  end.

End Float8.

(** [MAX(sold_at)] *)
Definition max_sold_at (l : list Z) : option Z :=
  match l with
  | [] => None
  | x :: r => Some (fold_left Z.max r x)
  end.

(** A row of the [stats] CTE. *)
Record Stats := mkStats {
  st_card_key : string;
  st_grade : string;
  median_price : option Q;
  p25 : option Q;
  p75 : option Q;
  cnt : Z;
  st_last_sale_at : option Z
}.

Definition GroupKey := (string * string)%type.

Definition group_key (r : SaleComp) : GroupKey := (card_key r, grade r).

Definition group_key_dec (k1 k2 : GroupKey) : {k1 = k2} + {k1 <> k2}.
Proof. decide equality; apply string_dec. Defined.

Definition in_group (k : GroupKey) (r : SaleComp) : bool :=
  String.eqb (card_key r) (fst k) && String.eqb (grade r) (snd k).

(** The aggregates of one group. *)
Definition stats_of (k : GroupKey) (rows : list SaleComp) : Stats :=
  let prices := map sold_price_usd rows in
  {| st_card_key := fst k;
     st_grade := snd k;
     median_price := percentile_cont (1 # 2) prices;
     p25 := percentile_cont (1 # 4) prices;
     p75 := percentile_cont (3 # 4) prices;
     cnt := Z.of_nat (List.length rows);
     st_last_sale_at := max_sold_at (map sold_at rows) |}.

(** The [stats] CTE: [GROUP BY card_key, grade]. *)
Definition stats (rec : list SaleComp) : list Stats :=
  map (fun k => stats_of k (filter (in_group k) rec))
      (nodup group_key_dec (map group_key rec)).

(** [ORDER BY r.sold_at DESC]; sales with one timestamp stay in the order
    in which they were presented. *)
Fixpoint insert_sale (x : SaleComp) (l : list SaleComp) : list SaleComp :=
  match l with
  | [] => [x]
  | y :: r => if sold_at y <=? sold_at x then x :: y :: r else y :: insert_sale x r
  end.

Definition newest_first (l : list SaleComp) : list SaleComp :=
  fold_right insert_sale [] l.

(** The scalar subquery [SELECT r.sold_price_usd FROM recent r WHERE
    r.card_key = s.card_key AND r.grade = s.grade ORDER BY r.sold_at DESC
    LIMIT 1]. *)
Definition last_sale_price (rec : list SaleComp) (s : Stats) : option Q :=
  match newest_first (filter (in_group (st_card_key s, st_grade s)) rec) with
  | [] => None
  | r :: _ => Some (sold_price_usd r)
  end.

(** The cast [::numeric(12,2)]: two decimals, a half rounded away from
    zero. *)
Definition round_half_away (q : Q) : Z :=
  Z.sgn (Qnum q) * Qfloor (Qabs q + (1 # 2))%Q.

Definition numeric_12_2 (q : Q) : Q := round_half_away (q * inject_Z 100)%Q # 100.

(** The CASE expression of the confidence grade. *)
Definition confidence_of (cnt : Z) : string :=
  if 10 <=? cnt then "A"
  else if 5 <=? cnt then "B"
  else if 2 <=? cnt then "C"
  else "D".

(** A row of the SELECT that feeds the upsert into
    [public.market_values_daily]. *)
Record MarketValue := mkMarketValue {
  mv_as_of_date : Date;
  mv_card_key : string;
  mv_grade : string;
  market_value_usd : option Q;
  range_low_usd : option Q;
  range_high_usd : option Q;
  last_sale_usd : option Q;
  last_sale_at : option Z;
  sales_count_180d : Z;
  confidence : string
}.

Definition value_row (current_date : Date) (rec : list SaleComp) (s : Stats)
  : MarketValue :=
  {| mv_as_of_date := current_date;
     mv_card_key := st_card_key s;
     mv_grade := st_grade s;
     market_value_usd := option_map numeric_12_2 (median_price s);
     range_low_usd := option_map numeric_12_2 (p25 s);
     range_high_usd := option_map numeric_12_2 (p75 s);
     last_sale_usd := option_map numeric_12_2 (last_sale_price rec s);
     last_sale_at := st_last_sale_at s;
     sales_count_180d := cnt s;
     confidence := confidence_of (cnt s) |}.

(** The rows the statement upserts, for the sales table [comps] at time
    [now] on the date [current_date]. *)
Definition rollup (now : Z) (current_date : Date) (comps : list SaleComp)
  : list MarketValue :=
  let rec := recent now comps in
  map (value_row current_date rec) (stats rec).

(** *** Notions and sample data for the properties below *)

(** Equality of nullable rationals, as numbers. *)
Definition same_value (a b : option Q) : Prop :=
  match a, b with
  | Some x, Some y => (x == y)%Q
  | None, None => True
  | _, _ => False
  end.

(** Two sales of one card and grade at the same instant. *)
Definition tie_first : SaleComp := mkSaleComp "base1-4" "PSA 9" 5 1000.
Definition tie_second : SaleComp := mkSaleComp "base1-4" "PSA 9" 6 1000.

(** Four sales of one group priced 10, 20, 30 and 40. *)
Definition four_a : SaleComp := mkSaleComp "base1-4" "PSA 9" 10 910.
Definition four_b : SaleComp := mkSaleComp "base1-4" "PSA 9" 20 920.
Definition four_c : SaleComp := mkSaleComp "base1-4" "PSA 9" 30 930.
Definition four_d : SaleComp := mkSaleComp "base1-4" "PSA 9" 40 940.

Definition older : SaleComp := mkSaleComp "base1-4" "PSA 9" 4 900.

(** The sales of a card and grade made in the 180 days up to [now]: the
    observations of a group, in the words of the specification. *)
Definition window_sales (now : Z) (k : GroupKey) (comps : list SaleComp)
  : list SaleComp :=
  filter (fun r => String.eqb (card_key r) (fst k) && String.eqb (grade r) (snd k)
                   && (now - sold_at r <=? 180 * 86400)) comps.

(** [n] sales of the group of [four_a] at 10 dollars, a second apart from
    the instant [t] on. *)
Fixpoint sales_from (n : nat) (t : Z) : list SaleComp :=
  match n with
  | O => []
  | S k => mkSaleComp "base1-4" "PSA 9" 10 t :: sales_from k (t + 1)
  end.

(** An instant at which [older] is just out of the window and the sales
    from 901 on are in it. *)
Definition sample_now : Z := 180 * 86400 + 901.

End Rollup.

(** ** Strings of the scripts

    A text is a sequence of code units below 256.  The scripts compare
    characters with ASCII ones only, so the functions below treat a text in
    another encoding the same way, except for the white space and the
    letters outside ASCII, of which those below 256 are covered. *)

Module JsString.

Definition code (c : ascii) : nat := nat_of_ascii c.

Definition TAB : ascii := ascii_of_nat 9.
Definition LF : ascii := ascii_of_nat 10.
Definition CR : ascii := ascii_of_nat 13.
Definition NUL : ascii := ascii_of_nat 0.
Definition ESC : ascii := ascii_of_nat 27.
Definition QUOTE : ascii := ascii_of_nat 34.

(** The class [\s], which is also what [trim] removes: tab, line feed,
    vertical tab, form feed, carriage return, space and no-break space. *)
Definition is_space (c : ascii) : bool :=
  let n := code c in
  (Nat.leb 9 n && Nat.leb n 13) || Nat.eqb n 32 || Nat.eqb n 160.

Fixpoint trimStart (s : string) : string :=
  match s with
  | EmptyString => EmptyString
  | String c r => if is_space c then trimStart r else s
  end.

Fixpoint trimEnd (s : string) : string :=
  match s with
  | EmptyString => EmptyString
  | String c r =>
      match trimEnd r with
      | EmptyString => if is_space c then EmptyString else String c EmptyString
      | r' => String c r'
      end
  end.

Definition trim (s : string) : string := trimEnd (trimStart s).

(** A text that starts with no white space. *)
Definition starts_clean (s : string) : Prop :=
  match s with
  | EmptyString => True
  | String c _ => is_space c = false
  end.

(** [toLowerCase]: the letters A to Z, and the capital letters from
    U+00C0 to U+00DE but for the multiplication sign. *)
Definition lower_unit (c : ascii) : ascii :=
  let n := code c in
  if (Nat.leb 65 n && Nat.leb n 90)
     || (Nat.leb 192 n && Nat.leb n 222 && negb (Nat.eqb n 215))
  then ascii_of_nat (n + 32)
  else c.

Fixpoint toLowerCase (s : string) : string :=
  match s with
  | EmptyString => EmptyString
  | String c r => String (lower_unit c) (toLowerCase r)
  end.

(** [s.replace(/[class]/g, "")] and [/[class]/.test(s)] for a class of
    single characters, and the replacement of each by one character. *)
Fixpoint remove (class : ascii -> bool) (s : string) : string :=
  match s with
  | EmptyString => EmptyString
  | String c r => if class c then remove class r else String c (remove class r)
  end.

Fixpoint test (class : ascii -> bool) (s : string) : bool :=
  match s with
  | EmptyString => false
  | String c r => class c || test class r
  end.

Fixpoint replace_each (class : ascii -> bool) (by_ : ascii) (s : string) : string :=
  match s with
  | EmptyString => EmptyString
  | String c r => String (if class c then by_ else c) (replace_each class by_ r)
  end.

(** Whether every character of a text is of a class. *)
Fixpoint every (class : ascii -> bool) (s : string) : bool :=
  match s with
  | EmptyString => true
  | String c r => class c && every class r
  end.

(** [s.slice(n)] *)
Fixpoint drop (n : nat) (s : string) : string :=
  match n, s with
  | O, _ => s
  | S k, String _ r => drop k r
  | S _, EmptyString => EmptyString
  end.

(** The number of characters of a class in a text. *)
Fixpoint count (class : ascii -> bool) (s : string) : nat :=
  match s with
  | EmptyString => O
  | String c r => ((if class c then 1 else 0) + count class r)%nat
  end.

(** An integer as a JavaScript number: the integer rounded to 53
    significant bits, to the even neighbour on a tie, which changes nothing
    below 2^53. *)
Definition round53 (z : Z) : Z :=
  let a := Z.abs z in
  if a <? 2 ^ 53 then z
  else
    let e := Z.log2 a - 52 in
    let q := a / 2 ^ e in
    let r := a mod 2 ^ e in
    let half := 2 ^ (e - 1) in
    let q' := if (half <? r) || ((r =? half) && Z.odd q) then q + 1 else q in
    Z.sgn z * (q' * 2 ^ e).

(** [Number(v)] of an integer column, which the driver gives as a number
    or, for a bigint, as its decimal text. *)
Definition js_number (z : Z) : Z := round53 z.

(** [list.join(sep)] *)
Definition join (sep : string) (l : list string) : string := String.concat sep l.

End JsString.

(** ** INSERT ... ON CONFLICT ... DO UPDATE *)

Module OnConflict.

(** What one statement leaves: the table and the row count it reports, or
    the error the store raises when the statement proposes a second row for
    a conflict key it has already inserted or updated ("ON CONFLICT DO
    UPDATE command cannot affect row a second time"). *)
Inductive outcome (R : Type) :=
| Upserted (table : list R) (rowCount : nat)
| AffectsRowTwice.
Arguments Upserted {R} table rowCount.
Arguments AffectsRowTwice {R}.

Section Upsert.
Context {R K : Type}.
Variable conflict_key : R -> K.
Variable key_eqb : K -> K -> bool.

Definition conflicts (r : R) (table : list R) : bool :=
  existsb (fun t => key_eqb (conflict_key t) (conflict_key r)) table.

(** [DO UPDATE SET c = EXCLUDED.c] for every column [c] outside the
    conflict key: the row holding the key of [r] becomes [r]. *)
Definition do_update (r : R) (table : list R) : list R :=
  map (fun t => if key_eqb (conflict_key t) (conflict_key r) then r else t) table.

(** The proposed rows, one after the other; [touched] holds the keys this
    statement has written so far and [n] counts the rows it has inserted
    or updated. *)
Fixpoint upsert_from (proposed : list R) (touched : list K) (table : list R)
         (n : nat) : outcome R :=
  match proposed with
  | [] => Upserted table n
  | r :: rest =>
      if existsb (key_eqb (conflict_key r)) touched then AffectsRowTwice
      else
        upsert_from rest (conflict_key r :: touched)
                    (if conflicts r table then do_update r table else table ++ [r])
                    (S n)
  end.

Definition upsert (proposed table : list R) : outcome R :=
  upsert_from proposed [] table 0.

(** A row of the table after the statement: the proposed row with its key,
    or the row itself when no row is proposed for it. *)
Definition replaced (proposed : list R) (t : R) : R :=
  match find (fun r => key_eqb (conflict_key r) (conflict_key t)) proposed with
  | Some r => r
  | None => t
  end.

(** The proposed rows whose key the table does not hold. *)
Definition fresh (proposed table : list R) : list R :=
  filter (fun r => negb (conflicts r table)) proposed.

End Upsert.

End OnConflict.

(** ** The statement of 03_build_market_price_daily.js, with its target *)

Module DailyStore.
Import Resolver OnConflict.

(** Modelled from the spec: the declaration of [public.market_price_daily]
    is not among the sources.  A row has the columns the INSERT names: those
    of [best] and [updated_at]; the conflict target
    [(market_item_id, as_of_date, currency)] is a unique index, without
    which the statement is rejected. *)
Record DailyRow := mkDailyRow {
  daily : DailyPrice;
  updated_at : Z
}.

Definition DailyKey := (ItemId * Date * string)%type.

Definition daily_key (r : DailyRow) : DailyKey :=
  (dp_market_item_id (daily r), dp_as_of_date (daily r), dp_currency (daily r)).

Definition daily_key_eqb (a b : DailyKey) : bool :=
  let '(i1, d1, c1) := a in
  let '(i2, d2, c2) := b in
  (i1 =? i2) && (d1 =? d2) && String.eqb c1 c2.

(** A conflict key as a partition key of the window: the same columns,
    with currency and date exchanged. *)
Definition as_part_key (k : DailyKey) : PartKey :=
  let '(i, d, c) := k in (i, c, d).

(** [SELECT ..., now() FROM best] *)
Definition proposed (now : Z) (today : Date) (a : Args) (snapshots : list Snapshot)
  : list DailyRow :=
  map (fun b => mkDailyRow b now) (best today a snapshots).

(** The statement [main] sends, at the instant [now], on the snapshot table
    and the daily table. *)
Definition upsertDaily (now : Z) (today : Date) (a : Args)
           (snapshots : list Snapshot) (table : list DailyRow)
  : outcome DailyRow :=
  upsert daily_key daily_key_eqb (proposed now today a snapshots) table.

(** The row of a table under a key. *)
Definition lookup (k : DailyKey) (table : list DailyRow) : option DailyRow :=
  find (fun t => daily_key_eqb (daily_key t) k) table.

(** Sample data: a daily table holding an older price of item 1 on day 100
    and a price of day 99. *)
Definition stale_table : list DailyRow :=
  [ mkDailyRow (mkDailyPrice 1 100 "USD" 4500 70
                  [mkSourceUsed "scryfall" "foil" None 4500] "priority_best_of_day") 7;
    mkDailyRow (mkDailyPrice 1 99 "USD" 3900 70
                  [mkSourceUsed "scryfall" "market" None 3900] "priority_best_of_day") 5 ].

End DailyStore.

(** ** The statement of 10_rollup_market_values_daily.mjs, with its target *)

Module ValueStore.
Import Rollup OnConflict.

(** The conflict target [(as_of_date, card_key, grade)] of
    [public.market_values_daily]. *)
Definition ValueKey := (Date * string * string)%type.

Definition value_key (r : MarketValue) : ValueKey :=
  (mv_as_of_date r, mv_card_key r, mv_grade r).

Definition value_key_eqb (a b : ValueKey) : bool :=
  let '(d1, c1, g1) := a in
  let '(d2, c2, g2) := b in
  (d1 =? d2) && String.eqb c1 c2 && String.eqb g1 g2.

Definition upsertValues (now : Z) (current_date : Date) (comps : list SaleComp)
           (table : list MarketValue) : outcome MarketValue :=
  upsert value_key value_key_eqb (rollup now current_date comps) table.

(** Comparison of nullable rationals as numbers; NULL compares with
    nothing. *)
Definition value_le (a b : option Q) : Prop :=
  match a, b with
  | Some x, Some y => (x <= y)%Q
  | _, _ => False
  end.

(** Every value of a sorted list is at most the values after it. *)
Fixpoint ascending (l : list Q) : Prop :=
  match l with
  | [] => True
  | x :: r => (forall y, In y r -> (x <= y)%Q) /\ ascending r
  end.

(** Sample data: yesterday's row of the group of [four_a]. *)
Definition yesterday_row : MarketValue :=
  mkMarketValue 0 "base1-4" "PSA 9" (Some (2400 # 100)) (Some (1700 # 100))
                (Some (3100 # 100)) (Some (3000 # 100)) (Some 800) 3 "C".

End ValueStore.

(** ** Script 02 followed by script 03 *)

Module Pipeline.
Import Resolver Normalizer.

(** The snapshot table after an invocation of the normalizer on a store
    that does not fail. *)
Definition normalize (i : Inputs) (table : list Snapshot) : list Snapshot :=
  committed (final (main reliable i (connected table))).

(** The price keys the normalizer files under one currency, in the order
    of its VALUES list, each with its price type. *)
Definition fields_of (cur : string) : list (string * string) :=
  map (fun f : string * string * string => (fst (fst f), snd f))
      (filter (fun f : string * string * string => String.eqb (snd (fst f)) cur)
              price_fields).

(** The first of the given price keys whose amount is positive, with its
    price type. *)
Fixpoint first_priced (prices : jsonb) (fields : list (string * string))
  : option (string * Z) :=
  match fields with
  | [] => None
  | (k, pt) :: rest =>
      match cents_of_field prices k with
      | Ok (Some c) => if 0 <? c then Some (pt, c) else first_priced prices rest
      | _ => first_priced prices rest
      end
  end.

(** Whether a list of price keys names its price types in the strict order
    of their ranks. *)
Fixpoint ascending_ranks (fields : list (string * string)) : bool :=
  match fields with
  | [] => true
  | (_, pt) :: rest =>
      forallb (fun f : string * string =>
                 price_type_rank pt <? price_type_rank (snd f)) rest
      && ascending_ranks rest
  end.

(** Sample data: a card with a foil and a ticket price only. *)
Definition foil_card : list ScryfallCard :=
  [ card "card-a" [ ("usd", JNull); ("usd_foil", JString "7.50");
                    ("tix", JString "0.02") ] ].

End Pipeline.

(** ** The command line: [parseArgs] and the locals of the two [main]s *)

Module Cli.
Import JsString Resolver Normalizer OnConflict DailyStore.

(** The values [args[k]] can have: [true], a string of [argv], the array
    of positional arguments, and what [args] inherits from
    [Object.prototype] under a name it has no property of its own for. *)
Inductive arg_value :=
| VTrue
| VString (s : string)
| VArray (items : list string)
| VInherited (name : string).

(** The own properties of [args], the latest assignment first. *)
Definition ArgsObject := list (string * arg_value).

(** The names [Object.prototype] defines. *)
Definition inherited (k : string) : bool :=
  existsb (String.eqb k)
          [ "constructor"; "__defineGetter__"; "__defineSetter__"; "hasOwnProperty";
            "__lookupGetter__"; "__lookupSetter__"; "isPrototypeOf";
            "propertyIsEnumerable"; "toString"; "valueOf"; "__proto__";
            "toLocaleString" ].

(** [args[k]]: the own property, else the inherited one, else
    undefined. *)
Definition get (k : string) (args : ArgsObject) : option arg_value :=
  match find (fun kv : string * arg_value => String.eqb (fst kv) k) args with
  | Some kv => Some (snd kv)
  | None => if inherited k then Some (VInherited k) else None
  end.

(** [args[k] = v], for [v] a boolean or a string: under the name
    [__proto__] the assignment reaches the inherited setter, which ignores
    such a value; under another inherited name it makes an own
    property. *)
Definition set (k : string) (v : arg_value) (args : ArgsObject) : ArgsObject :=
  if String.eqb k "__proto__" then args else (k, v) :: args.

(** [s.startsWith(p)] and [s.slice(n)]. *)
Definition startsWith (s p : string) : bool := String.prefix p s.

Fixpoint slice (n : nat) (s : string) : string :=
  match n, s with
  | O, _ => s
  | S k, String _ r => slice k r
  | S _, EmptyString => EmptyString
  end.

Inductive js_error := TypeError.

Inductive completion (A : Type) :=
| Returns (a : A)
| Throws (e : js_error).
Arguments Returns {A} a.
Arguments Throws {A} e.

(** The loop of [parseArgs] on the arguments from [argv[i]] on.  An option
    with a value advances by two.  [args._.push(a)] throws when an option
    named [_] has replaced the array. *)
Fixpoint parse (rest : list string) (args : ArgsObject) : completion ArgsObject :=
  match rest with
  | [] => Returns args
  | a :: tl =>
      if startsWith a "--" then
        let key := slice 2 a in
        match tl with
        | [] => parse tl (set key VTrue args)
        | next :: tl' =>
            if String.eqb next "" || startsWith next "--"
            then parse tl (set key VTrue args)
            else parse tl' (set key (VString next) args)
        end
      else
        match get "_" args with
        | Some (VArray items) => parse tl (set "_" (VArray (items ++ [a])) args)
        | _ => Throws TypeError
        end
  end.

Definition parseArgs (argv : list string) : completion ArgsObject :=
  parse (skipn 2 argv) [("_", VArray [])].

(** Truthiness and [String(v)] of a property that may be undefined. *)
Definition truthy (v : option arg_value) : bool :=
  match v with
  | None => false
  | Some VTrue => true
  | Some (VString s) => negb (String.eqb s "")
  | Some (VArray _) => true
  | Some (VInherited _) => true
  end.

(** [String(v)]; an inherited value is the prototype object under
    [__proto__] and a built-in function under the other names, the
    function [Object] under [constructor]. *)
Definition to_String (v : arg_value) : string :=
  match v with
  | VTrue => "true"
  | VString s => s
  | VArray items => String.concat "," items
  | VInherited name =>
      if String.eqb name "__proto__" then "[object Object]"
      else
        String.append "function "
          (String.append (if String.eqb name "constructor" then "Object" else name)
                         "() { [native code] }")
  end.

(** [v ? String(v) : null] *)
Definition text_of (v : option arg_value) : option string :=
  match v with
  | Some x => if truthy v then Some (to_String x) else None
  | None => None
  end.

(** The argument that names an option. *)
Definition option_name (key : string) : string := String.append "--" key.

(** The positional arguments are still an array. *)
Definition has_array (args : ArgsObject) : Prop :=
  exists items, get "_" args = Some (VArray items).

(** The value an option takes from the arguments that follow its name. *)
Definition value_after (rest : list string) : arg_value :=
  match rest with
  | [] => VTrue
  | next :: _ =>
      if String.eqb next "" || startsWith next "--" then VTrue else VString next
  end.

(** What the arguments say of an option: the value after the last
    argument that names it, undefined when none does. *)
Fixpoint named (key : string) (tokens : list string) : option arg_value :=
  match tokens with
  | [] => None
  | a :: tl =>
      match named key tl with
      | Some v => Some v
      | None => if String.eqb a (option_name key) then Some (value_after tl) else None
      end
  end.

Section Main.

(** The [::date] cast of the store, [None] when it raises, and the date of
    [todayUtcYmd()] / [ymdUtcToday()]. *)
Variable date_in : string -> option Date.
Variable today : Date.

Definition cast (t : string) : result Date :=
  match date_in t with
  | Some d => Ok d
  | None => Err InvalidDateSyntax
  end.

(** *** 03_build_market_price_daily.js *)

(** The locals of [main] with the casts the statement applies to the
    parameters it is given: [asOfDate] without the all-dates flag, [since]
    and [until] with it.  A text that is not passed to the statement is not
    cast; it is kept when it is a date. *)
Definition resolver_args (args : ArgsObject) : result Args :=
  let currency := text_of (get "currency" args) in
  let allDates := truthy (get "all-dates" args) in
  let since := text_of (get "since" args) in
  let until := text_of (get "until" args) in
  if negb allDates then
    asOfDate <- match text_of (get "date" args) with
                | Some t => cast t
                | None => Ok today
                end ;;
    Ok (mkArgs currency (Some asOfDate) false
               (match since with Some t => date_in t | None => None end)
               (match until with Some t => date_in t | None => None end))
  else
    lo <- match since with
          | Some t => d <- cast t ;; Ok (Some d)
          | None => Ok None
          end ;;
    hi <- match until with
          | Some t => d <- cast t ;; Ok (Some d)
          | None => Ok None
          end ;;
    Ok (mkArgs currency
               (match text_of (get "date" args) with Some t => date_in t | None => None end)
               true lo hi).

(** The scope the arguments ask for, when every text the statement is
    given is a date: a bound is read with the all-dates flag only, the
    date without it only. *)
Definition bound_of (o : option string) : option (option Date) :=
  match o with
  | None => Some None
  | Some t => option_map Some (date_in t)
  end.

Definition cli_scope (tokens : list string) : option Scope :=
  if truthy (named "all-dates" tokens) then
    match bound_of (text_of (named "since" tokens)),
          bound_of (text_of (named "until" tokens)) with
    | Some lo, Some hi => Some (DateRange lo hi)
    | _, _ => None
    end
  else
    match text_of (named "date" tokens) with
    | Some t => option_map SingleDate (date_in t)
    | None => Some (SingleDate today)
    end.

(** An invocation of script 03 at the instant [now]: the exit status and
    the daily table it leaves. *)
Definition resolver_main (argv : list string) (now : Z)
           (snapshots : list Snapshot) (table : list DailyRow)
  : Z * list DailyRow :=
  match parseArgs argv with
  | Throws _ => (1, table)
  | Returns args =>
      match resolver_args args with
      | Err _ => (1, table)
      | Ok a =>
          match upsertDaily now today a snapshots table with
          | Upserted table' _ => (0, table')
          | AffectsRowTwice => (1, table)
          end
      end
  end.

(** *** 02_normalize_scryfall_prices.js *)

(** [String(args.date || "").trim() || todayUtcYmd()], after the cast of
    the two statements. *)
Definition normalizer_date (args : ArgsObject) : option Date :=
  let asOfDate :=
    trim (match text_of (get "date" args) with Some t => t | None => "" end) in
  if String.eqb asOfDate "" then Some today else date_in asOfDate.

(** An invocation of script 02 on a store that does not fail: the exit
    status and the snapshot table it leaves. *)
Definition normalizer_main (argv : list string) (items : list MarketItem)
           (cards : list ScryfallCard) (table : list Snapshot)
  : Z * list Snapshot :=
  match parseArgs argv with
  | Throws _ => (1, table)
  | Returns args =>
      let out := main reliable (mkInputs (normalizer_date args) items cards)
                      (connected table) in
      (exit_code out, committed (final out))
  end.

End Main.

(** Sample data: a cast that reads a day number written in decimal
    digits, and command lines. *)
Definition day_in (t : string) : option Date :=
  match t with
  | EmptyString => None
  | _ => match scan_digits t true 0 0 with
         | Some (n, _) => Some n
         | None => None
         end
  end.

Definition node : list string := ["node"; "03_build_market_price_daily.js"].

End Cli.

(** ** 01_import_pricecharting_csv.js: the reader of the CSV file *)

Module Csv.
Import JsString.

(** [cur += ch] *)
Definition push_char (cur : string) (ch : ascii) : string :=
  String.append cur (String ch EmptyString).

(** The loop of [parseCsv] from [text[i]] on, and the final cell. *)
Fixpoint scan (text : string) (inQuotes : bool) (cur : string)
         (row : list string) (rows : list (list string)) : list (list string) :=
  match text with
  | EmptyString =>
      if negb (String.eqb cur "") || negb (Nat.eqb (List.length row) 0)
      then rows ++ [row ++ [cur]]
      else rows
  | String ch rest =>
      if inQuotes then
        if Ascii.eqb ch QUOTE then
          match rest with
          | String next rest' =>
              if Ascii.eqb next QUOTE
              then scan rest' true (push_char cur QUOTE) row rows
              else scan rest false cur row rows
          | EmptyString => scan rest false cur row rows
          end
        else scan rest true (push_char cur ch) row rows
      else if Ascii.eqb ch QUOTE then scan rest true cur row rows
      else if Ascii.eqb ch "," then scan rest false "" (row ++ [cur]) rows
      else if Ascii.eqb ch LF then scan rest false "" [] (rows ++ [row ++ [cur]])
      else if Ascii.eqb ch CR then scan rest false cur row rows
      else scan rest false (push_char cur ch) row rows
  end.

Definition parseCsv (text : string) : list (list string) :=
  scan text false "" [] [].

(** The characters the loop appends to the cell when it meets them
    outside quotation marks. *)
Definition is_plain (c : ascii) : bool :=
  negb (Ascii.eqb c QUOTE || Ascii.eqb c "," || Ascii.eqb c LF || Ascii.eqb c CR).

(** Whether a text, its carriage returns apart, is empty or ends with a
    line feed, that is, whether its last line is blank; [start] says so of
    what stands before the text. *)
Fixpoint at_line_start (start : bool) (s : string) : bool :=
  match s with
  | EmptyString => start
  | String c r =>
      if Ascii.eqb c CR then at_line_start start r
      else at_line_start (Ascii.eqb c LF) r
  end.

Definition ends_line (text : string) : bool := at_line_start true text.

(** A text that does not start with a quotation mark. *)
Definition starts_unquoted (s : string) : Prop :=
  match s with
  | EmptyString => True
  | String c _ => Ascii.eqb c QUOTE = false
  end.

(** [.replace(/\s+/g, "_")]: every run of white space becomes one
    underscore; [in_run] says that the character before was white space. *)
Fixpoint spaces_to_underscore (in_run : bool) (s : string) : string :=
  match s with
  | EmptyString => EmptyString
  | String c r =>
      if is_space c then
        if in_run then spaces_to_underscore true r
        else String "_" (spaces_to_underscore true r)
      else String c (spaces_to_underscore false r)
  end.

(** The class [[a-z0-9_]]. *)
Definition is_word (c : ascii) : bool :=
  let n := code c in
  (Nat.leb 97 n && Nat.leb n 122) || (Nat.leb 48 n && Nat.leb n 57) || Nat.eqb n 95.

Definition normalizeHeader (h : string) : string :=
  remove (fun c => negb (is_word c))
         (spaces_to_underscore false (toLowerCase (trim h))).

(** The object [idx] after [headers.forEach((h, i) => (idx[h] = i))], its
    own properties with the latest assignment first.  The assignment of a
    number under the name [__proto__] reaches the inherited setter, which
    ignores it. *)
Fixpoint index_from (i : nat) (headers : list string) (idx : list (string * nat))
  : list (string * nat) :=
  match headers with
  | [] => idx
  | h :: r =>
      index_from (S i) r (if String.eqb h "__proto__" then idx else (h, i) :: idx)
  end.

Definition index_of (header_row : list string) : list (string * nat) :=
  index_from 0 (map normalizeHeader header_row) [].

(** What [idx[k]] is: the number of a column, something inherited from
    [Object.prototype] (of the names [normalizeHeader] can return, these are
    [constructor] and [__proto__]), or undefined. *)
Inductive idx_value :=
| Column (i : nat)
| Inherited
| Undefined.

Definition idx_get (idx : list (string * nat)) (k : string) : idx_value :=
  match find (fun e : string * nat => String.eqb (fst e) k) idx with
  | Some e => Column (snd e)
  | None =>
      if String.eqb k "constructor" || String.eqb k "__proto__" then Inherited
      else Undefined
  end.

(** [getCell(r, ...names)]: [r[x] ?? ""] is empty for a column the row does
    not have and for an [x] that is not a number. *)
Fixpoint getCell (idx : list (string * nat)) (r : list string) (names : list string)
  : string :=
  match names with
  | [] => ""
  | n :: rest =>
      match idx_get idx (normalizeHeader n) with
      | Column i => nth i r ""
      | Inherited => ""
      | Undefined => getCell idx r rest
      end
  end.

(** The column a name stands for: the last one whose header normalizes to
    the normalized name. *)
Fixpoint last_column (k : string) (i : nat) (headers : list string) : option nat :=
  match headers with
  | [] => None
  | h :: r =>
      match last_column k (S i) r with
      | Some j => Some j
      | None => if String.eqb (normalizeHeader h) k then Some i else None
      end
  end.

(** The column [getCell] reads for a list of names: that of the first
    name that stands for a column. *)
Fixpoint first_column (names : list string) (header_row : list string) : option nat :=
  match names with
  | [] => None
  | n :: rest =>
      match last_column (normalizeHeader n) 0 header_row with
      | Some j => Some j
      | None => first_column rest header_row
      end
  end.

(** The capital of an ASCII letter, for the statements on letter case. *)
Fixpoint ascii_capitals (s : string) : string :=
  match s with
  | EmptyString => EmptyString
  | String c r =>
      String (if Nat.leb 97 (code c) && Nat.leb (code c) 122
              then ascii_of_nat (code c - 32) else c)
             (ascii_capitals r)
  end.

(** Sample data: a header row with the same header twice, and a row. *)
Definition sample_headers : list string :=
  [ "id"; " Product Name "; "Loose-Price"; "LOOSE-PRICE" ].

Definition sample_row : list string := [ "7"; "Mew"; "1.00"; "2.00" ].

End Csv.

(** ** exportGoogleMerchantFeed.mjs: the writer of the feed file *)

Module Feed.
Import JsString.

Inductive format := Tsv | Csv.

(** [FEED_FORMAT === "csv" ? "," : "\t"] *)
Definition DELIM (f : format) : string :=
  match f with
  | Csv => ","
  | Tsv => String TAB EmptyString
  end.

Definition HEADERS : list string :=
  [ "id"; "title"; "description"; "availability"; "availability date";
    "expiration date"; "link"; "mobile link"; "image link"; "price";
    "sale price"; "sale price effective date"; "identifier exists"; "gtin";
    "mpn"; "brand"; "product highlight"; "product detail";
    "additional image link"; "condition"; "adult"; "color"; "size";
    "size type"; "size system"; "gender"; "material"; "pattern"; "age group";
    "multipack"; "is bundle"; "unit pricing measure";
    "unit pricing base measure"; "energy efficiency class";
    "min energy efficiency class"; "item group id";
    "sell on google quantity" ].

(** [.replace(/\r\n/g, " ")] *)
Fixpoint replace_crlf (s : string) : string :=
  match s with
  | EmptyString => EmptyString
  | String c r =>
      match r with
      | String c' r' =>
          if Ascii.eqb c CR && Ascii.eqb c' LF then String " " (replace_crlf r')
          else String c (replace_crlf r)
      | EmptyString => String c EmptyString
      end
  end.

(** [.replace(/\s\s+/g, " ")]: a run of two or more white-space characters
    becomes one space, a single one stays; [in_run] says that the run the
    character belongs to has been replaced already. *)
Fixpoint collapse_spaces (in_run : bool) (s : string) : string :=
  match s with
  | EmptyString => EmptyString
  | String c r =>
      if is_space c then
        if in_run then collapse_spaces true r
        else
          match r with
          | String c' _ =>
              if is_space c' then String " " (collapse_spaces true r)
              else String c (collapse_spaces false r)
          | EmptyString => String c EmptyString
          end
      else String c (collapse_spaces false r)
  end.

(** [sanitizeField(value)], on [String(value)], or [None] for null and
    undefined. *)
Definition sanitizeField (value : option string) : string :=
  match value with
  | None => ""
  | Some s =>
      let s := replace_crlf s in
      let s := replace_each (Ascii.eqb CR) " " s in
      let s := replace_each (Ascii.eqb LF) " " s in
      let s := remove (Ascii.eqb NUL) s in
      trim (collapse_spaces false s)
  end.

(** The replacement of every quotation mark by two. *)
Fixpoint double_quotes (s : string) : string :=
  match s with
  | EmptyString => EmptyString
  | String c r =>
      if Ascii.eqb c QUOTE then String QUOTE (String QUOTE (double_quotes r))
      else String c (double_quotes r)
  end.

(** The CSV branch of [escapeForFormat], after [sanitizeField]. *)
Definition csv_quote (s : string) : string :=
  if test (fun c => Ascii.eqb c QUOTE || Ascii.eqb c ",") s
  then String QUOTE (String.append (double_quotes s) (String QUOTE EmptyString))
  else s.

(** A table written the way the CSV branch writes the feed: the cells
    of a row between commas, the rows between CR LF. *)
Definition csv_line (cells : list string) : string :=
  join "," (map csv_quote cells).

Definition csv_text (table : list (list string)) : string :=
  join (String CR (String LF EmptyString)) (map csv_line table).

(** The characters [sanitizeField] lets through: all but the line breaks
    and the NUL. *)
Definition is_kept (c : ascii) : bool :=
  negb (Ascii.eqb c CR || Ascii.eqb c LF || Ascii.eqb c NUL).

Definition escapeForFormat (f : format) (value : option string) : string :=
  let s := sanitizeField value in
  match f with
  | Csv => csv_quote s
  | Tsv => replace_each (Ascii.eqb TAB) " " s
  end.

(** A row object of [main]: what it holds under each header, as
    [String(...)] gives it, or [None] for null and undefined. *)
Definition RowObject := string -> option string.

(** [obj[h] ?? ""] *)
Definition field (obj : RowObject) (h : string) : option string :=
  match obj h with
  | Some s => Some s
  | None => Some ""
  end.

Definition joinRow (f : format) (obj : RowObject) : string :=
  join (DELIM f) (map (fun h => escapeForFormat f (field obj h)) HEADERS).

Definition header_line (f : format) : string :=
  join (DELIM f) (map (fun h => escapeForFormat f (Some h)) HEADERS).

(** The text [main] writes for the row objects it has built:
    [lines.join("\r\n")]. *)
Definition feed_text (f : format) (objs : list RowObject) : string :=
  join (String CR (String LF EmptyString))
       (header_line f :: map (joinRow f) objs).

(** The table a reader of the file should find: the headers, then for
    every row object its sanitized fields. *)
Definition feed_table (objs : list RowObject) : list (list string) :=
  HEADERS :: map (fun obj => map (fun h => sanitizeField (field obj h)) HEADERS) objs.

(** [mapAvailability] and [sellOnGoogleQty], on a status that may be NULL
    and an integer quantity that may be NULL; [q] is [Number(qty ?? 0)]. *)
Definition mapAvailability (status : option string) (qty : option Z) : string :=
  let q := js_number (match qty with Some q => q | None => 0 end) in
  let s := toLowerCase (match status with Some s => s | None => "" end) in
  if negb (String.eqb s "active") then "out_of_stock"
  else if 0 <? q then "in_stock" else "out_of_stock".

Definition sellOnGoogleQty (status : option string) (qty : option Z) : Z :=
  let s := toLowerCase (match status with Some s => s | None => "" end) in
  if negb (String.eqb s "active") then 0
  else
    let q := js_number (match qty with Some q => q | None => 0 end) in
    if 0 <? q then q else 0.

(** Sample data: a row object whose title has a line break, a tab, a
    comma and a quotation mark in it. *)
Definition messy_title : string :=
  String.append "Charizard, "
    (String.append (String QUOTE (String.append "1st" (String QUOTE EmptyString)))
       (String CR (String LF (String TAB "holo")))).

Definition messy_row : RowObject :=
  fun h => if String.eqb h "title" then Some messy_title
           else if String.eqb h "id" then Some "17"
           else None.

End Feed.

(** ** cronRevalueAll.mjs: the header value *)

Module Cron.
Import JsString.

(** The class [[0-9;]], and [[mK]]. *)
Definition is_param (c : ascii) : bool :=
  let n := code c in (Nat.leb 48 n && Nat.leb n 57) || Nat.eqb n 59.

Definition is_final (c : ascii) : bool := Ascii.eqb c "m" || Ascii.eqb c "K".

(** The length of the longest run of [[0-9;]] at the start of a text when
    one of [[mK]] follows it, which is when [[0-9;]*[mK]] matches there. *)
Fixpoint params_then_final (s : string) : option nat :=
  match s with
  | EmptyString => None
  | String c r =>
      if is_param c then option_map S (params_then_final r)
      else if is_final c then Some O
      else None
  end.

(** The length of a match of [\x1B\[[0-9;]*[mK]] at the start of a text. *)
Definition ansi_at (s : string) : option nat :=
  match s with
  | String c (String c' r) =>
      if Ascii.eqb c ESC && Ascii.eqb c' "["
      then option_map (fun n => (n + 3)%nat) (params_then_final r)
      else None
  | _ => None
  end.

(** [.replace(/\x1B\[[0-9;]*[mK]/g, "")]: [skip] characters of a match
    are still to be dropped. *)
Fixpoint strip_ansi (skip : nat) (s : string) : string :=
  match s with
  | EmptyString => EmptyString
  | String c r =>
      match skip with
      | S k => strip_ansi k r
      | O =>
          match ansi_at s with
          | Some n => strip_ansi (n - 1) r
          | None => String c (strip_ansi 0 r)
          end
      end
  end.

(** The class [[\x20-\x7E]]. *)
Definition is_visible (c : ascii) : bool :=
  let n := code c in Nat.leb 32 n && Nat.leb n 126.

(** [sanitizeHeaderValue(input)], on [String(input ?? "")]. *)
Definition sanitizeHeaderValue (input : string) : string :=
  let noAnsi := strip_ansi 0 input in
  let noNewlines := remove (fun c => Ascii.eqb c CR || Ascii.eqb c LF) noAnsi in
  let ascii_ := remove (fun c => negb (is_visible c)) noNewlines in
  trim ascii_.

(** A sequence the first replacement removes, in front of a text. *)
Definition ansi_sequence (params : string) (final : ascii) (rest : string) : string :=
  String ESC (String "[" (String.append params (String final rest))).

(** Sample data: a token printed in green, with a line end. *)
Definition green_token : string :=
  String ESC (String.append "[32msecret-token"
    (String ESC (String.append "[0m" (String CR (String LF EmptyString))))).

End Cron.

(** ** revalueCollection.mjs *)

Module Revalue.
Import JsString Normalizer.

(** *** Numbers

    The counters of the script are JavaScript numbers that hold integers.
    A sum or a product of two such numbers is the exact result rounded to
    53 significant bits ([round53]), which changes nothing below 2^53. *)
Definition js_add (a b : Z) : Z := round53 (a + b).
Definition js_mul (a b : Z) : Z := round53 (a * b).

(** [(z)::bigint] *)
Definition to_int8 (z : Z) : result Z :=
  if (- 9223372036854775808 <=? z) && (z <=? 9223372036854775807) then Ok z
  else Err IntegerOutOfRange.

(** *** Rows *)

(** The declarations of [user_collection_items] and
    [user_collection_daily_valuations] are not among the sources.  The
    records have the columns the statements of the script name, with
    integers for the quantities and the amounts; an identifier is the text
    [String(...)] gives. *)
Record Item := mkItem {
  it_id : string;
  it_user_id : string;
  it_game : option string;
  it_card_id : option string;
  it_quantity : option Z;
  it_cost_cents : option Z;
  it_last_value_cents : option Z;
  it_updated_at : Z
}.

Record Valuation := mkValuation {
  va_user_id : string;
  va_as_of_date : Date;
  va_total_quantity : Z;
  va_distinct_items : Z;
  va_total_cost_cents : Z;
  va_total_value_cents : Z
}.

(** The aggregate [main] keeps for a user. *)
Record Agg := mkAgg {
  totalQty : Z;
  distinctItems : Z;
  totalCostCents : Z;
  totalValueCents : Z
}.

Section Prices.

(** A price as the loaders store it, [Number(...)] of a numeric, and
    [Number.isFinite(price) ? Math.round(price * 100) : null]: the product
    and the rounding are those of binary64 and are not opened here. *)
Variable Price : Type.
Variable cents_of : Price -> option Z.

(** *** The loaders *)

(** A row of a price query: the card identifier and the price, each of
    which may be NULL. *)
Record PriceRow := mkPriceRow {
  pr_card_id : option string;
  pr_price : option Price
}.

(** A [Map] from card identifiers to prices, the latest entry first. *)
Definition PriceMap := list (string * Price).

Definition map_get (k : string) (m : PriceMap) : option Price :=
  match find (fun e : string * Price => String.eqb (fst e) k) m with
  | Some e => Some (snd e)
  | None => None
  end.

Definition map_has (k : string) (m : PriceMap) : bool :=
  match map_get k m with Some _ => true | None => false end.

Definition map_set (k : string) (v : Price) (m : PriceMap) : PriceMap := (k, v) :: m.

(** The loop [for (const r of rows) if (r.card_id && r.price != null ...)
    map.set(r.card_id, Number(r.price))]; with [only_missing] the condition
    has [!map.has(r.card_id)] as well. *)
Definition load_rows (only_missing : bool) (rows : list PriceRow) (m : PriceMap)
  : PriceMap :=
  fold_left
    (fun m r =>
       match pr_card_id r, pr_price r with
       | Some id, Some p =>
           if String.eqb id "" then m
           else if only_missing && map_has id m then m
           else map_set id p m
       | _, _ => m
       end)
    rows m.

(** [loadPokemonPrices]: the rows of the TCGplayer query, then those of
    the eBay query, which is [None] when it throws. *)
Definition loadPokemonPrices (tcgplayer : list PriceRow)
           (ebay : option (list PriceRow)) : PriceMap :=
  let map := load_rows false tcgplayer [] in
  match ebay with
  | Some ebayRows => load_rows true ebayRows map
  | None => map
  end.

Definition loadYgoPrices (rows : list PriceRow) : PriceMap := load_rows false rows [].

Definition loadMtgPrices (rows : list PriceRow) : PriceMap := load_rows false rows [].

Record Maps := mkMaps {
  pokemonPrices : PriceMap;
  ygoPrices : PriceMap;
  mtgPrices : PriceMap
}.

(** *** The price of an item *)

Definition getPriceForItem (item : Item) (maps : Maps) : option Price :=
  let game := toLowerCase (match it_game item with Some g => g | None => "" end) in
  match it_card_id item with
  | None => None
  | Some cardId =>
      if String.eqb cardId "" then None
      else if String.eqb game "pokemon" then map_get cardId (pokemonPrices maps)
      else if String.eqb game "ygo" || String.eqb game "yugioh"
      then map_get cardId (ygoPrices maps)
      else if String.eqb game "mtg" || String.eqb game "magic"
      then map_get cardId (mtgPrices maps)
      else None
  end.

(** [const priceCents = price != null && Number.isFinite(price) ?
    Math.round(price * 100) : null] *)
Definition priceCents (item : Item) (maps : Maps) : option Z :=
  match getPriceForItem item maps with
  | Some price => cents_of price
  | None => None
  end.

(** [Number(item.quantity || 0)] *)
Definition qty_of (item : Item) : Z :=
  match it_quantity item with Some q => js_number q | None => 0 end.

(** *** The loop over the items *)

(** [perUser], in the order in which the users were first met. *)
Definition PerUser := list (string * Agg).

Definition per_user_get (u : string) (perUser : PerUser) : option Agg :=
  match find (fun e : string * Agg => String.eqb (fst e) u) perUser with
  | Some e => Some (snd e)
  | None => None
  end.

(** The aggregate of a user after one more item. *)
Definition add_item (maps : Maps) (item : Item) (agg : Agg) : Agg :=
  let qty := qty_of item in
  mkAgg (js_add (totalQty agg) qty)
        (js_add (distinctItems agg) 1)
        (match it_cost_cents item with
         | Some cost => js_add (totalCostCents agg) (js_mul (js_number cost) qty)
         | None => totalCostCents agg
         end)
        (match priceCents item maps with
         | Some cents => js_add (totalValueCents agg) (js_mul cents qty)
         | None => totalValueCents agg
         end).

Fixpoint per_user_put (u : string) (f : Agg -> Agg) (perUser : PerUser) : PerUser :=
  match perUser with
  | [] => [(u, f (mkAgg 0 0 0 0))]
  | (u', agg) :: rest =>
      if String.eqb u' u then (u', f agg) :: rest
      else (u', agg) :: per_user_put u f rest
  end.

(** The body of the loop: one entry of [updates], and the aggregate of the
    user of the item. *)
Definition loop (maps : Maps) (items : list Item)
  : list (string * option Z) * PerUser :=
  fold_left
    (fun (st : list (string * option Z) * PerUser) item =>
       (fst st ++ [(it_id item, priceCents item maps)],
        per_user_put (it_user_id item) (add_item maps item) (snd st)))
    items ([], []).

(** *** The statements *)

(** [UPDATE user_collection_items AS u SET last_value_cents =
    v.last_value_cents FROM (VALUES ...) AS v WHERE u.id::text = v.id], with
    the cast [::int] of every value that is not NULL. *)
Definition cast_update (u : string * option Z) : result (string * option Z) :=
  match snd u with
  | Some c => c' <- to_int4 c ;; Ok (fst u, Some c')
  | None => Ok (fst u, None)
  end.

Fixpoint cast_all {A B} (f : A -> result B) (l : list A) : result (list B) :=
  match l with
  | [] => Ok []
  | x :: r =>
      y <- f x ;;
      ys <- cast_all f r ;;
      Ok (y :: ys)
  end.

Definition apply_update (now : Z) (values : list (string * option Z)) (item : Item)
  : Item :=
  match find (fun v : string * option Z => String.eqb (it_id item) (fst v)) values with
  | Some v =>
      mkItem (it_id item) (it_user_id item) (it_game item) (it_card_id item)
             (it_quantity item) (it_cost_cents item) (snd v) now
  | None => item
  end.

(** One row of the VALUES list of the INSERT, with its casts; the totals
    go through [|| 0]. *)
Definition valuation_of (asOfDate : Date) (e : string * Agg) : result Valuation :=
  let or_zero (z : Z) := if z =? 0 then 0 else z in
  q <- to_int4 (totalQty (snd e)) ;;
  n <- to_int4 (distinctItems (snd e)) ;;
  cost <- to_int8 (or_zero (totalCostCents (snd e))) ;;
  value <- to_int8 (or_zero (totalValueCents (snd e))) ;;
  Ok (mkValuation (fst e) asOfDate q n cost value).

(** A statement takes at most 65535 parameters: the protocol counts them
    in 16 bits, and the store raises on a statement with more. *)
Definition bind_parameters (n : nat) : result unit :=
  if 65535 <? Z.of_nat n then Err StoreFailure else Ok tt.

(** The two tables. *)
Record Store := mkStore {
  items_table : list Item;
  valuations_table : list Valuation
}.

(** The loop and the statements between BEGIN and COMMIT, on a store that
    does not fail, at the instant [now]: the store they leave, or the error
    of a cast.  [items] are the rows the SELECT has returned, in its
    order. *)
Definition transaction (now : Z) (asOfDate : Date) (maps : Maps)
           (items : list Item) (s : Store) : result Store :=
  let '(updates, perUser) := loop maps items in
  items' <-
    match updates with
    | [] => Ok (items_table s)
    | _ =>
        _ <- bind_parameters (2 * List.length updates) ;;
        values <- cast_all cast_update updates ;;
        Ok (map (apply_update now values) (items_table s))
    end ;;
  valuations' <-
    match perUser with
    | [] => Ok (valuations_table s)
    | _ =>
        _ <- bind_parameters (6 * List.length perUser) ;;
        rows <- cast_all (valuation_of asOfDate) perUser ;;
        Ok (filter (fun v => negb (va_as_of_date v =? asOfDate)) (valuations_table s)
            ++ rows)
    end ;;
  Ok (mkStore items' valuations').

(** [main], with the maps the loaders have returned: the exit status and
    the store.  Without items nothing is sent; an error is answered by
    ROLLBACK and the exit status 1. *)
Definition main (now : Z) (asOfDate : Date) (maps : Maps)
           (items : list Item) (s : Store) : Z * Store :=
  match items with
  | [] => (0, s)
  | _ =>
      match transaction now asOfDate maps items s with
      | Ok s' => (0, s')
      | Err _ => (1, s)
      end
  end.

(** *** Notions for the properties below *)

(** The items of a user, and exact sums over items. *)
Definition of_user (u : string) (items : list Item) : list Item :=
  filter (fun i => String.eqb (it_user_id i) u) items.

Definition sum_of (f : Item -> Z) (items : list Item) : Z :=
  fold_right (fun i acc => f i + acc) 0 items.

Definition cost_of (item : Item) : Z :=
  match it_cost_cents item with Some c => c * qty_of item | None => 0 end.

Definition value_of (maps : Maps) (item : Item) : Z :=
  match priceCents item maps with Some c => c * qty_of item | None => 0 end.

(** The row of a user of [items] in the valuations of a day. *)
Definition valuation_row (maps : Maps) (asOfDate : Date) (u : string)
           (items : list Item) : Valuation :=
  let own := of_user u items in
  mkValuation u asOfDate (sum_of qty_of own) (Z.of_nat (List.length own))
              (sum_of cost_of own) (sum_of (value_of maps) own).

(** The valuations of the user [u] for a day, and those of other days. *)
Definition valuations_of (u : string) (asOfDate : Date) (table : list Valuation)
  : list Valuation :=
  filter (fun v => String.eqb (va_user_id v) u && (va_as_of_date v =? asOfDate)) table.

Definition other_days (asOfDate : Date) (table : list Valuation) : list Valuation :=
  filter (fun v => negb (va_as_of_date v =? asOfDate)) table.

(** The item after a run at [now] that has priced it. *)
Definition revalued (maps : Maps) (now : Z) (item : Item) : Item :=
  mkItem (it_id item) (it_user_id item) (it_game item) (it_card_id item)
         (it_quantity item) (it_cost_cents item) (priceCents item maps) now.

(** The price the first row of [rows] gives for a card, and the last. *)
Definition prices (k : string) (r : PriceRow) : bool :=
  match pr_card_id r, pr_price r with
  | Some id, Some _ => String.eqb id k
  | _, _ => false
  end.

Definition first_price (k : string) (rows : list PriceRow) : option Price :=
  match find (prices k) rows with
  | Some r => pr_price r
  | None => None
  end.

Definition last_price (k : string) (rows : list PriceRow) : option Price :=
  first_price k (rev rows).

(** Non-negative quantities, costs and prices, with sums below 2^53. *)
Definition within_safe_range (maps : Maps) (items : list Item) : Prop :=
  Forall (fun i => 0 <= qty_of i
                   /\ match it_cost_cents i with Some c => 0 <= c | None => True end
                   /\ match priceCents i maps with Some c => 0 <= c | None => True end)
         items
  /\ sum_of qty_of items < 2 ^ 53
  /\ Z.of_nat (List.length items) < 2 ^ 53
  /\ sum_of cost_of items < 2 ^ 53
  /\ sum_of (value_of maps) items < 2 ^ 53.

End Prices.

Arguments mkPriceRow {Price}.
Arguments pr_card_id {Price}.
Arguments pr_price {Price}.
Arguments map_get {Price}.
Arguments map_has {Price}.
Arguments map_set {Price}.
Arguments load_rows {Price}.
Arguments loadPokemonPrices {Price}.
Arguments loadYgoPrices {Price}.
Arguments loadMtgPrices {Price}.
Arguments mkMaps {Price}.
Arguments pokemonPrices {Price}.
Arguments ygoPrices {Price}.
Arguments mtgPrices {Price}.
Arguments getPriceForItem {Price}.
Arguments priceCents {Price}.
Arguments add_item {Price}.
Arguments loop {Price}.
Arguments transaction {Price}.
Arguments main {Price}.
Arguments value_of {Price}.
Arguments within_safe_range {Price}.
Arguments valuation_row {Price}.
Arguments revalued {Price}.
Arguments prices {Price}.
Arguments first_price {Price}.
Arguments last_price {Price}.

(** Sample data: prices in cents, two users, three items. *)
Definition sample_maps : Maps Z :=
  mkMaps [("base1-4", 1250)] [] [("abc", 300)].

Definition sample_items : list Item :=
  [ mkItem "1" "ann" (Some "Pokemon") (Some "base1-4") (Some 2) (Some 1000) None 0;
    mkItem "2" "ann" (Some "mtg") (Some "zzz") (Some 1) None (Some 77) 0;
    mkItem "3" "bob" (Some "magic") (Some "abc") (Some 3) (Some 100) None 0 ].

Definition sample_store : Store :=
  mkStore sample_items [ mkValuation "ann" 99 1 1 1 1; mkValuation "ann" 100 9 9 9 9 ].

Definition sample_tcgplayer : list (PriceRow Z) :=
  [ mkPriceRow (Some "a") (Some 100); mkPriceRow (Some "b") None;
    mkPriceRow (Some "a") (Some 120) ].

Definition sample_ebay : list (PriceRow Z) :=
  [ mkPriceRow (Some "a") (Some 5); mkPriceRow (Some "b") (Some 7);
    mkPriceRow (Some "b") (Some 9) ].

End Revalue.

(** ** 01_import_pricecharting_csv.js: amounts and the import *)

Module Importer.
Import JsString Csv Normalizer OnConflict Cli.

(** *** Numbers

    A finite JavaScript number is the rational it stands for; the two
    zeros are one.  [binary64 x] is the number nearest to the real [x], the
    one with the even significand on a tie, an infinity from
    2^1024 - 2^970 on: significands have 53 bits, the least exponent of the
    last bit is -1074. *)
Inductive js_number :=
| Finite (x : Q)
| Infinity (negative : bool).

(** The integer nearest to [a / b] for a positive [b], the even one on a
    tie. *)
Definition round_half_even (a b : Z) : Z :=
  let q := a / b in
  let r := a mod b in
  if 2 * r <? b then q
  else if b <? 2 * r then q + 1
  else if Z.even q then q else q + 1.

(** The integer part of the binary logarithm of [p / q], for positive [p]
    and [q]. *)
Definition floor_log2 (p q : Z) : Z :=
  if q <=? p then Z.log2 (p / q) else - Z.log2_up ((q + p - 1) / p).

Definition binary64 (x : Q) : js_number :=
  let p := Z.abs (Qnum x) in
  let q := Zpos (Qden x) in
  if p =? 0 then Finite 0
  else
    let e := Z.max (floor_log2 p q - 52) (- 1074) in
    let m := if 0 <=? e then round_half_even p (q * 2 ^ e)
             else round_half_even (p * 2 ^ (- e)) q in
    if (971 <? e) || ((e =? 971) && (2 ^ 53 <=? m)) then Infinity (Qnum x <? 0)
    else Finite (if 0 <=? e then inject_Z (Z.sgn (Qnum x) * m * 2 ^ e)
                 else (Z.sgn (Qnum x) * m) # Z.to_pos (2 ^ (- e))).

(** [a * b] *)
Definition js_times (a b : Q) : js_number := binary64 (a * b).

(** An integer as [Math.round] returns it. *)
Inductive js_integer :=
| Int (z : Z)
| Inf (negative : bool).

(** [Math.round(x)]: the integer nearest to [x], the greater one on a
    tie. *)
Definition Math_round (x : js_number) : js_integer :=
  match x with
  | Finite q => Int (Qfloor (q + (1 # 2)))
  | Infinity s => Inf s
  end.

(** *** [centsFromMoney] *)

Definition digit_value (c : ascii) : Z := Z.of_nat (code c - 48).

(** The digits at the start of a text: the number they write after [acc],
    how many they are, and the rest of the text. *)
Fixpoint digits (s : string) (acc : Z) (n : nat) : Z * nat * string :=
  match s with
  | String c r =>
      if is_digit c then digits r (10 * acc + digit_value c) (S n)
      else (acc, n, s)
  | EmptyString => (acc, n, s)
  end.

(** The value of a text that [/^-?\d+(\.\d+)?$/] matches, [None] for
    another text. *)
Definition decimal (s : string) : option Q :=
  let (sign, body) :=
    match s with
    | String "-" r => (-1, r)
    | _ => (1, s)
    end in
  let '(int, n, rest) := digits body 0 0 in
  if Nat.eqb n 0 then None
  else
    match rest with
    | EmptyString => Some (inject_Z (sign * int))
    | String "." frac =>
        let '(all, k, rest') := digits frac int 0 in
        if Nat.eqb k 0 then None
        else
          match rest' with
          | EmptyString => Some ((sign * all) # (10 ^ Pos.of_nat k))
          | _ => None
          end
    | _ => None
    end.

(** The text the pattern is tested on, and the value read from it. *)
Definition cleaned (s : string) : string :=
  remove (fun c => Ascii.eqb c "$" || Ascii.eqb c ",") s.

Definition money_value (v : string) : option Q :=
  let s := trim v in
  if String.eqb s "" then None else decimal (cleaned s).

(** [centsFromMoney(v)] for a text [v]: [None] is null; [Number(cleaned)]
    is the number nearest to the value of the text. *)
Definition centsFromMoney (v : string) : option js_integer :=
  match money_value v with
  | None => None
  | Some value =>
      match binary64 value with
      | Infinity _ => None
      | Finite n => Some (Math_round (js_times n 100))
      end
  end.

(** *** The statement *)

(** The names [main] tries for each of the nine prices, in the order of
    the columns of the statement. *)
Definition price_columns : list (list string) :=
  [ ["loose-price"; "loose_price"; "loose_price_cents"];
    ["cib-price"; "cib_price"; "cib_price_cents"];
    ["new-price"; "new_price"; "new_price_cents"];
    ["graded-price"; "graded_price"; "graded_price_cents"];
    ["box-only-price"; "box_only_price"; "box_only_price_cents"];
    ["manual-only-price"; "manual_only_price"; "manual_only_price_cents"];
    ["bgs-10-price"; "bgs_10_price"; "bgs_10_price_cents"];
    ["cgc-10-price"; "cgc_10_price"; "cgc_10_price_cents"];
    ["psa-10-price"; "psa_10_price"; "psa_10_price_cents"] ].

(** The parameters of one [upsertSql]; [sourceDate] is [true] when the
    option [--date] has no value. *)
Record Params := mkParams {
  p_game : string;
  p_pricecharting_id : string;
  p_product_name : string;
  p_console_name : option string;
  p_prices : list (option js_integer);
  p_release_date : option string;
  p_source_date : arg_value;
  p_raw : list (string * string)
}.

(** [s || null] *)
Definition or_null (s : string) : option string :=
  if String.eqb s "" then None else Some s.

(** [rawObj] after [headers.forEach((h, j) => { rawObj[h] = r[j] ?? ""; })],
    the latest assignment first; a text assigned under the name [__proto__]
    is ignored by the inherited setter. *)
Fixpoint raw_from (j : nat) (headers : list string) (r : list string)
         (rawObj : list (string * string)) : list (string * string) :=
  match headers with
  | [] => rawObj
  | h :: rest =>
      raw_from (S j) rest r
               (if String.eqb h "__proto__" then rawObj else (h, nth j r "") :: rawObj)
  end.

(** The body of the loop up to the statement: [None] when the row is
    skipped. *)
Definition params_of (idx : list (string * nat)) (headers : list string)
           (game : string) (sourceDate : arg_value) (r : list string)
  : option Params :=
  if Nat.eqb (List.length r) 0 then None
  else
    let pricecharting_id := trim (getCell idx r ["id"; "pricecharting_id"; "product_id"]) in
    let product_name := trim (getCell idx r ["product-name"; "product_name"; "name"]) in
    if String.eqb pricecharting_id "" || String.eqb product_name "" then None
    else
      Some (mkParams game pricecharting_id product_name
                     (or_null (trim (getCell idx r ["console-name"; "console_name"])))
                     (map (fun names => centsFromMoney (getCell idx r names))
                          price_columns)
                     (or_null (trim (getCell idx r ["release-date"; "release_date"])))
                     sourceDate
                     (raw_from 0 headers r [])).

(** The declarations of [pricecharting_prices_raw] and
    [pricecharting_import_runs] are not among the sources.  A row has the
    columns the statements name; [source_date] and [release_date] are
    dates, the nine prices are of one integer type, and the conflict target
    [(game, pricecharting_id, source_date)] is a unique index, without which
    the statement is rejected. *)
Record RawRow := mkRawRow {
  game : string;
  pricecharting_id : string;
  product_name : string;
  console_name : option string;
  price_cents : list (option Z);
  release_date : option Date;
  source_date : Date;
  raw : list (string * string);
  updated_at : Z
}.

Record ImportRun := mkImportRun {
  run_id : Z;
  run_game : string;
  file_name : string;
  file_sha256 : string;
  meta_source_date : arg_value;
  row_count : option Z
}.

Record Store := mkStore {
  import_runs : list ImportRun;
  prices_raw : list RawRow
}.

Definition RawKey := (string * string * Date)%type.

Definition raw_key (r : RawRow) : RawKey :=
  (game r, pricecharting_id r, source_date r).

Definition raw_key_eqb (a b : RawKey) : bool :=
  let '(g1, i1, d1) := a in
  let '(g2, i2, d2) := b in
  String.eqb g1 g2 && String.eqb i1 i2 && (d1 =? d2).

Fixpoint each {A B} (f : A -> result B) (l : list A) : result (list B) :=
  match l with
  | [] => Ok []
  | x :: r =>
      y <- f x ;;
      ys <- each f r ;;
      Ok (y :: ys)
  end.

Section Run.

(** The casts of the store: a text to a date, [None] when it raises, and
    the range of the integer type of the prices. *)
Variable date_in : string -> option Date.
Variable fits : Z -> bool.

Definition cast_date (t : string) : result Date :=
  match date_in t with
  | Some d => Ok d
  | None => Err InvalidDateSyntax
  end.

Definition cast_cents (c : option js_integer) : result (option Z) :=
  match c with
  | None => Ok None
  | Some (Int z) => if fits z then Ok (Some z) else Err IntegerOutOfRange
  | Some (Inf _) => Err (InvalidNumericSyntax "Infinity")
  end.

(** The row the VALUES list of [upsertSql] proposes at the instant
    [now]. *)
Definition row_of (now : Z) (p : Params) : result RawRow :=
  cents <- each cast_cents (p_prices p) ;;
  released <- match p_release_date p with
              | Some t => d <- cast_date t ;; Ok (Some d)
              | None => Ok None
              end ;;
  dated <- cast_date (to_String (p_source_date p)) ;;
  Ok (mkRawRow (p_game p) (p_pricecharting_id p) (p_product_name p)
               (p_console_name p) cents released dated (p_raw p) now).

(** One row under ON CONFLICT ... DO UPDATE. *)
Definition upsert_row (r : RawRow) (table : list RawRow) : list RawRow :=
  if conflicts raw_key raw_key_eqb r table
  then do_update raw_key raw_key_eqb r table
  else table ++ [r].

Definition upsertSql (now : Z) (p : Params) (table : list RawRow)
  : result (list RawRow) :=
  r <- row_of now p ;;
  Ok (upsert_row r table).

(** *** [main] *)

(** The instant of the statement the loop sends after [inserted] others:
    without a transaction every statement has its own [now()]. *)
Variable clock : nat -> Z.

(** The loop over the rows after the header: the table, the counter
    [inserted], and whether no statement has raised. *)
Fixpoint loop (idx : list (string * nat)) (headers : list string) (game : string)
         (sourceDate : arg_value) (data : list (list string)) (inserted : nat)
         (table : list RawRow) : list RawRow * nat * bool :=
  match data with
  | [] => (table, inserted, true)
  | r :: rest =>
      match params_of idx headers game sourceDate r with
      | None => loop idx headers game sourceDate rest inserted table
      | Some p =>
          match upsertSql (clock inserted) p table with
          | Ok table' => loop idx headers game sourceDate rest (S inserted) table'
          | Err _ => (table, inserted, false)
          end
      end
  end.

(** [UPDATE public.pricecharting_import_runs SET row_count = $2 WHERE id =
    $1] *)
Definition set_row_count (runId : Z) (inserted : nat) (runs : list ImportRun)
  : list ImportRun :=
  map (fun run =>
         if run_id run =? runId
         then mkImportRun (run_id run) (run_game run) (file_name run)
                          (file_sha256 run) (meta_source_date run)
                          (Some (Z.of_nat inserted))
         else run)
      runs.

(** [main] from [parseCsv(text)] on, with the locals [game], [file],
    [sha] and [sourceDate] as the lines before have set them; [runId] is the
    identifier the store gives to the run.  The exit status and the store:
    nothing is rolled back when a statement raises. *)
Definition import (runId : Z) (game file sha : string) (sourceDate : arg_value)
           (text : string) (s : Store) : Z * Store :=
  let rows := parseCsv text in
  if Nat.ltb (List.length rows) 2 then (1, s)
  else
    let headers := map normalizeHeader (hd [] rows) in
    let idx := index_of (hd [] rows) in
    let runs := import_runs s ++ [mkImportRun runId game file sha sourceDate None] in
    let '(table, inserted, done) :=
      loop idx headers game sourceDate (tl rows) 0 (prices_raw s) in
    if done then (0, mkStore (set_row_count runId inserted runs) table)
    else (1, mkStore runs table).

(** *** Notions for the properties below *)

(** The parameters of the statements the loop sends for the rows after
    the header: those of the rows it does not skip. *)
Definition statements (game : string) (sourceDate : arg_value)
           (rows : list (list string)) : list Params :=
  flat_map (fun r =>
              match params_of (index_of (hd [] rows))
                              (map normalizeHeader (hd [] rows)) game sourceDate r with
              | Some p => [p]
              | None => []
              end)
           (tl rows).

(** The rows the store makes of parameters, the first at the instant
    [clock n]. *)
Fixpoint rows_of (n : nat) (ps : list Params) : result (list RawRow) :=
  match ps with
  | [] => Ok []
  | p :: rest =>
      r <- row_of (clock n) p ;;
      rs <- rows_of (S n) rest ;;
      Ok (r :: rs)
  end.

End Run.

(** The row of a table under a key, and the last row of a list under
    it. *)
Definition lookup (k : RawKey) (table : list RawRow) : option RawRow :=
  find (fun t => raw_key_eqb (raw_key t) k) table.

Definition last_of (k : RawKey) (rows : list RawRow) : option RawRow :=
  lookup k (rev rows).

(** Sample data: a file with a product twice, a line without a name, and
    casts that read a day number and take 32 bits. *)
Definition sample_text : string :=
  String.concat (String LF EmptyString)
    [ "id,product-name,loose-price,release-date";
      "7,Mew,$1.50,19000";
      "8,,2.00,19000";
      "7,Mew,$2.25,19000";
      "9,Abra,,19001" ].

Definition int4 (z : Z) : bool := (- 2147483648 <=? z) && (z <=? 2147483647).

Definition sample_clock (n : nat) : Z := Z.of_nat n + 100.

(** The same file with a release date the cast rejects in its last line. *)
Definition sample_rejected_text : string :=
  String.concat (String LF EmptyString)
    [ "id,product-name,loose-price,release-date";
      "7,Mew,$1.50,19000";
      "8,,2.00,19000";
      "9,Abra,,soon";
      "7,Mew,$2.25,19000" ].

Definition sample_store : Store :=
  mkStore [] [ mkRawRow "pokemon" "7" "Mew (old)" None [] None 20000 [] 0;
               mkRawRow "pokemon" "7" "Mew" None [] None 19999 [] 0 ].

End Importer.

(** ** exportGoogleMerchantFeed.mjs: the prices of a product *)

Module FeedPrice.
Import JsString Importer.

(** [Number(v)] of an integer column. *)
Definition Number_of (z : Z) : js_number := binary64 (inject_Z z).

(** [a / 100] *)
Definition js_div_100 (a : js_number) : js_number :=
  match a with
  | Finite x => binary64 (x / 100)
  | Infinity s => Infinity s
  end.

(** [a > b], and whether [a] is truthy: no number here is NaN. *)
Definition js_gt (a b : js_number) : bool :=
  match a, b with
  | Finite x, Finite y => negb (Qle_bool x y)
  | Finite _, Infinity negative => negative
  | Infinity negative, Finite _ => negb negative
  | Infinity na, Infinity nb => negb na && nb
  end.

Definition js_truthy (a : js_number) : bool :=
  match a with
  | Finite x => negb (Qeq_bool x 0)
  | Infinity _ => true
  end.

(** The decimal digits of a natural number, and its last [f] digits with
    zeros in front. *)
Definition digit (d : Z) : ascii := ascii_of_nat (48 + Z.to_nat d).

Fixpoint write_digits (fuel : nat) (n : Z) (acc : string) : string :=
  match fuel with
  | O => acc
  | S k =>
      let acc' := String (digit (n mod 10)) acc in
      if n / 10 =? 0 then acc' else write_digits k (n / 10) acc'
  end.

Definition decimal_text (n : Z) : string :=
  write_digits (S (Z.to_nat (Z.log2 n))) n "".

Fixpoint padded (f : nat) (n : Z) (acc : string) : string :=
  match f with
  | O => acc
  | S k => padded k (n / 10) (String (digit (n mod 10)) acc)
  end.

(** [x.toFixed(f)] for a positive [f]: the integer [n] nearest to
    [|x| * 10^f], the greater one on a tie, written with a point before its
    last [f] digits.  From 10^21 on the method returns [String(x)], whose
    digits are not modelled: [None]. *)
Definition toFixed (f : nat) (x : js_number) : option string :=
  match x with
  | Infinity negative => Some (if negative then "-Infinity" else "Infinity")
  | Finite v =>
      let a := Qabs v in
      if Qle_bool (inject_Z (10 ^ 21)) a then None
      else
        let n := Qfloor (a * inject_Z (10 ^ Z.of_nat f) + (1 # 2)) in
        let m := String.append (decimal_text (n / 10 ^ Z.of_nat f))
                               (String "." (padded f n "")) in
        Some (if Qnum v <? 0 then String "-" m else m)
  end.

Definition moneyUSDFromCents (cents : js_number) : option string :=
  match toFixed 2 (js_div_100 cents) with
  | Some t => Some (String.append t " USD")
  | None => None
  end.

(** The locals [priceOut] and [salePriceOut] of [main] for a product. *)
Definition prices_out (price_cents compare_at_cents : option Z)
  : option (string * string) :=
  let pc := Number_of (match price_cents with Some z => z | None => 0 end) in
  let compare := option_map Number_of compare_at_cents in
  match moneyUSDFromCents pc with
  | None => None
  | Some priceOut =>
      match compare with
      | Some cmp =>
          if js_truthy cmp && js_gt cmp pc then
            match moneyUSDFromCents cmp with
            | Some regular => Some (regular, priceOut)
            | None => None
            end
          else Some (priceOut, "")
      | None => Some (priceOut, "")
      end
  end.

(** The text of an amount of cents in dollars. *)
Definition usd_text (cents : Z) : string :=
  let m := String.append (decimal_text (Z.abs cents / 100))
                         (String "." (padded 2 (Z.abs cents) "")) in
  String.append (if cents <? 0 then String "-" m else m) " USD".

End FeedPrice.

(** ** Facts about lists *)

Module ListFacts.

Lemma filter_flat_map {A B} (p : B -> bool) (f : A -> list B) l :
  filter p (flat_map f l) = flat_map (fun x => filter p (f x)) l.
Proof.
  induction l as [|x r IH]; simpl; [reflexivity|].
  now rewrite filter_app, IH.
Qed.

Lemma map_flat_map {A B C} (g : B -> C) (f : A -> list B) l :
  map g (flat_map f l) = flat_map (fun x => map g (f x)) l.
Proof.
  induction l as [|x r IH]; simpl; [reflexivity|].
  now rewrite map_app, IH.
Qed.

Lemma firstn_1_hd {A} (l : list A) w : In w (firstn 1 l) <-> hd_error l = Some w.
Proof.
  destruct l as [|x r]; simpl; [split; [tauto|discriminate]|].
  split; [intros [->|[]]; reflexivity | intros [= ->]; now left].
Qed.

Lemma flat_map_singletons {A B} (g : B -> A) (f : A -> list B) (l : list A) :
  (forall k, In k l -> exists w, f k = [w] /\ g w = k) ->
  map g (flat_map f l) = l.
Proof.
  induction l as [|k r IH]; intros H; simpl; [reflexivity|].
  destruct (H k (or_introl eq_refl)) as (w & -> & <-). simpl.
  f_equal. apply IH. intros k' Hk'. apply H. now right.
Qed.

Lemma NoDup_map_inj {A B} (f : A -> B) l x y :
  NoDup (map f l) -> In x l -> In y l -> f x = f y -> x = y.
Proof.
  induction l as [|z r IH]; simpl; intros Hnd Hx Hy E; [destruct Hx|].
  inversion Hnd as [|? ? Hnotin Hnd']; subst.
  destruct Hx as [->|Hx], Hy as [->|Hy]; auto.
  - exfalso. apply Hnotin. rewrite E. now apply in_map.
  - exfalso. apply Hnotin. rewrite <- E. now apply in_map.
Qed.


Lemma nodup_filter {A} (dec : forall x y : A, {x = y} + {x <> y}) (q : A -> bool) l :
  nodup dec (filter q l) = filter q (nodup dec l).
Proof.
  induction l as [|x r IH]; simpl; [reflexivity|].
  destruct (q x) eqn:Q; simpl.
  - destruct (in_dec dec x (filter q r)) as [Hi|Hn], (in_dec dec x r) as [Hi'|Hn'];
      simpl; rewrite ?Q.
    + exact IH.
    + exfalso. apply Hn'. apply filter_In in Hi. tauto.
    + exfalso. apply Hn. apply filter_In. auto.
    + now rewrite IH.
  - destruct (in_dec dec x r); simpl; rewrite ?Q; exact IH.
Qed.

Lemma filter_map_comm {A B} (g : A -> B) (q : B -> bool) l :
  filter q (map g l) = map g (filter (fun x => q (g x)) l).
Proof.
  induction l as [|x r IH]; simpl; [reflexivity|].
  destruct (q (g x)); simpl; now rewrite IH.
Qed.

Lemma filter_comm {A} (p q : A -> bool) l :
  filter p (filter q l) = filter q (filter p l).
Proof.
  induction l as [|x r IH]; simpl; [reflexivity|].
  destruct (p x) eqn:P, (q x) eqn:Q; simpl; rewrite ?P, ?Q, IH; reflexivity.
Qed.

Lemma flat_map_filter {A B} (q : A -> bool) (f : A -> list B) l :
  flat_map f (filter q l) = flat_map (fun k => if q k then f k else []) l.
Proof.
  induction l as [|x r IH]; simpl; [reflexivity|].
  destruct (q x); simpl; now rewrite IH.
Qed.

Lemma flat_map_nil_in {A B} (f : A -> list B) l :
  (forall x, In x l -> f x = []) -> flat_map f l = [].
Proof.
  induction l as [|x r IH]; intros H; simpl; [reflexivity|].
  rewrite (H x (or_introl eq_refl)). apply IH. intros y Hy. apply H. now right.
Qed.

Lemma filter_none {A} (f : A -> bool) l :
  (forall x, In x l -> f x = false) -> filter f l = [].
Proof.
  induction l as [|x r IH]; intros H; simpl; [reflexivity|].
  rewrite (H x (or_introl eq_refl)). apply IH. intros y Hy. apply H. now right.
Qed.

Lemma map_id_in {A} (f : A -> A) l : (forall x, In x l -> f x = x) -> map f l = l.
Proof.
  induction l as [|x r IH]; intros H; simpl; [reflexivity|].
  rewrite (H x (or_introl eq_refl)). f_equal. apply IH. intros y Hy. apply H. now right.
Qed.

Lemma short_list_nodup {A} (l : list A) : (List.length l <= 1)%nat -> NoDup l.
Proof.
  destruct l as [|x [|y r]]; simpl; intros H; [constructor| |lia].
  constructor; [intros []|constructor].
Qed.

Lemma Forall2_length_eq {A B} (R : A -> B -> Prop) l1 l2 :
  Forall2 R l1 l2 -> List.length l1 = List.length l2.
Proof. induction 1; simpl; congruence. Qed.

Lemma filter_perm {A} (f : A -> bool) l l' :
  Permutation l l' -> Permutation (filter f l) (filter f l').
Proof.
  induction 1 as [|x l l' _ IH|x y l|l1 l2 l3 _ IH1 _ IH2]; simpl.
  - constructor.
  - destruct (f x); [now constructor | exact IH].
  - destruct (f x), (f y); try reflexivity. apply perm_swap.
  - etransitivity; eassumption.
Qed.

End ListFacts.

(** ** Facts about the resolver *)

Module ResolverFacts.
Import ListFacts Resolver.

(** *** The order of the ORDER BY *)

Lemma order_le_spec a b : order_le a b = true <-> ranks_before a b.
Proof.
  unfold order_le, ranks_before.
  destruct (Z.ltb_spec (source_rank (source a)) (source_rank (source b)));
    [ intuition lia | ].
  destruct (Z.ltb_spec (source_rank (source b)) (source_rank (source a)));
    [ split; [discriminate | lia] | ].
  destruct (Z.ltb_spec (price_type_rank (price_type a)) (price_type_rank (price_type b)));
    [ intuition lia | ].
  destruct (Z.ltb_spec (price_type_rank (price_type b)) (price_type_rank (price_type a)));
    [ split; [discriminate | lia] | ].
  rewrite Z.leb_le. intuition lia.
Qed.

Lemma order_le_total a b : order_le a b = false -> order_le b a = true.
Proof.
  intros H. apply order_le_spec.
  assert (~ ranks_before a b) as N
    by (rewrite <- order_le_spec; congruence).
  unfold ranks_before in *. lia.
Qed.

Lemma order_le_trans a b c :
  order_le a b = true -> order_le b c = true -> order_le a c = true.
Proof.
  rewrite !order_le_spec. unfold ranks_before. lia.
Qed.

Lemma order_le_antisym a b :
  order_le a b = true -> order_le b a = true -> sort_key a = sort_key b.
Proof.
  rewrite !order_le_spec. unfold ranks_before, sort_key. intros H1 H2.
  assert (source_rank (source a) = source_rank (source b)) as -> by lia.
  assert (price_type_rank (price_type a) = price_type_rank (price_type b)) as -> by lia.
  assert (value_cents a = value_cents b) as -> by lia.
  reflexivity.
Qed.

Lemma insert_row_perm x l : Permutation (insert_row x l) (x :: l).
Proof.
  induction l as [|y r IH]; simpl; [reflexivity|].
  destruct (order_le x y); [reflexivity|].
  rewrite IH. apply perm_swap.
Qed.

Lemma order_by_perm l : Permutation (order_by l) l.
Proof.
  induction l as [|x r IH]; simpl; [reflexivity|].
  rewrite insert_row_perm. now constructor.
Qed.

(** [order_by] sorts. *)
Lemma insert_row_sorted x l :
  Sorted (fun a b => order_le a b = true) l ->
  Sorted (fun a b => order_le a b = true) (insert_row x l).
Proof.
  induction 1 as [|y r Hr IH Hy]; simpl; [repeat constructor|].
  destruct (order_le x y) eqn:E.
  - constructor; [now constructor | now constructor].
  - constructor; [exact IH|].
    destruct r as [|z r']; simpl.
    + constructor. now apply order_le_total.
    + destruct (order_le x z); constructor.
      * now apply order_le_total.
      * now inversion Hy.
Qed.

Lemma order_by_sorted l : Sorted (fun a b => order_le a b = true) (order_by l).
Proof.
  induction l as [|x r IH]; simpl; [constructor | now apply insert_row_sorted].
Qed.

Lemma order_le_refl a : order_le a a = true.
Proof. apply order_le_spec. unfold ranks_before. lia. Qed.

Lemma insert_row_head x l : head_first l -> head_first (insert_row x l).
Proof.
  destruct l as [|y r]; simpl.
  - intros _ z [->|[]]. apply order_le_refl.
  - intros Hy. destruct (order_le x y) eqn:E.
    + intros z [->|Hz]; [apply order_le_refl|].
      eapply order_le_trans; [exact E | apply Hy; exact Hz].
    + intros z [->|Hz]; [apply order_le_refl|].
      apply (Permutation_in _ (insert_row_perm x r)) in Hz.
      destruct Hz as [->|Hz]; [now apply order_le_total|].
      apply Hy. now right.
Qed.

Lemma order_by_head l : head_first (order_by l).
Proof.
  induction l as [|x r IH]; simpl; [exact I|]. now apply insert_row_head.
Qed.

Lemma order_by_hd l w :
  hd_error (order_by l) = Some w ->
  In w l /\ forall x, In x l -> order_le w x = true.
Proof.
  intros H. pose proof (order_by_head l) as Hh.
  pose proof (order_by_perm l) as Hp.
  destruct (order_by l) as [|w' r]; [discriminate|].
  injection H as ->. split.
  - apply (Permutation_in _ Hp). now left.
  - intros x Hx. apply Hh. apply (Permutation_in _ (Permutation_sym Hp)), Hx.
Qed.

Lemma order_by_nonempty l x : In x l -> exists w, hd_error (order_by l) = Some w.
Proof.
  intros Hx. apply (Permutation_in _ (Permutation_sym (order_by_perm l))) in Hx.
  destruct (order_by l) as [|w r]; [destruct Hx|]. now exists w.
Qed.

(** *** The window and the selected rows *)

(** Only the first row of a numbered partition has number one. *)
Lemma number_from_not_one n l :
  (1 < n)%nat ->
  filter (fun c : Snapshot * nat => Nat.eqb (snd c) 1) (number_from n l) = [].
Proof.
  revert n. induction l as [|x r IH]; intros n Hn; simpl; [reflexivity|].
  destruct (Nat.eqb_spec n 1); [lia|]. apply IH. lia.
Qed.

Lemma first_numbered l :
  map fst (filter (fun c : Snapshot * nat => Nat.eqb (snd c) 1) (number_from 1 l))
  = firstn 1 l.
Proof.
  destruct l as [|x r]; simpl; [reflexivity|].
  rewrite number_from_not_one by lia. reflexivity.
Qed.

Lemma winners_first_rows today a table :
  winners today a table = first_rows (filter (where_sql today a) table).
Proof.
  unfold winners, candidates, row_number, first_rows.
  rewrite filter_flat_map, map_flat_map.
  apply flat_map_ext. intros k. apply first_numbered.
Qed.

Lemma in_partition_true k s : in_partition k s = true <-> part_key s = k.
Proof. unfold in_partition. destruct (part_key_dec (part_key s) k); split; congruence. Qed.

Lemma in_first_rows rows w :
  In w (first_rows rows) <->
  hd_error (order_by (filter (in_partition (part_key w)) rows)) = Some w.
Proof.
  unfold first_rows. rewrite in_flat_map. split.
  - intros (k & Hk & Hw). apply firstn_1_hd in Hw.
    destruct (order_by_hd _ _ Hw) as [Hin _].
    apply filter_In in Hin. destruct Hin as [_ Hin].
    apply in_partition_true in Hin. now subst k.
  - intros Hw. exists (part_key w). split; [|now apply firstn_1_hd].
    destruct (order_by_hd _ _ Hw) as [Hin _].
    apply filter_In in Hin. destruct Hin as [Hin _].
    unfold partition_keys. apply nodup_In, in_map, Hin.
Qed.

(** Exactly one row is selected for each partition, none for an empty one. *)
Lemma first_rows_keys rows :
  map part_key (first_rows rows) = partition_keys rows.
Proof.
  apply flat_map_singletons. intros k Hk.
  apply nodup_In, in_map_iff in Hk. destruct Hk as (s & Hs & Hin).
  assert (In s (filter (in_partition k) rows)) as Hf
    by (apply filter_In; split; [exact Hin | now apply in_partition_true]).
  destruct (order_by_nonempty _ _ Hf) as (w & Hw).
  destruct (order_by_hd _ _ Hw) as [Hwin _].
  apply filter_In in Hwin. destruct Hwin as [_ Hk]. apply in_partition_true in Hk.
  exists w. split; [|exact Hk].
  destruct (order_by (filter (in_partition k) rows)) as [|w' r]; [discriminate|].
  simpl in Hw. injection Hw as ->. reflexivity.
Qed.

Lemma winners_keys_nodup today a table :
  NoDup (map part_key (winners today a table)).
Proof.
  rewrite winners_first_rows, first_rows_keys. apply NoDup_nodup.
Qed.

Lemma winner_in_scope today a table w :
  In w (winners today a table) ->
  In w table /\ where_sql today a w = true
  /\ forall s, In s table -> where_sql today a s = true ->
       part_key s = part_key w -> ranks_before w s.
Proof.
  rewrite winners_first_rows, in_first_rows. intros Hw.
  destruct (order_by_hd _ _ Hw) as [Hin Hle].
  apply filter_In in Hin. destruct Hin as [Hin _].
  apply filter_In in Hin. destruct Hin as [Hin Hsc].
  repeat split; [exact Hin | exact Hsc |].
  intros s Hs Hss Hk. apply order_le_spec, Hle.
  apply filter_In. split; [|now apply in_partition_true].
  apply filter_In. now split.
Qed.

Lemma winner_exists today a table s0 :
  In s0 table -> where_sql today a s0 = true ->
  exists w, In w (winners today a table) /\ part_key w = part_key s0.
Proof.
  intros Hin Hsc.
  assert (In (part_key s0) (map part_key (winners today a table))) as Hk.
  { rewrite winners_first_rows, first_rows_keys. apply nodup_In, in_map.
    apply filter_In. now split. }
  apply in_map_iff in Hk. destruct Hk as (w & Hk & Hw). now exists w.
Qed.

Lemma winner_unique today a table w1 w2 :
  In w1 (winners today a table) -> In w2 (winners today a table) ->
  part_key w1 = part_key w2 -> w1 = w2.
Proof. apply NoDup_map_inj, winners_keys_nodup. Qed.









(** C3, as stated, fails: two snapshots that agree on source rank,
    price-type rank and value are selected in the order of presentation. *)
Lemma resolver_tie_depends_on_row_order :
  Permutation [psa10; psa9] [psa9; psa10]
  /\ sort_key psa10 = sort_key psa9
  /\ winners 0 one_day [psa10; psa9] = [psa10]
  /\ winners 0 one_day [psa9; psa10] = [psa9]
  /\ psa10 <> psa9
  /\ dp_sources_used (daily_of psa10) <> dp_sources_used (daily_of psa9).
Proof.
  split; [apply perm_swap|].
  split; [reflexivity|].
  split; [reflexivity|].
  split; [reflexivity|].
  split; discriminate.
Qed.

(** C3 (amended). Over every presentation order of one set of snapshots the
    resolver selects, for every key, a winner with the same source rank,
    price-type rank and value, so the emitted daily value is the same; the
    winner is the same snapshot whenever no other snapshot of its key in
    scope agrees with it on all three. *)
Theorem resolver_winner_order_independent today a t1 t2 w1 :
  Permutation t1 t2 ->
  In w1 (winners today a t1) ->
  exists w2,
    In w2 (winners today a t2)
    /\ part_key w2 = part_key w1
    /\ sort_key w2 = sort_key w1
    /\ dp_value_cents (daily_of w2) = dp_value_cents (daily_of w1)
    /\ ((forall s, In s t1 -> where_sql today a s = true ->
                   part_key s = part_key w1 -> sort_key s = sort_key w1 ->
                   s = w1) -> w2 = w1).
Proof.
  intros Hp Hw1.
  destruct (winner_in_scope _ _ _ _ Hw1) as (Hin1 & Hsc1 & Hb1).
  assert (In w1 t2) as Hin12 by (apply (Permutation_in _ Hp), Hin1).
  destruct (winner_exists today a t2 w1 Hin12 Hsc1) as (w2 & Hw2 & Hk).
  destruct (winner_in_scope _ _ _ _ Hw2) as (Hin2 & Hsc2 & Hb2).
  assert (In w2 t1) as Hin21 by (apply (Permutation_in _ (Permutation_sym Hp)), Hin2).
  assert (sort_key w2 = sort_key w1) as Hs.
  { apply order_le_antisym; apply order_le_spec.
    - apply Hb2; auto.
    - apply Hb1; auto. }
  exists w2. repeat split; auto.
  unfold sort_key in Hs. simpl. congruence.
Qed.

Lemma resolver_winner_order_independent_witness :
  exists w2, In w2 (winners 0 one_day [scry; psa9; psa10])
             /\ sort_key w2 = sort_key scry.
Proof.
  destruct (resolver_winner_order_independent 0 one_day
              [psa10; scry; psa9] [scry; psa9; psa10] scry)
    as (w2 & Hw2 & _ & Hs & _).
  - apply (Permutation_cons_append [scry; psa9] psa10).
  - vm_compute. left. reflexivity.
  - exists w2. auto.
Defined.

(** *** Partitions of different days *)

(** Selecting rows by a property of their partition key commutes with the
    window: the rows selected for those keys are computed from the
    snapshots of those keys alone. *)
Lemma first_rows_filter_keys (q : PartKey -> bool) rows :
  filter (fun w => q (part_key w)) (first_rows rows)
  = first_rows (filter (fun s => q (part_key s)) rows).
Proof.
  unfold first_rows, partition_keys.
  rewrite <- filter_map_comm, nodup_filter, flat_map_filter, filter_flat_map.
  apply flat_map_ext. intros k.
  destruct (q k) eqn:Q.
  - assert (filter (in_partition k) (filter (fun s => q (part_key s)) rows)
            = filter (in_partition k) rows) as ->.
    { rewrite filter_comm. apply forallb_filter_id, forallb_forall.
      intros s Hs. apply filter_In in Hs. destruct Hs as [_ Hs].
      apply in_partition_true in Hs. now rewrite Hs. }
    apply forallb_filter_id, forallb_forall. intros w Hw.
    apply firstn_1_hd, order_by_hd in Hw. destruct Hw as [Hw _].
    apply filter_In in Hw. destruct Hw as [_ Hw].
    apply in_partition_true in Hw. now rewrite Hw.
  - assert (forall l, (forall w : Snapshot, In w l -> q (part_key w) = false) ->
                      filter (fun w => q (part_key w)) l = []) as Hnone.
    { induction l as [|x r IH]; intros H; simpl; [reflexivity|].
      rewrite (H x (or_introl eq_refl)). apply IH. intros w Hw. apply H. now right. }
    apply Hnone. intros w Hw.
    apply firstn_1_hd, order_by_hd in Hw. destruct Hw as [Hw _].
    apply filter_In in Hw. destruct Hw as [_ Hw].
    apply in_partition_true in Hw. now rewrite Hw.
Qed.

Lemma emitted_for_best today a d table :
  emitted_for d (best today a table)
  = map daily_of (first_rows (filter (where_sql today a) (filter (dated d) table))).
Proof.
  unfold emitted_for, best. rewrite filter_map_comm, winners_first_rows. f_equal.
  rewrite (filter_comm (where_sql today a)).
  exact (first_rows_filter_keys (fun k => snd k =? d) _).
Qed.

Lemma filter_dated_skip d pre post s :
  as_of_date s <> d -> filter (dated d) (pre ++ s :: post) = filter (dated d) (pre ++ post).
Proof.
  intros H. rewrite !filter_app. simpl. unfold dated at 2.
  destruct (Z.eqb_spec (as_of_date s) d); [contradiction|reflexivity].
Qed.

(** C5. The daily rows emitted for a date are computed from the snapshots
    of that date alone: adding or removing a snapshot [s] of another date,
    or changing it into another snapshot [s'] of a date other than [d],
    anywhere in the table, leaves the rows emitted for [d] as they were;
    [d] is any date other than the snapshot's, the day before and the day
    after among them. *)
Theorem resolver_partition_isolation today a d pre post s s' :
  as_of_date s <> d -> as_of_date s' <> d ->
  emitted_for d (best today a (pre ++ s :: post))
    = emitted_for d (best today a (pre ++ post))
  /\ emitted_for d (best today a (pre ++ s' :: post))
    = emitted_for d (best today a (pre ++ s :: post))
  /\ (forall t1 t2, filter (dated d) t1 = filter (dated d) t2 ->
        emitted_for d (best today a t1) = emitted_for d (best today a t2)).
Proof.
  intros Hs Hs'. rewrite !emitted_for_best, !filter_dated_skip by assumption.
  repeat split; try reflexivity.
  intros t1 t2 E. now rewrite !emitted_for_best, E.
Qed.

Lemma resolver_partition_isolation_witness :
  emitted_for 101 (best 0 every_day ([scry] ++ psa10 :: [next_day]))
  = emitted_for 101 (best 0 every_day ([scry] ++ [next_day])).
Proof.
  refine (proj1 (resolver_partition_isolation
                   0 every_day 101 [scry] [next_day] psa10 psa9 _ _));
    unfold psa10, psa9; simpl; lia.
Defined.

(** *** The selection scope *)

Lemma upper_unit_in_range c :
  upper_in_range (upper_unit c)
  = negb (Nat.eqb (nat_of_ascii c) 181 || Nat.eqb (nat_of_ascii c) 255).
Proof. destruct c as [[] [] [] [] [] [] [] []]; reflexivity. Qed.

Lemma upper_in_range_app s t :
  upper_in_range (String.append s t) = upper_in_range s && upper_in_range t.
Proof.
  induction s as [|c s IH]; [reflexivity|].
  cbn [String.append upper_in_range]. now rewrite IH, andb_assoc.
Qed.

(** A text whose upper case has a letter above U+00FF is not the upper
    case of a text that has none. *)
Lemma toUpperCase_in_range t : upper_in_range (toUpperCase t) = upper_in_range t.
Proof.
  induction t as [|c t IH]; [reflexivity|].
  cbn [toUpperCase]. rewrite upper_in_range_app, upper_unit_in_range, IH.
  reflexivity.
Qed.

Lemma where_sql_scope today a s :
  where_sql today a s = true <->
  upper_in_range (or_default (arg_currency a) "USD") = true
  /\ currency s = currency_of a /\ in_scope (scope_of today a) (as_of_date s).
Proof.
  unfold where_sql, build_where, scope_of.
  destruct a as [cur dt all since until]; simpl.
  destruct all; simpl.
  - destruct since as [lo|], until as [hi|]; simpl;
      rewrite ?andb_true_r, ?andb_true_iff, ?Z.leb_le, String.eqb_eq; tauto.
  - rewrite ?andb_true_r, ?andb_true_iff, ?Z.eqb_eq, String.eqb_eq. tauto.
Qed.

(** C9. The usage text of the script offers [--since 2025-12-01] and
    [--since 2025-12-01 --until 2025-12-31] as invocations of their own,
    and the specification gives the scope as a range whenever a bound is
    supplied; yet [whereParts] reads the bounds in the branch of the
    all-dates flag only.  With [--since] day 100 and nothing else, the run
    of day 101 leaves the key of day 100 unresolved although day 100 is on
    the bound, and the run of day 99 resolves day 99, which is before the
    bound; the same rows with the flag give the range. *)
Theorem resolver_since_without_all_dates :
  scope_of 101 since_only = SingleDate 101
  /\ where_sql 101 since_only psa10 = false
  /\ best 101 since_only [psa10; next_day] = [daily_of next_day]
  /\ best 99 since_only [day_before; psa10] = [daily_of day_before]
  /\ dp_as_of_date (daily_of day_before) < 100 <= as_of_date psa10
  /\ best 101 all_since [day_before; psa10; next_day]
     = [daily_of psa10; daily_of next_day].
Proof.
  split; [reflexivity|]. split; [reflexivity|].
  split; [vm_compute; reflexivity|]. split; [vm_compute; reflexivity|].
  split; [vm_compute; split; congruence | vm_compute; reflexivity].
Qed.

(** The scope as the code has it: the single date ([--date], or today)
    unless the all-dates flag is set, and with the flag the range between
    the optional inclusive bounds.  The WHERE clause selects the snapshots
    of the target currency dated in the scope, and a daily row is emitted
    for a key exactly when the table holds such a snapshot of that key. *)
Lemma scope_selects today a table :
  (forall s, where_sql today a s = true <->
             upper_in_range (or_default (arg_currency a) "USD") = true
             /\ currency s = currency_of a
             /\ in_scope (scope_of today a) (as_of_date s))
  /\ (forall k, In k (map part_key (winners today a table)) <->
                exists s, In s table /\ part_key s = k
                          /\ where_sql today a s = true)
  /\ (forall r, In r (best today a table) ->
                in_scope (scope_of today a) (dp_as_of_date r)).
Proof.
  split; [intros s; apply where_sql_scope|]. split.
  - intros k. rewrite winners_first_rows, first_rows_keys.
    unfold partition_keys. rewrite nodup_In, in_map_iff. split.
    + intros (s & Hk & Hs). apply filter_In in Hs. exists s. tauto.
    + intros (s & Hin & Hk & Hsc). exists s. split; [exact Hk|].
      apply filter_In. tauto.
  - intros r Hr. unfold best in Hr. apply in_map_iff in Hr.
    destruct Hr as (w & <- & Hw).
    destruct (winner_in_scope _ _ _ _ Hw) as (Hin & Hsc & _).
    apply where_sql_scope in Hsc. cbn. tauto.
Qed.

End ResolverFacts.

(** ** Facts about the normalizer *)

Module NormalizerFacts.
Import ListFacts Normalizer.

(** *** The transaction *)

(** C10. Whatever fails, an invocation ends in one of two ways.  It exits
    with status 0, and then BEGIN, UPDATE, INSERT and COMMIT each succeeded
    in this order and the store holds the table after the update followed
    by the insert on the updated table; or it exits with status 1, and then
    the store holds the table it held before.  No transaction is left open,
    and the journal is one the script allows.  The invocation succeeds
    whenever the rows can be built and no call fails. *)
Theorem normalizer_run_atomic faulty i table :
  let o := main faulty i (connected table) in
  ((exit_code o = 0
    /\ exists rows,
         buildRowsCte (in_date i) (in_items i) (in_cards i) = Ok rows
         /\ committed (final o) = normalized rows table
         /\ printed o = Some (snd (updateSql rows table),
                              snd (insertSql rows (fst (updateSql rows table))))
         /\ journal (final o)
            = [(Begin, true); (UpdateSql, true); (InsertSql, true); (Commit, true)])
   \/ (exit_code o = 1
       /\ committed (final o) = table
       /\ printed o = None
       /\ journal (final o)
          <> [(Begin, true); (UpdateSql, true); (InsertSql, true); (Commit, true)]))
  /\ txn (final o) = NoTxn
  /\ script_journal (journal (final o))
  /\ ((forall n, faulty n = false) ->
      (exists rows, buildRowsCte (in_date i) (in_items i) (in_cards i) = Ok rows) ->
      exit_code o = 0).
Proof.
  unfold main, query, store_step, run_dml, connected, script_journal, normalized,
    updateSql, insertSql.
  destruct (buildRowsCte (in_date i) (in_items i) (in_cards i)) as [rows|e] eqn:B;
    destruct (faulty 0%nat) eqn:F0, (faulty 1%nat) eqn:F1, (faulty 2%nat) eqn:F2,
             (faulty 3%nat) eqn:F3, (faulty 4%nat) eqn:F4;
    repeat (cbn [journal txn committed List.length app bind end_session fst snd];
            rewrite ?F0, ?F1, ?F2, ?F3, ?F4);
    cbn [exit_code printed final journal txn committed fst snd];
    (split;
     [ first [ left; split; [reflexivity|]; exists rows; repeat split; reflexivity
             | right; repeat split; try discriminate ]
     | split; [reflexivity|];
       split; [cbn; eauto 9|];
       first [ reflexivity
             | intros H _; rewrite H in *; discriminate
             | intros _ [rows' [=]] ] ]).
Qed.

Lemma normalizer_run_atomic_witness :
  exit_code (main reliable (mkInputs (Some 100) two_items tidy_cards)
                  (connected [old_row])) = 0.
Proof.
  destruct (normalizer_run_atomic reliable (mkInputs (Some 100) two_items tidy_cards)
              [old_row]) as (_ & _ & _ & H).
  apply H.
  - reflexivity.
  - vm_compute. eexists. reflexivity.
Defined.

(** *** The two-phase write *)

Lemma opt_string_eqb_eq a b : opt_string_eqb a b = true <-> a = b.
Proof.
  destruct a as [x|], b as [y|]; simpl; try (split; congruence).
  rewrite String.eqb_eq. split; congruence.
Qed.

Lemma same_key_spec t r : same_key t r = true <-> id_key t = id_key r.
Proof.
  unfold same_key, id_key.
  rewrite !andb_true_iff, !Z.eqb_eq, !String.eqb_eq, opt_string_eqb_eq.
  split.
  - intros [[[[[-> ->] ->] ->] ->] ->]. reflexivity.
  - intros [= -> -> -> -> -> ->]. repeat split.
Qed.

Lemma same_key_refl t : same_key t t = true.
Proof. now apply same_key_spec. Qed.

Lemma same_key_eq t t' r :
  id_key t = id_key t' -> same_key t r = same_key t' r.
Proof.
  intros E. destruct (same_key t r) eqn:H1, (same_key t' r) eqn:H2; try reflexivity.
  - apply same_key_spec in H1. rewrite E in H1. apply same_key_spec in H1. congruence.
  - apply same_key_spec in H2. rewrite <- E in H2. apply same_key_spec in H2. congruence.
Qed.

Lemma set_value_self t : set_value t t = t.
Proof. destruct t. reflexivity. Qed.

Lemma updateSql_map rows table : fst (updateSql rows table) = map (updated rows) table.
Proof. reflexivity. Qed.

Lemma id_key_updated rows t : id_key (updated rows t) = id_key t.
Proof. unfold updated. destruct (find (same_key t) rows); reflexivity. Qed.

Lemma find_same_key_eq rows t t' :
  id_key t = id_key t' -> find (same_key t) rows = find (same_key t') rows.
Proof.
  intros E. induction rows as [|r rs IH]; simpl; [reflexivity|].
  rewrite (same_key_eq t t' r E). now rewrite IH.
Qed.

Lemma updated_twice rows t : updated rows (updated rows t) = updated rows t.
Proof.
  unfold updated at 1.
  rewrite (find_same_key_eq rows (updated rows t) t (id_key_updated rows t)).
  unfold updated. destruct (find (same_key t) rows); reflexivity.
Qed.

(** A row of a batch without repeated keys is updated to itself. *)
Lemma updated_batch_row rows m :
  NoDup (map id_key rows) -> In m rows -> updated rows m = m.
Proof.
  intros Hnd Hin. unfold updated.
  destruct (find (same_key m) rows) as [r|] eqn:F.
  - apply find_some in F. destruct F as [Hr Hk].
    apply same_key_spec in Hk.
    assert (m = r) as <- by (eapply NoDup_map_inj; eauto).
    apply set_value_self.
  - apply (find_none _ _ F) in Hin. now rewrite same_key_refl in Hin.
Qed.

Lemma existsb_updated rows table r :
  existsb (fun t => same_key t r) (map (updated rows) table)
  = existsb (fun t => same_key t r) table.
Proof.
  induction table as [|t ts IH]; simpl; [reflexivity|].
  rewrite IH. f_equal. apply same_key_eq, id_key_updated.
Qed.

Lemma normalized_eq rows table :
  normalized rows table = map (updated rows) table ++ missing rows table.
Proof.
  unfold normalized, insertSql, missing. cbn [fst]. rewrite updateSql_map.
  f_equal. apply filter_ext. intros r. now rewrite existsb_updated.
Qed.

Lemma inserted_count rows table :
  snd (insertSql rows (fst (updateSql rows table)))
  = List.length (missing rows table).
Proof.
  unfold insertSql, missing. cbn [snd]. rewrite updateSql_map.
  f_equal. apply filter_ext. intros r. now rewrite existsb_updated.
Qed.

Lemma missing_in rows table r :
  In r (missing rows table) <->
  In r rows /\ ~ In (id_key r) (map id_key table).
Proof.
  unfold missing. rewrite filter_In, negb_true_iff. split; intros [Hr H]; split; auto.
  - intros Hin. apply in_map_iff in Hin. destruct Hin as (t & Hk & Ht).
    assert (existsb (fun t => same_key t r) table = true) as E
      by (apply existsb_exists; exists t; split; [exact Ht | now apply same_key_spec]).
    congruence.
  - destruct (existsb (fun t => same_key t r) table) eqn:E; [|reflexivity].
    apply existsb_exists in E. destruct E as (t & Ht & Hk). exfalso. apply H.
    apply same_key_spec in Hk. rewrite <- Hk. now apply in_map.
Qed.

(** After a run every row of the batch has its key in the table. *)
Lemma missing_after rows table : missing rows (normalized rows table) = [].
Proof.
  apply filter_none. intros r Hr. apply negb_false_iff, existsb_exists.
  rewrite normalized_eq.
  destruct (existsb (fun t => same_key t r) (map (updated rows) table)) eqn:E.
  - apply existsb_exists in E. destruct E as (t & Ht & Hk).
    exists t. split; [apply in_or_app; now left | exact Hk].
  - exists r. split; [|apply same_key_refl].
    apply in_or_app. right. apply filter_In. split; [exact Hr|].
    rewrite existsb_updated in E. now rewrite E.
Qed.

(** A second pass of both statements changes nothing, when the batch has
    no repeated key. *)
Lemma normalized_twice rows table :
  NoDup (map id_key rows) ->
  normalized rows (normalized rows table) = normalized rows table.
Proof.
  intros Hnd. rewrite (normalized_eq rows (normalized rows table)).
  rewrite missing_after, app_nil_r. rewrite normalized_eq at 1 2.
  rewrite map_app, map_map. f_equal.
  - apply map_ext. intros t. apply updated_twice.
  - apply map_id_in. intros m Hm. apply updated_batch_row; [exact Hnd|].
    apply missing_in in Hm. tauto.
Qed.

Lemma missing_keys_nodup rows table :
  NoDup (map id_key rows) -> NoDup (map id_key (missing rows table)).
Proof.
  unfold missing. induction rows as [|r rs IH]; simpl; intros Hnd; [constructor|].
  inversion Hnd as [|? ? Hnotin Hnd']; subst.
  destruct (negb _); simpl; [|now apply IH].
  constructor; [|now apply IH].
  intros Hin. apply Hnotin. apply in_map_iff in Hin. destruct Hin as (x & Hk & Hx).
  apply filter_In in Hx. rewrite <- Hk. apply in_map. tauto.
Qed.

Lemma updated_keys rows table :
  map id_key (map (updated rows) table) = map id_key table.
Proof. rewrite map_map. apply map_ext. intros t. apply id_key_updated. Qed.

(** What an invocation does on a store that does not fail. *)
Lemma main_reliable i table rows :
  buildRowsCte (in_date i) (in_items i) (in_cards i) = Ok rows ->
  main reliable i (connected table)
  = mkOutcome 0
      (Some (snd (updateSql rows table),
             snd (insertSql rows (fst (updateSql rows table)))))
      (mkConn (normalized rows table) NoTxn
              [(Begin, true); (UpdateSql, true); (InsertSql, true); (Commit, true)]).
Proof.
  intros B. unfold main, query, store_step, run_dml, connected, reliable, normalized,
    updateSql, insertSql.
  cbn [journal txn committed List.length app bind end_session fst snd].
  rewrite B.
  reflexivity.
Qed.

Lemma main_unreliable_rows i table e :
  buildRowsCte (in_date i) (in_items i) (in_cards i) = Err e ->
  main reliable i (connected table)
  = mkOutcome 1 None
      (mkConn table NoTxn [(Begin, true); (UpdateSql, false); (Rollback, true)]).
Proof.
  intros B. unfold main, query, store_step, run_dml, connected, reliable.
  cbn [journal txn committed List.length app bind end_session fst snd].
  rewrite B.
  reflexivity.
Qed.

(** *** The batch *)

Lemma collect_cons {A B} (f : A -> result (list B)) x l rs :
  collect f (x :: l) = Ok rs ->
  exists xs rs', f x = Ok xs /\ collect f l = Ok rs' /\ rs = xs ++ rs'.
Proof.
  simpl. destruct (f x) as [xs|e]; simpl; [|discriminate].
  destruct (collect f l) as [rs'|e]; simpl; [|discriminate].
  intros [= <-]. eauto.
Qed.

Lemma collect_in {A B} (f : A -> result (list B)) l rs :
  collect f l = Ok rs ->
  forall s, In s rs <-> exists x xs, In x l /\ f x = Ok xs /\ In s xs.
Proof.
  revert rs. induction l as [|x l IH]; intros rs H s.
  - simpl in H. injection H as <-. split; [intros [] | intros (? & ? & [] & _)].
  - apply collect_cons in H. destruct H as (xs & rs' & Hx & Hl & ->).
    rewrite in_app_iff, (IH rs' Hl s). split.
    + intros [Hs|(y & ys & Hy & Hfy & Hs)].
      * exists x, xs. simpl. auto.
      * exists y, ys. simpl. auto.
    + intros (y & ys & [<-|Hy] & Hfy & Hs).
      * left. congruence.
      * right. eauto.
Qed.

Lemma collect_ok {A B} (f : A -> result (list B)) l :
  (forall x, In x l -> exists xs, f x = Ok xs) -> exists rs, collect f l = Ok rs.
Proof.
  induction l as [|x l IH]; intros H; simpl; [eauto|].
  destruct (H x (or_introl eq_refl)) as (xs & ->).
  destruct IH as (rs & ->); [intros y Hy; apply H; now right|].
  simpl. eauto.
Qed.

Lemma collect_err {A B} (f : A -> result (list B)) l e :
  collect f l = Err e -> exists x e', In x l /\ f x = Err e'.
Proof.
  revert e. induction l as [|x l IH]; intros e; simpl; [discriminate|].
  destruct (f x) as [xs|e1] eqn:Fx; simpl.
  - destruct (collect f l) as [rs|e2]; simpl; [discriminate|].
    intros _. destruct (IH e2 eq_refl) as (y & e' & Hy & Hfy). eauto.
  - intros _. eauto.
Qed.

(** Rows collected from inputs with distinct tags have distinct keys, when
    each input yields rows of distinct keys that carry its tag. *)
Lemma collect_nodup {A K T} (f : A -> result (list Snapshot))
      (key : Snapshot -> K) (tag : A -> T) (proj : K -> T) l rs :
  NoDup (map tag l) ->
  (forall x xs, In x l -> f x = Ok xs ->
                NoDup (map key xs) /\ forall s, In s xs -> proj (key s) = tag x) ->
  collect f l = Ok rs -> NoDup (map key rs).
Proof.
  revert rs. induction l as [|x l IH]; intros rs Hnd Hf H.
  - simpl in H. injection H as <-. constructor.
  - apply collect_cons in H. destruct H as (xs & rs' & Hx & Hl & ->).
    inversion Hnd as [|? ? Hnotin Hnd']; subst.
    rewrite map_app. apply NoDup_app.
    + apply (Hf x xs); [now left | exact Hx].
    + apply IH; auto. intros y ys Hy. apply Hf. now right.
    + intros k Hk1 Hk2. apply in_map_iff in Hk1, Hk2.
      destruct Hk1 as (s1 & <- & Hs1), Hk2 as (s2 & E & Hs2).
      apply (collect_in _ _ _ Hl) in Hs2. destruct Hs2 as (y & ys & Hy & Hfy & Hs2).
      apply Hnotin.
      assert (tag x = tag y) as ->.
      { destruct (Hf x xs (or_introl eq_refl) Hx) as [_ H1].
        destruct (Hf y ys (or_intror Hy) Hfy) as [_ H2].
        rewrite <- (H1 s1 Hs1), <- (H2 s2 Hs2). now rewrite E. }
      now apply in_map.
Qed.

(** What one tuple of the VALUES list yields: nothing, or one row. *)
Lemma row_of_field_ok d item prices k cur pt xs :
  row_of_field d item prices (k, cur, pt) = Ok xs ->
  exists v, cents_of_field prices k = Ok v
    /\ xs = match v with
            | Some c =>
                if 0 <? c
                then [mkSnapshot item "scryfall" d cur pt None c (RawScryfall prices k)]
                else []
            | None => []
            end.
Proof.
  unfold row_of_field. destruct (cents_of_field prices k) as [v|e]; simpl; [|discriminate].
  intros H. exists v. split; [reflexivity|].
  destruct v as [c|]; [destruct (0 <? c)|]; congruence.
Qed.

Lemma price_fields_nodup :
  NoDup (map (fun f : string * string * string => (snd (fst f), snd f)) price_fields).
Proof.
  simpl. repeat constructor; simpl; intros H;
    repeat match goal with
           | H : _ \/ _ |- _ => destruct H as [H|H]
           end; try discriminate; try contradiction.
Qed.

Lemma item_rows_nodup d item prices rs :
  collect (row_of_field d item prices) price_fields = Ok rs ->
  NoDup (map id_key rs) /\ forall s, In s rs -> market_item_id s = item.
Proof.
  intros H. split.
  - apply (collect_nodup (row_of_field d item prices) id_key
             (fun f => (snd (fst f), snd f))
             (fun k : IdKey => (snd (fst (fst k)), snd (fst k)))
             price_fields rs price_fields_nodup); [|exact H].
    intros [[k cur] pt] xs _ Hx. apply row_of_field_ok in Hx.
    destruct Hx as (v & _ & ->).
    destruct v as [c|]; [destruct (0 <? c)|]; simpl;
      (split; [repeat constructor; simpl; tauto | intros s Hs]);
      try destruct Hs as [<-|[]]; try destruct Hs; reflexivity.
  - intros s Hs. apply (collect_in _ _ _ H) in Hs.
    destruct Hs as ([[k cur] pt] & xs & _ & Hx & Hs).
    apply row_of_field_ok in Hx. destruct Hx as (v & _ & ->).
    destruct v as [c|]; [destruct (0 <? c)|]; simpl in Hs;
      try destruct Hs as [<-|[]]; try destruct Hs; reflexivity.
Qed.

(** A market item joins at most one card, when card ids are distinct. *)
Lemma joined_cards_nodup (g : ScryfallCard -> bool) (h : ScryfallCard -> list (ItemId * jsonb))
      cid cards :
  NoDup (map scr_id cards) ->
  (forall scr, g scr = true -> scr_id scr = cid) ->
  (forall scr, List.length (h scr) <= 1)%nat ->
  (List.length (flat_map (fun scr => if g scr then h scr else []) cards) <= 1)%nat.
Proof.
  intros Hnd Hg Hh. induction cards as [|c cs IH]; simpl; [lia|].
  inversion Hnd as [|? ? Hnotin Hnd']; subst.
  destruct (g c) eqn:G.
  - assert (flat_map (fun scr => if g scr then h scr else []) cs = []) as ->.
    { apply flat_map_nil_in. intros scr Hscr.
      destruct (g scr) eqn:G'; [|reflexivity]. exfalso. apply Hnotin.
      rewrite (Hg c G), <- (Hg scr G'). now apply in_map. }
    rewrite app_nil_r. apply Hh.
  - simpl. now apply IH.
Qed.

Lemma joined_item cards mi ip : In ip (joined cards mi) -> fst ip = mi_id mi.
Proof.
  unfold joined. rewrite in_flat_map. intros (scr & _ & H).
  destruct (_ && _); [|destruct H].
  destruct (scr_prices scr); [|destruct H]. destruct H as [<-|[]]. reflexivity.
Qed.

Lemma joined_short cards mi :
  NoDup (map scr_id cards) -> (List.length (joined cards mi) <= 1)%nat.
Proof.
  intros Hnd. unfold joined.
  apply (joined_cards_nodup _ _ (mi_canonical_id mi)); [exact Hnd| |].
  - intros scr H. rewrite !andb_true_iff in H. now apply String.eqb_eq.
  - intros scr. destruct (scr_prices scr); simpl; lia.
Qed.

(** With distinct item ids and distinct card ids, [src] has one row per
    item at most. *)
Lemma src_items_nodup items cards :
  NoDup (map mi_id items) -> NoDup (map scr_id cards) ->
  NoDup (map fst (src items cards)).
Proof.
  intros Hi Hc. change (src items cards) with (flat_map (joined cards) items).
  induction items as [|mi items IH]; simpl; [constructor|].
  inversion Hi as [|? ? Hnotin Hi']; subst.
  rewrite map_app. apply NoDup_app.
  - apply short_list_nodup. rewrite length_map. now apply joined_short.
  - now apply IH.
  - intros k Hk1 Hk2. apply in_map_iff in Hk1, Hk2.
    destruct Hk1 as (ip1 & <- & H1), Hk2 as (ip2 & E & H2).
    apply joined_item in H1. apply in_flat_map in H2.
    destruct H2 as (mi' & Hmi' & H2). apply joined_item in H2.
    apply Hnotin. rewrite <- H1, <- E, H2. now apply in_map.
Qed.

(** The batch has no repeated identity key. *)
Lemma batch_keys_nodup dp items cards rows :
  NoDup (map mi_id items) -> NoDup (map scr_id cards) ->
  buildRowsCte dp items cards = Ok rows ->
  NoDup (map id_key rows).
Proof.
  intros Hi Hc. unfold buildRowsCte. destruct dp as [d|]; [|discriminate].
  apply (collect_nodup _ id_key fst
           (fun k : IdKey => fst (fst (fst (fst (fst k)))))).
  - now apply src_items_nodup.
  - intros [item prices] xs _ Hx. cbn [fst snd] in *.
    destruct (item_rows_nodup d item prices xs Hx) as [Hnd Hitem].
    split; [exact Hnd|]. intros s Hs. cbn. now apply Hitem.
Qed.

(** C2. With the same source data and date, on a store that does not
    fail, a second invocation leaves the table as the first left it, so
    every row keeps its value and raw payload, and when the first succeeded
    the second inserts no row.  Within one invocation the table after the
    run is the old table, row by row with the same keys, followed by the
    inserted rows; the inserted rows have pairwise distinct keys, none of
    them a key of the old table, so a table without duplicate keys stays
    without.  Item ids and card ids are primary keys. *)
Theorem normalizer_idempotent i table :
  NoDup (map mi_id (in_items i)) ->
  NoDup (map scr_id (in_cards i)) ->
  let first := main reliable i (connected table) in
  let second := main reliable i (connected (committed (final first))) in
  committed (final second) = committed (final first)
  /\ exit_code second = exit_code first
  /\ (exit_code first = 0 -> exists n, printed second = Some (n, 0%nat))
  /\ (forall rows,
        buildRowsCte (in_date i) (in_items i) (in_cards i) = Ok rows ->
        exit_code first = 0
        /\ exists inserted,
             committed (final first) = map (updated rows) table ++ inserted
             /\ map id_key (map (updated rows) table) = map id_key table
             /\ (exists n, printed first = Some (n, List.length inserted))
             /\ NoDup (map id_key inserted)
             /\ (forall s, In s inserted -> ~ In (id_key s) (map id_key table)))
  /\ (NoDup (map id_key table) -> NoDup (map id_key (committed (final first)))).
Proof.
  intros Hi Hc first second. subst first second.
  destruct (buildRowsCte (in_date i) (in_items i) (in_cards i)) as [rows|e] eqn:B.
  2:{ rewrite (main_unreliable_rows i table e B). cbn [final committed exit_code printed].
      rewrite (main_unreliable_rows i table e B). cbn [final committed exit_code printed].
      repeat split; auto; try discriminate. }
  rewrite (main_reliable i table rows B). cbn [final committed exit_code printed].
  rewrite (main_reliable i (normalized rows table) rows B).
  cbn [final committed exit_code printed].
  pose proof (batch_keys_nodup _ _ _ _ Hi Hc B) as Hnd.
  split; [now apply normalized_twice|].
  split; [reflexivity|].
  split.
  { intros _. eexists. rewrite inserted_count, missing_after. reflexivity. }
  split.
  { intros rows' [= <-]. split; [reflexivity|].
    exists (missing rows table). split; [apply normalized_eq|].
    split; [apply updated_keys|].
    split; [eexists; rewrite inserted_count; reflexivity|].
    split; [now apply missing_keys_nodup|].
    intros s Hs. apply missing_in in Hs. tauto. }
  intros Ht. rewrite normalized_eq, map_app, updated_keys.
  apply NoDup_app; [exact Ht | now apply missing_keys_nodup |].
  intros k Hk1 Hk2. apply in_map_iff in Hk2. destruct Hk2 as (s & <- & Hs).
  apply missing_in in Hs. tauto.
Qed.

(** *** Absent fields *)

Lemma regexp_strip_none t :
  (forall c, In c (list_ascii_of_string t) -> kept c = false) ->
  regexp_strip t = "".
Proof.
  induction t as [|c r IH]; simpl; intros H; [reflexivity|].
  rewrite (H c (or_introl eq_refl)). apply IH. intros c' Hc'. apply H. now right.
Qed.

Lemma cents_of_null prices k :
  get_text prices k = None -> cents_of_field prices k = Ok None.
Proof. unfold cents_of_field. now intros ->. Qed.

Lemma cents_of_blank prices k t :
  get_text prices k = Some t -> regexp_strip t = "" ->
  cents_of_field prices k = Ok None.
Proof. unfold cents_of_field. intros -> E. simpl. now rewrite E. Qed.

Lemma round_numeric_nonpos x : unscaled x <= 0 -> round_numeric (times_100 x) <= 0.
Proof.
  intros H. unfold round_numeric, times_100. cbn [unscaled scale].
  set (p := 10 ^ Z.of_nat (scale x)).
  assert (0 < p) by (apply Z.pow_pos_nonneg; lia).
  assert (0 <= (2 * Z.abs (unscaled x * 100) + p) / (2 * p))
    by (apply Z.div_pos; lia).
  assert (Z.sgn (unscaled x * 100) <= 0) by (apply Z.sgn_nonpos; lia).
  nia.
Qed.

Lemma cents_of_number prices k t x :
  get_text prices k = Some t ->
  numeric_in (regexp_strip t) = Some x ->
  - 2147483648 <= round_numeric (times_100 x) <= 2147483647 ->
  cents_of_field prices k = Ok (Some (round_numeric (times_100 x))).
Proof.
  unfold cents_of_field. intros -> N R. simpl.
  destruct (regexp_strip t) as [|c r] eqn:E; [discriminate N|].
  rewrite N. unfold to_int4.
  destruct (Z.leb_spec (-2147483648) (round_numeric (times_100 x))); [|lia].
  destruct (Z.leb_spec (round_numeric (times_100 x)) 2147483647); [|lia].
  reflexivity.
Qed.

Lemma row_of_absent d item prices k cur pt v :
  cents_of_field prices k = Ok v ->
  (v = None \/ exists c, v = Some c /\ c <= 0) ->
  row_of_field d item prices (k, cur, pt) = Ok [].
Proof.
  unfold row_of_field. intros -> [->|(c & -> & Hc)]; simpl; [reflexivity|].
  destruct (Z.ltb_spec 0 c); [lia|reflexivity].
Qed.

(** The batch, when no field raises: one row for each field with a
    positive amount, and no other row. *)
Lemma batch_rows d items cards :
  (forall item prices k cur pt,
      In (item, prices) (src items cards) -> In (k, cur, pt) price_fields ->
      exists v, cents_of_field prices k = Ok v) ->
  exists rows,
    buildRowsCte (Some d) items cards = Ok rows
    /\ forall s, In s rows <->
         exists item prices k cur pt c,
           In (item, prices) (src items cards) /\ In (k, cur, pt) price_fields
           /\ cents_of_field prices k = Ok (Some c) /\ 0 < c
           /\ s = mkSnapshot item "scryfall" d cur pt None c (RawScryfall prices k).
Proof.
  intros Hok. unfold buildRowsCte.
  destruct (collect_ok
              (fun ip : Z * jsonb =>
                 collect (row_of_field d (fst ip) (snd ip)) price_fields)
              (src items cards)) as (rows & Hrows).
  { intros [item prices] Hip. cbn [fst snd]. apply collect_ok.
    intros [[k cur] pt] Hf. destruct (Hok item prices k cur pt Hip Hf) as (v & Hv).
    unfold row_of_field. rewrite Hv. simpl.
    destruct v as [c|]; [destruct (0 <? c)|]; eauto. }
  exists rows. split; [exact Hrows|]. intros s.
  rewrite (collect_in _ _ _ Hrows s). split.
  - intros ([item prices] & xs & Hip & Hxs & Hs). cbn [fst snd] in Hxs.
    apply (collect_in _ _ _ Hxs) in Hs.
    destruct Hs as ([[k cur] pt] & ys & Hf & Hys & Hs).
    apply row_of_field_ok in Hys. destruct Hys as (v & Hv & ->).
    destruct v as [c|]; [|destruct Hs].
    destruct (Z.ltb_spec 0 c); [|destruct Hs]. destruct Hs as [<-|[]].
    exists item, prices, k, cur, pt, c. auto.
  - intros (item & prices & k & cur & pt & c & Hip & Hf & Hv & Hc & ->).
    destruct (collect_ok (row_of_field d item prices) price_fields) as (xs & Hxs).
    { intros [[k' cur'] pt'] Hf'.
      destruct (Hok item prices k' cur' pt' Hip Hf') as (v & Hv').
      unfold row_of_field. rewrite Hv'. simpl.
      destruct v as [c'|]; [destruct (0 <? c')|]; eauto. }
    exists (item, prices), xs. split; [exact Hip|]. split; [exact Hxs|].
    apply (collect_in _ _ _ Hxs). exists (k, cur, pt). eexists.
    split; [exact Hf|]. unfold row_of_field. rewrite Hv. simpl.
    destruct (Z.ltb_spec 0 c); [|lia]. split; [reflexivity|]. now left.
Qed.

(** The batch raises only on a field that raises. *)
Lemma batch_err d items cards e :
  buildRowsCte (Some d) items cards = Err e ->
  exists item prices k cur pt e',
    In (item, prices) (src items cards) /\ In (k, cur, pt) price_fields
    /\ cents_of_field prices k = Err e'.
Proof.
  unfold buildRowsCte. intros H. apply collect_err in H.
  destruct H as ([item prices] & e1 & Hip & H). cbn [fst snd] in H.
  apply collect_err in H. destruct H as ([[k cur] pt] & e2 & Hf & H).
  exists item, prices, k, cur, pt.
  unfold row_of_field in H.
  destruct (cents_of_field prices k) as [v|e3]; simpl in H.
  - destruct v as [c|]; [destruct (0 <? c)|]; discriminate.
  - exists e3. auto.
Qed.

(** C4, as stated, fails twice.  A text that is not a number yields a row
    when it has a digit in it; and a text that strips to something that is
    not a number makes the statement raise, so the invocation exits with
    status 1 and writes nothing, not even the price of the other card. *)
Lemma normalizer_text_row_and_abort :
  buildRowsCte (Some 100) two_items noted_cards
  = Ok [ mkSnapshot 1 "scryfall" 100 "USD" "market" None 200
                    (RawScryfall (JObject [("usd", JString "v2")]) "usd") ]
  /\ buildRowsCte (Some 100) two_items dashed_cards = Err (InvalidNumericSyntax "-")
  /\ exit_code (main reliable (mkInputs (Some 100) two_items dashed_cards)
                     (connected [old_row])) = 1
  /\ committed (final (main reliable (mkInputs (Some 100) two_items dashed_cards)
                            (connected [old_row]))) = [old_row].
Proof. repeat split; vm_compute; reflexivity. Qed.

(** C4 (amended). A price field that is missing or JSON null, or whose text
    is empty or has no digit, point or minus sign in it, is absent; a field
    whose text, with every other character removed, is a decimal number of
    zero or less has a non-positive amount of cents, when that fits 32
    bits; no row is written for an absent field or a non-positive amount.
    When every field of the batch is absent or has an amount, the rows are
    built, one for each field with a positive amount and no other. *)
Theorem normalizer_absent_fields d items cards :
  (forall prices k, get_text prices k = None -> cents_of_field prices k = Ok None)
  /\ (forall prices k t,
        get_text prices k = Some t -> regexp_strip t = "" ->
        cents_of_field prices k = Ok None)
  /\ regexp_strip "" = ""
  /\ (forall t, (forall c, In c (list_ascii_of_string t) -> kept c = false) ->
                 regexp_strip t = "")
  /\ (forall prices k t x,
        get_text prices k = Some t ->
        numeric_in (regexp_strip t) = Some x ->
        unscaled x <= 0 ->
        - 2147483648 <= round_numeric (times_100 x) ->
        exists c, cents_of_field prices k = Ok (Some c) /\ c <= 0)
  /\ (forall item prices k cur pt v,
        cents_of_field prices k = Ok v ->
        (v = None \/ exists c, v = Some c /\ c <= 0) ->
        row_of_field d item prices (k, cur, pt) = Ok [])
  /\ ((forall item prices k cur pt,
         In (item, prices) (src items cards) -> In (k, cur, pt) price_fields ->
         exists v, cents_of_field prices k = Ok v) ->
      exists rows,
        buildRowsCte (Some d) items cards = Ok rows
        /\ forall s, In s rows <->
             exists item prices k cur pt c,
               In (item, prices) (src items cards) /\ In (k, cur, pt) price_fields
               /\ cents_of_field prices k = Ok (Some c) /\ 0 < c
               /\ s = mkSnapshot item "scryfall" d cur pt None c
                                 (RawScryfall prices k)).
Proof.
  split; [exact cents_of_null|].
  split; [exact cents_of_blank|].
  split; [reflexivity|].
  split; [exact regexp_strip_none|].
  split.
  { intros prices k t x Ht Hx Hneg Hlo.
    pose proof (round_numeric_nonpos x Hneg).
    exists (round_numeric (times_100 x)). split; [|assumption].
    apply (cents_of_number prices k t x Ht Hx). lia. }
  split; [intros item prices k cur pt v; apply row_of_absent|].
  apply batch_rows.
Qed.

Lemma normalizer_absent_fields_witness :
  exists rows,
    buildRowsCte (Some 100) two_items tidy_cards = Ok rows
    /\ forall s, In s rows -> 0 < value_cents s.
Proof.
  destruct (normalizer_absent_fields 100 two_items tidy_cards)
    as (_ & _ & _ & _ & _ & _ & H).
  destruct H as (rows & Hrows & Hin).
  - intros item prices k cur pt Hip Hf.
    vm_compute in Hip. vm_compute in Hf.
    destruct Hip as [[= <- <-]|[[= <- <-]|[]]];
      repeat (destruct Hf as [[= <- <- <-]|Hf]; [vm_compute; eauto|]);
      destruct Hf.
  - exists rows. split; [exact Hrows|]. intros s Hs.
    apply Hin in Hs. destruct Hs as (item & prices & k & cur & pt & c & _ & _ & _ & Hc & ->).
    exact Hc.
Defined.

(** Item ids and card ids of the sample data are distinct. *)
Lemma two_items_nodup : NoDup (map mi_id two_items).
Proof. repeat constructor; simpl; intuition discriminate. Qed.

Lemma tidy_cards_nodup : NoDup (map scr_id tidy_cards).
Proof. repeat constructor; simpl; intuition discriminate. Qed.

Lemma normalizer_idempotent_witness :
  let i := mkInputs (Some 100) two_items tidy_cards in
  committed (final (main reliable i
     (connected (committed (final (main reliable i (connected [old_row])))))))
  = committed (final (main reliable i (connected [old_row]))).
Proof.
  intros i.
  destruct (normalizer_idempotent i [old_row]) as (H & _).
  - exact two_items_nodup.
  - exact tidy_cards_nodup.
  - exact H.
Defined.

End NormalizerFacts.

(** ** Facts about the rollup *)

Module RollupFacts.
Import ListFacts Rollup.
Import PrimFloat.

Lemma in_group_true k r : in_group k r = true <-> group_key r = k.
Proof.
  unfold in_group, group_key. destruct k as [ck g]. simpl.
  rewrite andb_true_iff, !String.eqb_eq. split.
  - intros [-> ->]. reflexivity.
  - intros [= -> ->]. auto.
Qed.

(** The rows of [stats]: one for each group key present, computed from
    the rows of that group, of which there is at least one. *)
Lemma in_stats rec s :
  In s (stats rec) <->
  exists k, In k (map group_key rec)
            /\ s = stats_of k (filter (in_group k) rec).
Proof.
  unfold stats. rewrite in_map_iff. split.
  - intros (k & <- & Hk). apply nodup_In in Hk. eauto.
  - intros (k & Hk & ->). exists k. split; [reflexivity|]. now apply nodup_In.
Qed.

Lemma group_nonempty rec k :
  In k (map group_key rec) -> filter (in_group k) rec <> [].
Proof.
  intros Hk. apply in_map_iff in Hk. destruct Hk as (r & Hr & Hin).
  intros E. assert (In r (filter (in_group k) rec)) as H
    by (apply filter_In; split; [exact Hin | now apply in_group_true]).
  rewrite E in H. destruct H.
Qed.

(** *** The cast to two decimals *)

Lemma round_nonneg q : (0 <= q)%Q -> round_half_away q = Qfloor (q + (1 # 2))%Q.
Proof.
  intros H. unfold round_half_away.
  assert (0 <= Qnum q) as Hn by (destruct q as [n d]; unfold Qle in H; simpl in *; lia).
  assert (Qabs q == q)%Q as Ea by (apply Qabs_pos; exact H).
  assert (Qfloor (Qabs q + (1 # 2)) = Qfloor (q + (1 # 2)))%Q as ->
    by (apply Qfloor_comp; now rewrite Ea).
  destruct (Z.eq_dec (Qnum q) 0) as [E0|Hpos].
  - rewrite E0. change (Z.sgn 0) with 0. rewrite Z.mul_0_l.
    assert (q == 0)%Q as Eq by (destruct q as [n d]; simpl in E0; subst n; reflexivity).
    rewrite (Qfloor_comp (q + (1 # 2)) (1 # 2)) by (rewrite Eq; reflexivity).
    reflexivity.
  - rewrite Z.sgn_pos by lia. lia.
Qed.

Lemma round_neg q : (q < 0)%Q -> round_half_away q = - Qfloor (- q + (1 # 2))%Q.
Proof.
  intros H. unfold round_half_away.
  assert (Qnum q < 0) as Hn by (destruct q as [n d]; unfold Qlt in H; simpl in *; lia).
  assert (Qabs q == - q)%Q as Ea by (apply Qabs_neg; lra).
  assert (Qfloor (Qabs q + (1 # 2)) = Qfloor (- q + (1 # 2)))%Q as ->
    by (apply Qfloor_comp; now rewrite Ea).
  rewrite Z.sgn_neg by lia. lia.
Qed.

Lemma round_half_away_le x y : (x <= y)%Q -> round_half_away x <= round_half_away y.
Proof.
  intros H.
  destruct (Qlt_le_dec x 0) as [Hx|Hx], (Qlt_le_dec y 0) as [Hy|Hy].
  - rewrite !round_neg by assumption.
    assert (- y + (1 # 2) <= - x + (1 # 2))%Q as H' by lra.
    apply Qfloor_resp_le in H'. lia.
  - rewrite round_neg, round_nonneg by assumption.
    assert (0 <= - x + (1 # 2))%Q as H1 by lra.
    assert (0 <= y + (1 # 2))%Q as H2 by lra.
    apply Qfloor_resp_le in H1, H2. change (Qfloor 0) with 0 in H1, H2. lia.
  - exfalso. lra.
  - rewrite !round_nonneg by assumption.
    apply Qfloor_resp_le. lra.
Qed.

Lemma numeric_12_2_le x y : (x <= y)%Q -> (numeric_12_2 x <= numeric_12_2 y)%Q.
Proof.
  intros H. unfold numeric_12_2.
  assert (x * inject_Z 100 <= y * inject_Z 100)%Q as H'
    by (change (inject_Z 100) with 100%Q; lra).
  apply round_half_away_le in H'. unfold Qle. simpl. lia.
Qed.

Lemma numeric_12_2_eq x y : (x == y)%Q -> numeric_12_2 x = numeric_12_2 y.
Proof.
  intros H. unfold numeric_12_2. f_equal.
  assert (x * inject_Z 100 <= y * inject_Z 100)%Q as H1 by (rewrite H; lra).
  assert (y * inject_Z 100 <= x * inject_Z 100)%Q as H2 by (rewrite H; lra).
  apply round_half_away_le in H1, H2. lia.
Qed.

(** A price of whole cents is its own cast. *)
Lemma numeric_12_2_exact c : numeric_12_2 (c # 100) = c # 100.
Proof.
  unfold numeric_12_2. f_equal.
  assert ((c # 100) * inject_Z 100 == inject_Z c)%Q as E
    by (unfold Qeq; simpl; lia).
  assert (round_half_away ((c # 100) * inject_Z 100) = round_half_away (inject_Z c)) as ->.
  { assert ((c # 100) * inject_Z 100 <= inject_Z c)%Q as H1 by (rewrite E; lra).
    assert (inject_Z c <= (c # 100) * inject_Z 100)%Q as H2 by (rewrite E; lra).
    apply round_half_away_le in H1, H2. lia. }
  unfold round_half_away, inject_Z, Qabs, Qplus, Qfloor. cbn [Qnum Qden].
  change (Z.pos (1 * 2)) with 2. rewrite Z.mul_1_l.
  rewrite Z.div_add_l by lia. change (1 / 2) with 0.
  destruct c; simpl; lia.
Qed.

Lemma cast_same_value a b :
  same_value a b -> option_map numeric_12_2 a = option_map numeric_12_2 b.
Proof.
  destruct a, b; simpl; try tauto. intros H. f_equal. now apply numeric_12_2_eq.
Qed.

(** *** The rows of the rollup *)

Lemma in_rollup now today comps row :
  In row (rollup now today comps) <->
  exists k, In k (map group_key (recent now comps))
    /\ row = value_row today (recent now comps)
               (stats_of k (filter (in_group k) (recent now comps))).
Proof.
  unfold rollup. rewrite in_map_iff. split.
  - intros (s & <- & Hs). apply in_stats in Hs. destruct Hs as (k & Hk & ->). eauto.
  - intros (k & Hk & ->). eexists. split; [reflexivity|]. apply in_stats. eauto.
Qed.

Lemma rollup_group_keys now today comps :
  map (fun row => (mv_card_key row, mv_grade row)) (rollup now today comps)
  = nodup group_key_dec (map group_key (recent now comps)).
Proof.
  unfold rollup, stats. rewrite !map_map.
  rewrite <- (map_id (nodup _ _)) at 2. apply map_ext. intros [ck g]. reflexivity.
Qed.

Lemma in_recent now comps r :
  In r (recent now comps) <-> In r comps /\ now - sold_at r <= window.
Proof. unfold recent. rewrite filter_In, Z.leb_le. split; intros [H1 H2]; split; auto; lia. Qed.


(** The sales of a group in the window are those the [recent] CTE hands
    to the group. *)
Lemma window_sales_recent now k comps :
  window_sales now k comps = filter (in_group k) (recent now comps).
Proof.
  unfold window_sales, recent. induction comps as [|r l IH]; [reflexivity|].
  cbn [filter]. unfold in_group at 1.
  assert ((now - sold_at r <=? 180 * 86400) = (now - window <=? sold_at r)) as E.
  { unfold window.
    destruct (Z.leb_spec (now - sold_at r) (180 * 86400)),
             (Z.leb_spec (now - 180 * 86400) (sold_at r)); (reflexivity || lia). }
  rewrite E. destruct (now - window <=? sold_at r); cbn [filter].
  - rewrite andb_true_r. fold (in_group k r).
    destruct (in_group k r); now rewrite IH.
  - rewrite andb_false_r. exact IH.
Qed.

(** A row of the rollup, read off the sales of its group in the window. *)
Lemma rollup_row now today comps row :
  In row (rollup now today comps) ->
  let sales := window_sales now (mv_card_key row, mv_grade row) comps in
  sales <> []
  /\ row = value_row today (recent now comps)
             (stats_of (mv_card_key row, mv_grade row) sales).
Proof.
  intros Hrow. apply in_rollup in Hrow. destruct Hrow as ([ck g] & Hk & ->).
  cbn [value_row mv_card_key mv_grade stats_of st_card_key st_grade fst snd].
  rewrite window_sales_recent. split; [now apply group_nonempty | reflexivity].
Qed.

(** A group with a sale in the window has a row. *)
Lemma rollup_row_exists now today comps k :
  window_sales now k comps <> [] ->
  exists row, In row (rollup now today comps)
              /\ (mv_card_key row, mv_grade row) = k.
Proof.
  rewrite window_sales_recent. intros Hne.
  destruct (filter (in_group k) (recent now comps)) as [|r l] eqn:E; [congruence|].
  assert (In r (filter (in_group k) (recent now comps))) as Hr by (rewrite E; now left).
  apply filter_In in Hr. destruct Hr as [Hin Hg]. apply in_group_true in Hg.
  exists (value_row today (recent now comps)
            (stats_of k (filter (in_group k) (recent now comps)))).
  split; [|destruct k; reflexivity].
  apply in_rollup. exists k. split; [|reflexivity].
  rewrite <- Hg. now apply in_map.
Qed.

(** *** Confidence grade *)

Lemma confidence_of_cases c :
  (confidence_of c = "A" <-> 10 <= c)
  /\ (confidence_of c = "B" <-> 5 <= c < 10)
  /\ (confidence_of c = "C" <-> 2 <= c < 5)
  /\ (confidence_of c = "D" <-> c < 2).
Proof.
  unfold confidence_of.
  destruct (Z.leb_spec 10 c); [|destruct (Z.leb_spec 5 c); [|destruct (Z.leb_spec 2 c)]];
    repeat split; intros; (reflexivity || discriminate || lia).
Qed.

(** C7. The confidence grade of a row of the rollup is a step function
    of the number of sales of its card and grade in the 180 days up to the
    run, which is the count the row reports: A from 10 sales on, B from 5
    to 9, C from 2 to 4, D for a single sale.  Runs over 1, 2, 4, 5, 9 and
    10 sales in the window, with one older sale outside it, grade D, C, C,
    B, B and A. *)
Theorem confidence_step_function :
  (forall c, 10 <= c -> confidence_of c = "A")
  /\ (forall c, 5 <= c < 10 -> confidence_of c = "B")
  /\ (forall c, 2 <= c < 5 -> confidence_of c = "C")
  /\ (forall c, c < 2 -> confidence_of c = "D")
  /\ confidence_of 1 = "D" /\ confidence_of 2 = "C"
  /\ confidence_of 5 = "B" /\ confidence_of 10 = "A"
  /\ confidence_of 9 = "B" /\ confidence_of 4 = "C"
  /\ (forall now today comps row,
         In row (rollup now today comps) ->
         let n := Z.of_nat (List.length
                              (window_sales now (mv_card_key row, mv_grade row) comps)) in
         sales_count_180d row = n
         /\ 1 <= n
         /\ confidence row = confidence_of n
         /\ (confidence row = "A" <-> 10 <= n)
         /\ (confidence row = "B" <-> 5 <= n < 10)
         /\ (confidence row = "C" <-> 2 <= n < 5)
         /\ (confidence row = "D" <-> n = 1))
  /\ map (fun n => map (fun row => (sales_count_180d row, confidence row))
                       (rollup sample_now 1 (older :: sales_from n 901)))
         [1; 2; 4; 5; 9; 10]%nat
     = [[(1, "D")]; [(2, "C")]; [(4, "C")]; [(5, "B")]; [(9, "B")]; [(10, "A")]].
Proof.
  split; [intros c Hc; now apply confidence_of_cases|].
  split; [intros c Hc; now apply confidence_of_cases|].
  split; [intros c Hc; now apply confidence_of_cases|].
  split; [intros c Hc; now apply confidence_of_cases|].
  do 6 (split; [reflexivity|]).
  split; [|vm_compute; reflexivity].
  intros now today comps row Hrow n.
  destruct (rollup_row now today comps row Hrow) as (Hne & E).
  assert (1 <= n) as Hn.
  { unfold n. destruct (window_sales now (mv_card_key row, mv_grade row) comps);
      [congruence | cbn [List.length]; lia]. }
  assert (sales_count_180d row = n) as Hc by (rewrite E; reflexivity).
  assert (confidence row = confidence_of n) as Hg by (rewrite E; reflexivity).
  split; [exact Hc|]. split; [exact Hn|]. split; [exact Hg|].
  rewrite Hg. destruct (confidence_of_cases n) as (HA & HB & HC & HD).
  split; [exact HA|]. split; [exact HB|]. split; [exact HC|].
  rewrite HD. lia.
Qed.

(** C7, at a table of ten sales in the window and one before it. *)
Lemma confidence_step_function_witness :
  exists row,
    rollup sample_now 1 (older :: sales_from 10 901) = [row]
    /\ sales_count_180d row = 10 /\ confidence row = "A".
Proof.
  eexists. split; [vm_compute; reflexivity|].
  match goal with
  | |- sales_count_180d ?r = _ /\ _ =>
      destruct (proj1 (proj2 (proj2 (proj2 (proj2 (proj2 (proj2 (proj2 (proj2 (proj2
                  (proj2 confidence_step_function))))))))))
                  sample_now 1 (older :: sales_from 10 901) r)
        as (Hc & _ & _ & HA & _)
  end.
  - vm_compute. left. reflexivity.
  - split; [exact Hc|]. apply HA. vm_compute. discriminate.
Defined.

(** *** Percentiles *)

Lemma Qle_bool_compat x y a b :
  (x == y)%Q -> (a == b)%Q -> Qle_bool x a = Qle_bool y b.
Proof.
  intros Hx Ha. destruct (Qle_bool x a) eqn:E1, (Qle_bool y b) eqn:E2; try reflexivity.
  - apply Qle_bool_iff in E1. rewrite Hx, Ha in E1. apply Qle_bool_iff in E1. congruence.
  - apply Qle_bool_iff in E2. rewrite <- Hx, <- Ha in E2. apply Qle_bool_iff in E2. congruence.
Qed.

Lemma insert_price_compat x y l1 l2 :
  (x == y)%Q -> Forall2 Qeq l1 l2 ->
  Forall2 Qeq (insert_price x l1) (insert_price y l2).
Proof.
  intros Hx H. induction H as [|a b r1 r2 Hab Hr IH]; simpl.
  - constructor; [exact Hx | constructor].
  - rewrite (Qle_bool_compat x y a b Hx Hab).
    destruct (Qle_bool y b); repeat constructor; auto.
Qed.

Lemma Forall2_Qeq_refl l : Forall2 Qeq l l.
Proof. induction l; constructor; [reflexivity | assumption]. Qed.

Lemma Forall2_Qeq_trans l1 l2 l3 :
  Forall2 Qeq l1 l2 -> Forall2 Qeq l2 l3 -> Forall2 Qeq l1 l3.
Proof.
  intros H. revert l3. induction H as [|a b r1 r2 Hab Hr IH]; intros l3 H3;
    inversion H3; subst; constructor.
  - etransitivity; eassumption.
  - now apply IH.
Qed.

Lemma Qle_bool_false x y : Qle_bool x y = false -> (y < x)%Q.
Proof.
  intros H. apply Qnot_le_lt. intros Hle. apply Qle_bool_iff in Hle. congruence.
Qed.

Ltac price_order :=
  repeat match goal with
         | H : Qle_bool _ _ = true |- _ => apply Qle_bool_iff in H
         | H : Qle_bool _ _ = false |- _ => apply Qle_bool_false in H
         end.

Lemma insert_price_swap x y l :
  Forall2 Qeq (insert_price x (insert_price y l)) (insert_price y (insert_price x l)).
Proof.
  induction l as [|a r IH].
  - cbn [insert_price].
    destruct (Qle_bool x y) eqn:Exy, (Qle_bool y x) eqn:Eyx;
      try apply Forall2_Qeq_refl; price_order.
    + repeat constructor; lra.
    + exfalso. lra.
  - cbn [insert_price].
    destruct (Qle_bool y a) eqn:Eya, (Qle_bool x a) eqn:Exa;
      cbn [insert_price];
      destruct (Qle_bool x y) eqn:Exy, (Qle_bool y x) eqn:Eyx;
      rewrite ?Exa, ?Eya;
      try apply Forall2_Qeq_refl;
      try (constructor; [reflexivity | exact IH]);
      price_order; try (exfalso; lra).
    constructor; [lra|]. constructor; [lra|]. apply Forall2_Qeq_refl.
Qed.

(** Sorting two presentations of the same prices gives the same numbers in
    the same places. *)
Lemma sort_prices_perm l1 l2 :
  Permutation l1 l2 -> Forall2 Qeq (sort_prices l1) (sort_prices l2).
Proof.
  induction 1 as [|x l1 l2 _ IH|x y l|l1 l2 l3 _ IH1 _ IH2]; simpl.
  - constructor.
  - apply insert_price_compat; [reflexivity | exact IH].
  - apply insert_price_swap.
  - eapply Forall2_Qeq_trans; eassumption.
Qed.

Lemma Forall2_Qeq_nth l1 l2 d1 d2 n :
  Forall2 Qeq l1 l2 -> (d1 == d2)%Q -> (nth n l1 d1 == nth n l2 d2)%Q.
Proof.
  intros H Hd. revert n. induction H as [|a b r1 r2 Hab Hr IH]; intros [|n]; simpl; auto.
Qed.

(** [percentile_cont] reads the multiset of the values only. *)
Lemma percentile_cont_perm p l1 l2 :
  Permutation l1 l2 -> same_value (percentile_cont p l1) (percentile_cont p l2).
Proof.
  intros Hp. apply sort_prices_perm in Hp. unfold percentile_cont.
  pose proof (Forall2_length_eq _ _ _ Hp) as Hlen.
  destruct Hp as [|a b r1 r2 Hab Hr]; [exact I|].
  rewrite Hlen.
  set (rn := (p * inject_Z (Z.of_nat (List.length (b :: r2)) - 1))%Q).
  assert (Forall2 Qeq (a :: r1) (b :: r2)) as H by (constructor; assumption).
  destruct (Qfloor rn =? Qceiling rn); cbn [same_value].
  - apply Forall2_Qeq_nth; assumption.
  - rewrite (Forall2_Qeq_nth _ _ a b (Z.to_nat (Qfloor rn)) H Hab).
    rewrite (Forall2_Qeq_nth _ _ a b (Z.to_nat (Qceiling rn)) H Hab).
    reflexivity.
Qed.

Lemma insert_price_nonempty x l : insert_price x l <> [].
Proof. destruct l as [|y r]; simpl; [|destruct (Qle_bool x y)]; discriminate. Qed.

Lemma percentile_cont_some p xs :
  xs <> [] -> exists v, percentile_cont p xs = Some v.
Proof.
  intros Hne. unfold percentile_cont.
  destruct xs as [|x r]; [congruence|]. simpl sort_prices.
  pose proof (insert_price_nonempty x (sort_prices r)) as Hs.
  destruct (insert_price x (sort_prices r)) as [|x0 r0]; [congruence|].
  destruct (_ =? _); eauto.
Qed.

Lemma percentile_cont_single p x : percentile_cont p [x] = Some x.
Proof.
  unfold percentile_cont. cbn [sort_prices fold_right insert_price List.length].
  change (Z.of_nat 1 - 1) with 0.
  assert (p * inject_Z 0 == 0)%Q as E by (unfold inject_Z; ring).
  assert (Qfloor (p * inject_Z 0) = 0) as ->
    by (rewrite E; reflexivity).
  assert (Qceiling (p * inject_Z 0) = 0) as ->
    by (rewrite E; reflexivity).
  reflexivity.
Qed.

Lemma same_value_to a b q q' :
  same_value a b -> b = Some q -> (q == q')%Q -> same_value a (Some q').
Proof.
  intros H -> E. destruct a as [x|]; [|exact H]. simpl in *.
  now rewrite H.
Qed.

(** C6. Every row of the rollup belongs to a card and grade with at
    least one sale in the 180 days up to the run, and every such group has
    a row; the row's count is the number of those sales and its median and
    quartiles are the continuous percentiles 0.5, 0.25 and 0.75 of their
    prices, at two decimals, none of them NULL; sales before the window do
    not count.  A row whose sales in the window are priced 10, 20, 30 and
    40, in any order, has median 25.00, quartiles 17.50 and 32.50 and count
    4; a group with one sale in the window has a row with that sale's price
    as median and as both quartiles, count 1 and the lowest grade, the
    price itself when it is of whole cents and else its cast.  The
    same holds of the rows of [stats] before the cast.  In binary64
    arithmetic the aggregate gives the same three numbers for the four
    prices, and the one price for one sale. *)
Theorem rollup_percentiles :
  (forall now today comps row, In row (rollup now today comps) ->
     let sales := window_sales now (mv_card_key row, mv_grade row) comps in
     let prices := map sold_price_usd sales in
     sales <> []
     /\ sales_count_180d row = Z.of_nat (List.length sales)
     /\ market_value_usd row = option_map numeric_12_2 (percentile_cont (1 # 2) prices)
     /\ range_low_usd row = option_map numeric_12_2 (percentile_cont (1 # 4) prices)
     /\ range_high_usd row = option_map numeric_12_2 (percentile_cont (3 # 4) prices)
     /\ (exists m lo hi,
           market_value_usd row = Some m /\ range_low_usd row = Some lo
           /\ range_high_usd row = Some hi))
  /\ (forall now today comps k,
        window_sales now k comps <> [] ->
        exists row, In row (rollup now today comps)
                    /\ (mv_card_key row, mv_grade row) = k)
  /\ (forall now today comps row, In row (rollup now today comps) ->
        Permutation
          (map sold_price_usd (window_sales now (mv_card_key row, mv_grade row) comps))
          [10; 20; 30; 40]%Q ->
        market_value_usd row = Some (2500 # 100)
        /\ range_low_usd row = Some (1750 # 100)
        /\ range_high_usd row = Some (3250 # 100)
        /\ sales_count_180d row = 4)
  /\ (forall now today comps k r,
        window_sales now k comps = [r] ->
        exists row,
          In row (rollup now today comps)
          /\ (mv_card_key row, mv_grade row) = k
          /\ market_value_usd row = Some (numeric_12_2 (sold_price_usd r))
          /\ range_low_usd row = market_value_usd row
          /\ range_high_usd row = market_value_usd row
          /\ sales_count_180d row = 1
          /\ confidence row = "D"
          /\ (forall c, (sold_price_usd r == c # 100)%Q ->
                same_value (market_value_usd row) (Some (sold_price_usd r))))
  /\ (forall rec s, In s (stats rec) ->
     let rows := filter (in_group (st_card_key s, st_grade s)) rec in
     rows <> []
     /\ cnt s = Z.of_nat (List.length rows)
     /\ median_price s = percentile_cont (1 # 2) (map sold_price_usd rows)
     /\ p25 s = percentile_cont (1 # 4) (map sold_price_usd rows)
     /\ p75 s = percentile_cont (3 # 4) (map sold_price_usd rows)
     /\ (exists m lo hi,
           median_price s = Some m /\ p25 s = Some lo /\ p75 s = Some hi))
  /\ (forall k rows,
        Permutation (map sold_price_usd rows) [10; 20; 30; 40]%Q ->
        same_value (median_price (stats_of k rows)) (Some 25%Q)
        /\ same_value (p25 (stats_of k rows)) (Some (35 # 2))
        /\ same_value (p75 (stats_of k rows)) (Some (65 # 2))
        /\ cnt (stats_of k rows) = 4)
  /\ (forall k r,
        median_price (stats_of k [r]) = Some (sold_price_usd r)
        /\ p25 (stats_of k [r]) = Some (sold_price_usd r)
        /\ p75 (stats_of k [r]) = Some (sold_price_usd r)
        /\ cnt (stats_of k [r]) = 1)
  /\ map (fun row => (market_value_usd row, range_low_usd row, range_high_usd row,
                      sales_count_180d row))
         (rollup sample_now 1 [four_b; older; four_a; four_c; four_d])
     = [(Some (2500 # 100), Some (1750 # 100), Some (3250 # 100), 4)]
  /\ (Float8.percentile_cont_float8 0.5 [20; 10; 40; 30] = Some 25
      /\ Float8.percentile_cont_float8 0.25 [20; 10; 40; 30] = Some 17.5
      /\ Float8.percentile_cont_float8 0.75 [20; 10; 40; 30] = Some 32.5)%float
  /\ (forall x,
        Float8.percentile_cont_float8 0.5%float [x] = Some x
        /\ Float8.percentile_cont_float8 0.25%float [x] = Some x
        /\ Float8.percentile_cont_float8 0.75%float [x] = Some x).
Proof.
  assert (forall k rows,
            Permutation (map sold_price_usd rows) [10; 20; 30; 40]%Q ->
            same_value (median_price (stats_of k rows)) (Some 25%Q)
            /\ same_value (p25 (stats_of k rows)) (Some (35 # 2))
            /\ same_value (p75 (stats_of k rows)) (Some (65 # 2))
            /\ cnt (stats_of k rows) = 4) as Hfour.
  { intros k rows Hp. cbn [stats_of cnt median_price p25 p75].
    pose proof (percentile_cont_perm (1 # 2) _ _ Hp) as H2.
    pose proof (percentile_cont_perm (1 # 4) _ _ Hp) as H4.
    pose proof (percentile_cont_perm (3 # 4) _ _ Hp) as H34.
    apply Permutation_length in Hp. rewrite length_map in Hp.
    rewrite Hp. repeat split; try reflexivity.
    + eapply same_value_to; [exact H2 | vm_compute; reflexivity | reflexivity].
    + eapply same_value_to; [exact H4 | vm_compute; reflexivity | reflexivity].
    + eapply same_value_to; [exact H34 | vm_compute; reflexivity | reflexivity]. }
  split; [|split; [|split; [|split; [|split; [|split; [exact Hfour|split;
    [|split; [vm_compute; reflexivity|split]]]]]]]];
    [ | | | | | | repeat split; vm_compute; reflexivity
                  | intros x; repeat split; reflexivity ].
  - intros now today comps row Hrow sales prices.
    destruct (rollup_row now today comps row Hrow) as (Hne & E). fold sales in Hne, E.
    split; [exact Hne|].
    split; [rewrite E; reflexivity|].
    split; [rewrite E; reflexivity|].
    split; [rewrite E; reflexivity|].
    split; [rewrite E; reflexivity|].
    assert (prices <> []) as Hne'
      by (unfold prices; destruct sales; [congruence | discriminate]).
    destruct (percentile_cont_some (1 # 2) _ Hne') as (m & Hm).
    destruct (percentile_cont_some (1 # 4) _ Hne') as (lo & Hlo).
    destruct (percentile_cont_some (3 # 4) _ Hne') as (hi & Hhi).
    exists (numeric_12_2 m), (numeric_12_2 lo), (numeric_12_2 hi).
    rewrite E. cbn [value_row stats_of market_value_usd range_low_usd range_high_usd
                    median_price p25 p75].
    fold prices. rewrite Hm, Hlo, Hhi. repeat split.
  - intros now today comps k. apply rollup_row_exists.
  - intros now today comps row Hrow Hp.
    destruct (rollup_row now today comps row Hrow) as (_ & E).
    destruct (Hfour (mv_card_key row, mv_grade row) _ Hp) as (H2 & H4 & H34 & Hc).
    rewrite E.
    cbn [value_row market_value_usd range_low_usd range_high_usd sales_count_180d].
    apply cast_same_value in H2, H4, H34. rewrite H2, H4, H34, Hc.
    repeat split; vm_compute; reflexivity.
  - intros now today comps k r Hone.
    destruct (rollup_row_exists now today comps k) as (row & Hrow & Hk);
      [rewrite Hone; discriminate|].
    exists row. split; [exact Hrow|]. split; [exact Hk|].
    destruct (rollup_row now today comps row Hrow) as (_ & E).
    rewrite Hk, Hone in E. rewrite E.
    cbn [value_row stats_of cnt median_price p25 p75 map List.length market_value_usd
         range_low_usd range_high_usd sales_count_180d confidence].
    rewrite !percentile_cont_single.
    do 5 (split; [reflexivity|]).
    intros c Hc. cbn [same_value option_map].
    rewrite (numeric_12_2_eq _ _ Hc), numeric_12_2_exact. now symmetry.
  - intros rec s Hs. apply in_stats in Hs. destruct Hs as (k & Hk & ->).
    destruct k as [ck g]. cbn [stats_of st_card_key st_grade fst snd
                                   cnt median_price p25 p75].
    pose proof (group_nonempty rec (ck, g) Hk) as Hne.
    repeat split; auto.
    assert (map sold_price_usd (filter (in_group (ck, g)) rec) <> []) as Hne'
      by (destruct (filter (in_group (ck, g)) rec); [congruence | discriminate]).
    destruct (percentile_cont_some (1 # 2) _ Hne') as (m & ->).
    destruct (percentile_cont_some (1 # 4) _ Hne') as (lo & ->).
    destruct (percentile_cont_some (3 # 4) _ Hne') as (hi & ->).
    exists m, lo, hi. repeat split.
  - intros k r. cbn [stats_of cnt median_price p25 p75 map List.length].
    rewrite !percentile_cont_single. repeat split.
Qed.

(** C6, at a table of four sales in the window and one before it. *)
Lemma rollup_percentiles_witness :
  exists row,
    rollup sample_now 1 [four_b; older; four_a; four_c; four_d] = [row]
    /\ market_value_usd row = Some (2500 # 100)
    /\ range_low_usd row = Some (1750 # 100)
    /\ range_high_usd row = Some (3250 # 100)
    /\ sales_count_180d row = 4.
Proof.
  eexists. split; [vm_compute; reflexivity|].
  match goal with
  | |- market_value_usd ?r = _ /\ _ =>
      apply (proj1 (proj2 (proj2 rollup_percentiles))
               sample_now 1 [four_b; older; four_a; four_c; four_d] r)
  end.
  - vm_compute. left. reflexivity.
  - vm_compute. apply perm_swap.
Defined.

(** *** Last sale *)

Lemma insert_sale_perm x l : Permutation (insert_sale x l) (x :: l).
Proof.
  induction l as [|y r IH]; simpl; [reflexivity|].
  destruct (sold_at y <=? sold_at x); [reflexivity|].
  rewrite IH. apply perm_swap.
Qed.

Lemma newest_first_perm l : Permutation (newest_first l) l.
Proof.
  induction l as [|x r IH]; simpl; [reflexivity|].
  rewrite insert_sale_perm. now constructor.
Qed.

(** The first row of [newest_first] is a sale with the latest timestamp. *)
Lemma newest_first_hd l r :
  hd_error (newest_first l) = Some r ->
  In r l /\ forall x, In x l -> sold_at x <= sold_at r.
Proof.
  revert r. induction l as [|y l IH]; intros r; simpl; [discriminate|].
  destruct (newest_first l) as [|z t] eqn:E; simpl.
  - intros [= <-]. pose proof (newest_first_perm l) as P.
    rewrite E in P. apply Permutation_nil in P. subst l.
    split; [now left|]. intros x [->|[]]. lia.
  - destruct (IH z eq_refl) as [Hz Hmax].
    destruct (Z.leb_spec (sold_at z) (sold_at y)); simpl; intros [= <-].
    + split; [now left|]. intros x [->|Hx]; [lia|].
      specialize (Hmax x Hx). lia.
    + split; [now right|]. intros x [->|Hx]; [lia|]. now apply Hmax.
Qed.

Lemma fold_left_max_spec l x :
  let m := fold_left Z.max l x in
  (m = x \/ In m l) /\ x <= m /\ forall y, In y l -> y <= m.
Proof.
  revert x. induction l as [|a l IH]; intros x; simpl.
  - split; [now left|]. split; [lia|]. intros y [].
  - destruct (IH (Z.max x a)) as (Hin & Hle & Hall).
    split; [|split].
    + destruct Hin as [Hin|Hin]; [|now right; right].
      rewrite Hin. destruct (Z.max_spec x a) as [[_ ->]|[_ ->]]; auto.
    + lia.
    + intros y [->|Hy]; [lia|]. now apply Hall.
Qed.

Lemma max_sold_at_spec l m :
  max_sold_at l = Some m -> In m l /\ forall y, In y l -> y <= m.
Proof.
  destruct l as [|x r]; simpl; [discriminate|]. intros [= <-].
  destruct (fold_left_max_spec r x) as (Hin & Hle & Hall).
  split.
  - destruct Hin as [->|Hin]; auto.
  - intros y [<-|Hy]; auto.
Qed.

Lemma max_sold_at_some l : l <> [] -> exists m, max_sold_at l = Some m.
Proof. destruct l; [congruence|]. simpl. eauto. Qed.

(** What a row of the rollup reports as the last sale of its group. *)
Lemma last_sale_in_group now today comps row :
  In row (rollup now today comps) ->
  exists r,
    In r (filter (in_group (mv_card_key row, mv_grade row)) (recent now comps))
    /\ (forall x,
          In x (filter (in_group (mv_card_key row, mv_grade row)) (recent now comps)) ->
          sold_at x <= sold_at r)
    /\ last_sale_at row = Some (sold_at r)
    /\ last_sale_usd row = Some (numeric_12_2 (sold_price_usd r)).
Proof.
  unfold rollup. intros Hrow. apply in_map_iff in Hrow.
  destruct Hrow as (s & <- & Hs). apply in_stats in Hs.
  destruct Hs as ([ck g] & Hk & ->).
  cbn [value_row stats_of mv_card_key mv_grade last_sale_at last_sale_usd
       st_card_key st_grade st_last_sale_at fst snd].
  set (grp := filter (in_group (ck, g)) (recent now comps)).
  pose proof (group_nonempty _ _ Hk) as Hne. fold grp in Hne.
  unfold last_sale_price. cbn [st_card_key st_grade stats_of fst snd]. fold grp.
  destruct (newest_first grp) as [|r t] eqn:E.
  { exfalso. apply Hne. apply Permutation_nil.
    rewrite <- E. apply newest_first_perm. }
  destruct (newest_first_hd grp r) as [Hin Hmax]; [now rewrite E|].
  exists r. split; [exact Hin|]. split; [exact Hmax|]. split; [|reflexivity].
  destruct (max_sold_at_some (map sold_at grp)) as (m & Hm).
  { destruct grp; [congruence | discriminate]. }
  rewrite Hm. f_equal.
  destruct (max_sold_at_spec _ _ Hm) as [Hmin Hmall].
  apply in_map_iff in Hmin. destruct Hmin as (x & <- & Hx).
  specialize (Hmax x Hx). specialize (Hmall (sold_at r) (in_map sold_at _ _ Hin)).
  lia.
Qed.

(** C8, as stated, fails: of two sales that share the latest timestamp the
    one reported is the one presented first. *)
Lemma last_sale_tie_depends_on_row_order :
  Permutation [tie_first; tie_second] [tie_second; tie_first]
  /\ map last_sale_usd (rollup 1000 1 [tie_first; tie_second]) = [Some (500 # 100)]
  /\ map last_sale_usd (rollup 1000 1 [tie_second; tie_first]) = [Some (600 # 100)]
  /\ map last_sale_at (rollup 1000 1 [tie_first; tie_second]) = [Some 1000]
  /\ map last_sale_at (rollup 1000 1 [tie_second; tie_first]) = [Some 1000].
Proof.
  split; [apply perm_swap|]. repeat split; vm_compute; reflexivity.
Qed.

(** C8 (amended). The last-sale timestamp of a row is the latest timestamp
    of its group and the last-sale price is the price, at two decimals, of
    a sale of the group made at that timestamp.  Over every presentation
    order of the same sales the timestamp is the same, and the price is the
    same whenever the sales made at the latest timestamp have one price;
    when they differ the sale reported depends on the order of the rows. *)
Theorem rollup_last_sale now today comps row :
  In row (rollup now today comps) ->
  exists r,
    In r (filter (in_group (mv_card_key row, mv_grade row)) (recent now comps))
    /\ (forall x,
          In x (filter (in_group (mv_card_key row, mv_grade row)) (recent now comps)) ->
          sold_at x <= sold_at r)
    /\ last_sale_at row = Some (sold_at r)
    /\ last_sale_usd row = Some (numeric_12_2 (sold_price_usd r))
    /\ (forall comps' row',
          Permutation comps comps' ->
          In row' (rollup now today comps') ->
          mv_card_key row' = mv_card_key row -> mv_grade row' = mv_grade row ->
          last_sale_at row' = last_sale_at row
          /\ ((forall x,
                 In x (filter (in_group (mv_card_key row, mv_grade row))
                              (recent now comps)) ->
                 sold_at x = sold_at r -> sold_price_usd x = sold_price_usd r) ->
              last_sale_usd row' = last_sale_usd row)).
Proof.
  intros Hrow.
  destruct (last_sale_in_group _ _ _ _ Hrow) as (r & Hin & Hmax & Hat & Husd).
  exists r. split; [exact Hin|]. split; [exact Hmax|].
  split; [exact Hat|]. split; [exact Husd|].
  intros comps' row' Hperm Hrow' Hck Hg.
  destruct (last_sale_in_group _ _ _ _ Hrow')
    as (r' & Hin' & Hmax' & Hat' & Husd').
  rewrite Hck, Hg in *.
  assert (Permutation
            (filter (in_group (mv_card_key row, mv_grade row)) (recent now comps'))
            (filter (in_group (mv_card_key row, mv_grade row)) (recent now comps)))
    as Hp by (apply filter_perm, filter_perm; now symmetry).
  pose proof (Permutation_in _ Hp Hin') as Hin2.
  pose proof (Hmax r' Hin2) as Hle1.
  pose proof (Hmax' r (Permutation_in _ (Permutation_sym Hp) Hin)) as Hle2.
  split.
  - rewrite Hat, Hat'. f_equal. lia.
  - intros Hone. rewrite Husd, Husd'. f_equal. f_equal.
    apply Hone; [exact Hin2 | lia].
Qed.

Lemma rollup_last_sale_witness :
  exists r, In r [older; tie_first]
            /\ map last_sale_at (rollup 1000 1 [older; tie_first]) = [Some (sold_at r)].
Proof.
  destruct (rollup_last_sale 1000 1 [older; tie_first]
              (value_row 1 [older; tie_first]
                 (stats_of ("base1-4", "PSA 9") [older; tie_first])))
    as (r & Hin & _ & Hat & _).
  - vm_compute. left. reflexivity.
  - exists r. split; [exact Hin|].
    vm_compute in Hat. vm_compute. congruence.
Defined.

End RollupFacts.

(** ** Facts about the upserts *)

Module OnConflictFacts.
Import ListFacts OnConflict.

Section Upsert.
Context {R K : Type}.
Variable conflict_key : R -> K.
Variable key_eqb : K -> K -> bool.
Hypothesis key_eqb_spec : forall a b, key_eqb a b = true <-> a = b.

Local Abbreviation conflicts := (conflicts conflict_key key_eqb).
Local Abbreviation do_update := (do_update conflict_key key_eqb).
Local Abbreviation upsert_from := (upsert_from conflict_key key_eqb).
Local Abbreviation replaced := (replaced conflict_key key_eqb).
Local Abbreviation fresh := (fresh conflict_key key_eqb).

Lemma conflicts_in r table :
  conflicts r table = true <-> In (conflict_key r) (map conflict_key table).
Proof.
  unfold OnConflict.conflicts. rewrite existsb_exists, in_map_iff.
  split; intros (t & H1 & H2); exists t.
  - apply key_eqb_spec in H2. auto.
  - split; [exact H2 | now apply key_eqb_spec].
Qed.

Lemma conflicts_false r table :
  conflicts r table = false <-> ~ In (conflict_key r) (map conflict_key table).
Proof.
  rewrite <- conflicts_in. destruct (conflicts r table); split; congruence.
Qed.

Lemma key_eqb_refl k : key_eqb k k = true.
Proof. now apply key_eqb_spec. Qed.

Lemma key_eqb_neq a b : a <> b -> key_eqb a b = false.
Proof.
  intros H. destruct (key_eqb a b) eqn:E; [|reflexivity].
  apply key_eqb_spec in E. contradiction.
Qed.

Lemma find_key_none proposed t :
  ~ In (conflict_key t) (map conflict_key proposed) ->
  find (fun r => key_eqb (conflict_key r) (conflict_key t)) proposed = None.
Proof.
  intros H. destruct (find _ proposed) as [r|] eqn:E; [|reflexivity].
  apply find_some in E. destruct E as [Hin Hk]. apply key_eqb_spec in Hk.
  exfalso. apply H. rewrite <- Hk. now apply in_map.
Qed.

Lemma find_key_some proposed r :
  NoDup (map conflict_key proposed) -> In r proposed ->
  find (fun x => key_eqb (conflict_key x) (conflict_key r)) proposed = Some r.
Proof.
  induction proposed as [|x xs IH]; intros Hnd Hin; [destruct Hin|].
  inversion Hnd as [|? ? Hnotin Hnd']; subst. simpl.
  destruct Hin as [->|Hin]; [now rewrite key_eqb_refl|].
  rewrite key_eqb_neq; [now apply IH|].
  intros E. apply Hnotin. rewrite E. now apply in_map.
Qed.

Lemma replaced_key proposed t :
  conflict_key (replaced proposed t) = conflict_key t.
Proof.
  unfold OnConflict.replaced.
  destruct (find _ proposed) as [r|] eqn:E; [|reflexivity].
  apply find_some in E. now apply key_eqb_spec.
Qed.

Lemma replaced_keys proposed table :
  map conflict_key (map (replaced proposed) table) = map conflict_key table.
Proof. rewrite map_map. apply map_ext. intros t. apply replaced_key. Qed.

Lemma do_update_keys r table :
  map conflict_key (do_update r table) = map conflict_key table.
Proof.
  unfold OnConflict.do_update. rewrite map_map. apply map_ext. intros t.
  destruct (key_eqb (conflict_key t) (conflict_key r)) eqn:E; [|reflexivity].
  symmetry. now apply key_eqb_spec.
Qed.

Lemma conflicts_same_keys r t1 t2 :
  map conflict_key t1 = map conflict_key t2 -> conflicts r t1 = conflicts r t2.
Proof.
  intros E. destruct (conflicts r t2) eqn:C.
  - apply conflicts_in. rewrite E. now apply conflicts_in.
  - apply conflicts_false. rewrite E. now apply conflicts_false.
Qed.

(** The table a statement leaves, when it proposes one row per key at
    most: the old rows in place, each replaced by the row proposed for its
    key, then the proposed rows with a new key; every proposed row counts. *)
Lemma upsert_from_eq proposed :
  forall touched table n,
    NoDup (map conflict_key proposed) ->
    (forall k, In k touched -> ~ In k (map conflict_key proposed)) ->
    upsert_from proposed touched table n
    = Upserted (map (replaced proposed) table ++ fresh proposed table)
               (n + List.length proposed).
Proof.
  induction proposed as [|r rest IH]; intros touched table n Hnd Hdis.
  - simpl. unfold OnConflict.fresh. simpl.
    rewrite app_nil_r, Nat.add_0_r. f_equal.
    symmetry. apply map_id_in. reflexivity.
  - inversion Hnd as [|? ? Hnotin Hnd']; subst.
    cbn [OnConflict.upsert_from].
    assert (existsb (key_eqb (conflict_key r)) touched = false) as ->.
    { destruct (existsb _ touched) eqn:E; [|reflexivity].
      apply existsb_exists in E. destruct E as (k & Hk & Hkk).
      apply key_eqb_spec in Hkk. subst k.
      exfalso. apply (Hdis _ Hk). now left. }
    rewrite IH; [|exact Hnd'|].
    2:{ intros k [<-|Hk]; [exact Hnotin|].
        intros Hin. apply (Hdis k Hk). now right. }
    cbn [List.length]. rewrite Nat.add_succ_r. f_equal.
    assert (forall x, In x rest ->
              key_eqb (conflict_key r) (conflict_key x) = false) as Hrest.
    { intros x Hx. apply key_eqb_neq. intros E. apply Hnotin.
      rewrite E. now apply in_map. }
    destruct (conflicts r table) eqn:C.
    + (* the key is in the table *)
      unfold OnConflict.fresh at 2. cbn [filter]. rewrite C. cbn [negb].
      f_equal.
      * unfold OnConflict.do_update. rewrite map_map. apply map_ext. intros t.
        unfold OnConflict.replaced at 2. cbn [find].
        destruct (key_eqb (conflict_key t) (conflict_key r)) eqn:E.
        -- apply key_eqb_spec in E.
           assert (key_eqb (conflict_key r) (conflict_key t) = true) as ->
             by (apply key_eqb_spec; congruence).
           unfold OnConflict.replaced. now rewrite find_key_none.
        -- assert (key_eqb (conflict_key r) (conflict_key t) = false) as ->.
           { apply key_eqb_neq. intros E'. rewrite E', key_eqb_refl in E. discriminate. }
           reflexivity.
      * unfold OnConflict.fresh. apply filter_ext. intros x. f_equal.
        apply conflicts_same_keys, do_update_keys.
    + (* the key is new *)
      apply conflicts_false in C.
      rewrite map_app. cbn [map]. rewrite <- app_assoc. f_equal.
      * apply map_ext_in. intros t Ht.
        unfold OnConflict.replaced at 2. cbn [find].
        rewrite key_eqb_neq; [reflexivity|].
        intros E. apply C. rewrite E. now apply in_map.
      * unfold OnConflict.replaced at 1. rewrite find_key_none by exact Hnotin.
        unfold OnConflict.fresh at 2. cbn [filter].
        assert (conflicts r table = false) as -> by now apply conflicts_false.
        cbn [negb app]. f_equal.
        unfold OnConflict.fresh. apply filter_ext_in. intros x Hx. f_equal.
        unfold OnConflict.conflicts. rewrite existsb_app. cbn [existsb].
        rewrite (Hrest x Hx). now rewrite !orb_false_r.
Qed.

Lemma fresh_in proposed table r :
  In r (fresh proposed table) <->
  In r proposed /\ ~ In (conflict_key r) (map conflict_key table).
Proof.
  unfold OnConflict.fresh. rewrite filter_In, negb_true_iff, conflicts_false.
  tauto.
Qed.

(** A unique index stays one. *)
Lemma upserted_keys_nodup proposed table :
  NoDup (map conflict_key proposed) -> NoDup (map conflict_key table) ->
  NoDup (map conflict_key (map (replaced proposed) table ++ fresh proposed table)).
Proof.
  intros Hp Ht. rewrite map_app, replaced_keys. apply NoDup_app.
  - exact Ht.
  - unfold OnConflict.fresh.
    clear Ht. induction proposed as [|r rs IH]; simpl; [constructor|].
    inversion Hp as [|? ? Hnotin Hp']; subst.
    destruct (negb _); simpl; [|now apply IH].
    constructor; [|now apply IH].
    intros Hin. apply Hnotin. apply in_map_iff in Hin.
    destruct Hin as (x & Hk & Hx). apply filter_In in Hx.
    rewrite <- Hk. apply in_map. tauto.
  - intros k Hk1 Hk2. apply in_map_iff in Hk2. destruct Hk2 as (r & <- & Hr).
    apply fresh_in in Hr. tauto.
Qed.

(** Every proposed row is in the table afterwards. *)
Lemma proposed_in_upserted proposed table r :
  NoDup (map conflict_key proposed) -> In r proposed ->
  In r (map (replaced proposed) table ++ fresh proposed table).
Proof.
  intros Hnd Hr. apply in_or_app.
  destruct (conflicts r table) eqn:C.
  - left. apply conflicts_in, in_map_iff in C. destruct C as (t & Hk & Ht).
    apply in_map_iff. exists t. split; [|exact Ht].
    unfold OnConflict.replaced. rewrite Hk. now rewrite find_key_some.
  - right. apply fresh_in. split; [exact Hr | now apply conflicts_false].
Qed.

(** A row whose key is not proposed stays as it is, and no row with such a
    key appears. *)
Lemma unproposed_in_upserted proposed table x :
  ~ In (conflict_key x) (map conflict_key proposed) ->
  In x (map (replaced proposed) table ++ fresh proposed table) <-> In x table.
Proof.
  intros Hx. rewrite in_app_iff, in_map_iff. split.
  - intros [(t & <- & Ht)|Hf].
    + rewrite replaced_key in Hx. unfold OnConflict.replaced.
      now rewrite find_key_none.
    + apply fresh_in in Hf. exfalso. apply Hx. apply in_map. tauto.
  - intros Ht. left. exists x. split; [|exact Ht].
    unfold OnConflict.replaced. now rewrite find_key_none.
Qed.

(** A statement whose proposed rows all have their key in the table keeps
    the table's rows in place. *)
Lemma fresh_none proposed table :
  (forall r, In r proposed -> In (conflict_key r) (map conflict_key table)) ->
  fresh proposed table = [].
Proof.
  intros H. apply filter_none. intros r Hr.
  apply negb_false_iff, conflicts_in, H, Hr.
Qed.

End Upsert.

End OnConflictFacts.

(** ** Facts about the resolver's upsert *)

Module DailyStoreFacts.
Import ListFacts Resolver OnConflict DailyStore OnConflictFacts ResolverFacts.

Lemma daily_key_eqb_spec a b : daily_key_eqb a b = true <-> a = b.
Proof.
  destruct a as [[i1 d1] c1], b as [[i2 d2] c2]. unfold daily_key_eqb.
  rewrite !andb_true_iff, !Z.eqb_eq, String.eqb_eq. split.
  - intros [[-> ->] ->]. reflexivity.
  - intros [= -> -> ->]. auto.
Qed.

Lemma proposed_part_keys now today a snapshots :
  map as_part_key (map daily_key (proposed now today a snapshots))
  = map part_key (winners today a snapshots).
Proof.
  unfold proposed, best. rewrite !map_map. apply map_ext. intros w. reflexivity.
Qed.

Lemma proposed_keys_nodup now today a snapshots :
  NoDup (map daily_key (proposed now today a snapshots)).
Proof.
  apply (NoDup_map_inv as_part_key). rewrite proposed_part_keys.
  apply winners_keys_nodup.
Qed.

Lemma proposed_length now today a snapshots :
  List.length (proposed now today a snapshots)
  = List.length (partition_keys (filter (where_sql today a) snapshots)).
Proof.
  unfold proposed, best. rewrite !length_map, winners_first_rows.
  rewrite <- first_rows_keys. now rewrite length_map.
Qed.

(** No row is of a currency whose upper case has a letter above U+00FF. *)
Lemma winners_out_of_range today a snapshots :
  upper_in_range (or_default (arg_currency a) "USD") = false ->
  winners today a snapshots = [].
Proof.
  intros H. destruct (winners today a snapshots) as [|w l] eqn:E; [reflexivity|].
  assert (In w (winners today a snapshots)) as Hw by (rewrite E; now left).
  destruct (winner_in_scope _ _ _ _ Hw) as (_ & Hsc & _).
  apply where_sql_scope in Hsc. destruct Hsc as (Hsc & _). congruence.
Qed.

Lemma upsertDaily_eq now today a snapshots table :
  upsertDaily now today a snapshots table
  = Upserted (map (replaced daily_key daily_key_eqb (proposed now today a snapshots)) table
              ++ fresh daily_key daily_key_eqb (proposed now today a snapshots) table)
             (List.length (partition_keys (filter (where_sql today a) snapshots))).
Proof.
  unfold upsertDaily, upsert.
  rewrite (upsert_from_eq daily_key daily_key_eqb daily_key_eqb_spec).
  - now rewrite proposed_length.
  - apply proposed_keys_nodup.
  - intros k [].
Qed.

(** The statement returns; it leaves the table as it is when the currency
    is out of range. *)
Lemma upsertDaily_returns now today a snapshots table :
  exists table' n,
    upsertDaily now today a snapshots table = Upserted table' n
    /\ (upper_in_range (or_default (arg_currency a) "USD") = false ->
        table' = table /\ n = 0%nat).
Proof.
  destruct (upper_in_range (or_default (arg_currency a) "USD")) eqn:H.
  - rewrite upsertDaily_eq. eexists. eexists. split; [reflexivity | discriminate].
  - exists table, 0%nat. split; [|auto].
    unfold upsertDaily, proposed, best. now rewrite winners_out_of_range.
Qed.

Lemma lookup_some k table r :
  NoDup (map daily_key table) ->
  lookup k table = Some r <-> In r table /\ daily_key r = k.
Proof.
  intros Hnd. unfold lookup. split.
  - intros H. apply find_some in H. destruct H as [Hin Hk].
    apply daily_key_eqb_spec in Hk. auto.
  - intros [Hin <-].
    apply (find_key_some daily_key daily_key_eqb daily_key_eqb_spec); assumption.
Qed.

Lemma lookup_ext k t1 t2 :
  NoDup (map daily_key t1) -> NoDup (map daily_key t2) ->
  (forall r, daily_key r = k -> (In r t1 <-> In r t2)) ->
  lookup k t1 = lookup k t2.
Proof.
  intros H1 H2 H.
  destruct (lookup k t1) as [r1|] eqn:E1.
  - apply (lookup_some _ _ _ H1) in E1. destruct E1 as [Hin Hk].
    symmetry. apply (lookup_some _ _ _ H2). split; [|exact Hk]. now apply H.
  - destruct (lookup k t2) as [r2|] eqn:E2; [|reflexivity].
    apply (lookup_some _ _ _ H2) in E2. destruct E2 as [Hin Hk].
    apply H in Hin; [|exact Hk].
    assert (lookup k t1 = Some r2) as E by (apply lookup_some; auto).
    congruence.
Qed.

(** X1. The resolver's statement never proposes two rows for one key of
    the daily table, so it cannot raise on a row affected twice.  On a
    daily table with its unique index it leaves the index intact and
    reports as many rows as there are (item, currency, date) keys with a
    snapshot in scope; afterwards the row of every such key holds the
    winner's value, confidence 70, the winner as its one source, the
    method and the instant of the statement, whether the key was in the
    table before or not, and the row of every other key, also its absence,
    is as before. *)
Theorem resolver_upsert now today a snapshots table :
  NoDup (map daily_key table) ->
  exists table',
    upsertDaily now today a snapshots table
    = Upserted table'
        (List.length (partition_keys (filter (where_sql today a) snapshots)))
    /\ NoDup (map daily_key table')
    /\ (forall w, In w (winners today a snapshots) ->
          lookup (market_item_id w, as_of_date w, currency w) table'
          = Some (mkDailyRow (daily_of w) now))
    /\ (forall k,
          (forall s, In s snapshots -> where_sql today a s = true ->
                     (market_item_id s, as_of_date s, currency s) <> k) ->
          lookup k table' = lookup k table).
Proof.
  intros Hnd. rewrite upsertDaily_eq. eexists. split; [reflexivity|].
  set (P := proposed now today a snapshots).
  assert (NoDup (map daily_key
            (map (replaced daily_key daily_key_eqb P) table
             ++ fresh daily_key daily_key_eqb P table))) as Hnd'.
  { apply upserted_keys_nodup;
      [exact daily_key_eqb_spec | apply proposed_keys_nodup | exact Hnd]. }
  split; [exact Hnd'|]. split.
  - intros w Hw. apply lookup_some; [exact Hnd'|]. split; [|reflexivity].
    apply proposed_in_upserted;
      [exact daily_key_eqb_spec | apply proposed_keys_nodup |].
    unfold P, proposed, best. rewrite map_map.
    apply in_map_iff. exists w. auto.
  - intros k Hk. apply lookup_ext; [exact Hnd' | exact Hnd |].
    intros r Hr. apply unproposed_in_upserted; [exact daily_key_eqb_spec|].
    intros Hin. unfold P, proposed, best in Hin. rewrite !map_map in Hin.
    apply in_map_iff in Hin. destruct Hin as (w & Hwk & Hw).
    destruct (winner_in_scope _ _ _ _ Hw) as (Hin & Hsc & _).
    apply (Hk w Hin Hsc). rewrite <- Hr, <- Hwk. reflexivity.
Qed.

Lemma stale_table_nodup : NoDup (map daily_key stale_table).
Proof.
  repeat constructor; simpl; intros H;
    repeat match goal with H : _ \/ _ |- _ => destruct H as [H|H] end;
    try discriminate; contradiction.
Qed.

Lemma resolver_upsert_witness :
  exists table',
    upsertDaily 9 100 one_day [psa10; scry; next_day] stale_table
    = Upserted table' 1
    /\ lookup (1, 100, "USD") table' = Some (mkDailyRow (daily_of scry) 9)
    /\ lookup (1, 99, "USD") table' = lookup (1, 99, "USD") stale_table
    /\ lookup (1, 101, "USD") table' = None.
Proof.
  destruct (resolver_upsert 9 100 one_day [psa10; scry; next_day] stale_table
              stale_table_nodup) as (table' & E & _ & Hw & Hk).
  exists table'. split; [exact E|]. split; [|split].
  - apply (Hw scry). vm_compute. left. reflexivity.
  - apply Hk. intros s [<-|[<-|[<-|[]]]] Hs; vm_compute in Hs |- *;
      try discriminate; intros [=].
  - rewrite Hk; [reflexivity|].
    intros s [<-|[<-|[<-|[]]]] Hs; vm_compute in Hs |- *;
      try discriminate; intros [=].
Defined.

(** The winners of two presentations of the same snapshots have the same
    keys and, key by key, the same ranks and value. *)
Lemma winners_presented today a s1 s2 w2 :
  Permutation s1 s2 -> In w2 (winners today a s2) ->
  exists w1, In w1 (winners today a s1)
             /\ part_key w1 = part_key w2 /\ sort_key w1 = sort_key w2.
Proof.
  intros Hp Hw2.
  destruct (winner_in_scope _ _ _ _ Hw2) as (Hin2 & Hsc2 & Hb2).
  assert (In w2 s1) as Hin21 by (apply (Permutation_in _ (Permutation_sym Hp)), Hin2).
  destruct (winner_exists today a s1 w2 Hin21 Hsc2) as (w1 & Hw1 & Hk).
  destruct (winner_in_scope _ _ _ _ Hw1) as (Hin1 & Hsc1 & Hb1).
  assert (In w1 s2) as Hin12 by (apply (Permutation_in _ Hp), Hin1).
  exists w1. split; [exact Hw1|]. split; [exact Hk|].
  apply order_le_antisym; apply order_le_spec; [apply Hb1 | apply Hb2]; auto.
Qed.

Lemma partition_keys_presented (f : Snapshot -> bool) s1 s2 :
  Permutation s1 s2 ->
  List.length (partition_keys (filter f s1)) = List.length (partition_keys (filter f s2)).
Proof.
  intros Hp. apply Permutation_length, NoDup_Permutation; try apply NoDup_nodup.
  intros k. unfold partition_keys. rewrite !nodup_In.
  split; apply Permutation_in, Permutation_map, filter_perm;
    [exact Hp | now symmetry].
Qed.

(** X2. Running the resolver a second time on the same snapshots, in
    whatever order the store presents them, changes no value: the second
    statement reports the same row count, inserts no row, and leaves every
    row of the daily table in its place with its key, value, confidence
    and method; a row it rewrites is that of a winner with the same ranks
    and value as the winner of the first run.  When the snapshots come in
    the same order, or tied snapshots of one key give the same daily row,
    every column but [updated_at] is as after the first run, and
    [updated_at] moves to the instant of the second statement on the
    resolved keys.  When two snapshots of a key tie on ranks and value and
    differ in their condition, the audit list of the row follows the order
    of presentation. *)
Theorem resolver_rerun now1 now2 today a snapshots snapshots' table :
  NoDup (map daily_key table) -> Permutation snapshots snapshots' ->
  exists t1 t2 n,
    upsertDaily now1 today a snapshots table = Upserted t1 n
    /\ upsertDaily now2 today a snapshots' t1 = Upserted t2 n
    /\ map daily_key t2 = map daily_key t1
    /\ map (fun r => (dp_value_cents (daily r), dp_confidence (daily r),
                      dp_method (daily r))) t2
       = map (fun r => (dp_value_cents (daily r), dp_confidence (daily r),
                        dp_method (daily r))) t1
    /\ (forall r1 r2, In (r1, r2) (combine t1 t2) ->
          r2 = r1
          \/ exists w1 w2,
               In w1 (winners today a snapshots)
               /\ In w2 (winners today a snapshots')
               /\ r1 = mkDailyRow (daily_of w1) now1
               /\ r2 = mkDailyRow (daily_of w2) now2
               /\ part_key w1 = part_key w2 /\ sort_key w1 = sort_key w2)
    /\ (snapshots' = snapshots
        \/ (forall x y, In x snapshots -> In y snapshots ->
              where_sql today a x = true -> where_sql today a y = true ->
              part_key x = part_key y -> sort_key x = sort_key y ->
              daily_of x = daily_of y) ->
        map daily t2 = map daily t1
        /\ forall r1 r2, In (r1, r2) (combine t1 t2) ->
             r2 = r1
             \/ (r2 = mkDailyRow (daily r1) now2
                 /\ In (daily r1) (best today a snapshots)))
    /\ (exists u1 u2,
          upsertDaily now1 100 one_day [psa10; psa9] [] = Upserted u1 1
          /\ upsertDaily now2 100 one_day [psa9; psa10] u1 = Upserted u2 1
          /\ map (fun r => map su_condition (dp_sources_used (daily r))) u1
             = [[Some "PSA 10"]]
          /\ map (fun r => map su_condition (dp_sources_used (daily r))) u2
             = [[Some "PSA 9"]]).
Proof.
  intros Hnd Hperm. rewrite !upsertDaily_eq.
  set (P1 := proposed now1 today a snapshots).
  set (P2 := proposed now2 today a snapshots').
  set (t1 := map (replaced daily_key daily_key_eqb P1) table
             ++ fresh daily_key daily_key_eqb P1 table).
  assert (NoDup (map daily_key t1)) as Hnd1.
  { apply upserted_keys_nodup;
      [exact daily_key_eqb_spec | apply proposed_keys_nodup | exact Hnd]. }
  assert (forall w, In w (winners today a snapshots) ->
                    In (mkDailyRow (daily_of w) now1) t1) as Hfirst.
  { intros w Hw. apply proposed_in_upserted;
      [exact daily_key_eqb_spec | apply proposed_keys_nodup |].
    unfold P1, proposed, best. rewrite map_map.
    apply in_map_iff. exists w. auto. }
  assert (forall w1 w2 : Snapshot, part_key w1 = part_key w2 ->
            daily_key (mkDailyRow (daily_of w1) now1)
            = daily_key (mkDailyRow (daily_of w2) now2)) as Hkeys.
  { intros w1 w2 Hk. unfold daily_key, part_key in *. cbn. congruence. }
  assert (fresh daily_key daily_key_eqb P2 t1 = []) as Hfresh.
  { apply (fresh_none daily_key daily_key_eqb daily_key_eqb_spec).
    intros r Hr. unfold P2, proposed, best in Hr. rewrite map_map in Hr.
    apply in_map_iff in Hr. destruct Hr as (w2 & <- & Hw2).
    destruct (winners_presented today a _ _ w2 Hperm Hw2) as (w1 & Hw1 & Hk & _).
    rewrite <- (Hkeys w1 w2 Hk). apply in_map. now apply Hfirst. }
  assert (forall t, In t t1 ->
            replaced daily_key daily_key_eqb P2 t = t
            \/ exists w1 w2,
                 In w1 (winners today a snapshots)
                 /\ In w2 (winners today a snapshots')
                 /\ t = mkDailyRow (daily_of w1) now1
                 /\ replaced daily_key daily_key_eqb P2 t = mkDailyRow (daily_of w2) now2
                 /\ part_key w1 = part_key w2 /\ sort_key w1 = sort_key w2) as Hrep.
  { intros t Ht. unfold replaced.
    destruct (find _ P2) as [r|] eqn:E; [right | now left].
    apply find_some in E. destruct E as [Hr Hk]. apply daily_key_eqb_spec in Hk.
    unfold P2, proposed, best in Hr. rewrite map_map in Hr.
    apply in_map_iff in Hr. destruct Hr as (w2 & <- & Hw2).
    destruct (winners_presented today a _ _ w2 Hperm Hw2) as (w1 & Hw1 & Hpk & Hsk).
    exists w1, w2. repeat split; auto.
    symmetry. apply (NoDup_map_inj daily_key t1); auto.
    rewrite <- Hk. symmetry. now apply Hkeys. }
  assert (forall r1 r2,
            In (r1, r2) (combine t1 (map (replaced daily_key daily_key_eqb P2) t1)) ->
            In r1 t1 /\ r2 = replaced daily_key daily_key_eqb P2 r1) as Hcomb.
  { intros r1 r2 Hin.
    assert (forall l, (forall t, In t l -> In t t1) ->
              In (r1, r2) (combine l (map (replaced daily_key daily_key_eqb P2) l)) ->
              In r1 t1 /\ r2 = replaced daily_key daily_key_eqb P2 r1) as Hc.
    { induction l as [|x l IH]; intros Hl H; [destruct H|].
      destruct H as [[= <- <-]|H].
      - split; [apply Hl; now left | reflexivity].
      - apply IH; [|exact H]. intros t Ht. apply Hl. now right. }
    exact (Hc t1 (fun t H => H) Hin). }
  exists t1, (map (replaced daily_key daily_key_eqb P2) t1). eexists.
  split; [reflexivity|].
  split.
  { rewrite upsertDaily_eq. fold P2. rewrite Hfresh, app_nil_r.
    now rewrite (partition_keys_presented (where_sql today a) _ _ Hperm). }
  split; [apply (replaced_keys daily_key daily_key_eqb daily_key_eqb_spec)|].
  split.
  { rewrite map_map. apply map_ext_in. intros t Ht.
    destruct (Hrep t Ht) as [->|(w1 & w2 & _ & _ & -> & -> & _ & Hsk)];
      [reflexivity|].
    unfold sort_key in Hsk. cbn. congruence. }
  split.
  { intros r1 r2 Hin. destruct (Hcomb r1 r2 Hin) as [H1 ->].
    destruct (Hrep r1 H1) as [->|(w1 & w2 & Hw1 & Hw2 & -> & -> & Hpk & Hsk)];
      [now left | right; exists w1, w2; repeat split; auto]. }
  split.
  { intros Hsame.
    assert (forall w1 w2, In w1 (winners today a snapshots) ->
              In w2 (winners today a snapshots') ->
              part_key w1 = part_key w2 -> sort_key w1 = sort_key w2 ->
              daily_of w2 = daily_of w1) as Hd.
    { intros w1 w2 Hw1 Hw2 Hpk Hsk. destruct Hsame as [->|Hsame].
      - f_equal. symmetry. now apply (winner_unique today a snapshots).
      - destruct (winner_in_scope _ _ _ _ Hw1) as (Hi1 & Hs1 & _).
        destruct (winner_in_scope _ _ _ _ Hw2) as (Hi2 & Hs2 & _).
        apply Hsame; auto; try congruence.
        apply (Permutation_in _ (Permutation_sym Hperm)), Hi2. }
    split.
    - rewrite map_map. apply map_ext_in. intros t Ht.
      destruct (Hrep t Ht) as [->|(w1 & w2 & Hw1 & Hw2 & -> & -> & Hpk & Hsk)];
        [reflexivity|]. cbn. now apply Hd.
    - intros r1 r2 Hin. destruct (Hcomb r1 r2 Hin) as [H1 ->].
      destruct (Hrep r1 H1) as [->|(w1 & w2 & Hw1 & Hw2 & -> & -> & Hpk & Hsk)];
        [now left | right].
      cbn. rewrite (Hd w1 w2 Hw1 Hw2 Hpk Hsk). split; [reflexivity|].
      unfold best. now apply in_map. }
  eexists. eexists.
  split; [vm_compute; reflexivity|]. split; [vm_compute; reflexivity|].
  split; vm_compute; reflexivity.
Qed.

Lemma resolver_rerun_witness :
  exists t1 t2 n,
    upsertDaily 9 100 one_day [psa10; scry; next_day] stale_table = Upserted t1 n
    /\ upsertDaily 10 100 one_day [next_day; scry; psa10] t1 = Upserted t2 n
    /\ map daily t2 = map daily t1.
Proof.
  assert (Permutation [psa10; scry; next_day] [next_day; scry; psa10]) as Hp.
  { apply (perm_trans (l' := [scry; psa10; next_day])); [apply perm_swap|].
    apply (perm_trans (l' := [scry; next_day; psa10]));
      [apply perm_skip, perm_swap|].
    apply (perm_trans (l' := [next_day; scry; psa10])); [apply perm_swap|].
    apply Permutation_refl. }
  destruct (resolver_rerun 9 10 100 one_day [psa10; scry; next_day]
              [next_day; scry; psa10] stale_table stale_table_nodup Hp)
    as (t1 & t2 & n & E1 & E2 & _ & _ & _ & Hd & _).
  exists t1, t2, n. split; [exact E1|]. split; [exact E2|].
  apply Hd. right.
  intros x y Hx Hy Hsx Hsy _ Hsk.
  destruct Hx as [<-|[<-|[<-|[]]]], Hy as [<-|[<-|[<-|[]]]];
    try reflexivity; try discriminate.
Defined.

End DailyStoreFacts.
(** ** Further facts about the rollup, and about its upsert *)

Module ValueStoreFacts.
Import ListFacts Rollup OnConflict ValueStore OnConflictFacts RollupFacts.

(** *** Sorted prices *)

Lemma insert_price_perm x l : Permutation (insert_price x l) (x :: l).
Proof.
  induction l as [|y r IH]; simpl; [reflexivity|].
  destruct (Qle_bool x y); [reflexivity|].
  rewrite IH. apply perm_swap.
Qed.

Lemma sort_prices_same l : Permutation (sort_prices l) l.
Proof.
  induction l as [|x r IH]; simpl; [reflexivity|].
  rewrite insert_price_perm. now constructor.
Qed.

Lemma inject_Z_nonneg z : 0 <= z -> (0 <= inject_Z z)%Q.
Proof. intros H. unfold Qle. simpl. lia. Qed.

Lemma insert_price_ascending x l : ascending l -> ascending (insert_price x l).
Proof.
  induction l as [|y r IH]; simpl; intros H.
  - split; [intros ? []|exact I].
  - destruct H as [Hy Hr]. destruct (Qle_bool x y) eqn:E.
    + apply Qle_bool_iff in E. simpl. split; [|split; assumption].
      intros z [<-|Hz]; [exact E|]. specialize (Hy z Hz). lra.
    + apply Qle_bool_false in E. simpl. split; [|now apply IH].
      intros z Hz. apply (Permutation_in _ (insert_price_perm x r)) in Hz.
      destruct Hz as [<-|Hz]; [lra | now apply Hy].
Qed.

Lemma sort_prices_ascending l : ascending (sort_prices l).
Proof.
  induction l as [|x r IH]; simpl; [exact I|]. now apply insert_price_ascending.
Qed.

Lemma ascending_nth l d i j :
  ascending l -> (i <= j)%nat -> (j < List.length l)%nat ->
  (nth i l d <= nth j l d)%Q.
Proof.
  revert i j. induction l as [|x r IH]; intros i j H Hij Hj; simpl in Hj; [lia|].
  destruct H as [Hx Hr]. destruct i as [|i], j as [|j]; simpl; try lia.
  - lra.
  - apply Hx. apply nth_In. lia.
  - apply IH; [exact Hr | lia | lia].
Qed.

(** *** The rows of a percentile *)

Lemma rows_of_percentile p n :
  (0 <= p)%Q -> (p <= 1)%Q -> 1 <= n ->
  let rn := (p * inject_Z (n - 1))%Q in
  0 <= Qfloor rn /\ Qfloor rn <= Qceiling rn /\ Qceiling rn <= n - 1
  /\ Qceiling rn <= Qfloor rn + 1.
Proof.
  intros Hp0 Hp1 Hn rn.
  assert (0 <= inject_Z (n - 1))%Q as Hn1 by (apply inject_Z_nonneg; lia).
  assert (0 <= rn)%Q as H0 by (unfold rn; nra).
  assert (rn <= inject_Z (n - 1))%Q as H1 by (unfold rn; nra).
  pose proof (Qfloor_le rn) as F1. pose proof (Qlt_floor rn) as F2.
  pose proof (Qle_ceiling rn) as C1. pose proof (Qceiling_lt rn) as C2.
  repeat split.
  - apply (Qfloor_resp_le 0 rn H0).
  - rewrite Zle_Qle. lra.
  - pose proof (Qceiling_resp_le _ _ H1) as H. now rewrite Qceiling_Z in H.
  - assert (inject_Z (Qceiling rn - 1) < inject_Z (Qfloor rn + 1))%Q as H by lra.
    rewrite <- Zlt_Qlt in H. lia.
Qed.

(** A percentile lies between the values at its two rows. *)
Lemma percentile_between p xs v :
  (0 <= p)%Q -> (p <= 1)%Q -> percentile_cont p xs = Some v ->
  let s := sort_prices xs in
  let rn := (p * inject_Z (Z.of_nat (List.length s) - 1))%Q in
  forall d,
    (nth (Z.to_nat (Qfloor rn)) s d <= v)%Q
    /\ (v <= nth (Z.to_nat (Qceiling rn)) s d)%Q.
Proof.
  intros Hp0 Hp1. unfold percentile_cont.
  pose proof (sort_prices_ascending xs) as Hasc.
  destruct (sort_prices xs) as [|x0 r] eqn:E; [discriminate|].
  cbv zeta. set (s := x0 :: r) in *.
  set (rn := (p * inject_Z (Z.of_nat (List.length s) - 1))%Q).
  destruct (rows_of_percentile p (Z.of_nat (List.length s)) Hp0 Hp1)
    as (Hf0 & Hfc & Hcn & Hc1); [unfold s; cbn [List.length]; lia|]. fold rn in Hf0, Hfc, Hcn, Hc1.
  assert (forall i d, (i < List.length s)%nat -> nth i s d = nth i s x0) as Hd
    by (intros i d Hi; now apply nth_indep).
  assert (Z.to_nat (Qfloor rn) < List.length s)%nat as Lf by lia.
  assert (Z.to_nat (Qceiling rn) < List.length s)%nat as Lc by lia.
  assert (nth (Z.to_nat (Qfloor rn)) s x0 <= nth (Z.to_nat (Qceiling rn)) s x0)%Q
    as Hle by (apply ascending_nth; [exact Hasc | lia | lia]).
  remember (nth (Z.to_nat (Qfloor rn)) s x0) as lo eqn:Elo.
  remember (nth (Z.to_nat (Qceiling rn)) s x0) as hi eqn:Ehi.
  destruct (Z.eqb_spec (Qfloor rn) (Qceiling rn)) as [Heq|Hne];
    intros Hv d; rewrite !(Hd _ d) by assumption; rewrite <- Elo, <- Ehi;
    assert (Hv' := f_equal (fun o => match o with Some x => x | None => lo end) Hv);
    cbv beta iota in Hv'; rewrite <- Hv'.
  - split; lra.
  - pose proof (Qfloor_le rn) as F1. pose proof (Qlt_floor rn) as F2.
    rewrite inject_Z_plus in F2.
    change (inject_Z 1) with 1%Q in F2.
    split; nra.
Qed.

(** A percentile is a value between the least and the greatest price. *)
Lemma percentile_within p xs v :
  (0 <= p)%Q -> (p <= 1)%Q -> percentile_cont p xs = Some v ->
  exists lo hi, In lo xs /\ In hi xs /\ (lo <= v)%Q /\ (v <= hi)%Q.
Proof.
  intros Hp0 Hp1 Hv.
  pose proof (percentile_between p xs v Hp0 Hp1 Hv) as H. cbv zeta in H.
  unfold percentile_cont in Hv.
  destruct (sort_prices xs) as [|x0 r] eqn:E; [discriminate|].
  set (s := x0 :: r) in *.
  set (rn := (p * inject_Z (Z.of_nat (List.length s) - 1))%Q) in *.
  destruct (rows_of_percentile p (Z.of_nat (List.length s)) Hp0 Hp1)
    as (Hf0 & Hfc & Hcn & Hc1); [unfold s; cbn [List.length]; lia|]. fold rn in Hf0, Hfc, Hcn, Hc1.
  destruct (H x0) as [Hlo Hhi].
  exists (nth (Z.to_nat (Qfloor rn)) s x0), (nth (Z.to_nat (Qceiling rn)) s x0).
  repeat split; try assumption;
    apply (Permutation_in _ (sort_prices_same xs)); rewrite E;
    apply nth_In; lia.
Qed.

(** A higher percentile is not a lower value. *)
Lemma percentile_le p q xs a b :
  (0 <= p)%Q -> (p <= q)%Q -> (q <= 1)%Q ->
  percentile_cont p xs = Some a -> percentile_cont q xs = Some b ->
  (a <= b)%Q.
Proof.
  intros Hp0 Hpq Hq1 Ha Hb.
  assert (p <= 1)%Q as Hp1 by lra. assert (0 <= q)%Q as Hq0 by lra.
  pose proof (percentile_between p xs a Hp0 Hp1 Ha) as Ba.
  pose proof (percentile_between q xs b Hq0 Hq1 Hb) as Bb.
  cbv zeta in Ba, Bb.
  pose proof (sort_prices_ascending xs) as Hasc.
  unfold percentile_cont in Ha, Hb.
  destruct (sort_prices xs) as [|x0 r] eqn:E; [discriminate|].
  cbv zeta in Ha, Hb. set (s := x0 :: r) in *.
  set (n1 := inject_Z (Z.of_nat (List.length s) - 1)) in *.
  assert (0 <= n1)%Q as Hn1 by (apply inject_Z_nonneg; unfold s; cbn [List.length]; lia).
  set (rp := (p * n1)%Q) in *. set (rq := (q * n1)%Q) in *.
  assert (rp <= rq)%Q as Hr by (unfold rp, rq; nra).
  destruct (rows_of_percentile p (Z.of_nat (List.length s)) Hp0 Hp1)
    as (Pf0 & Pfc & Pcn & Pc1); [unfold s; cbn [List.length]; lia|].
  destruct (rows_of_percentile q (Z.of_nat (List.length s)) Hq0 Hq1)
    as (Qf0 & Qfc & Qcn & Qc1); [unfold s; cbn [List.length]; lia|].
  fold n1 in Pf0, Pfc, Pcn, Pc1, Qf0, Qfc, Qcn, Qc1.
  fold rp in Pf0, Pfc, Pcn, Pc1. fold rq in Qf0, Qfc, Qcn, Qc1.
  pose proof (Qfloor_resp_le _ _ Hr) as Hff.
  pose proof (Qceiling_resp_le _ _ Hr) as Hcc.
  destruct (Ba x0) as [_ Ba2]. destruct (Bb x0) as [Bb1 _].
  remember (nth (Z.to_nat (Qfloor rp)) s x0) as lo eqn:Elo.
  remember (nth (Z.to_nat (Qceiling rp)) s x0) as hi eqn:Ehi.
  remember (nth (Z.to_nat (Qfloor rq)) s x0) as lo' eqn:Elo'.
  remember (nth (Z.to_nat (Qceiling rq)) s x0) as hi' eqn:Ehi'.
  assert (Ha' := f_equal (fun o => match o with Some x => x | None => lo end) Ha).
  assert (Hb' := f_equal (fun o => match o with Some x => x | None => lo end) Hb).
  clear Ha Hb.
  destruct (Z.eq_dec (Qfloor rp) (Qfloor rq)) as [Hsame|Hdiff].
  - (* both between the same two rows *)
    assert (lo' = lo) as El by (rewrite Elo, Elo', Hsame; reflexivity).
    destruct (Z.eqb_spec (Qfloor rp) (Qceiling rp)) as [Hpe|Hpn];
      cbv beta iota in Ha'; rewrite <- Ha'.
    + rewrite <- El. exact Bb1.
    + assert (Qceiling rq = Qceiling rp) as Hc by lia.
      assert (hi' = hi) as Eh by (rewrite Ehi, Ehi', Hc; reflexivity).
      destruct (Z.eqb_spec (Qfloor rq) (Qceiling rq)) as [Hqe|Hqn]; [lia|].
      cbv beta iota in Hb'. rewrite <- Hb', El, Eh, <- Hsame.
      assert (lo <= hi)%Q as Hlh
        by (rewrite Elo, Ehi; apply ascending_nth; [exact Hasc | lia | lia]).
      nra.
  - (* the lower percentile ends where the higher has not begun *)
    assert (hi <= lo')%Q as Hmid
      by (rewrite Ehi, Elo'; apply ascending_nth; [exact Hasc | lia | lia]).
    lra.
Qed.

(** *** The rows of the rollup *)

Lemma rollup_value_keys_nodup now today comps :
  NoDup (map value_key (rollup now today comps)).
Proof.
  apply (NoDup_map_inv (fun k : ValueKey => (snd (fst k), snd k))).
  rewrite map_map.
  change (map (fun x => (snd (fst (value_key x)), snd (value_key x))))
    with (map (fun row => (mv_card_key row, mv_grade row))).
  rewrite rollup_group_keys. apply NoDup_nodup.
Qed.

Lemma value_key_eqb_spec a b : value_key_eqb a b = true <-> a = b.
Proof.
  destruct a as [[d1 c1] g1], b as [[d2 c2] g2]. unfold value_key_eqb.
  rewrite !andb_true_iff, Z.eqb_eq, !String.eqb_eq. split.
  - intros [[-> ->] ->]. reflexivity.
  - intros [= -> -> ->]. auto.
Qed.

(** X3. The rollup writes one row for every (card, grade) group that has
    a sale in the last 180 days, the sale made exactly 180 days ago
    included, and none for a group whose sales are all older; the rows are
    dated with the current date, count at least one sale, and no two of
    them have the same card and grade.  A sale older than the window,
    wherever it stands in the table, changes nothing. *)
Theorem rollup_groups now today comps :
  (forall ck g,
      (exists row, In row (rollup now today comps)
                   /\ mv_card_key row = ck /\ mv_grade row = g)
      <-> (exists r, In r comps /\ card_key r = ck /\ grade r = g
                     /\ now - sold_at r <= 180 * 86400))
  /\ NoDup (map (fun row => (mv_card_key row, mv_grade row)) (rollup now today comps))
  /\ (forall row, In row (rollup now today comps) ->
        mv_as_of_date row = today /\ 1 <= sales_count_180d row)
  /\ (forall pre old post,
        comps = pre ++ old :: post -> 180 * 86400 < now - sold_at old ->
        rollup now today comps = rollup now today (pre ++ post)).
Proof.
  split; [|split; [|split]].
  - intros ck g. split.
    + intros (row & Hrow & <- & <-). apply in_rollup in Hrow.
      destruct Hrow as ([ck g] & Hk & ->). apply in_map_iff in Hk.
      destruct Hk as (r & Hr & Hin). apply in_recent in Hin.
      exists r. injection Hr as <- <-. cbn. tauto.
    + intros (r & Hin & <- & <- & Hw).
      exists (value_row today (recent now comps)
                (stats_of (group_key r)
                   (filter (in_group (group_key r)) (recent now comps)))).
      split; [|split; reflexivity].
      apply in_rollup. exists (group_key r). split; [|reflexivity].
      apply in_map, in_recent. auto.
  - rewrite rollup_group_keys. apply NoDup_nodup.
  - intros row Hrow. apply in_rollup in Hrow. destruct Hrow as (k & Hk & ->).
    split; [reflexivity|].
    cbn [value_row sales_count_180d stats_of cnt].
    pose proof (group_nonempty _ _ Hk) as Hne.
    destruct (filter (in_group k) (recent now comps)); [congruence|].
    cbn [List.length]. lia.
  - intros pre old post -> Hold. unfold rollup.
    assert (recent now (pre ++ old :: post) = recent now (pre ++ post)) as ->;
      [|reflexivity].
    unfold recent. rewrite !filter_app. cbn [filter].
    destruct (Z.leb_spec (now - window) (sold_at old)); [|reflexivity].
    unfold window in *. lia.
Qed.

Lemma rollup_groups_witness :
  rollup (180 * 86400 + 901) 1 ([four_a] ++ older :: [four_b])
  = rollup (180 * 86400 + 901) 1 ([four_a] ++ [four_b]).
Proof.
  destruct (rollup_groups (180 * 86400 + 901) 1 ([four_a] ++ older :: [four_b]))
    as (_ & _ & _ & H).
  apply (H [four_a] older [four_b]); [reflexivity | vm_compute; reflexivity].
Defined.

(** X4. In every row of the rollup the low end of the range is at most
    the market value and the market value at most the high end, and all
    three lie between the two-decimal casts of the cheapest and of the
    dearest sale of the group in the window: the rollup never reports a
    value outside the observed prices. *)
Theorem rollup_range_ordered now today comps row :
  In row (rollup now today comps) ->
  value_le (range_low_usd row) (market_value_usd row)
  /\ value_le (market_value_usd row) (range_high_usd row)
  /\ exists cheap dear,
       In cheap (filter (in_group (mv_card_key row, mv_grade row)) (recent now comps))
       /\ In dear (filter (in_group (mv_card_key row, mv_grade row)) (recent now comps))
       /\ value_le (Some (numeric_12_2 (sold_price_usd cheap))) (range_low_usd row)
       /\ value_le (range_high_usd row) (Some (numeric_12_2 (sold_price_usd dear))).
Proof.
  intros Hrow. apply in_rollup in Hrow. destruct Hrow as ([ck g] & Hk & ->).
  cbn [value_row stats_of mv_card_key mv_grade market_value_usd range_low_usd
       range_high_usd median_price p25 p75 fst snd].
  set (grp := filter (in_group (ck, g)) (recent now comps)).
  pose proof (group_nonempty _ _ Hk) as Hne. fold grp in Hne.
  assert (map sold_price_usd grp <> []) as Hne'
    by (destruct grp; [congruence | discriminate]).
  destruct (percentile_cont_some (1 # 2) _ Hne') as (m & Hm).
  destruct (percentile_cont_some (1 # 4) _ Hne') as (lo & Hlo).
  destruct (percentile_cont_some (3 # 4) _ Hne') as (hi & Hhi).
  rewrite Hm, Hlo, Hhi. cbn [option_map value_le].
  split; [|split].
  - apply numeric_12_2_le.
    apply (percentile_le (1 # 4) (1 # 2) (map sold_price_usd grp) lo m);
      try assumption; lra.
  - apply numeric_12_2_le.
    apply (percentile_le (1 # 2) (3 # 4) (map sold_price_usd grp) m hi);
      try assumption; lra.
  - destruct (percentile_within (1 # 4) (map sold_price_usd grp) lo)
      as (c & _ & Hc & _ & Hclo & _); [lra | lra | exact Hlo |].
    destruct (percentile_within (3 # 4) (map sold_price_usd grp) hi)
      as (_ & d & _ & Hd & _ & Hdhi); [lra | lra | exact Hhi |].
    apply in_map_iff in Hc, Hd.
    destruct Hc as (cheap & <- & Hcheap), Hd as (dear & <- & Hdear).
    exists cheap, dear. repeat split; try assumption; now apply numeric_12_2_le.
Qed.

Lemma rollup_range_ordered_witness :
  Forall (fun row => value_le (range_low_usd row) (market_value_usd row)
                     /\ value_le (market_value_usd row) (range_high_usd row))
         (rollup 1000 1 [four_b; four_a; four_c; four_d]).
Proof.
  apply Forall_forall. intros row Hrow.
  destruct (rollup_range_ordered 1000 1 [four_b; four_a; four_c; four_d] row Hrow)
    as (H1 & H2 & _).
  split; assumption.
Defined.

(** X5. The rollup reads the sales as a set: presented in another order,
    the same sales give, for every card and grade, a row with the same
    market value, range, count of sales, confidence grade and last-sale
    timestamp. *)
Theorem rollup_order_independent now today comps comps' row :
  Permutation comps comps' ->
  In row (rollup now today comps) ->
  exists row',
    In row' (rollup now today comps')
    /\ mv_as_of_date row' = mv_as_of_date row
    /\ mv_card_key row' = mv_card_key row
    /\ mv_grade row' = mv_grade row
    /\ market_value_usd row' = market_value_usd row
    /\ range_low_usd row' = range_low_usd row
    /\ range_high_usd row' = range_high_usd row
    /\ sales_count_180d row' = sales_count_180d row
    /\ confidence row' = confidence row
    /\ last_sale_at row' = last_sale_at row.
Proof.
  intros Hperm Hrow. apply in_rollup in Hrow. destruct Hrow as (k & Hk & ->).
  assert (Permutation (recent now comps) (recent now comps')) as Hrec
    by now apply filter_perm.
  assert (Permutation (filter (in_group k) (recent now comps))
                      (filter (in_group k) (recent now comps'))) as Hgrp
    by now apply filter_perm.
  eexists. split.
  { apply in_rollup. exists k. split; [|reflexivity].
    eapply Permutation_in; [apply Permutation_map; exact Hrec | exact Hk]. }
  cbn [value_row stats_of mv_as_of_date mv_card_key mv_grade market_value_usd
       range_low_usd range_high_usd sales_count_180d confidence last_sale_at
       median_price p25 p75 cnt st_last_sale_at st_card_key st_grade].
  assert (Permutation (map sold_price_usd (filter (in_group k) (recent now comps')))
                      (map sold_price_usd (filter (in_group k) (recent now comps))))
    as Hprices by (apply Permutation_map; now symmetry).
  rewrite (Permutation_length Hgrp).
  repeat split; try (apply cast_same_value, percentile_cont_perm, Hprices).
  assert (Permutation (map sold_at (filter (in_group k) (recent now comps)))
                      (map sold_at (filter (in_group k) (recent now comps'))))
    as Hl by now apply Permutation_map.
  revert Hl.
  generalize (map sold_at (filter (in_group k) (recent now comps))) as l.
  generalize (map sold_at (filter (in_group k) (recent now comps'))) as l'.
  intros l' l Hl.
  destruct (max_sold_at l) as [m|] eqn:E, (max_sold_at l') as [m'|] eqn:E'.
  - destruct (max_sold_at_spec _ _ E) as [Hin Hmax].
    destruct (max_sold_at_spec _ _ E') as [Hin' Hmax'].
    f_equal.
    pose proof (Hmax m' (Permutation_in _ (Permutation_sym Hl) Hin')).
    pose proof (Hmax' m (Permutation_in _ Hl Hin)).
    lia.
  - destruct l'; [|discriminate]. apply Permutation_sym, Permutation_nil in Hl.
    subst l. discriminate.
  - destruct l; [|discriminate]. apply Permutation_nil in Hl.
    subst l'. discriminate.
  - reflexivity.
Qed.

Lemma rollup_order_independent_witness :
  exists row',
    In row' (rollup 1000 1 [four_a; four_b; four_c; four_d])
    /\ market_value_usd row' = Some (2500 # 100).
Proof.
  destruct (rollup_order_independent 1000 1 [four_b; four_a; four_c; four_d]
              [four_a; four_b; four_c; four_d]
              (value_row 1 [four_b; four_a; four_c; four_d]
                 (stats_of ("base1-4", "PSA 9") [four_b; four_a; four_c; four_d])))
    as (row' & Hin & _ & _ & _ & Hm & _).
  - apply perm_swap.
  - vm_compute. left. reflexivity.
  - exists row'. split; [exact Hin|]. rewrite Hm. vm_compute. reflexivity.
Defined.

(** X6. The rollup's statement never proposes two rows for one key of the
    values table, so it cannot raise on a row affected twice.  On a table
    with its unique index it leaves the index intact, reports one row per
    group with a sale in the window, and afterwards holds every row of the
    rollup; a row of another date, and a row of a group without a sale in
    the window, is neither changed nor removed, and no row appears beside
    those of the rollup. *)
Theorem rollup_upsert now today comps table :
  NoDup (map value_key table) ->
  exists table',
    upsertValues now today comps table
    = Upserted table'
        (List.length (nodup group_key_dec (map group_key (recent now comps))))
    /\ NoDup (map value_key table')
    /\ (forall row, In row (rollup now today comps) -> In row table')
    /\ (forall x,
          mv_as_of_date x <> today
          \/ ~ In (mv_card_key x, mv_grade x) (map group_key (recent now comps)) ->
          (In x table' <-> In x table)).
Proof.
  intros Hnd. unfold upsertValues, upsert.
  rewrite (upsert_from_eq value_key value_key_eqb value_key_eqb_spec);
    [|apply rollup_value_keys_nodup | intros k []].
  eexists. split; [|split; [|split]].
  - f_equal. cbn [Nat.add]. unfold rollup, stats. now rewrite !length_map.
  - apply upserted_keys_nodup;
      [exact value_key_eqb_spec | apply rollup_value_keys_nodup | exact Hnd].
  - intros row Hrow. apply proposed_in_upserted;
      [exact value_key_eqb_spec | apply rollup_value_keys_nodup | exact Hrow].
  - intros x Hx. apply unproposed_in_upserted; [exact value_key_eqb_spec|].
    intros Hin. apply in_map_iff in Hin. destruct Hin as (row & Hkey & Hrow).
    injection Hkey as Hd Hc Hg.
    apply in_rollup in Hrow. destruct Hrow as ([ck g] & Hk & ->).
    cbn in Hd, Hc, Hg. subst. destruct Hx as [Hx|Hx]; [now apply Hx | now apply Hx].
Qed.

Lemma yesterday_nodup : NoDup (map value_key [yesterday_row]).
Proof. repeat constructor. intros []. Qed.

Lemma rollup_upsert_witness :
  exists table',
    upsertValues 1000 1 [four_a; four_b] [yesterday_row] = Upserted table' 1
    /\ In yesterday_row table'.
Proof.
  destruct (rollup_upsert 1000 1 [four_a; four_b] [yesterday_row] yesterday_nodup)
    as (table' & E & _ & _ & H).
  exists table'. split; [exact E|].
  apply H; [left; vm_compute; discriminate | now left].
Defined.

End ValueStoreFacts.
(** ** Facts about the normalizer followed by the resolver *)

Module PipelineFacts.
Import ListFacts Resolver Normalizer Pipeline ResolverFacts NormalizerFacts.

Lemma collect_each_ok {A B} (f : A -> result (list B)) l rs x :
  collect f l = Ok rs -> In x l -> exists xs, f x = Ok xs.
Proof.
  revert rs. induction l as [|y l IH]; intros rs H Hx; [destruct Hx|].
  simpl in H. destruct (f y) as [ys|e] eqn:Ey; [|discriminate].
  simpl in H. destruct (collect f l) as [rs'|e] eqn:El; [|discriminate].
  destruct Hx as [->|Hx]; [eauto | eapply IH; eauto].
Qed.

(** A batch that is built has read every field without an error. *)
Lemma batch_fields_ok d items cards rows :
  buildRowsCte (Some d) items cards = Ok rows ->
  forall item prices k cur pt,
    In (item, prices) (src items cards) -> In (k, cur, pt) price_fields ->
    exists v, cents_of_field prices k = Ok v.
Proof.
  unfold buildRowsCte. intros H item prices k cur pt Hip Hf.
  destruct (collect_each_ok _ _ _ _ H Hip) as (xs & Hxs). cbn [fst snd] in Hxs.
  destruct (collect_each_ok _ _ _ _ Hxs Hf) as (ys & Hys).
  apply row_of_field_ok in Hys. destruct Hys as (v & Hv & _). eauto.
Qed.

(** The rows of a built batch, for an item that [src] lists. *)
Lemma batch_rows_of_item d items cards rows item prices s :
  NoDup (map mi_id items) -> NoDup (map scr_id cards) ->
  buildRowsCte (Some d) items cards = Ok rows ->
  In (item, prices) (src items cards) ->
  (In s rows /\ market_item_id s = item) <->
  exists k cur pt c,
    In (k, cur, pt) price_fields /\ cents_of_field prices k = Ok (Some c) /\ 0 < c
    /\ s = mkSnapshot item "scryfall" d cur pt None c (RawScryfall prices k).
Proof.
  intros Hi Hc Hb Hip.
  destruct (batch_rows d items cards (batch_fields_ok _ _ _ _ Hb)) as (rows' & Hb' & Hrows).
  assert (rows' = rows) as -> by congruence.
  rewrite Hrows. split.
  - intros [(item' & prices' & k & cur & pt & c & Hip' & Hf & Hv & Hpos & ->) Hitem].
    cbn in Hitem. subst item'.
    assert ((item, prices') = (item, prices)) as E
      by (apply (NoDup_map_inj fst (src items cards));
          [now apply src_items_nodup | exact Hip' | exact Hip | reflexivity]).
    injection E as ->. exists k, cur, pt, c. auto.
  - intros (k & cur & pt & c & Hf & Hv & Hpos & ->). split; [|reflexivity].
    exists item, prices, k, cur, pt, c. auto.
Qed.

Lemma batch_row_date d items cards rows s :
  buildRowsCte (Some d) items cards = Ok rows -> In s rows -> as_of_date s = d.
Proof.
  intros Hb Hs.
  destruct (batch_rows d items cards (batch_fields_ok _ _ _ _ Hb)) as (rows' & Hb' & Hrows).
  assert (rows' = rows) as -> by congruence.
  apply Hrows in Hs.
  destruct Hs as (item & prices & k & cur & pt & c & _ & _ & _ & _ & ->). reflexivity.
Qed.

(** The snapshots of an item on the day of the run, when the table held
    none before: the rows of the batch. *)
Lemma normalized_rows_of_item d rows table item s :
  (forall r, In r rows -> as_of_date r = d) ->
  (forall t, In t table -> market_item_id t = item -> as_of_date t <> d) ->
  (In s (normalized rows table) /\ market_item_id s = item /\ as_of_date s = d)
  <-> (In s rows /\ market_item_id s = item).
Proof.
  intros Hd Hnone. rewrite normalized_eq, in_app_iff, in_map_iff. split.
  - intros [[(t & <- & Ht)|Hm] [Hitem Hdate]].
    + exfalso. apply (Hnone t Ht).
      * pose proof (id_key_updated rows t) as E. unfold id_key in E. congruence.
      * pose proof (id_key_updated rows t) as E. unfold id_key in E. congruence.
    + apply missing_in in Hm. tauto.
  - intros [Hs Hitem]. split; [|split; [exact Hitem | now apply Hd]].
    right. apply missing_in. split; [exact Hs|].
    intros Hin. apply in_map_iff in Hin. destruct Hin as (t & Hk & Ht).
    apply (Hnone t Ht); unfold id_key in Hk;
      [congruence | rewrite <- (Hd s Hs); congruence].
Qed.

Lemma first_priced_some prices fields pt c :
  first_priced prices fields = Some (pt, c) ->
  exists k before after,
    fields = before ++ (k, pt) :: after
    /\ cents_of_field prices k = Ok (Some c) /\ 0 < c
    /\ forall k' pt' c', In (k', pt') before ->
         cents_of_field prices k' = Ok (Some c') -> c' <= 0.
Proof.
  induction fields as [|[k0 pt0] rest IH]; simpl; [discriminate|].
  intros H.
  assert (forall c0, cents_of_field prices k0 = Ok (Some c0) -> c0 <= 0 ->
            first_priced prices rest = Some (pt, c) ->
            exists k before after,
              (k0, pt0) :: rest = before ++ (k, pt) :: after
              /\ cents_of_field prices k = Ok (Some c) /\ 0 < c
              /\ forall k' pt' c', In (k', pt') before ->
                   cents_of_field prices k' = Ok (Some c') -> c' <= 0) as Hskip.
  { intros c0 E0 Hc0 Hrest.
    destruct (IH Hrest) as (k & before & after & -> & Hv & Hpos & Hbefore).
    exists k, ((k0, pt0) :: before), after. repeat split; auto.
    intros k' pt' c' [[= <- <-]|Hin] Hv'; [congruence | eauto]. }
  assert (forall (P : Prop), (forall c0, cents_of_field prices k0 <> Ok (Some c0)) ->
            first_priced prices rest = Some (pt, c) ->
            exists k before after,
              (k0, pt0) :: rest = before ++ (k, pt) :: after
              /\ cents_of_field prices k = Ok (Some c) /\ 0 < c
              /\ forall k' pt' c', In (k', pt') before ->
                   cents_of_field prices k' = Ok (Some c') -> c' <= 0) as Hnone.
  { intros _ E0 Hrest.
    destruct (IH Hrest) as (k & before & after & -> & Hv & Hpos & Hbefore).
    exists k, ((k0, pt0) :: before), after. repeat split; auto.
    intros k' pt' c' [[= <- <-]|Hin] Hv'; [now apply E0 in Hv' | eauto]. }
  destruct (cents_of_field prices k0) as [[c0|]|e] eqn:E0.
  - destruct (Z.ltb_spec 0 c0).
    + injection H as <- <-. exists k0, [], rest. repeat split; auto.
      intros k' pt' c' [].
    + now apply (Hskip c0).
  - apply (Hnone True); [discriminate | exact H].
  - apply (Hnone True); [discriminate | exact H].
Qed.

Lemma first_priced_none prices fields k pt c :
  first_priced prices fields = None -> In (k, pt) fields ->
  cents_of_field prices k = Ok (Some c) -> c <= 0.
Proof.
  induction fields as [|[k0 pt0] rest IH]; simpl; intros H Hin Hv; [destruct Hin|].
  destruct Hin as [[= -> ->]|Hin].
  - rewrite Hv in H. destruct (Z.ltb_spec 0 c); [discriminate | assumption].
  - apply IH; [|exact Hin | exact Hv].
    destruct (cents_of_field prices k0) as [[c0|]|e]; [|exact H|exact H].
    destruct (0 <? c0); [discriminate | exact H].
Qed.

Lemma in_fields_of cur k pt :
  In (k, pt) (fields_of cur) <-> In (k, cur, pt) price_fields.
Proof.
  unfold fields_of. rewrite in_map_iff. split.
  - intros ([[k' cur'] pt'] & [= -> ->] & H). apply filter_In in H.
    destruct H as [H E]. cbn in E. apply String.eqb_eq in E. now subst.
  - intros H. exists (k, cur, pt). split; [reflexivity|].
    apply filter_In. split; [exact H|]. cbn. apply String.eqb_refl.
Qed.

Lemma ascending_ranks_after fields before k pt after k' pt' :
  ascending_ranks fields = true ->
  fields = before ++ (k, pt) :: after -> In (k', pt') after ->
  price_type_rank pt < price_type_rank pt'.
Proof.
  revert fields. induction before as [|[k0 pt0] before IH]; intros fields H -> Hin;
    cbn [app ascending_ranks] in H; apply andb_true_iff in H; destruct H as [H1 H2].
  - rewrite forallb_forall in H1. specialize (H1 _ Hin). cbn in H1. lia.
  - eapply IH; [exact H2 | reflexivity | exact Hin].
Qed.

(** Within one currency, the VALUES list names its price types in the
    order of their ranks. *)
Lemma fields_of_ranked cur : ascending_ranks (fields_of cur) = true.
Proof.
  unfold fields_of, price_fields. cbn [filter fst snd].
  destruct (String.eqb_spec "USD" cur) as [E1|E1],
           (String.eqb_spec "EUR" cur) as [E2|E2];
    try (exfalso; congruence); vm_compute; reflexivity.
Qed.

(** X7. After the normalizer has run for a day on which the snapshot
    table held nothing of an item, the resolver run for that day gives the
    item one daily price in a currency: the amount of the first of the
    normalizer's price keys of that currency that is positive, in the order
    usd, usd_foil, usd_etched, tix for USD, so a card with no dollar price
    gets its ticket price as its USD price; eur for EUR.  The row names
    Scryfall and that price type as its only source.  When no key of the
    currency is positive the item gets no daily price in it. *)
Theorem scryfall_daily_price today a i table d item prices :
  in_date i = Some d ->
  NoDup (map mi_id (in_items i)) -> NoDup (map scr_id (in_cards i)) ->
  In (item, prices) (src (in_items i) (in_cards i)) ->
  exit_code (main reliable i (connected table)) = 0 ->
  (forall t, In t table -> market_item_id t = item -> as_of_date t <> d) ->
  arg_all_dates a = false -> asOfDate today a = d ->
  match first_priced prices (fields_of (currency_of a)) with
  | Some (pt, c) =>
      let row :=
        mkDailyPrice item d (currency_of a) c 70
                     [mkSourceUsed "scryfall" pt None c] "priority_best_of_day" in
      In row (best today a (normalize i table))
      /\ forall r, In r (best today a (normalize i table)) ->
                   dp_market_item_id r = item -> r = row
  | None =>
      forall r, In r (best today a (normalize i table)) -> dp_market_item_id r <> item
  end.
Proof.
  intros Hdate Hi Hc Hip Hexit Hnone Hall Hday.
  destruct (buildRowsCte (in_date i) (in_items i) (in_cards i)) as [rows|e] eqn:Hb.
  2:{ rewrite (main_unreliable_rows i table e Hb) in Hexit. discriminate. }
  assert (normalize i table = normalized rows table) as ->
    by (unfold normalize; now rewrite (main_reliable i table rows Hb)).
  rewrite Hdate in Hb.
  destruct (upper_in_range (or_default (arg_currency a) "USD")) eqn:Hrange.
  2:{ (* no row is of that currency, which is neither USD nor EUR *)
    assert (fields_of (currency_of a) = []) as ->.
    { pose proof (toUpperCase_in_range (or_default (arg_currency a) "USD")) as Hup.
      rewrite Hrange in Hup. fold (currency_of a) in Hup.
      unfold fields_of, price_fields. cbn [filter fst snd].
      destruct (String.eqb_spec "USD" (currency_of a)) as [E|_];
        [rewrite <- E in Hup; discriminate|].
      destruct (String.eqb_spec "EUR" (currency_of a)) as [E|_];
        [rewrite <- E in Hup; discriminate|].
      reflexivity. }
    cbn [first_priced]. intros r Hr _. unfold best in Hr. apply in_map_iff in Hr.
    destruct Hr as (w & _ & Hw).
    destruct (winner_in_scope _ _ _ _ Hw) as (_ & Hsc & _).
    apply where_sql_scope in Hsc. destruct Hsc as (Hsc & _). congruence. }
  set (cur := currency_of a).
  assert (forall s, where_sql today a s = true <->
                    currency s = cur /\ as_of_date s = d) as Hscope.
  { intros s. rewrite where_sql_scope. unfold scope_of. rewrite Hall, Hrange. cbn.
    rewrite Hday. fold cur. tauto. }
  (* the snapshots of the item in scope are the priced fields of the currency *)
  assert (forall s,
            (In s (normalized rows table) /\ where_sql today a s = true
             /\ market_item_id s = item)
            <-> exists k pt c,
                  In (k, pt) (fields_of cur)
                  /\ cents_of_field prices k = Ok (Some c) /\ 0 < c
                  /\ s = mkSnapshot item "scryfall" d cur pt None c
                                    (RawScryfall prices k)) as Hsnap.
  { intros s. rewrite Hscope. split.
    - intros (Hin & [Hcur Hd] & Hitem).
      assert (In s rows /\ market_item_id s = item) as H.
      { apply (normalized_rows_of_item d rows table item s);
          [intros r Hr; eapply batch_row_date; eauto | exact Hnone | auto]. }
      apply (batch_rows_of_item d _ _ rows item prices s Hi Hc Hb Hip) in H.
      destruct H as (k & cur' & pt & c & Hf & Hv & Hpos & ->).
      cbn in Hcur. subst cur'. exists k, pt, c.
      repeat split; auto. now apply in_fields_of.
    - intros (k & pt & c & Hf & Hv & Hpos & ->).
      apply in_fields_of in Hf.
      set (m := mkSnapshot item "scryfall" d cur pt None c (RawScryfall prices k)).
      assert (In m rows /\ market_item_id m = item) as H.
      { apply (batch_rows_of_item d _ _ rows item prices m Hi Hc Hb Hip).
        exists k, cur, pt, c. auto. }
      split; [|cbn; auto].
      apply (normalized_rows_of_item d rows table item);
        [intros r Hr; eapply batch_row_date; eauto | exact Hnone | exact H]. }
  (* a selected row of the item is one of them *)
  assert (forall w, In w (winners today a (normalized rows table)) ->
            market_item_id w = item ->
            exists k pt c,
              In (k, pt) (fields_of cur)
              /\ cents_of_field prices k = Ok (Some c) /\ 0 < c
              /\ w = mkSnapshot item "scryfall" d cur pt None c
                                (RawScryfall prices k)) as Hwin.
  { intros w Hw Hitem. destruct (winner_in_scope _ _ _ _ Hw) as (Hin & Hsc & _).
    apply Hsnap. auto. }
  destruct (first_priced prices (fields_of cur)) as [[pt c]|] eqn:Hfirst.
  - destruct (first_priced_some _ _ _ _ Hfirst)
      as (k & before & after & Hsplit & Hv & Hpos & Hbefore).
    set (m := mkSnapshot item "scryfall" d cur pt None c (RawScryfall prices k)).
    assert (In (k, pt) (fields_of cur)) as Hkf
      by (rewrite Hsplit; apply in_or_app; right; now left).
    assert (In m (normalized rows table) /\ where_sql today a m = true
            /\ market_item_id m = item) as (Hm & Hmsc & _)
      by (apply Hsnap; exists k, pt, c; auto).
    destruct (winner_exists today a _ m Hm Hmsc) as (w & Hw & Hkey).
    assert (w = m) as Hwm.
    { destruct (Hwin w Hw) as (k' & pt' & c' & Hf' & Hv' & Hpos' & Ew);
        [now injection Hkey|].
      destruct (winner_in_scope _ _ _ _ Hw) as (_ & _ & Hbest).
      specialize (Hbest m Hm Hmsc (eq_sym Hkey)).
      rewrite Ew in Hbest. unfold ranks_before, m in Hbest. cbn in Hbest.
      assert (price_type_rank pt' <= price_type_rank pt) as Hrank by lia.
      pose proof Hf' as Hf''. rewrite Hsplit in Hf''.
      apply in_app_or in Hf''. destruct Hf'' as [Hpre|[Heq|Hpost]].
      - specialize (Hbefore k' pt' c' Hpre Hv'). lia.
      - injection Heq as <- <-. assert (c' = c) as -> by congruence. exact Ew.
      - pose proof (ascending_ranks_after _ _ _ _ _ _ _
                      (fields_of_ranked cur) Hsplit Hpost). lia. }
    subst w. cbv zeta. split.
    + unfold best. apply in_map_iff. exists m. split; [reflexivity | exact Hw].
    + intros r Hr Hitem. unfold best in Hr. apply in_map_iff in Hr.
      destruct Hr as (w' & <- & Hw'). f_equal.
      change (daily_of w' = daily_of m). f_equal.
      apply (winner_unique today a (normalized rows table)); [exact Hw' | exact Hw |].
      destruct (Hwin w' Hw' Hitem) as (k' & pt' & c' & _ & _ & _ & ->). reflexivity.
  - intros r Hr Hitem. unfold best in Hr. apply in_map_iff in Hr.
    destruct Hr as (w & <- & Hw). cbn in Hitem.
    destruct (Hwin w Hw Hitem) as (k' & pt' & c' & Hf' & Hv' & Hpos' & _).
    pose proof (first_priced_none _ _ _ _ _ Hfirst Hf' Hv'). lia.
Qed.

Lemma one_item_nodup : NoDup (map mi_id [mkMarketItem 1 "mtg" "scryfall" "card-a"]).
Proof. repeat constructor. intros []. Qed.

Lemma foil_card_nodup : NoDup (map scr_id foil_card).
Proof. repeat constructor. intros []. Qed.

Lemma scryfall_daily_price_witness :
  In (mkDailyPrice 1 100 "USD" 750 70
        [mkSourceUsed "scryfall" "foil" None 750] "priority_best_of_day")
     (best 100 one_day
        (normalize (mkInputs (Some 100) [mkMarketItem 1 "mtg" "scryfall" "card-a"]
                             foil_card)
                   [day_before])).
Proof.
  pose proof (scryfall_daily_price 100 one_day
                (mkInputs (Some 100) [mkMarketItem 1 "mtg" "scryfall" "card-a"] foil_card)
                [day_before] 100 1
                (JObject [ ("usd", JNull); ("usd_foil", JString "7.50");
                           ("tix", JString "0.02") ])
                eq_refl one_item_nodup foil_card_nodup) as H.
  cbv zeta in H. refine (proj1 (H _ _ _ _ _)).
  - vm_compute. left. reflexivity.
  - vm_compute. reflexivity.
  - intros t [<-|[]] _. vm_compute. discriminate.
  - reflexivity.
  - reflexivity.
Defined.

Lemma cents_in_int4 prices k c :
  cents_of_field prices k = Ok (Some c) -> - 2147483648 <= c <= 2147483647.
Proof.
  unfold cents_of_field.
  destruct (nullif_empty _) as [t|]; [|discriminate].
  destruct (numeric_in t) as [x|]; [|discriminate].
  unfold to_int4.
  destruct (Z.leb_spec (-2147483648) (round_numeric (times_100 x)));
    destruct (Z.leb_spec (round_numeric (times_100 x)) 2147483647);
    cbn [andb bind]; try discriminate.
  intros [= <-]. lia.
Qed.

(** What a row of a built batch looks like. *)
Lemma batch_row_shape d items cards rows s :
  buildRowsCte (Some d) items cards = Ok rows -> In s rows ->
  source s = "scryfall" /\ as_of_date s = d /\ condition s = None
  /\ 0 < value_cents s <= 2147483647
  /\ In (currency s, price_type s)
        [("USD", "market"); ("USD", "foil"); ("USD", "etched");
         ("EUR", "market"); ("USD", "tix")].
Proof.
  intros Hb Hs.
  destruct (batch_rows d items cards (batch_fields_ok _ _ _ _ Hb)) as (rows' & Hb' & Hrows).
  assert (rows' = rows) as -> by congruence.
  apply Hrows in Hs.
  destruct Hs as (item & prices & k & cur & pt & c & _ & Hf & Hv & Hpos & ->).
  cbn. apply cents_in_int4 in Hv. repeat split; try lia.
  unfold price_fields in Hf. cbn [In] in Hf.
  repeat match goal with H : _ \/ _ |- _ => destruct H as [H|H] end;
    try contradiction; injection Hf as <- <- <-; cbn; tauto.
Qed.

(** X11. A run of the normalizer that succeeds touches nothing but
    Scryfall snapshots of its date with a NULL condition.  Every row of the
    table stays in its place with its key; it is left exactly as it was
    unless it is such a snapshot and the batch has a price for its key, and
    then its new value is positive.  In particular a snapshot whose price
    has gone from the vendor's data keeps its old value, and no row is ever
    removed.  The rows added after the old ones are all such snapshots,
    with a positive value that fits 32 bits, filed under one of the five
    (currency, price type) pairs. *)
Theorem normalizer_touches_own_rows i table d :
  in_date i = Some d ->
  exit_code (main reliable i (connected table)) = 0 ->
  exists rows inserted,
    buildRowsCte (Some d) (in_items i) (in_cards i) = Ok rows
    /\ normalize i table = map (updated rows) table ++ inserted
    /\ (forall t, In t table ->
          id_key (updated rows t) = id_key t
          /\ (updated rows t = t
              \/ (source t = "scryfall" /\ as_of_date t = d /\ condition t = None
                  /\ 0 < value_cents (updated rows t)
                  /\ exists r, In r rows /\ id_key r = id_key t
                               /\ value_cents (updated rows t) = value_cents r)))
    /\ (forall t, In t table ->
          (forall r, In r rows -> id_key r <> id_key t) -> updated rows t = t)
    /\ (forall s, In s inserted ->
          In s rows /\ ~ In (id_key s) (map id_key table)
          /\ source s = "scryfall" /\ as_of_date s = d /\ condition s = None
          /\ 0 < value_cents s <= 2147483647
          /\ In (currency s, price_type s)
                [("USD", "market"); ("USD", "foil"); ("USD", "etched");
                 ("EUR", "market"); ("USD", "tix")]).
Proof.
  intros Hdate Hexit.
  destruct (buildRowsCte (in_date i) (in_items i) (in_cards i)) as [rows|e] eqn:Hb.
  2:{ rewrite (main_unreliable_rows i table e Hb) in Hexit. discriminate. }
  exists rows, (missing rows table).
  assert (normalize i table = normalized rows table) as ->
    by (unfold normalize; now rewrite (main_reliable i table rows Hb)).
  rewrite Hdate in Hb.
  split; [exact Hb|]. split; [apply normalized_eq|].
  assert (forall t r, find (same_key t) rows = Some r ->
            In r rows /\ id_key r = id_key t) as Hfind.
  { intros t r E. apply find_some in E. destruct E as [Hr Hk].
    apply same_key_spec in Hk. auto. }
  split; [|split].
  - intros t Ht. split; [apply id_key_updated|].
    unfold updated. destruct (find (same_key t) rows) as [r|] eqn:E; [right | now left].
    destruct (Hfind t r E) as [Hr Hk].
    destruct (batch_row_shape _ _ _ _ _ Hb Hr) as (Hs & Hd & Hc & Hv & _).
    unfold id_key in Hk. injection Hk as Hk1 Hk2 Hk3 Hk4 Hk5 Hk6.
    cbn [set_value value_cents].
    repeat split; try congruence; try lia.
    exists r. repeat split; auto. unfold id_key. congruence.
  - intros t Ht Hnone. unfold updated.
    destruct (find (same_key t) rows) as [r|] eqn:E; [|reflexivity].
    destruct (Hfind t r E) as [Hr Hk]. now elim (Hnone r Hr).
  - intros s Hs. apply missing_in in Hs. destruct Hs as [Hs Hnew].
    split; [exact Hs|]. split; [exact Hnew|].
    exact (batch_row_shape _ _ _ _ _ Hb Hs).
Qed.

Lemma normalizer_touches_own_rows_witness :
  exists rows inserted,
    buildRowsCte (Some 100) two_items tidy_cards = Ok rows
    /\ normalize (mkInputs (Some 100) two_items tidy_cards) [psa10; old_row]
       = map (updated rows) [psa10; old_row] ++ inserted
    /\ updated rows psa10 = psa10.
Proof.
  destruct (normalizer_touches_own_rows
              (mkInputs (Some 100) two_items tidy_cards) [psa10; old_row] 100
              eq_refl)
    as (rows & inserted & Hb & E & Hold & _).
  - vm_compute. reflexivity.
  - exists rows, inserted. split; [exact Hb|]. split; [exact E|].
    destruct (Hold psa10 (or_introl eq_refl)) as [_ [H|(H & _)]];
      [exact H | discriminate H].
Defined.

End PipelineFacts.
(** ** Facts about the command line *)

Module CliFacts.
Import ListFacts JsString Resolver Normalizer OnConflict DailyStore Cli.
Import ResolverFacts NormalizerFacts DailyStoreFacts.

Lemma startsWith_slice a : startsWith a "--" = true -> a = option_name (slice 2 a).
Proof.
  unfold startsWith, option_name. destruct a as [|c1 [|c2 r]]; cbn [String.prefix];
    try discriminate.
  - destruct (Ascii.ascii_dec "-" c1); discriminate.
  - destruct (Ascii.ascii_dec "-" c1) as [<-|]; [|discriminate].
    destruct (Ascii.ascii_dec "-" c2) as [<-|]; [reflexivity|discriminate].
Qed.

Lemma startsWith_option key : startsWith (option_name key) "--" = true.
Proof.
  unfold startsWith, option_name. cbn [String.append String.prefix].
  destruct (Ascii.ascii_dec "-" "-") as [_|H]; [|now elim H].
  now destruct key.
Qed.

Lemma get_set_same k v args :
  k <> "__proto__" -> get k (set k v args) = Some v.
Proof.
  intros H. unfold set. apply String.eqb_neq in H. rewrite H.
  unfold get. cbn [find fst]. now rewrite String.eqb_refl.
Qed.

Lemma get_set_other k k' v args : k' <> k -> get k (set k' v args) = get k args.
Proof.
  intros H. unfold set. destruct (String.eqb k' "__proto__"); [reflexivity|].
  unfold get. cbn [find fst]. apply String.eqb_neq in H. now rewrite H.
Qed.

Lemma slice_underscore a : startsWith a "--" = true -> a <> "--_" -> slice 2 a <> "_".
Proof.
  intros H Ha E. apply Ha. rewrite (startsWith_slice a H), E. reflexivity.
Qed.

Lemma set_option_has_array a v args :
  startsWith a "--" = true -> a <> "--_" -> has_array args ->
  has_array (set (slice 2 a) v args).
Proof.
  intros H Ha (items & E). exists items.
  rewrite get_set_other; [exact E | now apply slice_underscore].
Qed.

(** One step of the loop, on arguments none of which is [--_]. *)
Lemma parse_step a tl args :
  a <> "--_" -> has_array args ->
  exists args' tl',
    has_array args' /\ parse (a :: tl) args = parse tl' args'
    /\ (tl' = tl \/ exists next, tl = next :: tl' /\ startsWith next "--" = false)
    /\ (forall k, k <> "_" -> a <> option_name k -> get k args' = get k args)
    /\ (startsWith a "--" = true -> slice 2 a <> "__proto__" ->
        get (slice 2 a) args' = Some (value_after tl)).
Proof.
  intros Ha Harr. cbn [parse].
  destruct (startsWith a "--") eqn:Ea.
  - assert (forall k, k <> "_" -> a <> option_name k -> slice 2 a <> k) as Hk
      by (intros k _ Hak E; apply Hak; rewrite (startsWith_slice a Ea), E; reflexivity).
    destruct tl as [|next tl'].
    + exists (set (slice 2 a) VTrue args), []. repeat split; auto.
      * now apply set_option_has_array.
      * intros k H1 H2. apply get_set_other. auto.
      * intros _ Hp. now apply get_set_same.
    + cbn [value_after].
      destruct (String.eqb next "" || startsWith next "--") eqn:En.
      * exists (set (slice 2 a) VTrue args), (next :: tl'). repeat split; auto.
        -- now apply set_option_has_array.
        -- intros k H1 H2. apply get_set_other. auto.
        -- intros _ Hp. now apply get_set_same.
      * exists (set (slice 2 a) (VString next) args), tl'. repeat split; auto.
        -- now apply set_option_has_array.
        -- right. exists next. apply orb_false_iff in En. tauto.
        -- intros k H1 H2. apply get_set_other. auto.
        -- intros _ Hp. now apply get_set_same.
  - destruct Harr as (items & E). rewrite E.
    exists (set "_" (VArray (items ++ [a])) args), tl. repeat split; auto.
    + eexists. now apply get_set_same.
    + intros k H1 _. apply get_set_other. auto.
    + discriminate.
Qed.

(** The loop returns when no argument is [--_]. *)
Lemma parse_returns n : forall rest args,
  (List.length rest <= n)%nat -> ~ In "--_" rest -> has_array args ->
  exists obj, parse rest args = Returns obj /\ has_array obj.
Proof.
  induction n as [|n IH]; intros rest args Hlen Hno Harr.
  - destruct rest; [|simpl in Hlen; lia]. exists args. auto.
  - destruct rest as [|a tl]; [exists args; auto|].
    destruct (parse_step a tl args) as (args' & tl' & Harr' & -> & Htl & _);
      [intros ->; apply Hno; now left | exact Harr |].
    apply IH; [|  |exact Harr'].
    + destruct Htl as [->|(next & -> & _)]; simpl in *; lia.
    + intros Hin. apply Hno. right.
      destruct Htl as [->|(next & -> & _)]; [exact Hin | now right].
Qed.

(** An option that is not named among the arguments keeps its value. *)
Lemma parse_keeps n : forall rest args obj k,
  (List.length rest <= n)%nat -> ~ In "--_" rest -> has_array args ->
  k <> "_" -> ~ In (option_name k) rest ->
  parse rest args = Returns obj -> get k obj = get k args.
Proof.
  induction n as [|n IH]; intros rest args obj k Hlen Hno Harr Hk Hnot H.
  - destruct rest; [|simpl in Hlen; lia]. simpl in H. now injection H as <-.
  - destruct rest as [|a tl]; [simpl in H; now injection H as <-|].
    destruct (parse_step a tl args) as (args' & tl' & Harr' & E & Htl & Hkeep & _);
      [intros ->; apply Hno; now left | exact Harr |].
    rewrite E in H.
    rewrite <- (Hkeep k Hk); [|intros ->; apply Hnot; now left].
    apply (IH tl' args' obj k); auto.
    + destruct Htl as [->|(next & -> & _)]; simpl in *; lia.
    + intros Hin. apply Hno. right.
      destruct Htl as [->|(next & -> & _)]; [exact Hin | now right].
    + intros Hin. apply Hnot. right.
      destruct Htl as [->|(next & -> & _)]; [exact Hin | now right].
Qed.

(** The loop comes to every argument that starts with two dashes: such an
    argument is never taken as the value of the option before it. *)
Lemma parse_reaches n : forall before a rest args,
  (List.length before <= n)%nat -> ~ In "--_" before -> has_array args ->
  startsWith a "--" = true ->
  exists args', has_array args'
    /\ parse (before ++ a :: rest) args = parse (a :: rest) args'.
Proof.
  induction n as [|n IH]; intros before a rest args Hlen Hno Harr Ha.
  - destruct before; [|simpl in Hlen; lia]. exists args. auto.
  - destruct before as [|b before]; [exists args; auto|].
    cbn [app].
    destruct (parse_step b (before ++ a :: rest) args)
      as (args' & tl' & Harr' & -> & Htl & _);
      [intros ->; apply Hno; now left | exact Harr |].
    destruct Htl as [->|(next & E & Hnext)].
    + apply IH; auto; [simpl in Hlen; lia | intros Hin; apply Hno; now right].
    + destruct before as [|b' before'].
      * cbn [app] in E. injection E as <- <-. congruence.
      * cbn [app] in E. injection E as <- <-.
        apply IH; auto; [simpl in Hlen; lia|].
        intros Hin. apply Hno. right. now right.
Qed.

(** The value of an option after the loop, read off the place of its
    last occurrence. *)
Lemma parse_option_at before key rest args0 obj :
  has_array args0 -> ~ In "--_" (before ++ option_name key :: rest) ->
  ~ In (option_name key) rest -> key <> "_" -> key <> "__proto__" ->
  parse (before ++ option_name key :: rest) args0 = Returns obj ->
  get key obj = Some (value_after rest).
Proof.
  intros H0 Hno Hlast Hk Hp E.
  destruct (parse_reaches _ before (option_name key) rest args0 (Nat.le_refl _))
    as (args1 & Harr1 & E1);
    [intros Hin; apply Hno, in_or_app; now left | exact H0
     | apply startsWith_option |].
  rewrite E1 in E.
  assert (slice 2 (option_name key) = key) as Hslice by reflexivity.
  destruct (parse_step (option_name key) rest args1)
    as (args2 & tl' & Harr2 & E2 & Htl & _ & Hset);
    [discriminate || (intros [= ->]; now apply Hk) | exact Harr1 |].
  rewrite E2 in E. rewrite Hslice in Hset.
  rewrite <- (Hset (startsWith_option key) Hp).
  apply (parse_keeps _ tl' args2 obj key (Nat.le_refl _)); auto.
  - intros Hin. apply Hno, in_or_app. right. right.
    destruct Htl as [->|(next & -> & _)]; [exact Hin | now right].
  - intros Hin. apply Hlast.
    destruct Htl as [->|(next & -> & _)]; [exact Hin | now right].
Qed.

(** No argument gives [args] an own property named [__proto__]. *)
Lemma get_proto_set k v args :
  get "__proto__" args = Some (VInherited "__proto__") ->
  get "__proto__" (set k v args) = Some (VInherited "__proto__").
Proof.
  intros H. unfold set. destruct (String.eqb k "__proto__") eqn:E; [exact H|].
  unfold get in *. cbn [find fst]. now rewrite E.
Qed.

Lemma parse_proto n : forall rest args obj,
  (List.length rest <= n)%nat -> ~ In "--_" rest -> has_array args ->
  get "__proto__" args = Some (VInherited "__proto__") ->
  parse rest args = Returns obj ->
  get "__proto__" obj = Some (VInherited "__proto__").
Proof.
  induction n as [|n IH]; intros rest args obj Hlen Hno Harr Hp H.
  - destruct rest; [|simpl in Hlen; lia]. simpl in H. now injection H as <-.
  - destruct rest as [|a tl]; [simpl in H; now injection H as <-|].
    cbn [parse] in H. destruct (startsWith a "--") eqn:Ea.
    + assert (Ha : a <> "--_") by (intros ->; apply Hno; now left).
      destruct tl as [|next tl'].
      * simpl in H. injection H as <-. now apply get_proto_set.
      * destruct (String.eqb next "" || startsWith next "--").
        -- refine (IH _ _ obj _ _ _ _ H).
           ++ simpl in *. lia.
           ++ intros Hin. apply Hno. now right.
           ++ now apply set_option_has_array.
           ++ now apply get_proto_set.
        -- refine (IH _ _ obj _ _ _ _ H).
           ++ simpl in *. lia.
           ++ intros Hin. apply Hno. right. now right.
           ++ now apply set_option_has_array.
           ++ now apply get_proto_set.
    + destruct Harr as (items & E). rewrite E in H.
      refine (IH _ _ obj _ _ _ _ H).
      * simpl in *. lia.
      * intros Hin. apply Hno. now right.
      * eexists. apply get_set_same. discriminate.
      * now apply get_proto_set.
Qed.

Lemma parseArgs_returns argv :
  ~ In "--_" (skipn 2 argv) -> exists args, parseArgs argv = Returns args.
Proof.
  intros Hno. unfold parseArgs.
  destruct (parse_returns _ (skipn 2 argv) [("_", VArray [])] (Nat.le_refl _) Hno)
    as (obj & E & _); [exists []; reflexivity|].
  eauto.
Qed.

Lemma get_unnamed argv args key :
  parseArgs argv = Returns args -> ~ In "--_" (skipn 2 argv) ->
  key <> "_" -> ~ In (option_name key) (skipn 2 argv) ->
  get key args = if inherited key then Some (VInherited key) else None.
Proof.
  unfold parseArgs. intros E Hno Hk Hnot.
  rewrite (parse_keeps _ _ _ args key (Nat.le_refl _) Hno) with (2 := Hk) (3 := Hnot) (4 := E);
    [|exists []; reflexivity].
  unfold get. cbn [find fst]. apply String.eqb_neq in Hk.
  rewrite String.eqb_sym in Hk. now rewrite Hk.
Qed.

Lemma not_inherited_proto key : inherited key = false -> key <> "__proto__".
Proof. intros H ->. discriminate H. Qed.

Lemma last_occurrence (x : string) l :
  In x l -> exists before rest, l = before ++ x :: rest /\ ~ In x rest.
Proof.
  induction l as [|a tl IH]; intros Hin; [destruct Hin|].
  destruct (in_dec string_dec x tl) as [Htl|Htl].
  - destruct (IH Htl) as (before & rest & -> & Hrest).
    exists (a :: before), rest. auto.
  - destruct Hin as [->|Hin]; [|contradiction]. exists [], tl. auto.
Qed.

Lemma named_none key tokens :
  ~ In (option_name key) tokens -> named key tokens = None.
Proof.
  induction tokens as [|a tl IH]; intros H; [reflexivity|].
  cbn [named]. rewrite IH by (intros Hin; apply H; now right).
  destruct (String.eqb_spec a (option_name key)) as [->|]; [|reflexivity].
  exfalso. apply H. now left.
Qed.

Lemma named_last key before rest :
  ~ In (option_name key) rest ->
  named key (before ++ option_name key :: rest) = Some (value_after rest).
Proof.
  intros H. induction before as [|b before IH]; cbn [app named].
  - now rewrite (named_none key rest H), String.eqb_refl.
  - now rewrite IH.
Qed.

(** The object [parseArgs] returns holds what the arguments say, under
    every name that [Object.prototype] does not define. *)
Lemma get_named argv args key :
  parseArgs argv = Returns args -> ~ In "--_" (skipn 2 argv) ->
  key <> "_" -> inherited key = false ->
  get key args = named key (skipn 2 argv).
Proof.
  intros E Hno Hk Hp.
  destruct (in_dec string_dec (option_name key) (skipn 2 argv)) as [Hin|Hin].
  - destruct (last_occurrence _ _ Hin) as (before & rest & Hsplit & Hrest).
    unfold parseArgs in E. rewrite Hsplit in E, Hno |- *.
    rewrite (parse_option_at before key rest _ args) with (6 := E); auto;
      [|exists []; reflexivity | now apply not_inherited_proto].
    symmetry. now apply named_last.
  - rewrite (get_unnamed argv args key E Hno Hk Hin), Hp.
    symmetry. now apply named_none.
Qed.

(** X8. [parseArgs] reads every argument that starts with two dashes as
    the name of an option, whatever stands before it.  The option holds
    what follows its last occurrence: the next argument, or [true] when
    there is none, when it is empty or when it starts with two dashes
    itself.  Under a name that no argument gives, [args] has what it
    inherits from [Object.prototype], a truthy value, for the twelve names
    defined there ([constructor], [toString], [__proto__], ...) and is
    undefined for every other name; [--__proto__] sets nothing.  The call
    returns whenever no argument is [--_]. *)
Theorem parseArgs_option argv :
  ~ In "--_" (skipn 2 argv) ->
  exists args,
    parseArgs argv = Returns args
    /\ (forall before key rest,
          skipn 2 argv = before ++ (option_name key) :: rest ->
          ~ In (option_name key) rest -> key <> "_" -> key <> "__proto__" ->
          get key args = Some (value_after rest))
    /\ (forall key, ~ In (option_name key) (skipn 2 argv) -> key <> "_" ->
          (inherited key = false -> get key args = None)
          /\ (inherited key = true ->
              get key args = Some (VInherited key)
              /\ truthy (get key args) = true))
    /\ get "__proto__" args = Some (VInherited "__proto__")
    /\ (forall key,
          inherited key = true <->
          In key [ "constructor"; "__defineGetter__"; "__defineSetter__";
                   "hasOwnProperty"; "__lookupGetter__"; "__lookupSetter__";
                   "isPrototypeOf"; "propertyIsEnumerable"; "toString"; "valueOf";
                   "__proto__"; "toLocaleString" ]).
Proof.
  intros Hno. destruct (parseArgs_returns argv Hno) as (args & E).
  exists args. split; [exact E|]. split; [|split; [|split]].
  - intros before key rest Hsplit Hlast Hk Hp.
    unfold parseArgs in E. rewrite Hsplit in E, Hno.
    apply (parse_option_at before key rest [("_", VArray [])] args); auto.
    exists []. reflexivity.
  - intros key Hnot Hk.
    rewrite (get_unnamed argv args key E Hno Hk Hnot).
    split; intros ->; [reflexivity | split; reflexivity].
  - apply (parse_proto _ (skipn 2 argv) [("_", VArray [])] args (Nat.le_refl _));
      [exact Hno | exists []; reflexivity | reflexivity | exact E].
  - intros key. unfold inherited. rewrite existsb_exists. split.
    + intros (x & Hx & Hk). apply String.eqb_eq in Hk. now subst x.
    + intros Hin. exists key. split; [exact Hin | apply String.eqb_refl].
Qed.

Lemma parseArgs_option_witness :
  exists args,
    parseArgs (node ++ ["--currency"; "eur"; "--all-dates"; "--since"; "100"])
    = Returns args
    /\ get "currency" args = Some (VString "eur")
    /\ get "all-dates" args = Some VTrue
    /\ get "until" args = None
    /\ get "constructor" args = Some (VInherited "constructor").
Proof.
  destruct (parseArgs_option
              (node ++ ["--currency"; "eur"; "--all-dates"; "--since"; "100"]))
    as (args & E & Hset & Hnone & _).
  - vm_compute. intros H.
    repeat match goal with H : _ \/ _ |- _ => destruct H as [H|H] end;
      try discriminate; contradiction.
  - exists args. split; [exact E|]. split; [|split; [|split]].
    + apply (Hset [] "currency" ["eur"; "--all-dates"; "--since"; "100"]);
        try reflexivity; try discriminate.
      vm_compute. intros H.
      repeat match goal with H : _ \/ _ |- _ => destruct H as [H|H] end;
        try discriminate; contradiction.
    + apply (Hset ["--currency"; "eur"] "all-dates" ["--since"; "100"]);
        try reflexivity; try discriminate.
      vm_compute. intros H.
      repeat match goal with H : _ \/ _ |- _ => destruct H as [H|H] end;
        try discriminate; contradiction.
    + apply (Hnone "until"); [|discriminate | reflexivity].
      vm_compute. intros H.
      repeat match goal with H : _ \/ _ |- _ => destruct H as [H|H] end;
        try discriminate; contradiction.
    + apply (Hnone "constructor"); [|discriminate | reflexivity].
      vm_compute. intros H.
      repeat match goal with H : _ \/ _ |- _ => destruct H as [H|H] end;
        try discriminate; contradiction.
Defined.

Section Main.
Variable date_in : string -> option Date.
Variable today : Date.

(** X9. What the resolver does is fixed by what its arguments say of the
    five options.  Without [--all-dates] the statement is given the text
    after [--date], or today, and nothing else: what follows [--since] and
    [--until] is neither used nor checked.  With [--all-dates] it is given
    the texts after [--since] and [--until], each optional, and what
    follows [--date] is neither used nor checked.  When a text it is given
    is not a date the run exits with status 1 and leaves the daily table as
    it was; otherwise it exits with status 0 after one upsert for that
    scope and for the currency after [--currency] in upper case, USD when
    there is none.  The upper case is that of JavaScript on code units
    below 256: the letters of U+00E0 to U+00FE become capitals as a to z
    do, a sharp s becomes SS; the capitals of the micro sign and of y with
    diaeresis lie above U+00FF, no snapshot has a currency with one of
    them, and the run then leaves the table as it was. *)
Theorem resolver_cli argv now snapshots table :
  ~ In "--_" (skipn 2 argv) ->
  match cli_scope date_in today (skipn 2 argv) with
  | None => resolver_main date_in today argv now snapshots table = (1, table)
  | Some sc =>
      exists a table' n,
        scope_of today a = sc
        /\ arg_currency a = text_of (named "currency" (skipn 2 argv))
        /\ currency_of a
           = toUpperCase (or_default (text_of (named "currency" (skipn 2 argv))) "USD")
        /\ upsertDaily now today a snapshots table = Upserted table' n
        /\ resolver_main date_in today argv now snapshots table = (0, table')
        /\ (upper_in_range (or_default (text_of (named "currency" (skipn 2 argv))) "USD")
            = false -> table' = table /\ n = 0%nat)
  end
  /\ toUpperCase "usd" = "USD"
  /\ toUpperCase (String (ascii_of_nat 233) "ur") = String (ascii_of_nat 201) "UR"
  /\ toUpperCase (String (ascii_of_nat 223) "") = "SS"
  /\ toUpperCase (String (ascii_of_nat 247) "") = String (ascii_of_nat 247) ""
  /\ upper_in_range "eur" = true
  /\ upper_in_range (String (ascii_of_nat 255) "") = false
  /\ upper_in_range (String (ascii_of_nat 181) "") = false.
Proof.
  intros Hno. split; [|repeat split; reflexivity].
  destruct (parseArgs_returns argv Hno) as (args & E).
  assert (forall k, k <> "_" -> inherited k = false ->
                    get k args = named k (skipn 2 argv)) as Hget
    by (intros k H1 H2; now apply get_named).
  unfold resolver_main, cli_scope, resolver_args. rewrite E.
  rewrite !Hget by (discriminate || reflexivity).
  set (tokens := skipn 2 argv).
  assert (forall a sc,
            scope_of today a = sc ->
            arg_currency a = text_of (named "currency" tokens) ->
            exists a' table' n,
              scope_of today a' = sc
              /\ arg_currency a' = text_of (named "currency" tokens)
              /\ currency_of a'
                 = toUpperCase (or_default (text_of (named "currency" tokens)) "USD")
              /\ upsertDaily now today a' snapshots table = Upserted table' n
              /\ match upsertDaily now today a snapshots table with
                 | Upserted t _ => (0, t)
                 | AffectsRowTwice => (1, table)
                 end = (0, table')
              /\ (upper_in_range (or_default (text_of (named "currency" tokens)) "USD")
                  = false -> table' = table /\ n = 0%nat)) as Hrun.
  { intros a sc Hsc Hcur.
    destruct (upsertDaily_returns now today a snapshots table) as (t' & n & Eu & Hr).
    exists a, t', n. rewrite Eu, <- Hcur. repeat split; auto; now apply Hr. }
  destruct (truthy (named "all-dates" tokens)); cbn [negb].
  - unfold cast, bound_of.
    destruct (text_of (named "since" tokens)) as [ts|];
      [destruct (date_in ts) as [lo|]|]; cbn [bind option_map];
      try reflexivity;
      (destruct (text_of (named "until" tokens)) as [tu|];
       [destruct (date_in tu) as [hi|]|]; cbn [bind option_map];
       try reflexivity; apply Hrun; reflexivity).
  - unfold cast.
    destruct (text_of (named "date" tokens)) as [t|];
      [destruct (date_in t) as [d|]|]; cbn [bind option_map];
      try reflexivity; apply Hrun; reflexivity.
Qed.

(** X10. An option [--date] given without a value reads as [true]: both
    scripts hand the text "true" to the store, and when the store rejects
    it as a date they exit with status 1 and leave their table as it was,
    rather than fall back on today. *)
Theorem date_without_value argv before rest now snapshots daily_table
        items cards snapshot_table :
  date_in "true" = None ->
  skipn 2 argv = before ++ "--date" :: rest ->
  ~ In "--date" rest -> value_after rest = VTrue ->
  ~ In "--_" (skipn 2 argv) ->
  normalizer_main date_in today argv items cards snapshot_table
  = (1, snapshot_table)
  /\ (~ In "--all-dates" (skipn 2 argv) ->
      resolver_main date_in today argv now snapshots daily_table
      = (1, daily_table)).
Proof.
  intros Htrue Hsplit Hlast Hval Hno.
  destruct (parseArgs_returns argv Hno) as (args & E).
  assert (get "date" args = Some VTrue) as Hdate.
  { rewrite (get_named argv args "date" E Hno) by (discriminate || reflexivity).
    rewrite Hsplit, <- Hval. now apply (named_last "date"). }
  split.
  - unfold normalizer_main. rewrite E. unfold normalizer_date. rewrite Hdate.
    cbn [text_of truthy to_String].
    assert (trim "true" = "true") as -> by reflexivity.
    cbn [String.eqb Ascii.eqb Bool.eqb]. rewrite Htrue.
    now rewrite main_unreliable_rows with (e := InvalidDateSyntax).
  - intros Hall. unfold resolver_main, resolver_args. rewrite E.
    rewrite (get_unnamed argv args "all-dates" E Hno) by (discriminate || exact Hall).
    change (inherited "all-dates") with false. cbv iota.
    rewrite Hdate.
    cbn [truthy negb text_of to_String]. unfold cast. rewrite Htrue. reflexivity.
Qed.

End Main.

Lemma resolver_cli_witness :
  exists a table' n,
    scope_of 101 a = DateRange (Some 100) None
    /\ arg_currency a = Some "eur"
    /\ currency_of a = "EUR"
    /\ upsertDaily 9 101 a [psa10; scry; next_day] stale_table = Upserted table' n
    /\ resolver_main day_in 101
         (node ++ ["--currency"; "eur"; "--all-dates"; "--since"; "100"])
         9 [psa10; scry; next_day] stale_table
       = (0, table')
    /\ (upper_in_range "eur" = false -> table' = stale_table /\ n = 0%nat).
Proof.
  refine (proj1 (resolver_cli day_in 101
                   (node ++ ["--currency"; "eur"; "--all-dates"; "--since"; "100"])
                   9 [psa10; scry; next_day] stale_table _)).
  vm_compute. intros H.
  repeat match goal with H : _ \/ _ |- _ => destruct H as [H|H] end;
    try discriminate; contradiction.
Defined.

Lemma date_without_value_witness :
  normalizer_main day_in 101 (node ++ ["--currency"; "EUR"; "--date"])
                  two_items tidy_cards [old_row]
  = (1, [old_row]).
Proof.
  refine (proj1 (date_without_value day_in 101
                   (node ++ ["--currency"; "EUR"; "--date"])
                   ["--currency"; "EUR"] [] 9 [scry] stale_table
                   two_items tidy_cards [old_row] _ _ _ _ _)).
  - reflexivity.
  - reflexivity.
  - intros [].
  - reflexivity.
  - vm_compute. intros H.
    repeat match goal with H : _ \/ _ |- _ => destruct H as [H|H] end;
      try discriminate; contradiction.
Defined.

End CliFacts.
(** ** Facts about the string functions *)

Module JsStringFacts.
Import JsString.

Lemma every_remove class s : every (fun c => negb (class c)) (remove class s) = true.
Proof.
  induction s as [|c r IH]; simpl; [reflexivity|].
  destruct (class c) eqn:E; simpl; [exact IH | now rewrite E].
Qed.

Lemma every_weaken (p q : ascii -> bool) s :
  (forall c, p c = true -> q c = true) -> every p s = true -> every q s = true.
Proof.
  intros H. induction s as [|c r IH]; simpl; [reflexivity|].
  rewrite !andb_true_iff. intros [Hc Hr]. auto.
Qed.

Lemma remove_none class s :
  every (fun c => negb (class c)) s = true -> remove class s = s.
Proof.
  induction s as [|c r IH]; simpl; [reflexivity|].
  rewrite andb_true_iff, negb_true_iff. intros [-> Hr]. now rewrite IH.
Qed.

Lemma every_trimStart p s : every p s = true -> every p (trimStart s) = true.
Proof.
  induction s as [|c r IH]; simpl; [reflexivity|].
  rewrite andb_true_iff. intros [Hc Hr].
  destruct (is_space c); [now apply IH | simpl; now rewrite Hc, Hr].
Qed.

Lemma every_trimEnd p s : every p s = true -> every p (trimEnd s) = true.
Proof.
  induction s as [|c r IH]; simpl; [reflexivity|].
  rewrite andb_true_iff. intros [Hc Hr]. specialize (IH Hr).
  destruct (trimEnd r) as [|c' r'].
  - destruct (is_space c); simpl; [reflexivity | now rewrite Hc].
  - simpl in *. now rewrite Hc, IH.
Qed.

Lemma every_trim p s : every p s = true -> every p (trim s) = true.
Proof. intros H. now apply every_trimEnd, every_trimStart. Qed.

Lemma trimStart_clean s : starts_clean (trimStart s).
Proof.
  induction s as [|c r IH]; simpl; [exact I|].
  destruct (is_space c) eqn:E; [exact IH | exact E].
Qed.

Lemma trimStart_fixed s : starts_clean s -> trimStart s = s.
Proof. destruct s as [|c r]; simpl; [reflexivity | now intros ->]. Qed.

Lemma trimEnd_clean s : starts_clean s -> starts_clean (trimEnd s).
Proof.
  destruct s as [|c r]; simpl; [auto|]. intros E.
  destruct (trimEnd r); [now rewrite E | exact E].
Qed.

Lemma trimEnd_twice s : trimEnd (trimEnd s) = trimEnd s.
Proof.
  induction s as [|c r IH]; simpl; [reflexivity|].
  destruct (trimEnd r) as [|c' r'] eqn:E.
  - destruct (is_space c) eqn:Ec; simpl; [reflexivity | now rewrite Ec].
  - change (trimEnd (String c (String c' r')) = String c (String c' r')).
    cbn [trimEnd] in IH |- *. destruct (trimEnd r') as [|c'' r'']; rewrite IH; reflexivity.
Qed.

(** [trim] leaves a trimmed text as it is. *)
Lemma trim_twice s : trim (trim s) = trim s.
Proof.
  unfold trim.
  rewrite (trimStart_fixed (trimEnd (trimStart s)))
    by apply trimEnd_clean, trimStart_clean.
  apply trimEnd_twice.
Qed.

Lemma count_append class s t :
  count class (String.append s t) = (count class s + count class t)%nat.
Proof. induction s as [|c r IH]; simpl; [reflexivity|]. rewrite IH. lia. Qed.

Lemma count_none class s : every (fun c => negb (class c)) s = true -> count class s = O.
Proof.
  induction s as [|c r IH]; simpl; [reflexivity|].
  rewrite andb_true_iff, negb_true_iff. intros [-> Hr]. now rewrite IH.
Qed.

(** Joining texts adds the separators between them and nothing else. *)
Lemma count_join class sep l :
  count class (join sep l)
  = (fold_right (fun s n => count class s + n) 0 l
     + pred (List.length l) * count class sep)%nat.
Proof.
  unfold join. induction l as [|s l IH]; [reflexivity|].
  destruct l as [|s' l'].
  - simpl. lia.
  - change (String.concat sep (s :: s' :: l'))
      with (String.append s (String.append sep (String.concat sep (s' :: l')))).
    rewrite !count_append, IH. cbn [fold_right List.length pred]. lia.
Qed.

Lemma every_append p s t :
  every p (String.append s t) = every p s && every p t.
Proof. induction s as [|c r IH]; simpl; [reflexivity|]. now rewrite IH, andb_assoc. Qed.

Lemma every_join p sep l :
  every p sep = true -> Forall (fun s => every p s = true) l ->
  every p (join sep l) = true.
Proof.
  intros Hsep H. unfold join. induction H as [|s l Hs Hl IH]; [reflexivity|].
  destruct l as [|s' l']; [exact Hs|].
  change (String.concat sep (s :: s' :: l'))
    with (String.append s (String.append sep (String.concat sep (s' :: l')))).
  now rewrite !every_append, Hs, Hsep, IH.
Qed.

(** *** Integers as numbers *)

Lemma round53_small z : Z.abs z < 2 ^ 53 -> round53 z = z.
Proof.
  intros H. unfold round53.
  destruct (Z.ltb_spec (Z.abs z) (2 ^ 53)); [reflexivity | lia].
Qed.

(** Rounding keeps the sign. *)
Lemma round53_sign z : Z.sgn (round53 z) = Z.sgn z.
Proof.
  unfold round53. destruct (Z.ltb_spec (Z.abs z) (2 ^ 53)) as [|Hbig]; [reflexivity|].
  set (a := Z.abs z) in *. set (e := Z.log2 a - 52).
  assert (Ha : 0 < a) by lia.
  assert (Hlog : 53 <= Z.log2 a) by (apply Z.log2_le_pow2; lia).
  assert (HK : 0 < 2 ^ e) by (apply Z.pow_pos_nonneg; unfold e; lia).
  assert (HKa : 2 ^ e <= a).
  { apply Z.le_trans with (2 ^ Z.log2 a); [|apply Z.log2_spec; lia].
    apply Z.pow_le_mono_r; unfold e; lia. }
  assert (Hq : 1 <= a / 2 ^ e) by (apply Z.div_le_lower_bound; lia).
  set (q := a / 2 ^ e) in *.
  match goal with
  | |- Z.sgn (_ * (?x * _)) = _ => set (q' := x)
  end.
  assert (Hq' : 0 < q') by (unfold q'; destruct (_ || _); lia).
  assert (0 < q' * 2 ^ e) by (apply Z.mul_pos_pos; assumption).
  rewrite Z.sgn_mul, (Z.sgn_pos (q' * 2 ^ e)) by assumption.
  rewrite Z.sgn_sgn. lia.
Qed.

Lemma round53_positive z : 0 < round53 z <-> 0 < z.
Proof.
  pose proof (round53_sign z) as H.
  destruct (Z.sgn_spec z) as [[? Hz]|[[? Hz]|[? Hz]]];
    destruct (Z.sgn_spec (round53 z)) as [[? Hr]|[[? Hr]|[? Hr]]]; lia.
Qed.

End JsStringFacts.

(** ** Facts about the header value of cronRevalueAll.mjs *)

Module CronFacts.
Import JsString Cron JsStringFacts.

Lemma strip_ansi_drop n s : strip_ansi n s = strip_ansi 0 (drop n s).
Proof.
  revert s. induction n as [|n IH]; intros s; [reflexivity|].
  destruct s as [|c r]; [reflexivity|]. cbn [strip_ansi drop]. apply IH.
Qed.

Lemma strip_ansi_none s : every (fun c => negb (Ascii.eqb c ESC)) s = true -> strip_ansi 0 s = s.
Proof.
  induction s as [|c r IH]; [reflexivity|]. cbn [every].
  rewrite andb_true_iff, negb_true_iff. intros [Hc Hr].
  cbn [strip_ansi]. unfold ansi_at. destruct r as [|c' r'].
  - reflexivity.
  - rewrite Hc. cbn [andb]. now rewrite IH.
Qed.

Lemma visible_not_control c :
  is_visible c = true ->
  Ascii.eqb c ESC = false /\ Ascii.eqb c CR = false /\ Ascii.eqb c LF = false
  /\ (is_space c = true -> c = " "%char).
Proof.
  unfold is_visible, is_space, code. intros H.
  apply andb_true_iff in H. destruct H as [H1 H2].
  apply Nat.leb_le in H1, H2.
  assert (forall k, (k < 32)%nat -> Ascii.eqb c (ascii_of_nat k) = false) as Hlow.
  { intros k Hk. apply Ascii.eqb_neq. intros ->.
    rewrite nat_ascii_embedding in H1 by lia. lia. }
  repeat split; try (apply Hlow; lia).
  intros Hs. rewrite !orb_true_iff, andb_true_iff, !Nat.leb_le, !Nat.eqb_eq in Hs.
  assert (nat_of_ascii c = 32)%nat as E by lia.
  rewrite <- (ascii_nat_embedding c), E. reflexivity.
Qed.

Lemma params_then_final_length params final rest :
  every is_param params = true -> is_final final = true ->
  is_param final = false ->
  params_then_final (String.append params (String final rest))
  = Some (String.length params).
Proof.
  intros Hp Hf Hnp. induction params as [|c r IH]; cbn.
  - rewrite Hnp, Hf. reflexivity.
  - cbn in Hp. apply andb_true_iff in Hp. destruct Hp as [Hc Hr].
    rewrite Hc, (IH Hr). reflexivity.
Qed.

Lemma final_not_param c : is_final c = true -> is_param c = false.
Proof.
  unfold is_final. rewrite orb_true_iff, !Ascii.eqb_eq. intros [->| ->]; reflexivity.
Qed.

Lemma drop_params params final rest :
  drop (String.length params + 1) (String.append params (String final rest)) = rest.
Proof. induction params as [|c r IH]; [reflexivity | exact IH]. Qed.

Lemma strip_ansi_sequence params final rest :
  every is_param params = true -> is_final final = true ->
  strip_ansi 0 (ansi_sequence params final rest) = strip_ansi 0 rest.
Proof.
  intros Hp Hf. unfold ansi_sequence. cbn [strip_ansi]. unfold ansi_at.
  rewrite Ascii.eqb_refl. change (Ascii.eqb "[" "[") with true. cbn [andb].
  rewrite (params_then_final_length params final rest Hp Hf (final_not_param _ Hf)).
  cbn [option_map].
  replace (String.length params + 3 - 1)%nat with (S (String.length params + 1)) by lia.
  cbn [strip_ansi].
  now rewrite (strip_ansi_drop (String.length params + 1)), drop_params.
Qed.

(** X12. The value [sanitizeHeaderValue] returns holds visible ASCII
    characters only, from the space to the tilde, so no control character,
    line break or byte above 126 reaches the request header; it has no
    white space at either end; the function changes nothing in a value it
    has returned; and a colour sequence (escape, bracket, digits and
    semicolons, then m or K) in front of a text is removed whole. *)
Theorem sanitizeHeaderValue_clean :
  (forall input,
      let v := sanitizeHeaderValue input in
      every is_visible v = true /\ trim v = v /\ sanitizeHeaderValue v = v)
  /\ (forall params final rest,
        every is_param params = true -> is_final final = true ->
        sanitizeHeaderValue (ansi_sequence params final rest)
        = sanitizeHeaderValue rest).
Proof.
  split.
  - intros input v.
    assert (every is_visible v = true) as Hv.
    { unfold v, sanitizeHeaderValue. apply every_trim.
      eapply every_weaken; [|apply every_remove].
      intros c. cbv beta. now rewrite negb_involutive. }
    assert (trim v = v) as Ht by (unfold v, sanitizeHeaderValue; apply trim_twice).
    repeat split; [exact Hv | exact Ht |].
    unfold sanitizeHeaderValue at 1.
    rewrite strip_ansi_none.
    2:{ eapply every_weaken; [|exact Hv]. intros c Hc.
        destruct (visible_not_control c Hc) as (-> & _). reflexivity. }
    rewrite (remove_none (fun c => Ascii.eqb c CR || Ascii.eqb c LF) v).
    2:{ eapply every_weaken; [|exact Hv]. intros c Hc.
        destruct (visible_not_control c Hc) as (_ & -> & -> & _). reflexivity. }
    rewrite (remove_none (fun c => negb (is_visible c)) v).
    2:{ eapply every_weaken; [|exact Hv]. intros c Hc. now rewrite Hc. }
    exact Ht.
  - intros params final rest Hp Hf. unfold sanitizeHeaderValue.
    now rewrite strip_ansi_sequence.
Qed.

Lemma sanitizeHeaderValue_clean_witness :
  sanitizeHeaderValue green_token = "secret-token".
Proof.
  destruct sanitizeHeaderValue_clean as [_ H].
  unfold green_token.
  change (String ESC
            (String.append "[32msecret-token"
               (String ESC (String.append "[0m" (String CR (String LF ""))))))
    with (ansi_sequence "32" "m"
            (String.append "secret-token"
               (String ESC (String.append "[0m" (String CR (String LF "")))))).
  rewrite H by reflexivity. reflexivity.
Defined.

End CronFacts.

(** ** Facts about the CSV reader *)

Module CsvFacts.
Import JsString Csv JsStringFacts.

Local Infix "+++" := String.append (at level 60, right associativity).

Lemma append_empty s : s +++ "" = s.
Proof. induction s as [|c r IH]; [reflexivity | cbn; now rewrite IH]. Qed.

Lemma append_append s t u : (s +++ t) +++ u = s +++ (t +++ u).
Proof. induction s as [|c r IH]; [reflexivity | cbn; now rewrite IH]. Qed.

Lemma push_char_append cur ch s : push_char cur ch +++ s = cur +++ String ch s.
Proof. unfold push_char. now rewrite append_append. Qed.

Lemma is_plain_tests c :
  is_plain c = true ->
  Ascii.eqb c QUOTE = false /\ Ascii.eqb c "," = false
  /\ Ascii.eqb c LF = false /\ Ascii.eqb c CR = false.
Proof.
  unfold is_plain. rewrite negb_true_iff, !orb_false_iff. tauto.
Qed.

(** Outside quotation marks, a run of plain characters goes to the cell. *)
Lemma scan_plain s : forall rest cur row rows,
  every is_plain s = true ->
  scan (s +++ rest) false cur row rows = scan rest false (cur +++ s) row rows.
Proof.
  induction s as [|c r IH]; intros rest cur row rows H.
  - now rewrite append_empty.
  - cbn [every] in H. apply andb_true_iff in H. destruct H as [Hc Hr].
    destruct (is_plain_tests c Hc) as (E1 & E2 & E3 & E4).
    cbn [String.append scan]. rewrite E1, E2, E3, E4.
    rewrite (IH rest _ row rows Hr). now rewrite push_char_append.
Qed.

Lemma quote_free_step c r :
  every (fun c => negb (Ascii.eqb c QUOTE)) (String c r) = true ->
  Ascii.eqb c QUOTE = false
  /\ every (fun c => negb (Ascii.eqb c QUOTE)) r = true.
Proof. cbn [every]. rewrite andb_true_iff, negb_true_iff. tauto. Qed.

(** Carriage returns outside quotation marks are dropped. *)
Lemma scan_without_cr t : forall cur row rows,
  every (fun c => negb (Ascii.eqb c QUOTE)) t = true ->
  scan (remove (fun c => Ascii.eqb c CR) t) false cur row rows
  = scan t false cur row rows.
Proof.
  induction t as [|c r IH]; intros cur row rows H; [reflexivity|].
  destruct (quote_free_step c r H) as [Hq Hr].
  cbn [remove]. destruct (Ascii.eqb c CR) eqn:Ecr.
  - cbn [scan]. rewrite Hq, Ecr.
    apply Ascii.eqb_eq in Ecr. subst c.
    change (Ascii.eqb CR ",") with false. change (Ascii.eqb CR LF) with false.
    now apply IH.
  - cbn [scan]. rewrite Hq, Ecr.
    destruct (Ascii.eqb c ","); [now apply IH|].
    destruct (Ascii.eqb c LF); now apply IH.
Qed.

Lemma push_char_filled cur c : String.eqb (push_char cur c) "" = false.
Proof. unfold push_char. destruct cur; reflexivity. Qed.

Lemma row_filled (row : list string) cur :
  Nat.eqb (List.length (row ++ [cur])) 0 = false.
Proof. rewrite length_app. cbn [List.length]. rewrite Nat.add_comm. reflexivity. Qed.

(** One line feed after the text ends the last row, and adds a row of one
    empty cell exactly when the last row has ended already. *)
Lemma scan_final_lf t : forall cur row rows,
  every (fun c => negb (Ascii.eqb c QUOTE)) t = true ->
  scan (t +++ String LF "") false cur row rows
  = if at_line_start (String.eqb cur "" && Nat.eqb (List.length row) 0) t
    then scan t false cur row rows ++ [[""]]
    else scan t false cur row rows.
Proof.
  induction t as [|c r IH]; intros cur row rows H.
  - cbn [String.append scan at_line_start]. change (Ascii.eqb LF QUOTE) with false.
    change (Ascii.eqb LF ",") with false. rewrite Ascii.eqb_refl.
    cbn [String.eqb List.length Nat.eqb negb orb].
    destruct (String.eqb_spec cur "") as [->|Hc]; cbn [negb andb orb]; [|reflexivity].
    destruct row; reflexivity.
  - destruct (quote_free_step c r H) as [Hq Hr].
    cbn [String.append scan at_line_start]. rewrite Hq.
    destruct (Ascii.eqb c ",") eqn:Ecomma.
    { apply Ascii.eqb_eq in Ecomma. subst c.
      change (Ascii.eqb "," CR) with false. change (Ascii.eqb "," LF) with false.
      cbv iota. rewrite (IH "" (row ++ [cur]) rows Hr), row_filled. reflexivity. }
    destruct (Ascii.eqb c LF) eqn:Elf.
    { apply Ascii.eqb_eq in Elf. subst c. change (Ascii.eqb LF CR) with false.
      cbv iota. now rewrite (IH "" [] _ Hr). }
    destruct (Ascii.eqb c CR); [now apply IH|].
    rewrite (IH _ row rows Hr), push_char_filled. reflexivity.
Qed.

Lemma append_lf_filled t : t +++ String LF "" <> "".
Proof. destruct t; discriminate. Qed.

Lemma at_line_start_spec s : forall start,
  at_line_start start s = true <->
  (remove (fun c => Ascii.eqb c CR) s = "" /\ start = true)
  \/ exists t, remove (fun c => Ascii.eqb c CR) s = t +++ String LF "".
Proof.
  induction s as [|c r IH]; intros start; cbn [at_line_start remove].
  - split; [auto|]. intros [[_ H]|(t & H)]; [exact H|].
    symmetry in H. now apply append_lf_filled in H.
  - destruct (Ascii.eqb c CR); [apply IH|]. rewrite IH. split.
    + intros [[E Hc]|(t & E)]; right.
      * apply Ascii.eqb_eq in Hc. subst c. exists "". now rewrite E.
      * exists (String c t). now rewrite E.
    + intros [[E _]|(t & E)]; [discriminate|].
      destruct t as [|c' t']; cbn [String.append] in E; injection E as -> E.
      * left. split; [exact E | apply Ascii.eqb_refl].
      * right. now exists t'.
Qed.

(** X13. On a text without quotation marks [parseCsv] drops every
    carriage return, so a file with CR LF line ends reads as the same file
    with LF line ends.  A line feed at the end of such a text adds one row
    holding one empty cell when the text, its carriage returns apart, is
    empty or ends with a line feed, and changes nothing otherwise; the
    empty text has no rows, and a lone line feed gives one row of one empty
    cell. *)
Theorem parseCsv_line_ends :
  (forall text,
      every (fun c => negb (Ascii.eqb c QUOTE)) text = true ->
      parseCsv (remove (fun c => Ascii.eqb c CR) text) = parseCsv text
      /\ parseCsv (text +++ String LF "")
         = if ends_line text then parseCsv text ++ [[""]] else parseCsv text)
  /\ (forall text,
        ends_line text = true <->
        remove (fun c => Ascii.eqb c CR) text = ""
        \/ exists t, remove (fun c => Ascii.eqb c CR) text = t +++ String LF "")
  /\ parseCsv "" = []
  /\ parseCsv (String LF "") = [[""]]
  /\ parseCsv ("a" +++ String LF "") = [["a"]]
  /\ parseCsv ("a" +++ String LF (String CR (String LF ""))) = [["a"]; [""]].
Proof.
  split; [|split; [|repeat split; reflexivity]].
  - intros text H. split; [now apply scan_without_cr|].
    unfold parseCsv, ends_line. now rewrite (scan_final_lf text "" [] [] H).
  - intros text. unfold ends_line. rewrite at_line_start_spec. tauto.
Qed.

Lemma parseCsv_line_ends_witness :
  parseCsv (remove (fun c => Ascii.eqb c CR)
              ("id,name" +++ String CR (String LF ("7,Mew" +++ String CR (String LF "")))))
  = parseCsv ("id,name" +++ String CR (String LF ("7,Mew" +++ String CR (String LF ""))))
  /\ parseCsv (("id,name" +++ String CR (String LF ("7,Mew" +++ String CR (String LF ""))))
               +++ String LF "")
     = parseCsv ("id,name" +++ String CR (String LF ("7,Mew" +++ String CR (String LF ""))))
       ++ [[""]].
Proof.
  destruct parseCsv_line_ends as [H _].
  destruct (H ("id,name" +++ String CR (String LF ("7,Mew" +++ String CR (String LF "")))))
    as [H1 H2]; [reflexivity|].
  split; [exact H1 | exact H2].
Defined.

(** *** Headers *)

Lemma word_not_space c : is_word c = true -> is_space c = false.
Proof.
  destruct c as [[] [] [] [] [] [] [] []]; vm_compute; intros; congruence.
Qed.

Lemma word_lower c : is_word c = true -> lower_unit c = c.
Proof.
  destruct c as [[] [] [] [] [] [] [] []]; vm_compute; intros; congruence.
Qed.

Lemma capital_lower c :
  lower_unit (if Nat.leb 97 (code c) && Nat.leb (code c) 122
              then ascii_of_nat (code c - 32) else c)
  = lower_unit c.
Proof. destruct c as [[] [] [] [] [] [] [] []]; vm_compute; reflexivity. Qed.

Lemma capital_space c :
  is_space (if Nat.leb 97 (code c) && Nat.leb (code c) 122
            then ascii_of_nat (code c - 32) else c)
  = is_space c.
Proof. destruct c as [[] [] [] [] [] [] [] []]; vm_compute; reflexivity. Qed.

Lemma trimStart_no_space s :
  every (fun c => negb (is_space c)) s = true -> trimStart s = s.
Proof.
  destruct s as [|c r]; [reflexivity|]. cbn.
  rewrite andb_true_iff, negb_true_iff. now intros [-> _].
Qed.

Lemma trimEnd_no_space s :
  every (fun c => negb (is_space c)) s = true -> trimEnd s = s.
Proof.
  induction s as [|c r IH]; [reflexivity|]. cbn [every trimEnd].
  rewrite andb_true_iff, negb_true_iff. intros [Hc Hr]. rewrite (IH Hr), Hc.
  now destruct r.
Qed.

Lemma underscore_no_space s :
  every (fun c => negb (is_space c)) s = true -> spaces_to_underscore false s = s.
Proof.
  induction s as [|c r IH]; [reflexivity|]. cbn [every spaces_to_underscore].
  rewrite andb_true_iff, negb_true_iff. intros [-> Hr]. now rewrite IH.
Qed.

Lemma lower_words s : every is_word s = true -> toLowerCase s = s.
Proof.
  induction s as [|c r IH]; [reflexivity|]. cbn [every toLowerCase].
  rewrite andb_true_iff. intros [Hc Hr]. now rewrite (word_lower c Hc), IH.
Qed.

Lemma lower_capitals s : toLowerCase (ascii_capitals s) = toLowerCase s.
Proof.
  induction s as [|c r IH]; [reflexivity|]. cbn [ascii_capitals toLowerCase].
  now rewrite capital_lower, IH.
Qed.

Lemma trimStart_capitals s : trimStart (ascii_capitals s) = ascii_capitals (trimStart s).
Proof.
  induction s as [|c r IH]; [reflexivity|]. cbn [ascii_capitals trimStart].
  rewrite capital_space. destruct (is_space c); [exact IH | reflexivity].
Qed.

Lemma trimEnd_capitals s : trimEnd (ascii_capitals s) = ascii_capitals (trimEnd s).
Proof.
  induction s as [|c r IH]; [reflexivity|]. cbn [ascii_capitals trimEnd].
  rewrite IH, capital_space.
  destruct (trimEnd r) as [|c' r']; cbn [ascii_capitals]; [destruct (is_space c)|];
    reflexivity.
Qed.

Lemma normalizeHeader_words h : every is_word (normalizeHeader h) = true.
Proof.
  unfold normalizeHeader. eapply every_weaken; [|apply every_remove].
  intros c. cbv beta. now rewrite negb_involutive.
Qed.

(** X14. [normalizeHeader] returns a text of small letters, digits and
    underscores only, and returns that text unchanged when given it again;
    it gives the same text for a header whatever its ASCII letter case and
    whatever white space surrounds it. *)
Theorem normalizeHeader_canonical h :
  every is_word (normalizeHeader h) = true
  /\ normalizeHeader (normalizeHeader h) = normalizeHeader h
  /\ normalizeHeader (ascii_capitals h) = normalizeHeader h
  /\ normalizeHeader (trim h) = normalizeHeader h.
Proof.
  pose proof (normalizeHeader_words h) as Hw.
  assert (every (fun c => negb (is_space c)) (normalizeHeader h) = true) as Hs.
  { eapply every_weaken; [|exact Hw]. intros c Hc.
    now rewrite (word_not_space c Hc). }
  split; [exact Hw|]. split; [|split].
  - unfold normalizeHeader at 1. unfold trim.
    rewrite (trimStart_no_space _ Hs), (trimEnd_no_space _ Hs).
    rewrite (lower_words _ Hw), (underscore_no_space _ Hs).
    apply remove_none. eapply every_weaken; [|exact Hw].
    intros c Hc. now rewrite Hc.
  - unfold normalizeHeader, trim.
    now rewrite trimStart_capitals, trimEnd_capitals, lower_capitals.
  - unfold normalizeHeader. now rewrite trim_twice.
Qed.

Lemma find_index_from k headers : forall i idx,
  k <> "__proto__" ->
  find (fun e : string * nat => String.eqb (fst e) k)
       (index_from i (map normalizeHeader headers) idx)
  = match last_column k i headers with
    | Some j => Some (k, j)
    | None => find (fun e : string * nat => String.eqb (fst e) k) idx
    end.
Proof.
  induction headers as [|h r IH]; intros i idx Hk; [reflexivity|].
  cbn [map index_from last_column]. rewrite IH by exact Hk.
  destruct (last_column k (S i) r) as [j|]; [reflexivity|].
  destruct (String.eqb_spec (normalizeHeader h) k) as [E|E].
  - destruct (String.eqb_spec (normalizeHeader h) "__proto__") as [E'|E'];
      [congruence|].
    cbn [find fst]. rewrite E, String.eqb_refl. reflexivity.
  - destruct (String.eqb (normalizeHeader h) "__proto__"); [reflexivity|].
    cbn [find fst]. apply String.eqb_neq in E. now rewrite E.
Qed.

Lemma idx_get_column headers k :
  k <> "__proto__" -> k <> "constructor" ->
  idx_get (index_of headers) k
  = match last_column k 0 headers with
    | Some j => Column j
    | None => Undefined
    end.
Proof.
  intros H1 H2. unfold idx_get, index_of. rewrite find_index_from by exact H1.
  destruct (last_column k 0 headers); [reflexivity|]. cbn [find].
  apply String.eqb_neq in H1, H2. now rewrite H1, H2.
Qed.

(** X15. [getCell] reads the cell under the first of its names that
    stands for a column, a name standing for the last column whose header
    normalizes to the same text as the name; it returns the empty text when
    no name stands for a column and when the row is too short to have the
    cell.  The names are any but the two that [Object.prototype] defines. *)
Theorem getCell_column header_row r names :
  (forall n, In n names ->
     normalizeHeader n <> "__proto__" /\ normalizeHeader n <> "constructor") ->
  getCell (index_of header_row) r names
  = match first_column names header_row with
    | Some j => nth j r ""
    | None => ""
    end.
Proof.
  induction names as [|n rest IH]; intros H; [reflexivity|].
  cbn [getCell first_column].
  destruct (H n (or_introl eq_refl)) as [H1 H2].
  rewrite (idx_get_column header_row _ H1 H2).
  destruct (last_column (normalizeHeader n) 0 header_row); [reflexivity|].
  apply IH. intros m Hm. apply H. now right.
Qed.

Lemma getCell_column_witness :
  getCell (index_of sample_headers) sample_row ["loose-price"; "loose_price"] = "2.00"
  /\ getCell (index_of sample_headers) ["7"; "Mew"] ["loose-price"] = "".
Proof.
  split.
  - rewrite getCell_column; [reflexivity|].
    intros n [<-|[<-|[]]]; split; vm_compute; discriminate.
  - rewrite getCell_column; [reflexivity|].
    intros n [<-|[]]; split; vm_compute; discriminate.
Defined.

End CsvFacts.

(** ** Facts about the feed writer *)

Module FeedFacts.
Import JsString Csv Feed JsStringFacts CsvFacts.

Local Infix "+++" := String.append (at level 60, right associativity).

Lemma every_replace_keep (p class : ascii -> bool) by_ s :
  p by_ = true -> every p s = true -> every p (replace_each class by_ s) = true.
Proof.
  intros Hb. induction s as [|c r IH]; [reflexivity|]. cbn [every replace_each].
  rewrite !andb_true_iff. intros [Hc Hr]. split; [|now apply IH].
  now destruct (class c).
Qed.

Lemma every_replace_gone (class : ascii -> bool) by_ s :
  class by_ = false ->
  every (fun c => negb (class c)) (replace_each class by_ s) = true.
Proof.
  intros Hb. induction s as [|c r IH]; [reflexivity|]. cbn [every replace_each].
  rewrite IH, andb_true_r. destruct (class c) eqn:E; [now rewrite Hb | now rewrite E].
Qed.

Lemma every_remove_keep (p class : ascii -> bool) s :
  every p s = true -> every p (remove class s) = true.
Proof.
  induction s as [|c r IH]; [reflexivity|]. cbn [every remove].
  rewrite andb_true_iff. intros [Hc Hr].
  destruct (class c); [now apply IH | cbn [every]; now rewrite Hc, IH].
Qed.

Lemma every_collapse p b s :
  p " "%char = true -> every p s = true -> every p (collapse_spaces b s) = true.
Proof.
  intros Hsp. revert b. induction s as [|c r IH]; intros b; [reflexivity|].
  cbn [every collapse_spaces]. rewrite andb_true_iff. intros [Hc Hr].
  destruct (is_space c).
  - destruct b; [now apply IH|].
    destruct r as [|c' r']; [cbn; now rewrite Hc|].
    destruct (is_space c'); cbn [every]; rewrite ?Hsp, ?Hc; now apply IH.
  - cbn [every]. rewrite Hc. now apply IH.
Qed.

Lemma every_both (p q : ascii -> bool) s :
  every p s = true -> every q s = true -> every (fun c => p c && q c) s = true.
Proof.
  induction s as [|c r IH]; [reflexivity|]. cbn [every].
  rewrite !andb_true_iff. intros [Hp Hpr] [Hq Hqr]. auto.
Qed.

Lemma sanitizeField_kept value : every is_kept (sanitizeField value) = true.
Proof.
  destruct value as [s|]; [|reflexivity]. unfold sanitizeField.
  apply every_trim, every_collapse; [reflexivity|].
  set (s1 := replace_each (Ascii.eqb CR) " " (replace_crlf s)).
  set (s2 := replace_each (Ascii.eqb LF) " " s1).
  assert (every (fun c => negb (Ascii.eqb CR c)) s1 = true) as H1
    by (apply every_replace_gone; reflexivity).
  assert (every (fun c => negb (Ascii.eqb CR c)) s2 = true) as H2
    by (apply every_replace_keep; [reflexivity | exact H1]).
  assert (every (fun c => negb (Ascii.eqb LF c)) s2 = true) as H3
    by (apply every_replace_gone; reflexivity).
  pose proof (every_remove_keep _ (Ascii.eqb NUL) _ H2) as K1.
  pose proof (every_remove_keep _ (Ascii.eqb NUL) _ H3) as K2.
  pose proof (every_remove (Ascii.eqb NUL) s2) as K3.
  eapply every_weaken; [|exact (every_both _ _ _ K1 (every_both _ _ _ K2 K3))].
  intros c. cbv beta. unfold is_kept.
  rewrite (Ascii.eqb_sym c CR), (Ascii.eqb_sym c LF), (Ascii.eqb_sym c NUL).
  destruct (Ascii.eqb CR c), (Ascii.eqb LF c), (Ascii.eqb NUL c); cbn; congruence.
Qed.

Lemma every_double_quotes p s :
  every p s = true -> every p (double_quotes s) = true.
Proof.
  induction s as [|c r IH]; [reflexivity|]. cbn [every double_quotes].
  rewrite andb_true_iff. intros [Hc Hr].
  destruct (Ascii.eqb_spec c QUOTE) as [->|]; cbn [every]; rewrite ?Hc; now rewrite IH.
Qed.

Lemma every_csv_quote p s :
  p QUOTE = true -> every p s = true -> every p (csv_quote s) = true.
Proof.
  intros Hq Hs. unfold csv_quote. destruct (test _ s); [|exact Hs].
  cbn [every]. rewrite Hq, every_append, (every_double_quotes p s Hs).
  cbn [every]. now rewrite Hq.
Qed.

Lemma escape_kept f value : every is_kept (escapeForFormat f value) = true.
Proof.
  unfold escapeForFormat. pose proof (sanitizeField_kept value) as H.
  destruct f.
  - apply every_replace_keep; [reflexivity | exact H].
  - apply every_csv_quote; [reflexivity | exact H].
Qed.

Lemma line_kept f (cells : list (option string)) :
  every is_kept (join (DELIM f) (map (escapeForFormat f) cells)) = true.
Proof.
  apply every_join; [now destruct f|].
  apply Forall_forall. intros s Hs. apply in_map_iff in Hs.
  destruct Hs as (v & <- & _). apply escape_kept.
Qed.

Lemma lines_kept f objs :
  Forall (fun line => every is_kept line = true)
         (header_line f :: map (joinRow f) objs).
Proof.
  constructor.
  - unfold header_line. rewrite <- (map_map Some (escapeForFormat f)). apply line_kept.
  - apply Forall_forall. intros line Hl. apply in_map_iff in Hl.
    destruct Hl as (obj & <- & _). unfold joinRow.
    rewrite <- (map_map (field obj) (escapeForFormat f)). apply line_kept.
Qed.

Lemma sum_zero (g : string -> nat) l :
  (forall s, In s l -> g s = O) -> fold_right (fun s n => g s + n)%nat O l = O.
Proof.
  induction l as [|s l IH]; intros H; [reflexivity|]. cbn [fold_right].
  rewrite (H s (or_introl eq_refl)), IH; [reflexivity|].
  intros t Ht. apply H. now right.
Qed.

Lemma tsv_line_tabs (cells : list (option string)) :
  count (Ascii.eqb TAB) (join (DELIM Tsv) (map (escapeForFormat Tsv) cells))
  = pred (List.length cells).
Proof.
  rewrite count_join, sum_zero, length_map; [cbn; lia|].
  intros s Hs. apply in_map_iff in Hs. destruct Hs as (v & <- & _).
  apply count_none. unfold escapeForFormat. apply every_replace_gone. reflexivity.
Qed.

Lemma count_breaks f objs (class : ascii -> bool) :
  (forall c, is_kept c = true -> class c = false) ->
  count class (feed_text f objs)
  = (List.length objs * count class (String CR (String LF "")))%nat.
Proof.
  intros H. unfold feed_text. rewrite count_join, sum_zero.
  - cbn [List.length pred]. now rewrite length_map.
  - intros line Hl. apply count_none.
    pose proof (lines_kept f objs) as K. rewrite Forall_forall in K.
    eapply every_weaken; [|exact (K line Hl)].
    intros c Hc. now rewrite (H c Hc).
Qed.

(** X16. Whatever the row objects hold, no line of the feed has a
    carriage return, a line feed or a NUL in it, so the file has exactly as
    many line ends (CR LF) as products and every product is on one line;
    in the TSV format no field has a tab in it, so the header line and
    every product line have exactly 36 tabs, one less than there are
    headers: every line has its 37 columns. *)
Theorem feed_lines f objs :
  Forall (fun line => every is_kept line = true)
         (header_line f :: map (joinRow f) objs)
  /\ count (Ascii.eqb LF) (feed_text f objs) = List.length objs
  /\ count (Ascii.eqb CR) (feed_text f objs) = List.length objs
  /\ Forall (fun line => count (Ascii.eqb TAB) line = 36%nat)
            (header_line Tsv :: map (joinRow Tsv) objs)
  /\ List.length HEADERS = 37%nat.
Proof.
  split; [apply lines_kept|]. split; [|split; [|split; [|reflexivity]]].
  - rewrite count_breaks; [cbn; lia|]. intros c. unfold is_kept.
    rewrite (Ascii.eqb_sym LF c). destruct (Ascii.eqb c LF);
      [rewrite orb_true_r; discriminate | reflexivity].
  - rewrite count_breaks; [cbn; lia|]. intros c. unfold is_kept.
    rewrite (Ascii.eqb_sym CR c). destruct (Ascii.eqb c CR); [discriminate | reflexivity].
  - constructor.
    + unfold header_line. rewrite <- (map_map Some (escapeForFormat Tsv)).
      rewrite tsv_line_tabs. reflexivity.
    + apply Forall_forall. intros line Hl. apply in_map_iff in Hl.
      destruct Hl as (obj & <- & _). unfold joinRow.
      rewrite <- (map_map (field obj) (escapeForFormat Tsv)).
      rewrite tsv_line_tabs. reflexivity.
Qed.

(** *** The CSV format, read back *)

(** Inside quotation marks, a text with its marks doubled and the closing
    mark after it goes to the cell. *)
Lemma scan_quoted s : forall rest cur row rows,
  starts_unquoted rest ->
  scan (double_quotes s +++ String QUOTE rest) true cur row rows
  = scan rest false (cur +++ s) row rows.
Proof.
  induction s as [|c r IH]; intros rest cur row rows Hrest.
  - rewrite append_empty. destruct rest as [|next rest'];
      cbn [double_quotes String.append scan]; rewrite Ascii.eqb_refl; [reflexivity|].
    unfold starts_unquoted in Hrest. now rewrite Hrest.
  - cbn [double_quotes]. destruct (Ascii.eqb_spec c QUOTE) as [->|Hc].
    + cbn [String.append scan]. rewrite Ascii.eqb_refl.
      rewrite (IH rest _ row rows Hrest). now rewrite push_char_append.
    + cbn [String.append scan]. apply Ascii.eqb_neq in Hc. rewrite Hc.
      rewrite (IH rest _ row rows Hrest). now rewrite push_char_append.
Qed.

Lemma plain_without_marks s :
  test (fun c => Ascii.eqb c QUOTE || Ascii.eqb c ",") s = false ->
  every is_kept s = true -> every is_plain s = true.
Proof.
  induction s as [|c r IH]; [reflexivity|]. cbn [test every].
  rewrite orb_false_iff, andb_true_iff. intros [Hc Hr] [Kc Kr].
  rewrite (IH Hr Kr), andb_true_r. unfold is_plain, is_kept in *.
  apply orb_false_iff in Hc. destruct Hc as [-> ->].
  rewrite negb_true_iff, !orb_false_iff in Kc. destruct Kc as [[-> ->] _].
  reflexivity.
Qed.

(** A cell as the writer writes it is read back as it was. *)
Lemma scan_cell s rest cur row rows :
  every is_kept s = true -> starts_unquoted rest ->
  scan (csv_quote s +++ rest) false cur row rows
  = scan rest false (cur +++ s) row rows.
Proof.
  intros Hs Hrest. unfold csv_quote.
  destruct (test _ s) eqn:E.
  - cbn [String.append scan]. rewrite Ascii.eqb_refl.
    rewrite append_append. cbn [String.append].
    now apply scan_quoted.
  - apply scan_plain. now apply plain_without_marks.
Qed.

Lemma csv_line_cons c c' cells :
  csv_line (c :: c' :: cells) = csv_quote c +++ String "," (csv_line (c' :: cells)).
Proof. reflexivity. Qed.

Lemma scan_line cells : forall c rest cur row rows,
  Forall (fun s => every is_kept s = true) (c :: cells) ->
  starts_unquoted rest ->
  scan (csv_line (c :: cells) +++ rest) false cur row rows
  = scan rest false (last ((cur +++ c) :: cells) "")
         (row ++ removelast ((cur +++ c) :: cells)) rows.
Proof.
  induction cells as [|c' cells IH]; intros c rest cur row rows H Hrest.
  - unfold csv_line, join. cbn [map String.concat last removelast].
    rewrite app_nil_r. apply scan_cell; [|exact Hrest].
    now inversion H.
  - rewrite csv_line_cons, append_append. cbn [String.append].
    inversion H as [|? ? Hc Hcells]; subst.
    rewrite scan_cell; [|exact Hc | reflexivity].
    cbn [scan]. change (Ascii.eqb "," QUOTE) with false. rewrite Ascii.eqb_refl.
    rewrite (IH c' rest "" _ rows Hcells Hrest).
    cbn [String.append]. cbn [last removelast].
    rewrite <- app_assoc. reflexivity.
Qed.

Lemma last_removelast (x : string) cells :
  removelast (x :: cells) ++ [last (x :: cells) ""] = x :: cells.
Proof. symmetry. apply app_removelast_last. discriminate. Qed.

Lemma csv_text_cons r r' table :
  csv_text (r :: r' :: table)
  = csv_line r +++ String CR (String LF (csv_text (r' :: table))).
Proof. reflexivity. Qed.

(** A table as the writer writes it is read back as it was, when every
    row has two cells at least and no cell has a line break in it. *)
Lemma scan_table table : forall r acc,
  Forall (fun row => (2 <= List.length row)%nat
                     /\ Forall (fun s => every is_kept s = true) row)
         (r :: table) ->
  scan (csv_text (r :: table)) false "" [] acc = acc ++ r :: table.
Proof.
  induction table as [|r' table IH]; intros r acc H;
    inversion H as [|? ? [Hlen Hr] Htable]; subst.
  - destruct r as [|c cells]; [simpl in Hlen; lia|].
    unfold csv_text, join. cbn [map String.concat].
    rewrite <- (append_empty (csv_line (c :: cells))).
    rewrite (scan_line cells c "" "" [] acc Hr I).
    cbn [String.append app scan].
    assert (negb (Nat.eqb (List.length (removelast (c :: cells))) 0) = true) as ->.
    { destruct cells as [|c' cells]; [simpl in Hlen; lia|]. reflexivity. }
    rewrite orb_true_r. now rewrite last_removelast.
  - destruct r as [|c cells]; [simpl in Hlen; lia|].
    rewrite csv_text_cons.
    rewrite (scan_line cells c _ "" [] acc Hr); [|reflexivity].
    cbn [String.append app scan].
    change (Ascii.eqb CR QUOTE) with false. change (Ascii.eqb CR ",") with false.
    change (Ascii.eqb CR LF) with false. rewrite Ascii.eqb_refl.
    change (Ascii.eqb LF QUOTE) with false. change (Ascii.eqb LF ",") with false.
    rewrite Ascii.eqb_refl.
    rewrite last_removelast, (IH r' _ Htable), <- app_assoc. reflexivity.
Qed.

Lemma feed_text_csv objs : feed_text Csv objs = csv_text (feed_table objs).
Proof.
  unfold feed_text, csv_text, feed_table. cbn [map].
  assert (header_line Csv = csv_line HEADERS) as -> by (vm_compute; reflexivity).
  apply (f_equal (fun l => join (String CR (String LF "")) (csv_line HEADERS :: l))).
  rewrite map_map. apply map_ext. intros obj.
  unfold joinRow, csv_line. now rewrite map_map.
Qed.

(** X17. The feed written in the CSV format is read back by [parseCsv],
    the reader of the price importer, as the table it was written from: the
    row of the 37 headers, then one row per product with the 37 fields as
    [sanitizeField] leaves them, commas and quotation marks in them
    included. *)
Theorem feed_csv_read_back objs :
  parseCsv (feed_text Csv objs) = feed_table objs.
Proof.
  rewrite feed_text_csv. unfold parseCsv, feed_table.
  rewrite scan_table; [reflexivity|].
  constructor.
  - split; [cbn; lia|]. repeat constructor.
  - apply Forall_forall. intros row Hrow. apply in_map_iff in Hrow.
    destruct Hrow as (obj & <- & _). split; [cbn; lia|].
    apply Forall_forall. intros s Hs. apply in_map_iff in Hs.
    destruct Hs as (h & <- & _). apply sanitizeField_kept.
Qed.

(** X18. A product is listed as in stock exactly when the quantity
    offered to Google is positive, which is when its status reads active
    in any letter case and its quantity is positive; the quantity offered
    is then the quantity in stock as a JavaScript number, which is the
    quantity itself below 2^53, and otherwise zero, never negative. *)
Theorem availability_matches_quantity status qty :
  (mapAvailability status qty = "in_stock" <-> 0 < sellOnGoogleQty status qty)
  /\ (mapAvailability status qty = "in_stock"
      \/ mapAvailability status qty = "out_of_stock")
  /\ 0 <= sellOnGoogleQty status qty
  /\ (0 < sellOnGoogleQty status qty <->
      exists q s, qty = Some q /\ 0 < q /\ status = Some s /\ toLowerCase s = "active")
  /\ (forall q, qty = Some q -> 0 < sellOnGoogleQty status qty ->
        sellOnGoogleQty status qty = js_number q
        /\ (q < 2 ^ 53 -> sellOnGoogleQty status qty = q)).
Proof.
  unfold mapAvailability, sellOnGoogleQty.
  destruct (String.eqb_spec
              (toLowerCase match status with Some s => s | None => "" end) "active")
    as [E|E]; cbn [negb].
  - destruct qty as [q|].
    + unfold js_number. pose proof (round53_positive q) as Hpos.
      destruct (Z.ltb_spec 0 (round53 q)) as [Hr|Hr].
      * split; [split; auto|]. split; [now left|]. split; [lia|]. split; [split|].
        -- intros _. destruct status as [s|]; [|discriminate E].
           exists q, s. repeat split; auto. now apply Hpos.
        -- intros _. exact Hr.
        -- intros x [= <-] _. split; [reflexivity|].
           intros Hq. apply round53_small. apply Hpos in Hr. lia.
      * split; [split; [discriminate | lia]|]. split; [now right|].
        split; [lia|]. split; [split|].
        -- lia.
        -- intros (x & s & [= <-] & Hq & _). apply Hpos in Hq. lia.
        -- intros x _ H. lia.
    + change (js_number 0) with 0. change (0 <? 0) with false. cbv iota.
      split; [split; [discriminate | lia]|]. split; [now right|].
      split; [lia|]. split; [split|].
      * lia.
      * intros (x & s & H & _). discriminate.
      * intros x H. discriminate.
  - split; [split; [discriminate | lia]|]. split; [now right|].
    split; [lia|]. split; [split|].
    + lia.
    + intros (x & s & _ & _ & -> & Hs). contradiction.
    + intros x _ H. lia.
Qed.

Lemma availability_matches_quantity_witness :
  mapAvailability (Some "Active") (Some 3) = "in_stock".
Proof.
  apply (proj1 (availability_matches_quantity (Some "Active") (Some 3))).
  vm_compute. reflexivity.
Defined.

End FeedFacts.
(** ** revalueCollection.mjs: properties *)

Module RevalueFacts.
Import JsString JsStringFacts Normalizer Revalue.

(** *** Numbers *)

Lemma sum_small a b : 0 <= a -> 0 <= b -> a + b < 2 ^ 53 -> js_add a b = a + b.
Proof. intros. apply round53_small. lia. Qed.

Lemma product_small c q :
  0 <= c -> 0 <= q -> c * q < 2 ^ 53 -> js_mul c q = c * q.
Proof. intros. apply round53_small. nia. Qed.

Lemma number_product_small c q :
  0 <= c -> 0 <= q -> c * q < 2 ^ 53 -> js_mul (js_number c) q = c * q.
Proof.
  intros Hc Hq Hb. unfold js_number.
  destruct (Z.eq_dec q 0) as [-> | Hne].
  - unfold js_mul. rewrite !Z.mul_0_r. reflexivity.
  - assert (c <= c * q) by nia.
    rewrite (round53_small c) by lia. now apply product_small.
Qed.

Lemma to_int4_ok z z' : to_int4 z = Ok z' -> z' = z.
Proof.
  unfold to_int4.
  destruct ((- 2147483648 <=? z) && (z <=? 2147483647)); congruence.
Qed.

Lemma to_int4_range z :
  z < - 2147483648 \/ 2147483647 < z -> to_int4 z = Err IntegerOutOfRange.
Proof.
  intros H. unfold to_int4.
  destruct (Z.leb_spec (- 2147483648) z), (Z.leb_spec z 2147483647);
    simpl; try reflexivity; lia.
Qed.

Lemma to_int8_ok z z' : to_int8 z = Ok z' -> z' = z.
Proof.
  unfold to_int8.
  destruct ((- 9223372036854775808 <=? z) && (z <=? 9223372036854775807));
    congruence.
Qed.

(** *** Casting the rows of a VALUES list *)

Lemma cast_all_ok {A B} (f : A -> result B) l ys :
  cast_all f l = Ok ys -> Forall2 (fun x y => f x = Ok y) l ys.
Proof.
  revert ys. induction l as [|x l IH]; simpl; intros ys H.
  - injection H as <-. constructor.
  - destruct (f x) as [y|e] eqn:Ex; simpl in H; [|discriminate].
    destruct (cast_all f l) as [r|e] eqn:El; simpl in H; [|discriminate].
    injection H as <-. constructor; auto.
Qed.

Lemma cast_all_err {A B} (f : A -> result B) l x e :
  In x l -> f x = Err e -> exists e', cast_all f l = Err e'.
Proof.
  intros Hin Hx. induction l as [|y l IH]; simpl; [contradiction|].
  destruct Hin as [-> | Hin].
  - rewrite Hx. simpl. eauto.
  - destruct (f y); simpl; [|eauto].
    destruct (IH Hin) as (e' & ->). simpl. eauto.
Qed.

Lemma cast_all_same {A} (f : A -> result A) l ys :
  (forall x y, f x = Ok y -> y = x) -> cast_all f l = Ok ys -> ys = l.
Proof.
  intros Hf H. apply cast_all_ok in H.
  induction H as [|x y l ys Hxy _ IH]; [reflexivity|].
  now rewrite (Hf _ _ Hxy), IH.
Qed.

Lemma cast_update_ok u v : cast_update u = Ok v -> v = u.
Proof.
  unfold cast_update. destruct u as [id [c|]]; simpl.
  - destruct (to_int4 c) as [c'|] eqn:E; simpl; [|discriminate].
    apply to_int4_ok in E. congruence.
  - congruence.
Qed.

Lemma valuation_of_ok d u a r :
  valuation_of d (u, a) = Ok r ->
  r = mkValuation u d (totalQty a) (distinctItems a) (totalCostCents a)
                  (totalValueCents a).
Proof.
  unfold valuation_of. simpl.
  destruct (to_int4 (totalQty a)) as [q|] eqn:Eq; simpl; [|discriminate].
  destruct (to_int4 (distinctItems a)) as [n|] eqn:En; simpl; [|discriminate].
  assert (Hz : forall z, (if z =? 0 then 0 else z) = z)
    by (intros z; destruct (Z.eqb_spec z 0); congruence).
  rewrite !Hz.
  destruct (to_int8 (totalCostCents a)) as [c|] eqn:Ec; simpl; [|discriminate].
  destruct (to_int8 (totalValueCents a)) as [v|] eqn:Ev; simpl; [|discriminate].
  apply to_int4_ok in Eq, En. apply to_int8_ok in Ec, Ev. congruence.
Qed.

(** *** The aggregates of the users *)

Local Abbreviation start u pu :=
  (match per_user_get u pu with Some a => a | None => mkAgg 0 0 0 0 end).

Lemma get_put_same u f pu :
  per_user_get u (per_user_put u f pu) = Some (f (start u pu)).
Proof.
  unfold per_user_get.
  induction pu as [|[u' a] pu IH]; simpl.
  - now rewrite String.eqb_refl.
  - destruct (String.eqb u' u) eqn:E; simpl; rewrite E; [reflexivity | exact IH].
Qed.

Lemma get_put_other u u' f pu :
  u <> u' -> per_user_get u (per_user_put u' f pu) = per_user_get u pu.
Proof.
  intros Hne. unfold per_user_get.
  induction pu as [|[k a] pu IH]; simpl.
  - destruct (String.eqb_spec u' u); [congruence | reflexivity].
  - destruct (String.eqb_spec k u') as [-> | Hk]; simpl.
    + destruct (String.eqb_spec u' u); [congruence | reflexivity].
    + destruct (String.eqb k u); [reflexivity | exact IH].
Qed.

Lemma put_keys k u f pu :
  In k (map fst (per_user_put u f pu)) <-> k = u \/ In k (map fst pu).
Proof.
  induction pu as [|[u' a] pu IH]; simpl.
  - intuition.
  - destruct (String.eqb_spec u' u) as [-> | Hne]; simpl.
    + intuition.
    + rewrite IH. intuition.
Qed.

Lemma put_nodup u f pu :
  NoDup (map fst pu) -> NoDup (map fst (per_user_put u f pu)).
Proof.
  induction pu as [|[u' a] pu IH]; simpl; intros Hnd.
  - constructor; [intros [] | constructor].
  - inversion Hnd as [|? ? Hnot Hrest]; subst.
    destruct (String.eqb_spec u' u) as [-> | Hne]; simpl.
    + now constructor.
    + constructor; [|now apply IH].
      rewrite put_keys. intros [-> | Hin]; [congruence | contradiction].
Qed.

Lemma get_none u pu : ~ In u (map fst pu) -> per_user_get u pu = None.
Proof.
  unfold per_user_get. induction pu as [|[k a] pu IH]; simpl; intros Hnot.
  - reflexivity.
  - destruct (String.eqb_spec k u); [tauto|]. apply IH. tauto.
Qed.

Section Prices.

Context {Price : Type} (cents_of : Price -> option Z).

Local Abbreviation put_item maps :=
  (fun pu i => per_user_put (it_user_id i) (add_item cents_of maps i) pu).

Lemma loop_from (maps : Maps Price) items us pu :
  fold_left
    (fun (st : list (string * option Z) * PerUser) item =>
       (fst st ++ [(it_id item, priceCents cents_of item maps)],
        per_user_put (it_user_id item) (add_item cents_of maps item) (snd st)))
    items (us, pu)
  = (us ++ map (fun i => (it_id i, priceCents cents_of i maps)) items,
     fold_left (put_item maps) items pu).
Proof.
  revert us pu. induction items as [|i items IH]; intros us pu; simpl.
  - now rewrite app_nil_r.
  - rewrite IH. now rewrite <- app_assoc.
Qed.

Lemma loop_eq (maps : Maps Price) items :
  loop cents_of maps items
  = (map (fun i => (it_id i, priceCents cents_of i maps)) items,
     fold_left (put_item maps) items []).
Proof. unfold loop. now rewrite loop_from. Qed.

Lemma aggregate_get (maps : Maps Price) items pu u :
  per_user_get u (fold_left (put_item maps) items pu)
  = match of_user u items with
    | [] => per_user_get u pu
    | own => Some (fold_left (fun a i => add_item cents_of maps i a) own (start u pu))
    end.
Proof.
  revert pu. induction items as [|i items IH]; intros pu; [reflexivity|].
  cbn [fold_left of_user filter]. rewrite IH. fold (of_user u items).
  destruct (String.eqb_spec (it_user_id i) u) as [<- | Hne].
  - rewrite get_put_same. now destruct (of_user (it_user_id i) items).
  - rewrite get_put_other by congruence. reflexivity.
Qed.

Lemma aggregate_keys (maps : Maps Price) items pu k :
  In k (map fst (fold_left (put_item maps) items pu))
  <-> In k (map fst pu) \/ In k (map it_user_id items).
Proof.
  revert pu. induction items as [|i items IH]; intros pu; simpl.
  - tauto.
  - rewrite IH, put_keys. intuition.
Qed.

Lemma aggregate_nodup (maps : Maps Price) items pu :
  NoDup (map fst pu) -> NoDup (map fst (fold_left (put_item maps) items pu)).
Proof.
  revert pu. induction items as [|i items IH]; intros pu Hnd; simpl; [assumption|].
  apply IH. now apply put_nodup.
Qed.

(** *** Exact sums *)

Local Abbreviation in_range maps :=
  (fun i => 0 <= qty_of i
            /\ match it_cost_cents i with Some c => 0 <= c | None => True end
            /\ match priceCents cents_of i maps with Some c => 0 <= c | None => True end).

Lemma cost_nonneg (maps : Maps Price) i : in_range maps i -> 0 <= cost_of i.
Proof.
  intros (Hq & Hc & _). unfold cost_of. destruct (it_cost_cents i); [nia | lia].
Qed.

Lemma value_nonneg (maps : Maps Price) i :
  in_range maps i -> 0 <= value_of cents_of maps i.
Proof.
  intros (Hq & _ & Hv). unfold value_of.
  destruct (priceCents cents_of i maps); [nia | lia].
Qed.

Lemma sum_nonneg (f : Item -> Z) l : Forall (fun i => 0 <= f i) l -> 0 <= sum_of f l.
Proof. induction 1; simpl; lia. Qed.

Lemma sum_filter_le (f : Item -> Z) p l :
  Forall (fun i => 0 <= f i) l -> sum_of f (filter p l) <= sum_of f l.
Proof.
  induction 1 as [|i l Hi _ IH]; simpl; [lia|].
  destruct (p i); simpl; lia.
Qed.

Lemma length_filter_le (p : Item -> bool) l :
  Z.of_nat (List.length (filter p l)) <= Z.of_nat (List.length l).
Proof.
  induction l as [|i l IH]; simpl; [lia|].
  destruct (p i); simpl List.length; lia.
Qed.

Lemma add_item_exact (maps : Maps Price) i a :
  in_range maps i ->
  0 <= totalQty a -> 0 <= distinctItems a ->
  0 <= totalCostCents a -> 0 <= totalValueCents a ->
  totalQty a + qty_of i < 2 ^ 53 ->
  distinctItems a + 1 < 2 ^ 53 ->
  totalCostCents a + cost_of i < 2 ^ 53 ->
  totalValueCents a + value_of cents_of maps i < 2 ^ 53 ->
  add_item cents_of maps i a
  = mkAgg (totalQty a + qty_of i) (distinctItems a + 1)
          (totalCostCents a + cost_of i)
          (totalValueCents a + value_of cents_of maps i).
Proof.
  intros (Hq & Hc & Hv) Ha1 Ha2 Ha3 Ha4 Hb1 Hb2 Hb3 Hb4.
  unfold add_item, cost_of, value_of in *. f_equal.
  - now apply sum_small.
  - apply sum_small; lia.
  - destruct (it_cost_cents i) as [c|]; [|lia].
    assert (0 <= c * qty_of i) by nia.
    rewrite number_product_small by lia. apply sum_small; lia.
  - destruct (priceCents cents_of i maps) as [c|]; [|lia].
    assert (0 <= c * qty_of i) by nia.
    rewrite product_small by lia. apply sum_small; lia.
Qed.

Lemma aggregate_exact (maps : Maps Price) l :
  forall a,
    Forall (in_range maps) l ->
    0 <= totalQty a -> 0 <= distinctItems a ->
    0 <= totalCostCents a -> 0 <= totalValueCents a ->
    totalQty a + sum_of qty_of l < 2 ^ 53 ->
    distinctItems a + Z.of_nat (List.length l) < 2 ^ 53 ->
    totalCostCents a + sum_of cost_of l < 2 ^ 53 ->
    totalValueCents a + sum_of (value_of cents_of maps) l < 2 ^ 53 ->
    fold_left (fun a i => add_item cents_of maps i a) l a
    = mkAgg (totalQty a + sum_of qty_of l)
            (distinctItems a + Z.of_nat (List.length l))
            (totalCostCents a + sum_of cost_of l)
            (totalValueCents a + sum_of (value_of cents_of maps) l).
Proof.
  induction l as [|i l IH]; intros a Hall Ha1 Ha2 Ha3 Ha4 Hb1 Hb2 Hb3 Hb4.
  - simpl. destruct a; simpl. f_equal; lia.
  - inversion Hall as [|? ? Hi Hl]; subst.
    assert (Hq : 0 <= sum_of qty_of l)
      by (apply sum_nonneg; eapply Forall_impl; [|exact Hl]; intros ? H; apply H).
    assert (Hc : 0 <= sum_of cost_of l)
      by (apply sum_nonneg; eapply Forall_impl; [|exact Hl];
          intros ? H; now apply (cost_nonneg maps)).
    assert (Hv : 0 <= sum_of (value_of cents_of maps) l)
      by (apply sum_nonneg; eapply Forall_impl; [|exact Hl];
          intros ? H; now apply value_nonneg).
    pose proof (cost_nonneg maps i Hi) as Hci.
    pose proof (value_nonneg maps i Hi) as Hvi.
    assert (Hqi : 0 <= qty_of i) by apply Hi.
    cbn [sum_of fold_right List.length] in Hb1, Hb2, Hb3, Hb4.
    fold (sum_of qty_of l) in Hb1. fold (sum_of cost_of l) in Hb3.
    fold (sum_of (value_of cents_of maps) l) in Hb4.
    cbn [fold_left]. rewrite add_item_exact by (auto; lia).
    rewrite IH; cbn [totalQty distinctItems totalCostCents totalValueCents];
      try assumption; try lia.
    cbn [sum_of fold_right List.length].
    fold (sum_of qty_of l). fold (sum_of cost_of l).
    fold (sum_of (value_of cents_of maps) l).
    f_equal; lia.
Qed.

(** The aggregate of a user after the loop, within the safe range. *)
Lemma loop_aggregate (maps : Maps Price) items u :
  within_safe_range cents_of maps items ->
  per_user_get u (snd (loop cents_of maps items))
  = match of_user u items with
    | [] => None
    | own => Some (mkAgg (sum_of qty_of own) (Z.of_nat (List.length own))
                         (sum_of cost_of own)
                         (sum_of (value_of cents_of maps) own))
    end.
Proof.
  intros (Hall & Hq & Hn & Hc & Hv).
  rewrite loop_eq. cbn [snd]. rewrite aggregate_get.
  destruct (of_user u items) as [|i own] eqn:E; [reflexivity|].
  rewrite <- E. clear E i own.
  assert (Hown : Forall (in_range maps) (of_user u items))
    by (apply Forall_forall; intros i Hi; apply filter_In in Hi;
        rewrite Forall_forall in Hall; now apply Hall).
  pose proof (sum_filter_le qty_of (fun i => String.eqb (it_user_id i) u) items) as L1.
  pose proof (length_filter_le (fun i => String.eqb (it_user_id i) u) items) as L2.
  pose proof (sum_filter_le cost_of (fun i => String.eqb (it_user_id i) u) items) as L3.
  pose proof (sum_filter_le (value_of cents_of maps)
                            (fun i => String.eqb (it_user_id i) u) items) as L4.
  fold (of_user u items) in L1, L2, L3, L4.
  assert (0 <= sum_of qty_of items -> True) by trivial.
  rewrite aggregate_exact; cbn [per_user_get find totalQty distinctItems
                                 totalCostCents totalValueCents];
    try assumption; try lia.
  - reflexivity.
  - apply Z.le_lt_trans with (sum_of qty_of items); [|assumption].
    apply L1. eapply Forall_impl; [|exact Hall]. intros ? H'; apply H'.
  - apply Z.le_lt_trans with (sum_of cost_of items); [|assumption].
    apply L3. eapply Forall_impl; [|exact Hall]. intros ? H'.
    now apply (cost_nonneg maps).
  - apply Z.le_lt_trans with (sum_of (value_of cents_of maps) items); [|assumption].
    apply L4. eapply Forall_impl; [|exact Hall]. intros ? H'.
    now apply value_nonneg.
Qed.

(** *** The rows of the INSERT *)

Lemma rows_of_user d u pu rows :
  NoDup (map fst pu) ->
  cast_all (valuation_of d) pu = Ok rows ->
  valuations_of u d rows
  = match per_user_get u pu with
    | Some a => [mkValuation u d (totalQty a) (distinctItems a)
                             (totalCostCents a) (totalValueCents a)]
    | None => []
    end.
Proof.
  intros Hnd H. apply cast_all_ok in H. revert Hnd.
  induction H as [|[k a] r pu rows Hr _ IH]; intros Hnd; [reflexivity|].
  apply valuation_of_ok in Hr. subst r.
  inversion Hnd as [|? ? Hnot Hrest]; subst.
  unfold valuations_of, per_user_get in *. cbn [filter find fst snd va_user_id va_as_of_date].
  rewrite Z.eqb_refl, andb_true_r.
  destruct (String.eqb_spec k u) as [-> | Hne].
  - f_equal. rewrite (IH Hrest).
    pose proof (get_none u pu Hnot) as G. unfold per_user_get in G.
    destruct (find _ pu); [discriminate | reflexivity].
  - now apply IH.
Qed.

Lemma rows_other_days d pu rows :
  cast_all (valuation_of d) pu = Ok rows -> other_days d rows = [].
Proof.
  intros H. apply cast_all_ok in H.
  induction H as [|[k a] r pu rows Hr _ IH]; [reflexivity|].
  apply valuation_of_ok in Hr. subst r.
  unfold other_days in *. cbn [filter va_as_of_date].
  now rewrite Z.eqb_refl.
Qed.

Lemma other_days_twice d (table : list Valuation) :
  other_days d (other_days d table) = other_days d table.
Proof.
  unfold other_days. induction table as [|v table IH]; simpl; [reflexivity|].
  destruct (negb (va_as_of_date v =? d)) eqn:E; simpl; [rewrite E|]; congruence.
Qed.

Lemma valuations_of_other_days u d (table : list Valuation) :
  valuations_of u d (other_days d table) = [].
Proof.
  unfold valuations_of, other_days.
  induction table as [|v table IH]; simpl; [reflexivity|].
  destruct (va_as_of_date v =? d) eqn:E; simpl; [assumption|].
  now rewrite E, andb_false_r.
Qed.

(** *** The transaction *)

Lemma loop_users (maps : Maps Price) items :
  items <> [] -> snd (loop cents_of maps items) <> [].
Proof.
  intros Hne. rewrite loop_eq. cbn [snd]. destruct items as [|i items]; [congruence|].
  intros E.
  assert (Hin : In (it_user_id i)
                   (map fst (fold_left (put_item maps) (i :: items) [])))
    by (apply aggregate_keys; right; now left).
  rewrite E in Hin. destruct Hin.
Qed.

(** What a transaction that commits has done. *)
Lemma transaction_ok now d (maps : Maps Price) items s s' :
  items <> [] ->
  transaction cents_of now d maps items s = Ok s' ->
  items_table s'
  = map (apply_update now (map (fun i => (it_id i, priceCents cents_of i maps)) items))
        (items_table s)
  /\ exists rows,
       cast_all (valuation_of d) (snd (loop cents_of maps items)) = Ok rows
       /\ valuations_table s' = other_days d (valuations_table s) ++ rows.
Proof.
  intros Hne H. unfold transaction in H.
  pose proof (loop_users maps items Hne) as Hpu.
  rewrite loop_eq in H, Hpu |- *. cbn [snd] in Hpu |- *.
  set (updates := map (fun i => (it_id i, priceCents cents_of i maps)) items) in *.
  assert (Hup : updates <> [])
    by (unfold updates; destruct items; [congruence | discriminate]).
  destruct (fold_left (put_item maps) items []) as [|e pu]; [congruence|].
  destruct updates as [|v updates']; [congruence|].
  destruct (bind_parameters (2 * List.length (v :: updates'))) as [[]|];
    [|discriminate].
  destruct (cast_all cast_update (v :: updates')) as [values|] eqn:Ev;
    [|discriminate].
  apply cast_all_same in Ev; [|exact cast_update_ok]. subst values.
  destruct (bind_parameters (6 * List.length (e :: pu))) as [[]|]; [|discriminate].
  destruct (cast_all (valuation_of d) (e :: pu)) as [rows|] eqn:Er; [|discriminate].
  unfold bind in H. injection H as <-.
  cbn [items_table valuations_table]. split; [reflexivity|].
  exists rows. split; reflexivity.
Qed.

Lemma find_update (maps : Maps Price) items t :
  NoDup (map it_id items) -> In t items ->
  find (fun v : string * option Z => String.eqb (it_id t) (fst v))
       (map (fun i => (it_id i, priceCents cents_of i maps)) items)
  = Some (it_id t, priceCents cents_of t maps).
Proof.
  induction items as [|i items IH]; intros Hnd Hin; [destruct Hin|].
  inversion Hnd as [|? ? Hnot Hrest]; subst. cbn [map find fst].
  destruct Hin as [-> | Hin].
  - now rewrite String.eqb_refl.
  - destruct (String.eqb_spec (it_id t) (it_id i)) as [E | _]; [|now apply IH].
    exfalso. apply Hnot. rewrite <- E. now apply in_map.
Qed.

(** *** The loaders *)

Lemma first_price_app (k : string) (l1 l2 : list (PriceRow Price)) :
  first_price k (l1 ++ l2)
  = match first_price k l1 with
    | Some p => Some p
    | None => first_price k l2
    end.
Proof.
  unfold first_price. induction l1 as [|r l1 IH]; simpl; [reflexivity|].
  destruct (prices k r) eqn:E; [|exact IH].
  unfold prices in E. destruct (pr_card_id r); [|discriminate].
  destruct (pr_price r); [reflexivity | discriminate].
Qed.

Lemma map_get_set (k id : string) (p : Price) m :
  map_get k (map_set id p m) = if String.eqb id k then Some p else map_get k m.
Proof. unfold map_get, map_set. simpl. now destruct (String.eqb id k). Qed.

Lemma first_price_one (k : string) (r : PriceRow Price) :
  first_price k [r]
  = match pr_card_id r, pr_price r with
    | Some id, Some p => if String.eqb id k then Some p else None
    | _, _ => None
    end.
Proof.
  unfold first_price, prices. simpl.
  destruct (pr_card_id r) as [id|]; [|reflexivity].
  destruct (pr_price r) as [p|] eqn:Ep; [|reflexivity].
  destruct (String.eqb id k); [exact Ep | reflexivity].
Qed.

Lemma load_all_get (k : string) (rows : list (PriceRow Price)) m :
  k <> "" ->
  map_get k (load_rows false rows m)
  = match last_price k rows with
    | Some p => Some p
    | None => map_get k m
    end.
Proof.
  intros Hk. revert m. unfold load_rows, last_price.
  induction rows as [|r rows IH]; intros m; [reflexivity|].
  cbn [fold_left rev]. rewrite IH, first_price_app, first_price_one.
  destruct (first_price k (rev rows)); [reflexivity|].
  destruct (pr_card_id r) as [id|]; [|reflexivity].
  destruct (pr_price r) as [p|]; [|reflexivity].
  destruct (String.eqb_spec id "") as [-> | Hid].
  - destruct (String.eqb_spec "" k); [congruence | reflexivity].
  - cbn [andb]. rewrite map_get_set. now destruct (String.eqb id k).
Qed.

Lemma load_missing_get (k : string) (rows : list (PriceRow Price)) m :
  k <> "" ->
  map_get k (load_rows true rows m)
  = match map_get k m with
    | Some p => Some p
    | None => first_price k rows
    end.
Proof.
  intros Hk. revert m. unfold load_rows.
  induction rows as [|r rows IH]; intros m.
  - simpl. now destruct (map_get k m).
  - cbn [fold_left]. rewrite IH.
    change (r :: rows) with ([r] ++ rows).
    rewrite first_price_app, first_price_one.
    destruct (pr_card_id r) as [id|]; [|reflexivity].
    destruct (pr_price r) as [p|]; [|reflexivity].
    destruct (String.eqb_spec id "") as [-> | Hid].
    + destruct (String.eqb_spec "" k); [congruence | reflexivity].
    + cbn [andb]. unfold map_has.
      destruct (String.eqb_spec id k) as [-> | Hne].
      * destruct (map_get k m) eqn:G; [now rewrite G|].
        now rewrite map_get_set, String.eqb_refl.
      * destruct (map_get id m); [reflexivity|].
        rewrite map_get_set. destruct (String.eqb_spec id k); [congruence|].
        reflexivity.
Qed.

Lemma load_no_empty_key b (rows : list (PriceRow Price)) m :
  map_get "" m = None -> map_get "" (load_rows b rows m) = None.
Proof.
  revert m. unfold load_rows. induction rows as [|r rows IH]; intros m Hm; [exact Hm|].
  cbn [fold_left]. apply IH.
  destruct (pr_card_id r) as [id|]; [|exact Hm].
  destruct (pr_price r) as [p|]; [|exact Hm].
  destruct (String.eqb_spec id "") as [-> | Hid]; [exact Hm|].
  destruct (b && map_has id m); [exact Hm|].
  rewrite map_get_set. destruct (String.eqb_spec id ""); [congruence | exact Hm].
Qed.

(** X19 ([main] of revalueCollection.mjs, the loop and the INSERT).  When a
    run over at least one item commits, and quantities, costs and prices
    are not negative and their sums stay below 2^53, the table of
    valuations holds for the day exactly one row for every user who owns an
    item, with the sum of the quantities, the number of items, the sum of
    cost times quantity and the sum of price in cents times quantity of the
    items of that user; a user without items has no row for the day,
    whatever the table held before. *)
Theorem revalue_totals now asOfDate (maps : Maps Price) items s s' :
  items <> [] ->
  within_safe_range cents_of maps items ->
  main cents_of now asOfDate maps items s = (0, s') ->
  forall u,
    valuations_of u asOfDate (valuations_table s')
    = match of_user u items with
      | [] => []
      | _ => [valuation_row cents_of maps asOfDate u items]
      end.
Proof.
  intros Hne Hsafe Hmain u. unfold main in Hmain.
  destruct items as [|i0 items0] eqn:Ei; [congruence|]. rewrite <- Ei in *.
  destruct (transaction cents_of now asOfDate maps items s) as [s1|] eqn:Et;
    [|discriminate].
  injection Hmain as <-.
  destruct (transaction_ok _ _ _ _ _ _ Hne Et) as (_ & rows & Hrows & Hv).
  rewrite Hv. unfold valuations_of. rewrite filter_app.
  fold (valuations_of u asOfDate (other_days asOfDate (valuations_table s))).
  fold (valuations_of u asOfDate rows).
  rewrite valuations_of_other_days. cbn [app].
  rewrite (rows_of_user asOfDate u (snd (loop cents_of maps items)) rows);
    [|rewrite loop_eq; cbn [snd]; apply aggregate_nodup; constructor | exact Hrows].
  rewrite (loop_aggregate maps items u Hsafe). unfold valuation_row.
  now destruct (of_user u items).
Qed.

(** X20 ([main] of revalueCollection.mjs, the UPDATE).  When the SELECT has
    returned the rows of the table, with distinct identifiers, a run that
    commits leaves every item with the price in cents the maps give for it
    as its last value, NULL when they give none, whatever the value was
    before, and with the instant of the run as its update time; no other
    column changes and no row is added or removed. *)
Theorem revalue_items now asOfDate (maps : Maps Price) items s s' :
  Permutation items (items_table s) ->
  NoDup (map it_id items) ->
  main cents_of now asOfDate maps items s = (0, s') ->
  items_table s' = map (revalued cents_of maps now) (items_table s).
Proof.
  intros Hperm Hnd Hmain. unfold main in Hmain.
  destruct items as [|i0 items0] eqn:Ei.
  - injection Hmain as <-. now rewrite (Permutation_nil Hperm).
  - rewrite <- Ei in *. assert (Hne : items <> []) by (rewrite Ei; discriminate).
    destruct (transaction cents_of now asOfDate maps items s) as [s1|] eqn:Et;
      [|discriminate].
    injection Hmain as <-.
    destruct (transaction_ok _ _ _ _ _ _ Hne Et) as (Hitems & _).
    rewrite Hitems. apply map_ext_in. intros t Ht.
    unfold apply_update. rewrite find_update; [reflexivity | assumption|].
    eapply Permutation_in; [apply Permutation_sym; exact Hperm | exact Ht].
Qed.

(** X21 ([main] of revalueCollection.mjs, the casts and the ROLLBACK).  One
    item whose price in cents is outside the range of a 32-bit integer
    makes the whole run fail: the exit status is 1, no item is updated and
    no valuation is deleted or written, for any user. *)
Theorem revalue_all_or_nothing now asOfDate (maps : Maps Price) items s item c :
  In item items ->
  priceCents cents_of item maps = Some c ->
  c < - 2147483648 \/ 2147483647 < c ->
  main cents_of now asOfDate maps items s = (1, s).
Proof.
  intros Hin Hc Hrange. unfold main.
  destruct items as [|i0 items0] eqn:Ei; [destruct Hin|]. rewrite <- Ei in *.
  assert (Hne : items <> []) by (rewrite Ei; discriminate).
  unfold transaction. rewrite loop_eq.
  assert (Hup : exists e, cast_all cast_update
             (map (fun i => (it_id i, priceCents cents_of i maps)) items) = Err e).
  { apply (cast_all_err cast_update _ (it_id item, Some c) IntegerOutOfRange).
    - rewrite <- Hc. now apply (in_map (fun i => (it_id i, priceCents cents_of i maps))).
    - unfold cast_update. cbn [snd]. now rewrite to_int4_range. }
  destruct Hup as (e & Hup).
  destruct (map (fun i => (it_id i, priceCents cents_of i maps)) items) eqn:Em.
  - rewrite Ei in Em. discriminate.
  - destruct (bind_parameters _) as [[]|]; [|reflexivity].
    cbn [bind]. rewrite Hup. reflexivity.
Qed.

(** X28 ([main] of revalueCollection.mjs, the VALUES list of the UPDATE).
    The UPDATE binds two parameters for every item and a statement takes at
    most 65535, so a collection table of more than 32767 items cannot be
    revalued: every run ends with status 1 and leaves both tables as they
    were. *)
Theorem revalue_parameter_limit now asOfDate (maps : Maps Price) items s :
  32767 < Z.of_nat (List.length items) ->
  main cents_of now asOfDate maps items s = (1, s).
Proof.
  intros Hmany. unfold main.
  destruct items as [|i0 items0] eqn:Ei; [simpl in Hmany; lia|]. rewrite <- Ei in *.
  unfold transaction. rewrite loop_eq.
  destruct (map (fun i => (it_id i, priceCents cents_of i maps)) items) eqn:Em.
  - rewrite Ei in Em. discriminate.
  - rewrite <- Em, length_map. unfold bind_parameters.
    destruct (Z.ltb_spec 65535 (Z.of_nat (2 * List.length items))) as [_|Hle];
      [reflexivity | lia].
Qed.

(** X22 ([main] of revalueCollection.mjs, the DELETE and the INSERT).  A
    run, whatever its outcome, leaves the valuations of every other day as
    they were, in their order. *)
Theorem revalue_keeps_history now asOfDate (maps : Maps Price) items s :
  other_days asOfDate (valuations_table (snd (main cents_of now asOfDate maps items s)))
  = other_days asOfDate (valuations_table s).
Proof.
  unfold main. destruct items as [|i0 items0] eqn:Ei; [reflexivity|].
  rewrite <- Ei. assert (Hne : items <> []) by (rewrite Ei; discriminate).
  destruct (transaction cents_of now asOfDate maps items s) as [s1|] eqn:Et;
    [|reflexivity].
  destruct (transaction_ok _ _ _ _ _ _ Hne Et) as (_ & rows & Hrows & Hv).
  cbn [snd]. rewrite Hv. unfold other_days at 1. rewrite filter_app.
  fold (other_days asOfDate (other_days asOfDate (valuations_table s))).
  fold (other_days asOfDate rows).
  rewrite other_days_twice, (rows_other_days _ _ _ Hrows). apply app_nil_r.
Qed.

(** X23 ([loadPokemonPrices], [loadYgoPrices], [loadMtgPrices]).  For a card
    the map of a loader holds the price of the last row of its query that
    has this card and a price; the Pokemon loader falls back, for a card
    without such a row, on the first row of the eBay query that has the
    card and a median, and on nothing when that query throws.  A row
    without an identifier never enters a map. *)
Theorem loaders_precedence (k : string) (tcgplayer rows : list (PriceRow Price))
        (ebay : option (list (PriceRow Price))) :
  k <> "" ->
  map_get k (loadPokemonPrices tcgplayer ebay)
  = match last_price k tcgplayer, ebay with
    | Some p, _ => Some p
    | None, Some ebayRows => first_price k ebayRows
    | None, None => None
    end
  /\ map_get k (loadYgoPrices rows) = last_price k rows
  /\ map_get k (loadMtgPrices rows) = last_price k rows
  /\ map_get "" (loadPokemonPrices tcgplayer ebay) = None.
Proof.
  intros Hk. unfold loadPokemonPrices, loadYgoPrices, loadMtgPrices.
  repeat split.
  - destruct ebay as [ebayRows|].
    + rewrite load_missing_get, load_all_get by assumption.
      now destruct (last_price k tcgplayer).
    + rewrite load_all_get by assumption. now destruct (last_price k tcgplayer).
  - rewrite load_all_get by assumption. now destruct (last_price k rows).
  - rewrite load_all_get by assumption. now destruct (last_price k rows).
  - destruct ebay as [ebayRows|]; repeat apply load_no_empty_key; reflexivity.
Qed.

End Prices.

Lemma revalue_totals_witness :
  valuations_of "ann" 100
    (valuations_table (snd (main (fun p => Some p) 7 100 sample_maps sample_items
                                 sample_store)))
  = [mkValuation "ann" 100 3 2 2000 2500].
Proof.
  assert (Hsafe : within_safe_range (fun p => Some p) sample_maps sample_items).
  { split; [|vm_compute; repeat split; reflexivity].
    repeat constructor; vm_compute; congruence. }
  exact (revalue_totals (fun p => Some p) 7 100 sample_maps sample_items sample_store _
           ltac:(discriminate) Hsafe eq_refl "ann").
Defined.

Lemma revalue_items_witness :
  items_table (snd (main (fun p => Some p) 7 100 sample_maps sample_items sample_store))
  = map (revalued (fun p => Some p) sample_maps 7) sample_items.
Proof.
  apply (revalue_items (fun p => Some p) 7 100 sample_maps sample_items sample_store
           (snd (main (fun p => Some p) 7 100 sample_maps sample_items sample_store))).
  - apply Permutation_refl.
  - repeat constructor; simpl; intuition discriminate.
  - vm_compute. reflexivity.
Defined.

Lemma revalue_all_or_nothing_witness :
  main (fun p : Z => Some (p * 3000000)) 7 100 sample_maps sample_items sample_store
  = (1, sample_store).
Proof.
  apply (revalue_all_or_nothing (fun p : Z => Some (p * 3000000)) 7 100 sample_maps
           sample_items sample_store
           (mkItem "1" "ann" (Some "Pokemon") (Some "base1-4") (Some 2) (Some 1000) None 0)
           3750000000).
  - simpl. auto.
  - reflexivity.
  - lia.
Defined.

Lemma revalue_parameter_limit_witness :
  main (fun p => Some p) 7 100 sample_maps
       (repeat (mkItem "1" "ann" None None None None None 0) (Z.to_nat 32768))
       sample_store
  = (1, sample_store).
Proof.
  apply (revalue_parameter_limit (fun p => Some p) 7 100 sample_maps
           (repeat (mkItem "1" "ann" None None None None None 0) (Z.to_nat 32768))
           sample_store).
  rewrite repeat_length, Z2Nat.id; lia.
Defined.

Lemma loaders_precedence_witness :
  map_get "a" (loadPokemonPrices sample_tcgplayer (Some sample_ebay)) = Some 120
  /\ map_get "b" (loadPokemonPrices sample_tcgplayer (Some sample_ebay)) = Some 7.
Proof.
  split.
  - exact (proj1 (loaders_precedence "a" sample_tcgplayer [] (Some sample_ebay)
                    ltac:(discriminate))).
  - exact (proj1 (loaders_precedence "b" sample_tcgplayer [] (Some sample_ebay)
                    ltac:(discriminate))).
Defined.

End RevalueFacts.

(** ** 01_import_pricecharting_csv.js: properties *)

Module ImporterFacts.
Import JsString Csv Normalizer OnConflict Cli Importer.

Lemma round_half_even_spec a b :
  0 < b -> 2 * Z.abs (round_half_even a b * b - a) <= b.
Proof.
  intros Hb. unfold round_half_even.
  pose proof (Z.div_mod a b ltac:(lia)) as Hdiv.
  pose proof (Z.mod_pos_bound a b Hb) as Hr.
  destruct (Z.ltb_spec (2 * (a mod b)) b); [nia|].
  destruct (Z.ltb_spec b (2 * (a mod b))); [nia|].
  destruct (Z.even (a / b)); nia.
Qed.

Lemma floor_log2_lt p q j :
  0 < p -> 0 < q -> 0 <= j -> p < q * 2 ^ j -> floor_log2 p q < j.
Proof.
  intros Hp Hq Hj Hlt. unfold floor_log2.
  destruct (Z.leb_spec q p) as [Hle | Hgt].
  - assert (0 < p / q) by (apply Z.div_str_pos; lia).
    apply Z.log2_lt_pow2; [assumption|].
    apply Z.div_lt_upper_bound; lia.
  - assert (2 <= (q + p - 1) / p).
    { apply Z.div_le_lower_bound; lia. }
    pose proof (Z.log2_up_pos ((q + p - 1) / p) ltac:(lia)). lia.
Qed.

Lemma binary64_near x j :
  0 <= j <= 52 ->
  (Qabs x < inject_Z (2 ^ j))%Q ->
  exists y, binary64 x = Finite y
            /\ (Qabs (y - x) <= 1 # Z.to_pos (2 ^ (54 - j)))%Q.
Proof.
  intros Hj Hx. unfold binary64.
  destruct x as [a q]. cbn [Qnum Qden].
  assert (Hp : Z.abs a < Zpos q * 2 ^ j).
  { unfold Qlt, Qabs in Hx. cbn in Hx. lia. }
  destruct (Z.eqb_spec (Z.abs a) 0) as [Hz | Hnz].
  - exists 0%Q. split; [reflexivity|].
    assert (a = 0) by lia. subst a.
    unfold Qle, Qabs, Qminus, Qplus, Qopp. cbn. lia.
  - set (E := floor_log2 (Z.abs a) (Zpos q)).
    assert (HE : E < j) by (apply floor_log2_lt; lia).
    set (e := Z.max (E - 52) (- 1074)).
    assert (He : e <= j - 53) by lia.
    assert (He' : - 1074 <= e) by lia.
    destruct (Z.leb_spec 0 e) as [|_]; [lia|].
    destruct (Z.ltb_spec 971 e) as [|_]; [lia|].
    destruct (Z.eqb_spec e 971) as [|_]; [lia|].
    cbn [orb andb].
    eexists. split; [reflexivity|].
    set (K := 2 ^ (- e)).
    assert (HK : 0 < K) by (apply Z.pow_pos_nonneg; lia).
    pose proof (round_half_even_spec (Z.abs a * K) (Zpos q) ltac:(lia)) as Hm.
    set (m := round_half_even (Z.abs a * K) (Zpos q)) in *.
    assert (HK2 : 2 ^ (54 - j) <= 2 * K).
    { unfold K. replace (2 * 2 ^ (- e)) with (2 ^ (Z.succ (- e)))
        by (rewrite Z.pow_succ_r; lia).
      apply Z.pow_le_mono_r; lia. }
    assert (HJ : 0 < 2 ^ (54 - j)) by (apply Z.pow_pos_nonneg; lia).
    unfold Qle, Qabs, Qminus, Qplus, Qopp. cbn [Qnum Qden].
    rewrite Pos2Z.inj_mul, !Z2Pos.id by lia.
    set (t := m * Z.pos q - Z.abs a * K) in *.
    assert (Ht : Z.abs (Z.sgn a * m * Z.pos q + - a * K) = Z.abs t).
    { unfold t. destruct (Z.abs_spec a) as [[? Ha] | [? Ha]]; rewrite Ha.
      - rewrite (Z.sgn_pos a) by lia. f_equal. ring.
      - rewrite (Z.sgn_neg a) by lia. rewrite <- (Z.abs_opp (_ - _)). f_equal. ring. }
    rewrite Ht. pose proof (Z.abs_nonneg t) as Hu0.
    generalize dependent (Z.abs t). intros u Hu Hu0.
    generalize dependent (2 ^ (54 - j)). intros w Hw1 Hw2.
    assert (u * w <= u * (2 * K)) by (apply Z.mul_le_mono_nonneg_l; lia).
    assert (2 * u * K <= Z.pos q * K) by (apply Z.mul_le_mono_nonneg_r; lia).
    lia.
Qed.

Lemma floor_unique (x : Q) (n : Z) :
  (inject_Z n <= x)%Q -> (x < inject_Z (n + 1))%Q -> Qfloor x = n.
Proof.
  intros Hlo Hhi.
  pose proof (Qfloor_resp_le _ _ Hlo) as H1. rewrite Qfloor_Z in H1.
  pose proof (Qfloor_le x) as H2.
  assert (H3 : (inject_Z (Qfloor x) < inject_Z (n + 1))%Q)
    by (eapply Qle_lt_trans; eassumption).
  rewrite <- Zlt_Qlt in H3. lia.
Qed.

Lemma binary64_near_cases x j (bound err : Q) :
  0 <= j <= 52 ->
  bound = inject_Z (2 ^ j) ->
  err = (1 # Z.to_pos (2 ^ (54 - j)))%Q ->
  (- bound < x)%Q -> (x < bound)%Q ->
  exists y, binary64 x = Finite y /\ (- err <= y - x)%Q /\ (y - x <= err)%Q.
Proof.
  intros Hj -> -> Hlo Hhi.
  destruct (binary64_near x j Hj) as (y & Hy & Hnear).
  - apply Qabs_Qlt_condition. now split.
  - exists y. split; [exact Hy|]. now apply Qabs_Qle_condition.
Qed.

(** X24 ([centsFromMoney]).  A text that, once trimmed and freed of
    dollar signs and commas, writes a decimal amount whose hundredfold is an
    integer below 2^50 in absolute value is read as exactly that number of
    cents: the two roundings of binary64, of the amount and of its product
    with 100, never move the result to another integer. *)
Theorem centsFromMoney_exact v value n :
  money_value v = Some value ->
  (value * 100 == inject_Z n)%Q ->
  Z.abs n < 2 ^ 50 ->
  centsFromMoney v = Some (Int n).
Proof.
  intros Hv Hn Hb. unfold centsFromMoney. rewrite Hv.
  assert (Hlo : (- (1125899906842624 # 1) < inject_Z n)%Q).
  { change (- (1125899906842624 # 1))%Q with (inject_Z (- 2 ^ 50)).
    rewrite <- Zlt_Qlt. lia. }
  assert (Hhi : (inject_Z n < 1125899906842624 # 1)%Q).
  { change (1125899906842624 # 1)%Q with (inject_Z (2 ^ 50)).
    rewrite <- Zlt_Qlt. lia. }
  assert (Hnext : (inject_Z (n + 1) == inject_Z n + 1)%Q)
    by (rewrite inject_Z_plus; reflexivity).
  remember (inject_Z (n + 1)) as N1 eqn:EN1.
  remember (inject_Z n) as N eqn:EN.
  destruct (binary64_near_cases value 44 (17592186044416 # 1) (1 # 1024))
    as (y & Hy & Hy1 & Hy2); try reflexivity; try lia; try lra.
  destruct (binary64_near_cases (y * 100) 51 (2251799813685248 # 1) (1 # 8))
    as (z & Hz & Hz1 & Hz2); try reflexivity; try lia; try lra.
  rewrite Hy. unfold js_times. rewrite Hz. cbn [Math_round].
  do 2 f_equal. apply floor_unique; rewrite <- ?EN, <- ?EN1; lra.
Qed.

Lemma centsFromMoney_exact_witness :
  centsFromMoney " $1,234.56 " = Some (Int 123456).
Proof.
  apply (centsFromMoney_exact " $1,234.56 " (123456 # 100) 123456).
  - vm_compute. reflexivity.
  - vm_compute. reflexivity.
  - vm_compute. reflexivity.
Defined.

(** *** The statement of the loop *)

Lemma raw_key_eqb_spec a b : raw_key_eqb a b = true <-> a = b.
Proof.
  destruct a as [[g1 i1] d1], b as [[g2 i2] d2]. unfold raw_key_eqb.
  rewrite !andb_true_iff, !String.eqb_eq, Z.eqb_eq.
  split; [intros [[-> ->] ->]; reflexivity | intros [= -> -> ->]; auto].
Qed.

Lemma raw_key_eqb_sym a b : raw_key_eqb a b = raw_key_eqb b a.
Proof.
  destruct (raw_key_eqb a b) eqn:E1, (raw_key_eqb b a) eqn:E2; try reflexivity.
  - apply raw_key_eqb_spec in E1. subst.
    now rewrite (proj2 (raw_key_eqb_spec b b) eq_refl) in E2.
  - apply raw_key_eqb_spec in E2. subst.
    now rewrite (proj2 (raw_key_eqb_spec a a) eq_refl) in E1.
Qed.

Lemma lookup_none k table :
  ~ In k (map raw_key table) -> lookup k table = None.
Proof.
  intros H. unfold lookup. destruct (find _ table) as [t|] eqn:E; [|reflexivity].
  apply find_some in E. destruct E as [Hin Hk]. apply raw_key_eqb_spec in Hk.
  exfalso. apply H. rewrite <- Hk. now apply in_map.
Qed.

Lemma lookup_app k t1 t2 :
  lookup k (t1 ++ t2)
  = match lookup k t1 with Some r => Some r | None => lookup k t2 end.
Proof.
  unfold lookup. induction t1 as [|t t1 IH]; cbn [find app]; [reflexivity|].
  now destruct (raw_key_eqb (raw_key t) k).
Qed.

Lemma lookup_do_update_other r table k :
  raw_key_eqb (raw_key r) k = false ->
  lookup k (do_update raw_key raw_key_eqb r table) = lookup k table.
Proof.
  intros Hk. unfold do_update, lookup.
  induction table as [|t table IH]; cbn [map find]; [reflexivity|].
  destruct (raw_key_eqb (raw_key t) (raw_key r)) eqn:Et.
  - apply raw_key_eqb_spec in Et. now rewrite Et, Hk.
  - now destruct (raw_key_eqb (raw_key t) k).
Qed.

Lemma lookup_do_update_same r table :
  conflicts raw_key raw_key_eqb r table = true ->
  lookup (raw_key r) (do_update raw_key raw_key_eqb r table) = Some r.
Proof.
  unfold conflicts, do_update, lookup.
  induction table as [|t table IH]; cbn [existsb map find]; [discriminate|].
  intros Hc. destruct (raw_key_eqb (raw_key t) (raw_key r)) eqn:Et.
  - now rewrite (proj2 (raw_key_eqb_spec _ _) eq_refl).
  - rewrite Et. now apply IH.
Qed.

Lemma lookup_do_update r table k :
  conflicts raw_key raw_key_eqb r table = true ->
  lookup k (do_update raw_key raw_key_eqb r table)
  = if raw_key_eqb (raw_key r) k then Some r else lookup k table.
Proof.
  intros Hc. destruct (raw_key_eqb (raw_key r) k) eqn:Ek.
  - apply raw_key_eqb_spec in Ek. subst k. now apply lookup_do_update_same.
  - now apply lookup_do_update_other.
Qed.

Lemma lookup_upsert_row r table k :
  lookup k (upsert_row r table)
  = if raw_key_eqb (raw_key r) k then Some r else lookup k table.
Proof.
  unfold upsert_row.
  destruct (conflicts raw_key raw_key_eqb r table) eqn:Ec.
  - now apply lookup_do_update.
  - rewrite lookup_app. unfold lookup at 2. cbn [find].
    destruct (raw_key_eqb (raw_key r) k) eqn:Ek.
    + apply raw_key_eqb_spec in Ek. subst k.
      rewrite lookup_none; [reflexivity|].
      now apply (OnConflictFacts.conflicts_false raw_key raw_key_eqb raw_key_eqb_spec).
    + now destruct (lookup k table).
Qed.

Lemma upsert_row_nodup r table :
  NoDup (map raw_key table) -> NoDup (map raw_key (upsert_row r table)).
Proof.
  intros Hnd. unfold upsert_row.
  destruct (conflicts raw_key raw_key_eqb r table) eqn:Ec.
  - now rewrite (OnConflictFacts.do_update_keys raw_key raw_key_eqb raw_key_eqb_spec).
  - rewrite map_app. cbn [map].
    apply (OnConflictFacts.conflicts_false raw_key raw_key_eqb raw_key_eqb_spec) in Ec.
    apply NoDup_app; [assumption | constructor; [intros [] | constructor] |].
    intros k Hk [<- | []]. contradiction.
Qed.

(** The table after a sequence of statements. *)
Lemma lookup_sequence rows table k :
  lookup k (fold_left (fun t r => upsert_row r t) rows table)
  = match last_of k rows with
    | Some r => Some r
    | None => lookup k table
    end.
Proof.
  revert table. unfold last_of.
  induction rows as [|r rows IH]; intros table; [reflexivity|].
  cbn [fold_left rev]. rewrite IH, lookup_app, lookup_upsert_row.
  destruct (lookup k (rev rows)); [reflexivity|].
  change (lookup k [r]) with (if raw_key_eqb (raw_key r) k then Some r else None).
  now destruct (raw_key_eqb (raw_key r) k).
Qed.

Lemma sequence_nodup rows table :
  NoDup (map raw_key table) ->
  NoDup (map raw_key (fold_left (fun t r => upsert_row r t) rows table)).
Proof.
  revert table. induction rows as [|r rows IH]; intros table Hnd; [assumption|].
  apply IH. now apply upsert_row_nodup.
Qed.

Section Run.

Variable date_in : string -> option Date.
Variable fits : Z -> bool.
Variable clock : nat -> Z.

Local Abbreviation kept idx headers game sourceDate :=
  (flat_map (fun r => match params_of idx headers game sourceDate r with
                      | Some p => [p]
                      | None => []
                      end)).

Local Abbreviation sequence := (fold_left (fun t r => upsert_row r t)).

(** The loop while no statement raises. *)
Lemma loop_done idx headers game sourceDate data :
  forall n table rows,
    rows_of date_in fits clock n (kept idx headers game sourceDate data) = Ok rows ->
    loop date_in fits clock idx headers game sourceDate data n table
    = (sequence rows table, (n + List.length rows)%nat, true).
Proof.
  induction data as [|r data IH]; intros n table rows H; cbn [flat_map] in H.
  - injection H as <-. cbn. now rewrite Nat.add_0_r.
  - cbn [loop]. destruct (params_of idx headers game sourceDate r) as [p|].
    + cbn [app rows_of] in H. unfold upsertSql.
      destruct (row_of date_in fits (clock n) p) as [x|]; [|discriminate].
      cbn [bind] in H |- *.
      destruct (rows_of date_in fits clock (S n) _) as [xs|] eqn:E; [|discriminate].
      injection H as <-. rewrite (IH (S n) (upsert_row x table) xs E).
      cbn [fold_left List.length]. f_equal. f_equal. lia.
    + cbn [app] in H. now apply IH.
Qed.

(** The loop up to the first statement that raises. *)
Lemma loop_raises idx headers game sourceDate data :
  forall n table before bad after rows e,
    kept idx headers game sourceDate data = before ++ bad :: after ->
    rows_of date_in fits clock n before = Ok rows ->
    row_of date_in fits (clock (n + List.length before)) bad = Err e ->
    loop date_in fits clock idx headers game sourceDate data n table
    = (sequence rows table, (n + List.length rows)%nat, false).
Proof.
  induction data as [|r data IH]; intros n table before bad after rows e Hk Hb He;
    cbn [flat_map] in Hk.
  - destruct before; discriminate.
  - cbn [loop]. destruct (params_of idx headers game sourceDate r) as [p|].
    + cbn [app] in Hk. destruct before as [|b before].
      * injection Hk as <- Hk. cbn in Hb. injection Hb as <-.
        cbn [List.length] in He. rewrite Nat.add_0_r in He.
        unfold upsertSql. rewrite He. cbn. now rewrite Nat.add_0_r.
      * injection Hk as <- Hk. cbn [rows_of] in Hb. unfold upsertSql.
        destruct (row_of date_in fits (clock n) p) as [x|]; [|discriminate].
        cbn [bind] in Hb |- *.
        destruct (rows_of date_in fits clock (S n) before) as [xs|] eqn:E;
          [|discriminate].
        injection Hb as <-.
        rewrite (IH (S n) (upsert_row x table) before bad after xs e Hk E).
        -- cbn [fold_left List.length]. f_equal. f_equal. lia.
        -- cbn [List.length] in He. now rewrite Nat.add_succ_r in He.
    + cbn [app] in Hk. now apply (IH n table before bad after rows e).
Qed.

(** A loop that ends without an error has sent every statement. *)
Lemma loop_sent idx headers game sourceDate data :
  forall n table table' m,
    loop date_in fits clock idx headers game sourceDate data n table
    = (table', m, true) ->
    exists rows,
      rows_of date_in fits clock n (kept idx headers game sourceDate data) = Ok rows.
Proof.
  induction data as [|r data IH]; intros n table table' m H.
  - exists []. reflexivity.
  - cbn [loop] in H. cbn [flat_map].
    destruct (params_of idx headers game sourceDate r) as [p|].
    + cbn [app rows_of]. unfold upsertSql in H.
      destruct (row_of date_in fits (clock n) p) as [x|]; [|discriminate].
      cbn [bind] in H |- *.
      destruct (IH _ _ _ _ H) as (rows & ->). cbn. eauto.
    + cbn [app]. now apply (IH n table table' m).
Qed.

Lemma set_row_count_new runId inserted runs run :
  ~ In runId (map run_id runs) -> run_id run = runId ->
  set_row_count runId inserted (runs ++ [run])
  = runs ++ [mkImportRun (run_id run) (run_game run) (file_name run)
                         (file_sha256 run) (meta_source_date run)
                         (Some (Z.of_nat inserted))].
Proof.
  intros Hnew Hid. unfold set_row_count. rewrite map_app. cbn [map].
  rewrite Hid, Z.eqb_refl. f_equal.
  rewrite <- (map_id runs) at 2. apply map_ext_in. intros x Hx.
  destruct (Z.eqb_spec (run_id x) runId) as [E|]; [|reflexivity].
  exfalso. apply Hnew. rewrite <- E. now apply in_map.
Qed.

(** X25 ([main] of 01_import_pricecharting_csv.js, the loop).  When an
    import ends with status 0 the store has accepted one statement for
    every row of the file that has an identifier and a name.  The run is
    recorded with the number of these rows as its row count, rows of the
    same product counted each time.  Under every key the table holds the
    row of the last statement with that key, so of two lines for one
    product the later wins, and the row it held before when no statement
    has the key; the unique index is kept. *)
Theorem import_last_wins runId game file sha sourceDate text s s' :
  NoDup (map raw_key (prices_raw s)) ->
  ~ In runId (map run_id (import_runs s)) ->
  import date_in fits clock runId game file sha sourceDate text s = (0, s') ->
  exists rows,
    rows_of date_in fits clock 0 (statements game sourceDate (parseCsv text)) = Ok rows
    /\ import_runs s'
       = import_runs s
         ++ [mkImportRun runId game file sha sourceDate
                         (Some (Z.of_nat (List.length rows)))]
    /\ (forall k,
          lookup k (prices_raw s')
          = match last_of k rows with
            | Some r => Some r
            | None => lookup k (prices_raw s)
            end)
    /\ NoDup (map raw_key (prices_raw s')).
Proof.
  intros Hnd Hnew H. unfold import in H.
  destruct (Nat.ltb (List.length (parseCsv text)) 2); [discriminate|].
  destruct (loop date_in fits clock _ _ game sourceDate (tl (parseCsv text)) 0
                 (prices_raw s)) as [[table inserted] done] eqn:El.
  destruct done; [|discriminate]. injection H as <-.
  destruct (loop_sent _ _ _ _ _ _ _ _ _ El) as (rows & Hrows).
  rewrite (loop_done _ _ _ _ _ _ _ _ Hrows) in El. injection El as <- <-.
  exists rows. unfold statements. split; [exact Hrows|].
  cbn [import_runs prices_raw]. split; [|split].
  - now rewrite set_row_count_new.
  - intros k. apply lookup_sequence.
  - now apply sequence_nodup.
Qed.

(** X26 ([main] of 01_import_pricecharting_csv.js, no transaction).  When
    the store rejects a statement, for a date it cannot read or a price
    outside the range of the column, the import ends with status 1 and
    nothing is rolled back: the rows of the statements before it stay in
    the table, later lines are not read, and the run stays recorded without
    a row count. *)
Theorem import_stops_at_rejected runId game file sha sourceDate text s
        before bad after rows e :
  (2 <= List.length (parseCsv text))%nat ->
  statements game sourceDate (parseCsv text) = before ++ bad :: after ->
  rows_of date_in fits clock 0 before = Ok rows ->
  row_of date_in fits (clock (List.length before)) bad = Err e ->
  exists table,
    import date_in fits clock runId game file sha sourceDate text s
    = (1, mkStore (import_runs s ++ [mkImportRun runId game file sha sourceDate None])
                  table)
    /\ forall k,
         lookup k table
         = match last_of k rows with
           | Some r => Some r
           | None => lookup k (prices_raw s)
           end.
Proof.
  intros Hlen Hk Hb He. unfold import.
  destruct (Nat.ltb_spec (List.length (parseCsv text)) 2) as [|_]; [lia|].
  unfold statements in Hk.
  rewrite (loop_raises _ _ _ _ _ 0%nat (prices_raw s) before bad after rows e Hk Hb He).
  eexists. split; [reflexivity|]. intros k. apply lookup_sequence.
Qed.

End Run.

Lemma import_last_wins_witness :
  exists rows,
    rows_of day_in int4 sample_clock 0
            (statements "pokemon" (VString "20000") (parseCsv sample_text)) = Ok rows
    /\ List.length rows = 3%nat
    /\ option_map price_cents
                  (lookup ("pokemon", "7", 20000)
                     (prices_raw (snd (import day_in int4 sample_clock 1 "pokemon"
                                              "f.csv" "abc" (VString "20000")
                                              sample_text sample_store))))
       = option_map price_cents (last_of ("pokemon", "7", 20000) rows).
Proof.
  destruct (import_last_wins day_in int4 sample_clock 1 "pokemon" "f.csv" "abc"
              (VString "20000") sample_text sample_store
              (snd (import day_in int4 sample_clock 1 "pokemon" "f.csv" "abc"
                           (VString "20000") sample_text sample_store)))
    as (rows & Hrows & Hruns & Hlook & _).
  - vm_compute. repeat constructor; simpl; intuition discriminate.
  - simpl. tauto.
  - vm_compute. reflexivity.
  - exists rows. split; [exact Hrows|]. split.
    + vm_compute in Hrows. injection Hrows as <-. reflexivity.
    + rewrite Hlook. vm_compute in Hrows. injection Hrows as <-. reflexivity.
Defined.

Lemma import_stops_at_rejected_witness :
  exists table,
    import day_in int4 sample_clock 1 "pokemon" "f.csv" "abc" (VString "20000")
           sample_rejected_text sample_store
    = (1, mkStore [mkImportRun 1 "pokemon" "f.csv" "abc" (VString "20000") None] table)
    /\ option_map product_name (lookup ("pokemon", "7", 20000) table) = Some "Mew"
    /\ lookup ("pokemon", "9", 20000) table = None.
Proof.
  destruct (import_stops_at_rejected day_in int4 sample_clock 1 "pokemon" "f.csv" "abc"
              (VString "20000") sample_rejected_text sample_store
              (firstn 1 (statements "pokemon" (VString "20000")
                                    (parseCsv sample_rejected_text)))
              (nth 1 (statements "pokemon" (VString "20000")
                                 (parseCsv sample_rejected_text))
                   (mkParams "" "" "" None [] None VTrue []))
              (skipn 2 (statements "pokemon" (VString "20000")
                                   (parseCsv sample_rejected_text)))
              (match rows_of day_in int4 sample_clock 0
                       (firstn 1 (statements "pokemon" (VString "20000")
                                             (parseCsv sample_rejected_text))) with
               | Ok rows => rows
               | Err _ => []
               end)
              InvalidDateSyntax)
    as (table & Himport & Hlook).
  - vm_compute. lia.
  - vm_compute. reflexivity.
  - vm_compute. reflexivity.
  - vm_compute. reflexivity.
  - exists table. split; [exact Himport|]. rewrite !Hlook. split; reflexivity.
Defined.

End ImporterFacts.
(** ** exportGoogleMerchantFeed.mjs: the prices are exact *)

Module FeedPriceFacts.
Import JsString Importer FeedPrice.

Lemma round_half_even_whole a : round_half_even a 1 = a.
Proof.
  unfold round_half_even. rewrite Z.div_1_r, Z.mod_1_r. reflexivity.
Qed.

Lemma binary64_zero x : (x == 0)%Q -> binary64 x = Finite 0.
Proof.
  intros H. unfold binary64.
  assert (Hn : Qnum x = 0) by (unfold Qeq in H; simpl in H; lia).
  now rewrite Hn.
Qed.

(** An integer below 2^52 is a number. *)
Lemma Number_of_exact z :
  Z.abs z < 2 ^ 52 -> exists y, Number_of z = Finite y /\ (y == inject_Z z)%Q.
Proof.
  intros Hz. unfold Number_of, binary64. cbn [inject_Z Qnum Qden].
  destruct (Z.eqb_spec (Z.abs z) 0) as [H0 | Hnz].
  - exists 0%Q. split; [reflexivity|]. assert (z = 0) by lia. now subst z.
  - pose proof (ImporterFacts.floor_log2_lt (Z.abs z) 1 52
                  ltac:(lia) ltac:(lia) ltac:(lia) ltac:(lia)) as HE.
    set (E := floor_log2 (Z.abs z) 1) in *.
    set (e := Z.max (E - 52) (- 1074)).
    assert (He : e < 0) by lia. assert (He' : - 1074 <= e) by lia.
    destruct (Z.leb_spec 0 e) as [|_]; [lia|].
    destruct (Z.ltb_spec 971 e) as [|_]; [lia|].
    destruct (Z.eqb_spec e 971) as [|_]; [lia|].
    cbn [orb andb]. eexists. split; [reflexivity|].
    rewrite round_half_even_whole.
    assert (HK : 0 < 2 ^ (- e)) by (apply Z.pow_pos_nonneg; lia).
    unfold Qeq. cbn [Qnum Qden inject_Z]. rewrite Z2Pos.id by lia.
    assert (Hs : Z.sgn z * Z.abs z = z) by (destruct z; simpl; lia).
    replace (Z.sgn z * (Z.abs z * 2 ^ (- e)) * 1)
      with ((Z.sgn z * Z.abs z) * 2 ^ (- e)) by ring.
    now rewrite Hs.
Qed.

Lemma positive_numerator (v : Q) : (0 < v)%Q -> (Qnum v <? 0) = false.
Proof.
  unfold Qlt. simpl. intros H. destruct (Z.ltb_spec (Qnum v) 0); [lia | reflexivity].
Qed.

Lemma negative_numerator (v : Q) : (v < 0)%Q -> (Qnum v <? 0) = true.
Proof.
  unfold Qlt. simpl. intros H. destruct (Z.ltb_spec (Qnum v) 0); [reflexivity | lia].
Qed.

Lemma moneyUSDFromCents_exact y z :
  (y == inject_Z z)%Q -> Z.abs z < 2 ^ 50 ->
  moneyUSDFromCents (Finite y) = Some (usd_text z).
Proof.
  intros Hy Hz. unfold moneyUSDFromCents, js_div_100.
  destruct (Z.eq_dec z 0) as [-> | Hnz].
  - rewrite binary64_zero; [reflexivity|]. rewrite Hy. reflexivity.
  - assert (Hlo : (- (1125899906842624 # 1) < inject_Z z)%Q).
    { change (- (1125899906842624 # 1))%Q with (inject_Z (- 2 ^ 50)).
      rewrite <- Zlt_Qlt. lia. }
    assert (Hhi : (inject_Z z < 1125899906842624 # 1)%Q).
    { change (1125899906842624 # 1)%Q with (inject_Z (2 ^ 50)).
      rewrite <- Zlt_Qlt. lia. }
    assert (Habs : (inject_Z (Z.abs z + 1) == inject_Z (Z.abs z) + 1)%Q)
      by (rewrite inject_Z_plus; reflexivity).
    assert (Hsign : (1 <= inject_Z z /\ inject_Z (Z.abs z) == inject_Z z
                     \/ inject_Z z <= - (1) /\ inject_Z (Z.abs z) == - inject_Z z)%Q).
    { destruct (Z_lt_le_dec z 0).
      - right. split.
        + change (- (1))%Q with (inject_Z (- 1)). rewrite <- Zle_Qle. lia.
        + rewrite <- inject_Z_opp. now rewrite Z.abs_neq by lia.
      - left. split.
        + change 1%Q with (inject_Z 1). rewrite <- Zle_Qle. lia.
        + now rewrite Z.abs_eq by lia. }
    assert (Hh : (y / 100 * 100 == y)%Q) by (field; discriminate).
    set (h := (y / 100)%Q) in *.
    destruct (ImporterFacts.binary64_near_cases h 44 (17592186044416 # 1)
                (1 # 1024)) as (v & Hv & Hv1 & Hv2);
      try reflexivity; try lia; try lra.
    rewrite Hv. unfold toFixed.
    change (inject_Z (10 ^ Z.of_nat 2)) with (100 # 1)%Q.
    change (inject_Z (10 ^ 21)) with (1000000000000000000000 # 1)%Q.
    assert (Hn : Qfloor (Qabs v * (100 # 1) + (1 # 2)) = Z.abs z
                 /\ Qle_bool (1000000000000000000000 # 1) (Qabs v) = false
                 /\ (Qnum v <? 0) = (z <? 0)).
    { destruct Hsign as [[H1 H2] | [H1 H2]].
      - assert (Hpos : (0 < v)%Q) by lra.
        pose proof (Qabs_pos v ltac:(lra)) as Ha.
        split; [|split].
        + apply ImporterFacts.floor_unique; lra.
        + destruct (Qle_bool _ (Qabs v)) eqn:Eb; [|reflexivity].
          apply Qle_bool_iff in Eb. lra.
        + rewrite positive_numerator by assumption.
          symmetry. apply Z.ltb_ge. rewrite Zle_Qle. change (inject_Z 0) with 0%Q. lra.
      - assert (Hneg : (v < 0)%Q) by lra.
        pose proof (Qabs_neg v ltac:(lra)) as Ha.
        split; [|split].
        + apply ImporterFacts.floor_unique; lra.
        + destruct (Qle_bool _ (Qabs v)) eqn:Eb; [|reflexivity].
          apply Qle_bool_iff in Eb. lra.
        + rewrite negative_numerator by assumption.
          symmetry. apply Z.ltb_lt. rewrite Zlt_Qlt. change (inject_Z 0) with 0%Q. lra. }
    destruct Hn as (-> & -> & ->). reflexivity.
Qed.

(** X27 ([moneyUSDFromCents] and the prices in [main] of
    exportGoogleMerchantFeed.mjs).  For amounts below 2^50 cents in
    absolute value the feed writes exactly the cents it was given, with two
    decimals and the unit, a missing price as 0.00 USD: the division by 100
    in binary64 and [toFixed] lose nothing.  A sale price is written exactly
    when the compare-at amount is not zero and greater than the price; then
    the compare-at amount is the price of the feed and the price of the
    product its sale price, so the sale price is always the lower one. *)
Theorem feed_prices_exact price_cents compare_at_cents :
  Z.abs (match price_cents with Some z => z | None => 0 end) < 2 ^ 50 ->
  Z.abs (match compare_at_cents with Some c => c | None => 0 end) < 2 ^ 50 ->
  prices_out price_cents compare_at_cents
  = let p := match price_cents with Some z => z | None => 0 end in
    Some (match compare_at_cents with
          | Some c =>
              if negb (c =? 0) && (p <? c) then (usd_text c, usd_text p)
              else (usd_text p, "")
          | None => (usd_text p, "")
          end).
Proof.
  intros Hp Hc. cbv zeta. unfold prices_out.
  set (p := match price_cents with Some z => z | None => 0 end) in *.
  destruct (Number_of_exact p ltac:(lia)) as (yp & Ep & Hyp).
  rewrite Ep, (moneyUSDFromCents_exact yp p Hyp Hp).
  destruct compare_at_cents as [c|]; [|reflexivity]. cbn [option_map].
  destruct (Number_of_exact c ltac:(lia)) as (yc & Ec & Hyc).
  rewrite Ec. cbn [js_truthy js_gt].
  assert (Ht : Qeq_bool yc 0 = (c =? 0)).
  { destruct (Z.eqb_spec c 0) as [-> | Hne].
    - apply Qeq_bool_iff. rewrite Hyc. reflexivity.
    - destruct (Qeq_bool yc 0) eqn:E; [|reflexivity].
      apply Qeq_bool_iff in E. rewrite Hyc in E.
      unfold Qeq in E. cbn [inject_Z Qnum Qden] in E. lia. }
  assert (Hg : Qle_bool yc yp = negb (p <? c)).
  { destruct (Z.ltb_spec p c) as [Hlt | Hge]; cbn [negb].
    - destruct (Qle_bool yc yp) eqn:E; [|reflexivity].
      apply Qle_bool_iff in E. rewrite Hyc, Hyp, <- Zle_Qle in E. lia.
    - apply Qle_bool_iff. rewrite Hyc, Hyp, <- Zle_Qle. exact Hge. }
  rewrite Ht, Hg, negb_involutive.
  destruct (negb (c =? 0) && (p <? c)); [|reflexivity].
  now rewrite (moneyUSDFromCents_exact yc c Hyc Hc).
Qed.

Lemma feed_prices_exact_witness :
  prices_out (Some 1999) (Some 2499) = Some ("24.99 USD", "19.99 USD").
Proof.
  rewrite (feed_prices_exact (Some 1999) (Some 2499)).
  - reflexivity.
  - vm_compute. reflexivity.
  - vm_compute. reflexivity.
Defined.

End FeedPriceFacts.

